(** * SimPEG: the cylindrical 1D mesh, the NSEM receivers and the data

    A shallow embedding of [SimPEG/mesh/Cyl1DMesh.py],
    [SimPEG/EM/NSEM/RxNSEM.py] and [SimPEG/Data.py].

    Numbers.  The Python code computes with IEEE doubles and complex doubles.
    The properties verified here are the algebraic ones the code is written
    to satisfy, so floats are read as real numbers ([R] of the Standard
    Library) and complex floats as pairs of reals; rounding is not modelled.

    Errors.  A Python exception is a value of [exn]; a function that can
    raise returns a [result]. *)

From Stdlib Require Import Reals Lra Lia String DecimalString Arith ZArith Bool
  List.
Import ListNotations.

Open Scope R_scope.

(** ** Exceptions and results *)

Inductive exn : Type :=
| AssertionError (msg : string)
| ValueError (msg : string)
| IndexError (msg : string)
| AttributeError (msg : string)
| UnboundLocalError (name : string)
| NotImplementedError (msg : string).

Inductive result (A : Type) : Type :=
| Ok (a : A)
| Raise (e : exn).

Arguments Ok {A} a.
Arguments Raise {A} e.

Definition bind {A B : Type} (r : result A) (k : A -> result B) : result B :=
  match r with
  | Ok a => k a
  | Raise e => Raise e
  end.

Notation "x <- r ;; k" := (bind r (fun x => k))
  (at level 61, r at next level, right associativity).

(** [assert cond, msg] *)
Definition assert (cond : bool) (msg : string) : result unit :=
  if cond then Ok tt else Raise (AssertionError msg).

(** ** Vectors of reals (1D numpy arrays) *)

Definition np_sum (l : list R) : R := fold_right Rplus 0 l.

(** [a.cumsum()] *)
Fixpoint cumsum_from (acc : R) (l : list R) : list R :=
  match l with
  | [] => []
  | x :: t => (acc + x) :: cumsum_from (acc + x) t
  end.

Definition cumsum (l : list R) : list R := cumsum_from 0 l.

(** Elementwise binary operation on two 1D arrays of the same length. *)
Fixpoint zip_with {A B X : Type} (f : A -> B -> X) (a : list A) (b : list B)
  : list X :=
  match a, b with
  | x :: a', y :: b' => f x y :: zip_with f a' b'
  | _, _ => []
  end.

(** [np.kron(a, b)] of two 1D arrays: entry [i*len(b)+j] is [a[i]*b[j]]. *)
Definition kron1 (a b : list R) : list R :=
  flat_map (fun x => map (Rmult x) b) a.

(** [np.ones(n)] and [np.ones_like(a)] *)
Definition ones (n : nat) : list R := repeat 1 n.
Definition ones_like (a : list R) : list R := ones (length a).

(** [a.repeat(n)] : every element repeated [n] times, in place. *)
Definition np_repeat (a : list R) (n : nat) : list R :=
  flat_map (fun x => repeat x n) a.

(** [max(a)] : raises on an empty array. *)
Definition np_max (a : list R) : result R :=
  match a with
  | [] => Raise (ValueError "max() arg is an empty sequence")
  | x :: t => Ok (fold_left Rmax t x)
  end.

(** Sum of [f 0 .. f (n-1)]. *)
Fixpoint big_sum (f : nat -> R) (n : nat) : R :=
  match n with
  | O => 0
  | S n' => big_sum f n' + f n'
  end.

(** ** numpy arrays as Python objects

    [shape] is the array's shape and [flat] its elements in column-major
    order, which is what [mkvc] returns.  A well-formed array has as many
    elements as its shape says. *)

Record ndarray : Type := mk_ndarray {
  shape : list nat;
  flat : list R
}.

Definition wf_ndarray (a : ndarray) : Prop :=
  fold_right Nat.mul 1%nat (shape a) = length (flat a).

Definition size (a : ndarray) : nat := length (flat a).

Definition array1 (v : list R) : ndarray :=
  {| shape := [length v]; flat := v |}.

(** [mkvc(x)] : the array flattened (column-major) to one dimension. *)
Definition mkvc (a : ndarray) : list R := flat a.

(** The Python values a caller can pass where an array is expected. *)
Inductive pyobj : Type :=
| PyArray (a : ndarray)
| PyList (l : list R)
| PyFloat (x : R).

(** ** Sparse matrices (scipy.sparse)

    A matrix is its dimensions and its entries; only the entries [i j] with
    [i < nrows] and [j < ncols] are meaningful. *)

Record spmatrix : Type := mk_spmatrix {
  nrows : nat;
  ncols : nat;
  entry : nat -> nat -> R
}.

(** [sp.spdiags(data, diags, m, n)] : entry [(i, j)] on diagonal
    [k = j - i] takes [data[k_index][j]]. *)
Definition spdiags (data : list (list R)) (diags : list Z) (m n : nat)
  : spmatrix :=
  {| nrows := m; ncols := n;
     entry := fun i j =>
       np_sum (map (fun dk : list R * Z =>
                   if Z.eqb (Z.of_nat j - Z.of_nat i) (snd dk)
                   then nth j (fst dk) 0 else 0)
                (combine data diags)) |}.

(** [A[i0, j0] = x] on a sparse matrix. *)
Definition setitem (A : spmatrix) (i0 j0 : nat) (x : R) : result spmatrix :=
  if (i0 <? nrows A)%nat && (j0 <? ncols A)%nat
  then Ok {| nrows := nrows A; ncols := ncols A;
             entry := fun i j =>
               if (i =? i0)%nat && (j =? j0)%nat then x else entry A i j |}
  else Raise (IndexError "index out of bounds").

(** [sp.kron(A, B)] *)
Definition kron (A B : spmatrix) : spmatrix :=
  {| nrows := nrows A * nrows B; ncols := ncols A * ncols B;
     entry := fun i j =>
       entry A (i / nrows B) (j / ncols B)
       * entry B (i mod nrows B) (j mod ncols B) |}.

(** [sp.eye(n)] *)
Definition eye (n : nat) : spmatrix :=
  {| nrows := n; ncols := n;
     entry := fun i j => if (i =? j)%nat then 1 else 0 |}.

(** [A.T] *)
Definition transpose (A : spmatrix) : spmatrix :=
  {| nrows := ncols A; ncols := nrows A; entry := fun i j => entry A j i |}.

(** [sp.vstack((A, B))] *)
Definition vstack (A B : spmatrix) : result spmatrix :=
  if (ncols A =? ncols B)%nat
  then Ok {| nrows := nrows A + nrows B; ncols := ncols A;
             entry := fun i j =>
               if (i <? nrows A)%nat then entry A i j
               else entry B (i - nrows A) j |}
  else Raise (ValueError "incompatible dimensions").

(** [A * v] for a 1D array [v]. *)
Definition matvec (A : spmatrix) (v : list R) : result (list R) :=
  if (length v =? ncols A)%nat
  then Ok (map (fun i => big_sum (fun j => entry A i j * nth j v 0) (ncols A))
               (seq 0 (nrows A)))
  else Raise (ValueError "dimension mismatch").

(** [sdiag(d)] : the diagonal matrix with diagonal [d]. *)
Definition sdiag (d : list R) : spmatrix :=
  {| nrows := length d; ncols := length d;
     entry := fun i j => if (i =? j)%nat then nth i d 0 else 0 |}.

(** [sp.diags(d, 0)] *)
Definition diags (d : list R) : spmatrix :=
  {| nrows := length d; ncols := length d;
     entry := fun i j => if (i =? j)%nat then nth i d 0 else 0 |}.

(** [-A] *)
Definition neg (A : spmatrix) : spmatrix :=
  {| nrows := nrows A; ncols := ncols A; entry := fun i j => - entry A i j |}.

(** [A * B] for two sparse matrices. *)
Definition matmul (A B : spmatrix) : result spmatrix :=
  if (ncols A =? nrows B)%nat
  then Ok {| nrows := nrows A; ncols := ncols B;
             entry := fun i j =>
               big_sum (fun k => entry A i k * entry B k j) (ncols A) |}
  else Raise (ValueError "dimension mismatch").

(** ** Cyl1DMesh.py *)

Module Cyl1DMesh.

(** The state of a constructed mesh: [_h = [hr, hz]] and [_z0].  The cached
    attributes ([_vol], [_area], [_aveE2CC], ...) are computed once from
    these and never invalidated, so each is the function of the mesh below. *)
Record t : Type := mk {
  hr : list R;
  hz : list R;
  z0 : R
}.

(** [z0.size] : only arrays (and numpy scalars, arrays of shape [()])
    have the attribute. *)
Definition size_of (o : pyobj) : result nat :=
  match o with
  | PyArray a => Ok (size a)
  | _ => Raise (AttributeError "size")
  end.

(** ["h[%i] ..." % i] *)
Definition h_message (i : nat) (what : string) : string :=
  ("h[" ++ NilEmpty.string_of_uint (Nat.to_uint i) ++ "]" ++ what)%string.

(** The loop of [__init__] over [enumerate(h)], from the index [i] on. *)
Fixpoint check_h (i : nat) (h : list pyobj) : result unit :=
  match h with
  | [] => Ok tt
  | PyArray a :: rest =>
      _ <- assert (length (shape a) =? 1)%nat
                  (h_message i " must be a 1D numpy array.") ;;
      check_h (S i) rest
  | _ :: _ => Raise (AssertionError (h_message i " is not a numpy array."))
  end.

Definition array_of (o : pyobj) : list R :=
  match o with
  | PyArray a => mkvc a
  | PyList l => l
  | PyFloat x => [x]
  end.

(** [Cyl1DMesh.__init__(self, h, z0=None)] *)
Definition init (h : list pyobj) (z0 : option pyobj) : result t :=
  _ <- assert (length h =? 2)%nat "len(h) must equal 2" ;;
  _ <- match z0 with
       | Some z => n <- size_of z ;; assert (n =? 1)%nat "z0.size must equal 1"
       | None => Ok tt
       end ;;
  _ <- check_h 0 h ;;
  let _h := map array_of h in
  let _z0 := match z0 with
             | None => 0
             | Some z => nth 0 (array_of z) 0
             end in
  Ok {| hr := nth 0 _h []; hz := nth 1 _h []; z0 := _z0 |}.

Section Properties.

Variable self : t.

(** *** Counting *)

Definition nCr : nat := length (hr self).
Definition nCz : nat := length (hz self).
Definition nC : nat := nCr * nCz.
Definition nNr : nat := length (hr self).
Definition nNz : nat := length (hz self) + 1.
Definition nN : nat := nNr * nNz.
Definition nFr : nat := nNr * nCz.
Definition nFz : nat := nNz * nCr.
Definition nF : nat := nFr + nFz.
Definition nE : nat := nN.

(** *** Vectors *)

Definition vectorNr : list R := cumsum (hr self).

Definition vectorNz : list R :=
  map (fun z => z + z0 self) (0 :: cumsum (hz self)).

Definition vectorCCr : list R :=
  0 :: zip_with (fun c h => c - h / 2) (tl (cumsum (hr self))) (tl (hr self)).

Definition vectorCCz : list R :=
  zip_with (fun c h => c - h / 2 + z0 self) (cumsum (hz self)) (hz self).

(** *** Geometries *)

(** [pi*(vectorNr**2 - np.r_[0, vectorNr[:-1]]**2)] *)
Definition annulus : list R :=
  zip_with (fun r r' => PI * (r ^ 2 - r' ^ 2))
           vectorNr (0 :: removelast vectorNr).

Definition area : list R :=
  let areaR := kron1 (hz self) (map (fun r => 2 * PI * r) vectorNr) in
  let areaZ := kron1 (ones_like vectorNz) annulus in
  areaR ++ areaZ.

Definition vol : list R :=
  let az := annulus in
  kron1 (hz self) az.

(** *** Operators *)

Definition half_ones (rows n : nat) : list (list R) :=
  repeat (map (Rmult (1 / 2)) (ones n)) rows.

Definition aveE2CC : result spmatrix :=
  let az := spdiags (half_ones 2 nNz) [(-1)%Z; 0%Z] nNz nCz in
  let ar := spdiags (half_ones 2 nCr) [0%Z; 1%Z] nCr nCr in
  ar <- setitem ar 0 0 1 ;;
  Ok (transpose (kron az ar)).

Definition aveF2CC : result spmatrix :=
  let az := spdiags (half_ones 2 nNz) [(-1)%Z; 0%Z] nNz nCz in
  let ar := spdiags (half_ones 2 nCr) [0%Z; 1%Z] nCr nCr in
  ar <- setitem ar 0 0 1 ;;
  let Afr := kron (eye nCz) ar in
  let Afz := kron az (eye nCr) in
  A <- vstack Afr Afz ;;
  Ok (transpose A).

(** *** Methods *)

(** The values [materialProp] can take: [None], a Python float, an array. *)
Inductive material : Type :=
| MatNone
| MatFloat (c : R)
| MatArray (a : ndarray).

Definition getMass (materialProp : material) (loc : string)
  : result spmatrix :=
  let materialProp :=
    match materialProp with
    | MatNone => ones nC
    | MatFloat c => map (fun x => x * c) (ones nC)
    | MatArray a =>
        if list_eq_dec Nat.eq_dec (shape a) [nCz]
        then np_repeat (flat a) nCr
        else mkvc a
    end in
  _ <- assert (length materialProp =? nC)%nat "materialProp incorrect shape" ;;
  Av <- (if String.eqb loc "e" then aveE2CC
         else if String.eqb loc "f" then aveF2CC
         else Raise (ValueError "Invalid loc")) ;;
  diag <- matvec (transpose Av) (zip_with Rmult vol materialProp) ;;
  Ok (sdiag diag).

Definition getEdgeMass (materialProp : material) : result spmatrix :=
  getMass materialProp "e".

Definition getFaceMass (materialProp : material) : result spmatrix :=
  getMass materialProp "f".

(** *** Grids, edge lengths and the curl

    [ndgrid] comes from [SimPEG.utils]: it is a parameter here, the list of
    the points [[r, z]] of the grid of two vectors. *)

Section Grids.

Variable ndgrid : list (list R) -> list (list R).

Definition gridCC : list (list R) := ndgrid [vectorCCr; vectorCCz].
Definition gridN : list (list R) := ndgrid [vectorNr; vectorNz].
Definition gridFr : list (list R) := ndgrid [vectorNr; vectorCCz].
Definition gridFz : list (list R) := ndgrid [vectorCCr; vectorNz].

(** [2*pi*self.gridN[:,0]] *)
Definition edge : list R := map (fun row => 2 * PI * nth 0 row 0) gridN.

(** [(np.ones((n, 1)) * [-1, 1]).T] *)
Definition minus_plus_ones (n : nat) : list (list R) :=
  [map (fun x => x * -1) (ones n); map (fun x => x * 1) (ones n)].

Definition edgeCurl : result spmatrix :=
  let dr := spdiags (minus_plus_ones (nCr + 1)) [(-1)%Z; 0%Z] nCr nCr in
  let dz := spdiags (minus_plus_ones (nCz + 1)) [0%Z; 1%Z] nCz (nCz + 1) in
  let Dr := kron (eye nNz) dr in
  let Dz := neg (kron dz (eye nCr)) in
  V <- vstack Dz Dr ;;
  A <- matmul (diags (map (fun a => 1 / a) area)) V ;;
  matmul A (diags edge).

End Grids.

End Properties.

(** A mesh as the claims take it: at least one radial cell and strictly
    positive widths. *)
Definition valid (m : t) : Prop :=
  hr m <> [] /\ Forall (fun h => 0 < h) (hr m) /\ Forall (fun h => 0 < h) (hz m).

End Cyl1DMesh.

(** ** Complex numbers and complex vectors *)

Definition C : Type := (R * R)%type.

Definition Cre (z : C) : R := fst z.
Definition Cim (z : C) : R := snd z.
Definition RtoC (x : R) : C := (x, 0).
Definition C0 : C := (0, 0).
Definition C1 : C := (1, 0).
(** [1j] *)
Definition Ci : C := (0, 1).

Definition Cadd (a b : C) : C := (Cre a + Cre b, Cim a + Cim b).
Definition Csub (a b : C) : C := (Cre a - Cre b, Cim a - Cim b).
Definition Copp (a : C) : C := (- Cre a, - Cim a).
Definition Cmul (a b : C) : C :=
  (Cre a * Cre b - Cim a * Cim b, Cre a * Cim b + Cim a * Cre b).
(** [1. / a] *)
Definition Cinv (a : C) : C :=
  (Cre a / (Cre a ^ 2 + Cim a ^ 2), - Cim a / (Cre a ^ 2 + Cim a ^ 2)).
(** [a / x] for a real [x] *)
Definition Cdivr (a : C) (x : R) : C := (Cre a / x, Cim a / x).

(** A complex vector.  The elementwise operations and the products below
    are total: on operands of different lengths they stop at the shorter one
    or read 0, where numpy broadcasts or raises.  The field solve and the
    mesh produce arrays whose dimensions agree; the statements that depend
    on them say so. *)
Definition cvec : Type := list C.

Definition vadd (a b : cvec) : cvec := zip_with Cadd a b.
Definition vsub (a b : cvec) : cvec := zip_with Csub a b.
(** Elementwise product; also [sdiag(a) * b], the diagonal matrix of [a]
    applied to [b], and the product of two diagonal matrices. *)
Definition vmul (a b : cvec) : cvec := zip_with Cmul a b.
Definition vopp (a : cvec) : cvec := map Copp a.
Definition vdivr (a : cvec) (x : R) : cvec := map (fun z => Cdivr z x) a.
(** [a - c] and [a + c] for a real scalar [c], broadcast. *)
Definition vsub_scalar (a : cvec) (c : R) : cvec :=
  map (fun z => Csub z (RtoC c)) a.
Definition vadd_scalar (a : cvec) (c : R) : cvec :=
  map (fun z => Cadd z (RtoC c)) a.

Declare Scope vec_scope.
Infix "[+]" := vadd (at level 50, left associativity) : vec_scope.
Infix "[-]" := vsub (at level 50, left associativity) : vec_scope.
Infix "[*]" := vmul (at level 40, left associativity) : vec_scope.
Open Scope vec_scope.

(** [np.dot(a, b)], without conjugation. *)
Definition dotC (a b : cvec) : C := fold_right Cadd C0 (zip_with Cmul a b).
Definition dotR (a b : list R) : R := np_sum (zip_with Rmult a b).

(** [P * v] for a real sparse matrix and a complex vector. *)
Definition mulPC (P : spmatrix) (v : cvec) : cvec :=
  map (fun i =>
         (big_sum (fun j => entry P i j * Cre (nth j v C0)) (ncols P),
          big_sum (fun j => entry P i j * Cim (nth j v C0)) (ncols P)))
      (seq 0 (nrows P)).

(** [mkvc(mkvc(v, 2).T * A)] : the row vector [v] times the matrix [A]. *)
Definition rowmul (v : cvec) (A : spmatrix) : cvec :=
  map (fun i =>
         (big_sum (fun j => Cre (nth j v C0) * entry A j i) (nrows A),
          big_sum (fun j => Cim (nth j v C0) * entry A j i) (nrows A)))
      (seq 0 (ncols A)).

(** [s1 in s2] on strings. *)
Fixpoint contains (sub s : string) : bool :=
  String.prefix sub s
  || match s with
     | EmptyString => false
     | String _ s' => contains sub s'
     end.

(** ** RxNSEM.py *)

Module RxNSEM.

(** [scipy.constants.mu_0], the vacuum permeability [4e-7 * pi]. *)
Definition mu_0 : R := 4 * PI / 10 ^ 7.

(** The [component] of a receiver, after the synonyms are resolved. *)
Inductive component_t : Type := real | imag.

(** The receiver locations: an array [nRx x nDim], or [nRx x nDim x 2] with
    the numerator's locations at index 0 and the denominator's at index 1. *)
Inductive locs_t : Type :=
| Locs2 (l : list (list R))
| Locs3 (l0 l1 : list (list R)).

(** A receiver: [locs], [orientation] and [component].  The hidden [_src],
    [_mesh] and [_f] are rebound by every [eval] and [evalDeriv] before
    anything reads them, so they are the arguments below; the cached
    [_Pex], ... are the mesh's interpolation matrices at the locations. *)
Record Rx : Type := mk_rx {
  locs : locs_t;
  orientation : string;
  component : component_t
}.

(** The choices of [BaseRxNSEM_Point.orientation]. *)
Definition orientation_choices : list string :=
  ["xx"; "xy"; "yx"; "yy"; "zx"; "zy"]%string.

(** The mesh's interface the receivers use ([discretize.BaseMesh]). *)
Record BaseMesh : Type := mk_mesh {
  nE : nat;
  getInterpolationMat : list (list R) -> string -> spmatrix
}.

(** The fields object's interface ([BaseNSEMFields]): [f[src, name]] and the
    derivatives [f._xDeriv_u(src, v, adjoint)]. *)
Record Fields (Src : Type) : Type := mk_fields {
  getitem : Src -> string -> cvec;
  _e_pxDeriv_u : Src -> cvec -> bool -> cvec;
  _e_pyDeriv_u : Src -> cvec -> bool -> cvec;
  _b_pxDeriv_u : Src -> cvec -> bool -> cvec;
  _b_pyDeriv_u : Src -> cvec -> bool -> cvec;
  _eDeriv_u : Src -> cvec -> bool -> cvec;
  _bDeriv_u : Src -> cvec -> bool -> cvec
}.

Arguments getitem {Src}.
Arguments _e_pxDeriv_u {Src}.
Arguments _e_pyDeriv_u {Src}.
Arguments _b_pxDeriv_u {Src}.
Arguments _b_pyDeriv_u {Src}.
Arguments _eDeriv_u {Src}.
Arguments _bDeriv_u {Src}.

(** What [eval] and [evalDeriv] return: a real array, a complex array, or a
    complex matrix given by its rows. *)
Inductive array : Type :=
| RealArr (v : list R)
| CplxArr (v : cvec)
| CplxMat (rows : list cvec).


(** [getattr(z, component)] *)
Definition getattr (z : cvec) (comp : component_t) : list R :=
  match comp with
  | real => map Cre z
  | imag => map Cim z
  end.

(** [v.reshape((2, n)).T] : row [i] is [[v[i], v[n+i]]]. *)
Definition reshape2T (n : nat) (v : cvec) : result (list cvec) :=
  if (length v =? 2 * n)%nat
  then Ok (map (fun i => [nth i v C0; nth (n + i) v C0]) (seq 0 n))
  else Raise (ValueError "cannot reshape array").

(** The complex array a call [eval(..., True)] returned. *)
Definition as_complex (r : result array) : result cvec :=
  a <- r ;;
  match a with
  | CplxArr z => Ok z
  | RealArr v => Ok (map RtoC v)
  | CplxMat _ => Raise (ValueError "operands could not be broadcast")
  end.

(** [locs[:, -1]] : the last coordinate of every location. *)
Definition last_column (l : locs_t) : list (list R) :=
  match l with
  | Locs2 l => map (fun row => [last row 0]) l
  | Locs3 l0 l1 => map (fun row => [last row 0]) l1
  end.

Section Receiver.

Context {Src : Type}.
Variable self : Rx.
Variable src : Src.
Variable mesh : BaseMesh.
Variable f : Fields Src.

(** *** BaseRxNSEM_Point *)

Definition _loc_numerator : list (list R) :=
  match locs self with
  | Locs3 l0 _ => l0
  | Locs2 l => l
  end.

Definition _loc_denominator : list (list R) :=
  match locs self with
  | Locs3 _ l1 => l1
  | Locs2 l => l
  end.

Definition Pex : spmatrix := getInterpolationMat mesh _loc_numerator "Ex".
Definition Pey : spmatrix := getInterpolationMat mesh _loc_numerator "Ey".
Definition Pbx : spmatrix := getInterpolationMat mesh _loc_denominator "Fx".
Definition Pby : spmatrix := getInterpolationMat mesh _loc_denominator "Fy".
Definition Pbz : spmatrix := getInterpolationMat mesh _loc_numerator "Fz".

Definition _ex_px : cvec := mulPC Pex (getitem f src "e_px").
Definition _ey_px : cvec := mulPC Pey (getitem f src "e_px").
Definition _ex_py : cvec := mulPC Pex (getitem f src "e_py").
Definition _ey_py : cvec := mulPC Pey (getitem f src "e_py").
Definition _hx_px : cvec := vdivr (mulPC Pbx (getitem f src "b_px")) mu_0.
Definition _hy_px : cvec := vdivr (mulPC Pby (getitem f src "b_px")) mu_0.
Definition _hz_px : cvec := vdivr (mulPC Pbz (getitem f src "b_px")) mu_0.
Definition _hx_py : cvec := vdivr (mulPC Pbx (getitem f src "b_py")) mu_0.
Definition _hy_py : cvec := vdivr (mulPC Pby (getitem f src "b_py")) mu_0.
Definition _hz_py : cvec := vdivr (mulPC Pbz (getitem f src "b_py")) mu_0.

Definition _ex_px_u (vec : cvec) : cvec :=
  mulPC Pex (_e_pxDeriv_u f src vec false).
Definition _ey_px_u (vec : cvec) : cvec :=
  mulPC Pey (_e_pxDeriv_u f src vec false).
Definition _ex_py_u (vec : cvec) : cvec :=
  mulPC Pex (_e_pyDeriv_u f src vec false).
Definition _ey_py_u (vec : cvec) : cvec :=
  mulPC Pey (_e_pyDeriv_u f src vec false).
Definition _hx_px_u (vec : cvec) : cvec :=
  vdivr (mulPC Pbx (_b_pxDeriv_u f src vec false)) mu_0.
Definition _hy_px_u (vec : cvec) : cvec :=
  vdivr (mulPC Pby (_b_pxDeriv_u f src vec false)) mu_0.
Definition _hz_px_u (vec : cvec) : cvec :=
  vdivr (mulPC Pbz (_b_pxDeriv_u f src vec false)) mu_0.
Definition _hx_py_u (vec : cvec) : cvec :=
  vdivr (mulPC Pbx (_b_pyDeriv_u f src vec false)) mu_0.
Definition _hy_py_u (vec : cvec) : cvec :=
  vdivr (mulPC Pby (_b_pyDeriv_u f src vec false)) mu_0.
Definition _hz_py_u (vec : cvec) : cvec :=
  vdivr (mulPC Pbz (_b_pyDeriv_u f src vec false)) mu_0.

(** The diagonal of [_Hd]. *)
Definition _Hd : cvec :=
  map Cinv (vsub (vmul _hx_px _hy_py) (vmul _hx_py _hy_px)).

Definition _Hd_uV (v : cvec) : cvec :=
  vsub (vsub (vadd (vmul _hy_py (_hx_px_u v))
                   (vmul _hx_px (_hy_py_u v)))
             (vmul _hx_py (_hy_px_u v)))
       (vmul _hy_px (_hx_py_u v)).

(** Adjoint *)

Definition _aex_px : cvec := rowmul (getitem f src "e_px") (transpose Pex).
Definition _aey_px : cvec := rowmul (getitem f src "e_px") (transpose Pey).
Definition _aex_py : cvec := rowmul (getitem f src "e_py") (transpose Pex).
Definition _aey_py : cvec := rowmul (getitem f src "e_py") (transpose Pey).
Definition _ahx_px : cvec :=
  rowmul (vdivr (getitem f src "b_px") mu_0) (transpose Pbx).
Definition _ahy_px : cvec :=
  rowmul (vdivr (getitem f src "b_px") mu_0) (transpose Pby).
Definition _ahz_px : cvec :=
  rowmul (vdivr (getitem f src "b_px") mu_0) (transpose Pbz).
Definition _ahx_py : cvec :=
  rowmul (vdivr (getitem f src "b_py") mu_0) (transpose Pbx).
Definition _ahy_py : cvec :=
  rowmul (vdivr (getitem f src "b_py") mu_0) (transpose Pby).
Definition _ahz_py : cvec :=
  rowmul (vdivr (getitem f src "b_py") mu_0) (transpose Pbz).

Definition _aex_px_u (vec : cvec) : cvec :=
  _e_pxDeriv_u f src (mulPC (transpose Pex) vec) true.
Definition _aey_px_u (vec : cvec) : cvec :=
  _e_pxDeriv_u f src (mulPC (transpose Pey) vec) true.
Definition _aex_py_u (vec : cvec) : cvec :=
  _e_pyDeriv_u f src (mulPC (transpose Pex) vec) true.
Definition _aey_py_u (vec : cvec) : cvec :=
  _e_pyDeriv_u f src (mulPC (transpose Pey) vec) true.
Definition _ahx_px_u (vec : cvec) : cvec :=
  vdivr (_b_pxDeriv_u f src (mulPC (transpose Pbx) vec) true) mu_0.
Definition _ahy_px_u (vec : cvec) : cvec :=
  vdivr (_b_pxDeriv_u f src (mulPC (transpose Pby) vec) true) mu_0.
Definition _ahz_px_u (vec : cvec) : cvec :=
  vdivr (_b_pxDeriv_u f src (mulPC (transpose Pbz) vec) true) mu_0.
Definition _ahx_py_u (vec : cvec) : cvec :=
  vdivr (_b_pyDeriv_u f src (mulPC (transpose Pbx) vec) true) mu_0.
Definition _ahy_py_u (vec : cvec) : cvec :=
  vdivr (_b_pyDeriv_u f src (mulPC (transpose Pby) vec) true) mu_0.
Definition _ahz_py_u (vec : cvec) : cvec :=
  vdivr (_b_pyDeriv_u f src (mulPC (transpose Pbz) vec) true) mu_0.

Definition _aHd : cvec :=
  map Cinv (vsub (vmul _ahx_px _ahy_py) (vmul _ahx_py _ahy_px)).

Definition _aHd_uV (x : cvec) : cvec :=
  vsub (vsub (vadd (_ahx_px_u (vmul _ahy_py x))
                   (_ahx_px_u (vmul _ahy_py x)))
             (_ahy_px_u (vmul _ahx_py x)))
       (_ahx_py_u (vmul _ahy_px x)).

Definition eval_base (return_complex : bool) : result array :=
  Raise (NotImplementedError
           "SimPEG.EM.NSEM receiver has to have an eval method").

Definition evalDeriv_base (v : cvec) (adjoint : bool) : result array :=
  Raise (NotImplementedError
           "SimPEG.EM.NSEM receiver has to have an evalDeriv method").

(** The end of every adjoint [evalDeriv]: the component of the result. *)
Definition adjoint_component (rx_deriv_real : cvec) : cvec :=
  match component self with
  | imag => map (Cmul Ci) rx_deriv_real
  | real => rx_deriv_real
  end.

(** *** Point_impedance1D *)

Definition Point_impedance1D_Pex : spmatrix :=
  getInterpolationMat mesh (last_column (locs self)) "Fx".
Definition Point_impedance1D_Pbx : spmatrix :=
  getInterpolationMat mesh (last_column (locs self)) "Ex".

Definition _ex : cvec := mulPC Point_impedance1D_Pex (getitem f src "e_1d").
Definition _hx : cvec :=
  vdivr (mulPC Point_impedance1D_Pbx (getitem f src "b_1d")) mu_0.

Definition _ex_u (v : cvec) : cvec :=
  mulPC Point_impedance1D_Pex (_eDeriv_u f src v false).
Definition _hx_u (v : cvec) : cvec :=
  vdivr (mulPC Point_impedance1D_Pbx (_bDeriv_u f src v false)) mu_0.
Definition _aex_u (v : cvec) : cvec :=
  _eDeriv_u f src (mulPC (transpose Point_impedance1D_Pex) v) true.
Definition _ahx_u (v : cvec) : cvec :=
  vdivr (_bDeriv_u f src (mulPC (transpose Point_impedance1D_Pbx) v) true)
        mu_0.

Definition Point_impedance1D_Hd : cvec := map Cinv _hx.

Definition Point_impedance1D_eval (return_complex : bool) : result array :=
  let rx_eval_complex := (vopp Point_impedance1D_Hd) [*] _ex in
  if return_complex then Ok (CplxArr rx_eval_complex)
  else Ok (RealArr (getattr rx_eval_complex (component self))).

Definition Point_impedance1D_evalDeriv (v : cvec) (adjoint : bool)
  : result array :=
  if adjoint then
    Z1d <- as_complex (Point_impedance1D_eval true) ;;
    let aZ_N_uV := fun x => vopp (_aex_u x) in
    let aZ_D_uV := fun x => _ahx_u x in
    let rx_deriv :=
      aZ_N_uV (Point_impedance1D_Hd [*] v)
      [-] aZ_D_uV ((Z1d [*] Point_impedance1D_Hd) [*] v) in
    Ok (CplxArr (adjoint_component rx_deriv))
  else
    Z1d <- as_complex (Point_impedance1D_eval true) ;;
    let Z_N_uV := vopp (_ex_u v) in
    let Z_D_uV := _hx_u v in
    let rx_deriv := Point_impedance1D_Hd [*] (Z_N_uV [-] (Z1d [*] Z_D_uV)) in
    Ok (RealArr (getattr rx_deriv (component self))).

(** *** Point_impedance3D *)

(** The [if]/[elif] chain of [eval]: [Zij], when a branch assigns it. *)
Definition Point_impedance3D_Zij : option cvec :=
  if contains "xx" (orientation self) then
    Some ((_ex_px [*] _hy_py) [-] (_ex_py [*] _hy_px))
  else if contains "xy" (orientation self) then
    Some ((vopp _ex_px [*] _hx_py) [+] (_ex_py [*] _hx_px))
  else if contains "yx" (orientation self) then
    Some ((_ey_px [*] _hy_py) [-] (_ey_py [*] _hy_px))
  else if contains "yy" (orientation self) then
    Some ((vopp _ey_px [*] _hx_py) [+] (_ey_py [*] _hx_px))
  else None.

Definition Point_impedance3D_eval (return_complex : bool) : result array :=
  match Point_impedance3D_Zij with
  | None => Raise (UnboundLocalError "Zij")
  | Some Zij =>
      let rx_eval_complex := _Hd [*] Zij in
      if return_complex then Ok (CplxArr rx_eval_complex)
      else Ok (RealArr (getattr rx_eval_complex (component self)))
  end.

(** The adjoint chain of [evalDeriv]: the diagonal of [Zij] and the closure
    [ZijN_uV]. *)
Definition Point_impedance3D_adjoint_branch : option (cvec * (cvec -> cvec)) :=
  if contains "xx" (orientation self) then
    Some (_aHd [*] ((_ahy_py [*] _aex_px) [-] (_ahy_px [*] _aex_py)),
          fun x =>
            ((_aex_px_u (_ahy_py [*] x) [+] _ahy_py_u (_aex_px [*] x))
             [-] _ahy_px_u (_aex_py [*] x))
            [-] _aex_py_u (_ahy_px [*] x))
  else if contains "xy" (orientation self) then
    Some (_aHd [*] ((vopp _ahx_py [*] _aex_px) [+] (_ahx_px [*] _aex_py)),
          fun x =>
            ((vopp (_aex_px_u (_ahx_py [*] x)) [-] _ahx_py_u (_aex_px [*] x))
             [+] _ahx_px_u (_aex_py [*] x))
            [+] _aex_py_u (_ahx_px [*] x))
  else if contains "yx" (orientation self) then
    Some (_aHd [*] ((_ahy_py [*] _aey_px) [-] (_ahy_px [*] _aey_py)),
          fun x =>
            ((_aey_px_u (_ahy_py [*] x) [+] _ahy_py_u (_aey_px [*] x))
             [-] _ahy_px_u (_aey_py [*] x))
            [-] _aey_py_u (_ahy_px [*] x))
  else if contains "yy" (orientation self) then
    Some (_aHd [*] ((vopp _ahx_py [*] _aey_px) [+] (_ahx_px [*] _aey_py)),
          fun x =>
            ((vopp (_aey_px_u (_ahx_py [*] x)) [-] _ahx_py_u (_aey_px [*] x))
             [+] _ahx_px_u (_aey_py [*] x))
            [+] _aey_py_u (_ahx_px [*] x))
  else None.

(** The forward chain of [evalDeriv]: [ZijN_uV]. *)
Definition Point_impedance3D_ZijN_uV (v : cvec) : option cvec :=
  if contains "xx" (orientation self) then
    Some ((((_hy_py [*] _ex_px_u v) [+] (_ex_px [*] _hy_py_u v))
           [-] (_ex_py [*] _hy_px_u v))
          [-] (_hy_px [*] _ex_py_u v))
  else if contains "xy" (orientation self) then
    Some ((((vopp _hx_py [*] _ex_px_u v) [-] (_ex_px [*] _hx_py_u v))
           [+] (_ex_py [*] _hx_px_u v))
          [+] (_hx_px [*] _ex_py_u v))
  else if contains "yx" (orientation self) then
    Some ((((_hy_py [*] _ey_px_u v) [+] (_ey_px [*] _hy_py_u v))
           [-] (_ey_py [*] _hy_px_u v))
          [-] (_hy_px [*] _ey_py_u v))
  else if contains "yy" (orientation self) then
    Some ((((vopp _hx_py [*] _ey_px_u v) [-] (_ey_px [*] _hx_py_u v))
           [+] (_ey_py [*] _hx_px_u v))
          [+] (_hx_px [*] _ey_py_u v))
  else None.

(** The end of the adjoint branch of the three 3D classes. *)
Definition adjoint_tail (name : string)
           (branch : option (cvec * (cvec -> cvec))) (v : cvec)
  : result array :=
  match branch with
  | None => Raise (UnboundLocalError name)
  | Some (Zij, ZijN_uV) =>
      let rx_deriv_real :=
        ZijN_uV (_aHd [*] v) [-] _aHd_uV ((Zij [*] _aHd) [*] v) in
      rx_deriv_real <- reshape2T (nE mesh) rx_deriv_real ;;
      Ok (CplxMat (map adjoint_component rx_deriv_real))
  end.

Definition Point_impedance3D_evalDeriv (v : cvec) (adjoint : bool)
  : result array :=
  if adjoint then
    adjoint_tail "ZijN_uV" Point_impedance3D_adjoint_branch v
  else
    let ZijN_uV := Point_impedance3D_ZijN_uV v in
    Zij <- as_complex (Point_impedance3D_eval true) ;;
    match ZijN_uV with
    | None => Raise (UnboundLocalError "ZijN_uV")
    | Some ZijN_uV =>
        let rx_deriv_real := _Hd [*] (ZijN_uV [-] (Zij [*] _Hd_uV v)) in
        Ok (RealArr (getattr rx_deriv_real (component self)))
    end.

(** *** Point_tipper3D *)

(** The two [if]s of [eval], one after the other. *)
Definition Point_tipper3D_Tij : option cvec :=
  let Tij : option cvec := None in
  let Tij := if contains "zx" (orientation self)
             then Some ((vopp _hy_px [*] _hz_py) [+] (_hy_py [*] _hz_px))
             else Tij in
  let Tij := if contains "zy" (orientation self)
             then Some ((_hx_px [*] _hz_py) [-] (_hx_py [*] _hz_px))
             else Tij in
  Tij.

Definition Point_tipper3D_eval (return_complex : bool) : result array :=
  match Point_tipper3D_Tij with
  | None => Raise (UnboundLocalError "Tij")
  | Some Tij =>
      let rx_eval_complex := _Hd [*] Tij in
      if return_complex then Ok (CplxArr rx_eval_complex)
      else Ok (RealArr (getattr rx_eval_complex (component self)))
  end.

Definition Point_tipper3D_adjoint_branch : option (cvec * (cvec -> cvec)) :=
  if contains "zx" (orientation self) then
    Some (_aHd [*] ((vopp _ahz_py [*] _ahy_px) [+] (_ahz_px [*] _ahy_py)),
          fun x =>
            ((vopp (_ahz_py_u (_ahy_px [*] x)) [-] _ahy_px_u (_ahz_py [*] x))
             [+] _ahy_py_u (_ahz_px [*] x))
            [+] _ahz_px_u (_ahy_py [*] x))
  else if contains "zy" (orientation self) then
    Some (_aHd [*] ((_ahz_py [*] _ahx_px) [-] (_ahz_px [*] _ahx_py)),
          fun x =>
            ((_ahx_px_u (_ahz_py [*] x) [+] _ahz_py_u (_ahx_px [*] x))
             [-] _ahx_py_u (_ahz_px [*] x))
            [-] _ahz_px_u (_ahx_py [*] x))
  else None.

Definition Point_tipper3D_TijN_uV (v : cvec) : option cvec :=
  if contains "zx" (orientation self) then
    Some ((((vopp _hy_px [*] _hz_py_u v) [-] (_hz_py [*] _hy_px_u v))
           [+] (_hy_py [*] _hz_px_u v))
          [+] (_hz_px [*] _hy_py_u v))
  else if contains "zy" (orientation self) then
    Some ((((_hz_py [*] _hx_px_u v) [+] (_hx_px [*] _hz_py_u v))
           [-] (_hx_py [*] _hz_px_u v))
          [-] (_hz_px [*] _hx_py_u v))
  else None.

Definition Point_tipper3D_evalDeriv (v : cvec) (adjoint : bool)
  : result array :=
  if adjoint then
    adjoint_tail "TijN_uV" Point_tipper3D_adjoint_branch v
  else
    let TijN_uV := Point_tipper3D_TijN_uV v in
    Tij <- as_complex (Point_tipper3D_eval true) ;;
    match TijN_uV with
    | None => Raise (UnboundLocalError "TijN_uV")
    | Some TijN_uV =>
        let rx_deriv_complex := _Hd [*] (TijN_uV [-] (Tij [*] _Hd_uV v)) in
        Ok (RealArr (getattr rx_deriv_complex (component self)))
    end.

(** *** Point_horizontalmagvar3D

    The class overrides [_Hd], [_Hd_uV], [_aHd] and [_aHd_uV] with the same
    expressions written with [self._sDiag], so the definitions above stand
    for them. *)

Definition Pbx_num : spmatrix := getInterpolationMat mesh _loc_numerator "Fx".
Definition Pby_num : spmatrix := getInterpolationMat mesh _loc_numerator "Fy".

Definition _hx_num_px : cvec :=
  vdivr (mulPC Pbx_num (getitem f src "b_px")) mu_0.
Definition _hy_num_px : cvec :=
  vdivr (mulPC Pby_num (getitem f src "b_px")) mu_0.
Definition _hx_num_py : cvec :=
  vdivr (mulPC Pbx_num (getitem f src "b_py")) mu_0.
Definition _hy_num_py : cvec :=
  vdivr (mulPC Pby_num (getitem f src "b_py")) mu_0.

Definition _hx_num_px_u (vec : cvec) : cvec :=
  vdivr (mulPC Pbx_num (_b_pxDeriv_u f src vec false)) mu_0.
Definition _hy_num_px_u (vec : cvec) : cvec :=
  vdivr (mulPC Pby_num (_b_pxDeriv_u f src vec false)) mu_0.
Definition _hx_num_py_u (vec : cvec) : cvec :=
  vdivr (mulPC Pbx_num (_b_pyDeriv_u f src vec false)) mu_0.
Definition _hy_num_py_u (vec : cvec) : cvec :=
  vdivr (mulPC Pby_num (_b_pyDeriv_u f src vec false)) mu_0.

Definition _ahx_num_px : cvec :=
  rowmul (vdivr (getitem f src "b_px") mu_0) (transpose Pbx_num).
Definition _ahy_num_px : cvec :=
  rowmul (vdivr (getitem f src "b_px") mu_0) (transpose Pby_num).
Definition _ahx_num_py : cvec :=
  rowmul (vdivr (getitem f src "b_py") mu_0) (transpose Pbx_num).
Definition _ahy_num_py : cvec :=
  rowmul (vdivr (getitem f src "b_py") mu_0) (transpose Pby_num).

Definition _ahx_num_px_u (vec : cvec) : cvec :=
  vdivr (_b_pxDeriv_u f src (mulPC (transpose Pbx_num) vec) true) mu_0.
Definition _ahy_num_px_u (vec : cvec) : cvec :=
  vdivr (_b_pxDeriv_u f src (mulPC (transpose Pby_num) vec) true) mu_0.
Definition _ahx_num_py_u (vec : cvec) : cvec :=
  vdivr (_b_pyDeriv_u f src (mulPC (transpose Pbx_num) vec) true) mu_0.
Definition _ahy_num_py_u (vec : cvec) : cvec :=
  vdivr (_b_pyDeriv_u f src (mulPC (transpose Pby_num) vec) true) mu_0.

(** The chain of [eval]: [Mij] and [schmucker_corr]. *)
Definition Point_horizontalmagvar3D_Mij : option (cvec * R) :=
  if contains "xx" (orientation self) then
    Some ((_hx_num_px [*] _hy_py) [-] (_hx_num_py [*] _hy_px), 1)
  else if contains "xy" (orientation self) then
    Some ((vopp _hx_num_px [*] _hx_py) [+] (_hx_num_py [*] _hx_px), 0)
  else if contains "yx" (orientation self) then
    Some ((_hy_num_px [*] _hy_py) [-] (_hy_num_py [*] _hy_px), 0)
  else if contains "yy" (orientation self) then
    Some ((vopp _hy_num_px [*] _hx_py) [+] (_hy_num_py [*] _hx_px), 1)
  else None.

Definition Point_horizontalmagvar3D_eval (return_complex : bool)
  : result array :=
  match Point_horizontalmagvar3D_Mij with
  | None => Raise (UnboundLocalError "Mij")
  | Some (Mij, schmucker_corr) =>
      let rx_eval_complex := vsub_scalar (_Hd [*] Mij) schmucker_corr in
      if return_complex then Ok (CplxArr rx_eval_complex)
      else Ok (RealArr (getattr rx_eval_complex (component self)))
  end.

Definition Point_horizontalmagvar3D_adjoint_branch
  : option (cvec * (cvec -> cvec)) :=
  if contains "xx" (orientation self) then
    Some (_aHd [*] ((_ahy_py [*] _ahx_num_px) [-] (_ahy_px [*] _ahx_num_py)),
          fun x =>
            ((_ahx_num_px_u (_ahy_py [*] x) [+] _ahy_py_u (_ahx_num_px [*] x))
             [-] _ahy_px_u (_ahx_num_py [*] x))
            [-] _ahx_num_py_u (_ahy_px [*] x))
  else if contains "xy" (orientation self) then
    Some (_aHd [*] ((vopp _ahx_py [*] _ahx_num_px)
                    [+] (_ahx_px [*] _ahx_num_py)),
          fun x =>
            ((vopp (_ahx_num_px_u (_ahx_py [*] x))
              [-] _ahx_py_u (_ahx_num_px [*] x))
             [+] _ahx_px_u (_ahx_num_py [*] x))
            [+] _ahx_num_py_u (_ahx_px [*] x))
  else if contains "yx" (orientation self) then
    Some (_aHd [*] ((_ahy_py [*] _ahy_num_px) [-] (_ahy_px [*] _ahy_num_py)),
          fun x =>
            ((_ahy_num_px_u (_ahy_py [*] x) [+] _ahy_py_u (_ahy_num_px [*] x))
             [-] _ahy_px_u (_ahy_num_py [*] x))
            [-] _ahy_num_py_u (_ahy_px [*] x))
  else if contains "yy" (orientation self) then
    Some (_aHd [*] ((vopp _ahx_py [*] _ahy_num_px)
                    [+] (_ahx_px [*] _ahy_num_py)),
          fun x =>
            ((vopp (_ahy_num_px_u (_ahx_py [*] x))
              [-] _ahx_py_u (_ahy_num_px [*] x))
             [+] _ahx_px_u (_ahy_num_py [*] x))
            [+] _ahy_num_py_u (_ahx_px [*] x))
  else None.

(** The forward chain of [evalDeriv]: [MijN_uV] and [schmucker_corr]. *)
Definition Point_horizontalmagvar3D_MijN_uV (v : cvec) : option (cvec * R) :=
  if contains "xx" (orientation self) then
    Some ((((_hy_py [*] _hx_num_px_u v) [+] (_hx_num_px [*] _hy_py_u v))
           [-] (_hx_num_py [*] _hy_px_u v))
          [-] (_hy_px [*] _hx_num_py_u v), 1)
  else if contains "xy" (orientation self) then
    Some ((((vopp _hx_py [*] _hx_num_px_u v) [-] (_hx_num_px [*] _hx_py_u v))
           [+] (_hx_num_py [*] _hx_px_u v))
          [+] (_hx_px [*] _hx_num_py_u v), 0)
  else if contains "yx" (orientation self) then
    Some ((((_hy_py [*] _hy_num_px_u v) [+] (_hy_num_px [*] _hy_py_u v))
           [-] (_hy_num_py [*] _hy_px_u v))
          [-] (_hy_px [*] _hy_num_py_u v), 0)
  else if contains "yy" (orientation self) then
    Some ((((vopp _hx_py [*] _hy_num_px_u v) [-] (_hy_num_px [*] _hx_py_u v))
           [+] (_hy_num_py [*] _hx_px_u v))
          [+] (_hx_px [*] _hy_num_py_u v), 1)
  else None.

Definition Point_horizontalmagvar3D_evalDeriv (v : cvec) (adjoint : bool)
  : result array :=
  if adjoint then
    adjoint_tail "MijN_uV" Point_horizontalmagvar3D_adjoint_branch v
  else
    let branch := Point_horizontalmagvar3D_MijN_uV v in
    Mij <- as_complex (Point_horizontalmagvar3D_eval true) ;;
    match branch with
    | None => Raise (UnboundLocalError "schmucker_corr")
    | Some (MijN_uV, schmucker_corr) =>
        let Mij := vadd_scalar Mij schmucker_corr in
        let rx_deriv_real := _Hd [*] (MijN_uV [-] (Mij [*] _Hd_uV v)) in
        Ok (RealArr (getattr rx_deriv_real (component self)))
    end.

End Receiver.

(** *** The concrete receiver classes *)

Inductive rx_class : Type :=
| Point_impedance1D
| Point_impedance3D
| Point_tipper3D
| Point_horizontalmagvar3D.

(** [rx.eval(src, mesh, f, return_complex)] on an instance of [cls]. *)
Definition eval {Src : Type} (cls : rx_class) (self : Rx) (src : Src)
           (mesh : BaseMesh) (f : Fields Src) (return_complex : bool)
  : result array :=
  match cls with
  | Point_impedance1D => Point_impedance1D_eval self src mesh f return_complex
  | Point_impedance3D => Point_impedance3D_eval self src mesh f return_complex
  | Point_tipper3D => Point_tipper3D_eval self src mesh f return_complex
  | Point_horizontalmagvar3D =>
      Point_horizontalmagvar3D_eval self src mesh f return_complex
  end.

(** [rx.evalDeriv(src, mesh, f, v, adjoint)] on an instance of [cls]. *)
Definition evalDeriv {Src : Type} (cls : rx_class) (self : Rx) (src : Src)
           (mesh : BaseMesh) (f : Fields Src) (v : cvec) (adjoint : bool)
  : result array :=
  match cls with
  | Point_impedance1D => Point_impedance1D_evalDeriv self src mesh f v adjoint
  | Point_impedance3D => Point_impedance3D_evalDeriv self src mesh f v adjoint
  | Point_tipper3D => Point_tipper3D_evalDeriv self src mesh f v adjoint
  | Point_horizontalmagvar3D =>
      Point_horizontalmagvar3D_evalDeriv self src mesh f v adjoint
  end.

End RxNSEM.

(** ** Data.py

    The data container: [Data.__setitem__] and [Data.__getitem__] with the
    functions they call, [SyntheticData.__setitem__] and
    [Data.uncertainty].

    The survey, its sources and their receivers ([.Survey]) are read
    through the attributes the file uses: [survey.srcList], [survey.nD],
    [src.rxList] and [rx.nD]; an object is its identity, so [in] and the
    keys of a [dict] compare the records below.  The [properties] library
    is read as it is used here: an attribute that was never set is [None],
    and setting [survey] runs the observer [_create_data_dict].  A float can
    be [nan]. *)

Module Data.

Inductive exn : Type :=
| KeyError (msg : string)
| AssertionError (msg : string)
| Exception (msg : string)
| TypeError (msg : string)
| AttributeError (msg : string)
| IndexError (msg : string)
| ValueError (msg : string).

Inductive result (A : Type) : Type :=
| Ok (a : A)
| Raise (e : exn).

Arguments Ok {A} a.
Arguments Raise {A} e.

Definition bind {A B : Type} (r : result A) (k : A -> result B) : result B :=
  match r with
  | Ok a => k a
  | Raise e => Raise e
  end.

Notation "x <~ r ;; k" := (bind r (fun x => k))
  (at level 61, r at next level, right associativity).

Definition assert (cond : bool) (msg : string) : result unit :=
  if cond then Ok tt else Raise (AssertionError msg).

(** A float of a data array. *)
Inductive npfloat : Type :=
| Fin (x : R)
| NaN.

(** [np.isnan] *)
Definition isnan (x : npfloat) : bool :=
  match x with
  | NaN => true
  | Fin _ => false
  end.

Record Rx : Type := mk_rx { rx_uid : nat; rx_nD : nat }.
Record Src : Type := mk_src { src_uid : nat; rxList : list Rx }.
Record Survey : Type := mk_survey { srcList : list Src; survey_nD : nat }.

Definition Rx_eq_dec (a b : Rx) : {a = b} + {a <> b}.
Proof. decide equality; apply Nat.eq_dec. Defined.

Definition Src_eq_dec (a b : Src) : {a = b} + {a <> b}.
Proof.
  decide equality; [apply (list_eq_dec Rx_eq_dec)|apply Nat.eq_dec].
Defined.

(** *** Python dictionaries, in insertion order *)

Section Dict.

Context {K V : Type}.
Variable K_eq_dec : forall a b : K, {a = b} + {a <> b}.

(** [d.get(k)] *)
Fixpoint dict_get (d : list (K * V)) (k : K) : option V :=
  match d with
  | [] => None
  | (k', v) :: d' => if K_eq_dec k k' then Some v else dict_get d' k
  end.

(** [d[k] = v] *)
Fixpoint dict_set (d : list (K * V)) (k : K) (v : V) : list (K * V) :=
  match d with
  | [] => [(k, v)]
  | (k', v') :: d' =>
      if K_eq_dec k k' then (k', v) :: d' else (k', v') :: dict_set d' k v
  end.

(** [k in l] on a list *)
Definition contains_obj (k : K) (l : list K) : bool :=
  if in_dec K_eq_dec k l then true else false.

End Dict.

(** [_data_dict]: for every source, for every receiver, the indices of its
    data. *)
Definition data_dict : Type := list (Src * list (Rx * list nat)).

(** [d[k]], raising [KeyError] on a missing key. *)
Definition getitem_src (d : data_dict) (src : Src)
  : result (list (Rx * list nat)) :=
  match dict_get Src_eq_dec d src with
  | Some v => Ok v
  | None => Raise (KeyError "src")
  end.

Definition getitem_rx (d : list (Rx * list nat)) (rx : Rx)
  : result (list nat) :=
  match dict_get Rx_eq_dec d rx with
  | Some v => Ok v
  | None => Raise (KeyError "rx")
  end.

(** *** numpy *)

(** [np.arange(a, b)] *)
Definition arange (a b : nat) : list nat := seq a (b - a).

(** [arr[inds]] for an array of indices *)
Definition take (arr : list npfloat) (inds : list nat)
  : result (list npfloat) :=
  if forallb (fun i => (i <? length arr)%nat) inds
  then Ok (map (fun i => nth i arr NaN) inds)
  else Raise (IndexError "index out of bounds").

(** [arr[i] = v] *)
Fixpoint update (arr : list npfloat) (i : nat) (v : npfloat)
  : list npfloat :=
  match arr, i with
  | [], _ => []
  | _ :: t, O => v :: t
  | x :: t, S i' => x :: update t i' v
  end.

(** [arr[inds] = vals] for an array of indices; an array of one value is
    broadcast. *)
Definition put (arr : list npfloat) (inds : list nat) (vals : list npfloat)
  : result (list npfloat) :=
  if negb (forallb (fun i => (i <? length arr)%nat) inds)
  then Raise (IndexError "index out of bounds")
  else
    let vals := if (length vals =? 1)%nat
                then repeat (nth 0 vals NaN) (length inds) else vals in
    if (length vals =? length inds)%nat
    then Ok (fold_left (fun a iv => update a (fst iv) (snd iv))
                       (combine inds vals) arr)
    else Raise (ValueError "shape mismatch").

(** *** The arguments of [__setitem__] and [__getitem__] *)

(** An element of a tuple key: a source, a receiver, [None], a numpy array
    of more than one element, or any other object (a number, a string, an
    array of one element), which [==] compares unequal to every source and
    receiver. *)
Inductive obj : Type :=
| OSrc (src : Src)
| ORx (rx : Rx)
| ONone
| OArray
| OOther.

(** A key: a tuple, a source, or anything else. *)
Inductive key : Type :=
| KeyTuple (items : list obj)
| KeySrc (src : Src)
| KeyOther.

(** A value: an array, given by its elements in [mkvc] order, or anything
    else. *)
Inductive value : Type :=
| NdArray (flat : list npfloat)
| NotArray.

(** *** Data *)

(** What [standard_deviation] and [noise_floor] can hold: a float or an
    array. *)
Inductive uncert : Type :=
| UFloat (x : npfloat)
| UArray (a : list npfloat).

Record t : Type := mk {
  dobs : option (list npfloat);
  standard_deviation : option uncert;
  noise_floor : option uncert;
  survey : option Survey;
  _data_dict : option data_dict
}.

(** [self.survey.srcList], [self.survey.nD] *)
Definition survey_of (self : t) : result Survey :=
  match survey self with
  | Some s => Ok s
  | None => Raise (AttributeError "'NoneType' object has no attribute")
  end.

(** The second loop of [_create_data_dict], for one receiver. *)
Definition rx_step (src : Src) (st : result (data_dict * nat * nat))
           (rx : Rx) : result (data_dict * nat * nat) :=
  st <~ st ;;
  let '(d, indBot, indTop) := st in
  let indTop := (indTop + rx_nD rx)%nat in
  inner <~ getitem_src d src ;;
  let d := dict_set Src_eq_dec d src
             (dict_set Rx_eq_dec inner rx (arange indBot indTop)) in
  let indBot := (indBot + rx_nD rx)%nat in
  Ok (d, indBot, indTop).

(** [_create_data_dict(self, change)] with [change['value']] the survey
    [self.survey] holds. *)
Definition _create_data_dict (survey : Survey) : result data_dict :=
  let d := fold_left (fun d src => dict_set Src_eq_dec d src [])
                     (srcList survey) [] in
  st <~ fold_left (fun st src => fold_left (rx_step src) (rxList src) st)
                  (srcList survey) (Ok (d, 0%nat, 0%nat)) ;;
  Ok (fst (fst st)).

(** [self.survey = survey]: the observer rebuilds the dictionary. *)
Definition set_survey (self : t) (s : Survey) : result t :=
  d <~ _create_data_dict s ;;
  Ok {| dobs := dobs self;
        standard_deviation := standard_deviation self;
        noise_floor := noise_floor self;
        survey := Some s;
        _data_dict := Some d |}.

(** [nD] *)
Definition nD (self : t) : result nat :=
  match dobs self with
  | Some a => Ok (length a)
  | None => Raise (TypeError "object of type 'NoneType' has no len()")
  end.

(** Arithmetic on floats: [nan] propagates. *)
Definition fadd (x y : npfloat) : npfloat :=
  match x, y with
  | Fin a, Fin b => Fin (a + b)
  | _, _ => NaN
  end.

Definition fmul (x y : npfloat) : npfloat :=
  match x, y with
  | Fin a, Fin b => Fin (a * b)
  | _, _ => NaN
  end.

(** [np.absolute] *)
Definition fabs (x : npfloat) : npfloat :=
  match x with
  | Fin a => Fin (Rabs a)
  | NaN => NaN
  end.

(** [a op b] on two 1D arrays: elementwise, an array of one entry being
    broadcast. *)
Definition broadcast (op : npfloat -> npfloat -> npfloat)
           (a b : list npfloat) : result (list npfloat) :=
  if (length a =? length b)%nat then Ok (zip_with op a b)
  else if (length a =? 1)%nat then Ok (map (op (nth 0 a NaN)) b)
  else if (length b =? 1)%nat
       then Ok (map (fun x => op x (nth 0 b NaN)) a)
       else Raise (ValueError "operands could not be broadcast together").

(** [u * a] and [a + u] for an attribute [u] that is a float or an array. *)
Definition uncert_times (u : uncert) (a : list npfloat)
  : result (list npfloat) :=
  match u with
  | UFloat x => Ok (map (fmul x) a)
  | UArray b => broadcast fmul b a
  end.

Definition plus_uncert (a : list npfloat) (u : uncert)
  : result (list npfloat) :=
  match u with
  | UFloat x => Ok (map (fun y => fadd y x) a)
  | UArray b => broadcast fadd a b
  end.

(** [uncertainty] *)
Definition uncertainty (self : t) : result (list npfloat) :=
  match standard_deviation self, noise_floor self with
  | None, None =>
      Raise (Exception
        "The standard_deviation and / or noise_floor must be set before asking for uncertainties. Alternatively, the uncertainty can be set directly")
  | _, _ =>
      n <~ nD self ;;
      let uncert := repeat (Fin 0) n in
      uncert <~ match standard_deviation self with
                | Some sd =>
                    match dobs self with
                    | Some d =>
                        p <~ uncert_times sd (map fabs d) ;;
                        broadcast fadd uncert p
                    | None =>
                        Raise (TypeError "bad operand type for abs()")
                    end
                | None => Ok uncert
                end ;;
      uncert <~ match noise_floor self with
                | Some nf => plus_uncert uncert nf
                | None => Ok uncert
                end ;;
      Ok uncert
  end.

(** [bool(a)] of the array [a] that [==] returns on an array of more than
    one element. *)
Definition ambiguous_truth_value {A : Type} : result A :=
  Raise (ValueError
           "The truth value of an array with more than one element is ambiguous. Use a.any() or a.all()").

(** [x in srcList], with the source of the list that [x] then is.  [in]
    compares [x] with the elements one after the other, by identity and
    with [==]; on an array of more than one element the first [==] raises. *)
Definition in_srcList (x : obj) (l : list Src) : result (option Src) :=
  match x with
  | OSrc src => Ok (if contains_obj Src_eq_dec src l then Some src else None)
  | OArray =>
      match l with
      | [] => Ok None
      | _ :: _ => ambiguous_truth_value
      end
  | _ => Ok None
  end.

(** [x in rxList] *)
Definition in_rxList (x : obj) (l : list Rx) : result (option Rx) :=
  match x with
  | ORx rx => Ok (if contains_obj Rx_eq_dec rx l then Some rx else None)
  | OArray =>
      match l with
      | [] => Ok None
      | _ :: _ => ambiguous_truth_value
      end
  | _ => Ok None
  end.

(** [_ensureCorrectKey(self, key)]: the pair [src, rx] the callers unpack,
    with [rx] possibly [None]. *)
Definition _ensureCorrectKey (self : t) (k : key)
  : result (Src * option Rx) :=
  match k with
  | KeyTuple items =>
      if negb (length items =? 2)%nat
      then Raise (KeyError "Key must be [Src, Rx]")
      else
        svy <~ survey_of self ;;
        found <~ in_srcList (nth 0 items ONone) (srcList svy) ;;
        match found with
        | None => Raise (KeyError "Src Key must be a source in the survey.")
        | Some src =>
            found <~ in_rxList (nth 1 items ONone) (rxList src) ;;
            match found with
            | None => Raise (KeyError
                               "Rx Key must be a receiver for the source.")
            | Some rx => Ok (src, Some rx)
            end
        end
  | KeySrc src =>
      svy <~ survey_of self ;;
      if negb (contains_obj Src_eq_dec src (srcList svy))
      then Raise (KeyError "Key must be a source in the survey.")
      else Ok (src, None)
  | KeyOther => Raise (KeyError "Key must be [Src] or [Src,Rx]")
  end.

(** [len(self._data_dict) == 0] and the call of [_create_data_dict] that
    follows it: the dictionary to read. *)
Definition ensure_data_dict (self : t) : result data_dict :=
  match _data_dict self with
  | None => Raise (TypeError "object of type 'NoneType' has no len()")
  | Some d =>
      if (length d =? 0)%nat
      then svy <~ survey_of self ;; _create_data_dict svy
      else Ok d
  end.

(** [self._data_dict[src][rx]] *)
Definition inds_of (d : data_dict) (src : Src) (rx : Rx)
  : result (list nat) :=
  inner <~ getitem_src d src ;;
  getitem_rx inner rx.

(** [_set_data_properties(self, key, value)] with [arr_name='dobs'], as
    [__setitem__] calls it. *)
Definition _set_data_properties (self : t) (k : key) (v : value)
  : result t :=
  sr <~ _ensureCorrectKey self k ;;
  match snd sr with
  | None => Raise (AssertionError "set data using [Src, Rx]")
  | Some rx =>
      let src := fst sr in
      match v with
      | NotArray => Raise (AssertionError "value must by ndarray")
      | NdArray flat =>
          _ <~ assert (length flat =? rx_nD rx)%nat
                 "value must have the same number of data as the source." ;;
          d <~ ensure_data_dict self ;;
          inds <~ inds_of d src rx ;;
          arr <~ match dobs self with
                 | None =>
                     svy <~ survey_of self ;;
                     Ok (repeat NaN (survey_nD svy))
                 | Some arr =>
                     sel <~ take arr inds ;;
                     if negb (forallb isnan sel)
                     then Raise (Exception
                       "Observed data cannot be overwritten. Create a new Data object or a SyntheticData object instead")
                     else Ok arr
                 end ;;
          arr <~ put arr inds flat ;;
          Ok {| dobs := Some arr;
                standard_deviation := standard_deviation self;
                noise_floor := noise_floor self;
                survey := survey self;
                _data_dict := Some d |}
      end
  end.

(** [arr[inds]] where [arr] can be [None]. *)
Definition getitem_arr (arr : option (list npfloat)) (inds : list nat)
  : result (list npfloat) :=
  match arr with
  | None => Raise (TypeError "'NoneType' object is not subscriptable")
  | Some a => take a inds
  end.

(** A list comprehension whose element can raise. *)
Fixpoint comprehension {A B : Type} (g : A -> result B) (l : list A)
  : result (list B) :=
  match l with
  | [] => Ok []
  | x :: l' => y <~ g x ;; ys <~ comprehension g l' ;; Ok (y :: ys)
  end.

(** [np.concatenate] *)
Definition concatenate (parts : list (list npfloat))
  : result (list npfloat) :=
  match parts with
  | [] => Raise (ValueError "need at least one array to concatenate")
  | _ => Ok (concat parts)
  end.

(** [_get_data_properties(self, key)] with [arr_name='dobs'], as
    [__getitem__] calls it: the object afterwards and the data. *)
Definition _get_data_properties (self : t) (k : key)
  : result (t * list npfloat) :=
  sr <~ _ensureCorrectKey self k ;;
  let src := fst sr in
  let arr := dobs self in
  d <~ ensure_data_dict self ;;
  let self' := {| dobs := dobs self;
                  standard_deviation := standard_deviation self;
                  noise_floor := noise_floor self;
                  survey := survey self;
                  _data_dict := Some d |} in
  match snd sr with
  | Some rx =>
      inner <~ getitem_src d src ;;
      if negb (match dict_get Rx_eq_dec inner rx with
               | Some _ => true
               | None => false
               end)
      then Raise (Exception "Data for receiver has not yet been set.")
      else
        inds <~ inds_of d src rx ;;
        a <~ getitem_arr arr inds ;;
        Ok (self', a)
  | None =>
      parts <~ comprehension
                 (fun rx => inds <~ inds_of d src rx ;; getitem_arr arr inds)
                 (rxList src) ;;
      a <~ concatenate parts ;;
      Ok (self', a)
  end.

(** [Data.__setitem__] and [Data.__getitem__] *)
Definition __setitem__ (self : t) (k : key) (v : value) : result t :=
  _set_data_properties self k v.

Definition __getitem__ (self : t) (k : key) : result (t * list npfloat) :=
  _get_data_properties self k.

(** [SyntheticData.__setitem__] *)
Definition SyntheticData__setitem__ (self : t) (k : key) (v : value)
  : result t :=
  sr <~ _ensureCorrectKey self k ;;
  match snd sr with
  | None => Raise (AssertionError "set data using [Src, Rx]")
  | Some rx =>
      let src := fst sr in
      match v with
      | NotArray => Raise (AssertionError "value must by ndarray")
      | NdArray flat =>
          _ <~ assert (length flat =? rx_nD rx)%nat
                 "value must have the same number of data as the source." ;;
          d <~ match _data_dict self with
               | None =>
                   Raise (TypeError "'NoneType' object is not subscriptable")
               | Some d => Ok d
               end ;;
          inds <~ inds_of d src rx ;;
          arr <~ match dobs self with
                 | None =>
                     svy <~ survey_of self ;;
                     Ok (repeat NaN (survey_nD svy))
                 | Some arr => Ok arr
                 end ;;
          arr <~ put arr inds flat ;;
          Ok {| dobs := Some arr;
                standard_deviation := standard_deviation self;
                noise_floor := noise_floor self;
                survey := survey self;
                _data_dict := Some d |}
      end
  end.

End Data.

(** * The vocabulary of the specification

    What the statements below are written with, besides the program: the
    mesh and the survey of the scenarios, and the notions the specification
    names (the property of every cell, the orientations a class has a
    formula for, the sign table of the impedance, the parts of the quotient
    rule, exact forward/adjoint pairs). *)

Section MeshVocabulary.

Import Cyl1DMesh.

(** The mesh of the scenario: [hr=[1,1,1]], [hz=[2,2]], [z0=0]. *)
Definition scenario_h : list pyobj :=
  [PyArray (array1 [1; 1; 1]); PyArray (array1 [2; 2])].

Definition scenario_mesh : t := {| hr := [1; 1; 1]; hz := [2; 2]; z0 := 0 |}.

(** One well-formed per-layer model on the mesh of the scenario. *)
Definition scenario_layers : material := MatArray (array1 [10; 20]).

Definition z0_ok (z0 : option pyobj) : Prop :=
  z0 = None \/ exists z, z0 = Some (PyArray z) /\ size z = 1%nat.

Definition z0_value (z0 : option pyobj) : R :=
  match z0 with
  | None => 0
  | Some z => nth 0 (array_of z) 0
  end.

(** [ar] after [ar[0,0] = 1]. *)
Definition ar_fixed (n : nat) : spmatrix :=
  {| nrows := n; ncols := n;
     entry := fun i j =>
       if (i =? 0)%nat && (j =? 0)%nat then 1
       else entry (spdiags (half_ones 2 n) [0%Z; 1%Z] n n) i j |}.

(** What the documentation of [getMass] says [materialProp] stands for: the
    property of every cell, or nothing when the value is not accepted. *)
Definition material_of_cells (m : t) (materialProp : material)
  : option (list R) :=
  match materialProp with
  | MatNone => Some (repeat 1 (nC m))
  | MatFloat c => Some (repeat c (nC m))
  | MatArray a =>
      if (size a =? nC m)%nat then Some (flat a)
      else if list_eq_dec Nat.eq_dec (shape a) [nCz m]
           then Some (map (fun i => nth (i / nCr m) (flat a) 0)
                          (seq 0 (nC m)))
           else None
  end.

End MeshVocabulary.

Section ReceiverVocabulary.

Import RxNSEM.

(** The orientations the formulas of each class are written for. *)
Definition handled_orientations (cls : rx_class) : list string :=
  match cls with
  | Point_impedance1D => orientation_choices
  | Point_impedance3D => ["xx"; "xy"; "yx"; "yy"]%string
  | Point_tipper3D => ["zx"; "zy"]%string
  | Point_horizontalmagvar3D => ["xx"; "xy"; "yx"; "yy"]%string
  end.

(** The local variable that holds the ratio in [eval], and the numerator's
    derivative in the adjoint [evalDeriv]. *)
Definition ratio_variable (cls : rx_class) : string :=
  match cls with
  | Point_impedance1D => "rx_eval_complex"
  | Point_impedance3D => "Zij"
  | Point_tipper3D => "Tij"
  | Point_horizontalmagvar3D => "Mij"
  end.

Definition numerator_variable (cls : rx_class) : string :=
  match cls with
  | Point_impedance1D => "rx_deriv"
  | Point_impedance3D => "ZijN_uV"
  | Point_tipper3D => "TijN_uV"
  | Point_horizontalmagvar3D => "MijN_uV"
  end.

(** The two horizontal axes an impedance element is named by. *)
Inductive axis : Type := X | Y.

Definition orientation_name (a b : axis) : string :=
  match a, b with
  | X, X => "xx"
  | X, Y => "xy"
  | Y, X => "yx"
  | Y, Y => "yy"
  end.

(** The receiver with another [component]. *)
Definition with_component (self : Rx) (c : component_t) : Rx :=
  mk_rx (locs self) (orientation self) c.




(** A derivative [D(v, adjoint)] of the fields is an exact forward/adjoint
    pair between a model space of [n] entries and a field space of [m]:
    the two modes map between the spaces and are transposes of one another
    for [dot]. *)
Definition adjoint_pair (n m : nat) (D : cvec -> bool -> cvec) : Prop :=
  (forall v, length v = n -> length (D v false) = m)
  /\ (forall w, length w = m -> length (D w true) = n)
  /\ (forall v w, length v = n -> length w = m ->
        dotC w (D v false) = dotC (D w true) v).

(** The dimensions of a survey: [nD] receiver locations, a model space of
    [nU] entries, [nEdges] edge and [nFaces] face degrees of freedom; and
    the hypothesis of the adjoint identity, that every derivative of the
    fields is an exact forward/adjoint pair. *)
Record survey_dims {Src : Type} (self : Rx) (src : Src) (mesh : BaseMesh)
       (f : Fields Src) (nD nU nEdges nFaces : nat) : Prop := {
  dim_Pex : nrows (Pex self mesh) = nD /\ ncols (Pex self mesh) = nEdges;
  dim_Pey : nrows (Pey self mesh) = nD /\ ncols (Pey self mesh) = nEdges;
  dim_Pbx : nrows (Pbx self mesh) = nD /\ ncols (Pbx self mesh) = nFaces;
  dim_Pby : nrows (Pby self mesh) = nD /\ ncols (Pby self mesh) = nFaces;
  dim_Pbz : nrows (Pbz self mesh) = nD /\ ncols (Pbz self mesh) = nFaces;
  dim_Pbx_num : nrows (Pbx_num self mesh) = nD
                /\ ncols (Pbx_num self mesh) = nFaces;
  dim_Pby_num : nrows (Pby_num self mesh) = nD
                /\ ncols (Pby_num self mesh) = nFaces;
  dim_Pex_1D : nrows (Point_impedance1D_Pex self mesh) = nD
               /\ ncols (Point_impedance1D_Pex self mesh) = nFaces;
  dim_Pbx_1D : nrows (Point_impedance1D_Pbx self mesh) = nD
               /\ ncols (Point_impedance1D_Pbx self mesh) = nEdges;
  pair_e_px : adjoint_pair nU nEdges (_e_pxDeriv_u f src);
  pair_e_py : adjoint_pair nU nEdges (_e_pyDeriv_u f src);
  pair_b_px : adjoint_pair nU nFaces (_b_pxDeriv_u f src);
  pair_b_py : adjoint_pair nU nFaces (_b_pyDeriv_u f src);
  pair_e_1d : adjoint_pair nU nFaces (_eDeriv_u f src);
  pair_b_1d : adjoint_pair nU nEdges (_bDeriv_u f src)
}.

(** The sign the caller gives the adjoint value: [+] for the real part,
    [-] for the imaginary part, of which it then takes the real part. *)
Definition component_sign (c : component_t) : R :=
  match c with
  | real => 1
  | imag => -1
  end.

(** The closure of the numerator's derivative in the adjoint branch. *)
Definition adjoint_numerator_of {Src : Type} (cls : rx_class) (self : Rx)
           (src : Src) (mesh : BaseMesh) (f : Fields Src)
  : option (cvec -> cvec) :=
  match cls with
  | Point_impedance1D => Some (fun x => vopp (_aex_u self src mesh f x))
  | Point_impedance3D =>
      option_map snd (Point_impedance3D_adjoint_branch self src mesh f)
  | Point_tipper3D =>
      option_map snd (Point_tipper3D_adjoint_branch self src mesh f)
  | Point_horizontalmagvar3D =>
      option_map snd (Point_horizontalmagvar3D_adjoint_branch self src mesh f)
  end.

End ReceiverVocabulary.

Section ImpedanceTable.

Import RxNSEM.

Context {Src : Type}.
Variable self : Rx.
Variable src : Src.
Variable mesh : BaseMesh.
Variable f : Fields Src.

(** The sign table of the impedance: the element [Z_ab] pairs the electric
    component [a] with the magnetic component other than [b], with the sign
    [+] for [b = x] and [-] for [b = y]:
    [Z_ax = e_a^px * hy^py - e_a^py * hy^px] and
    [Z_ay = - e_a^px * hx^py + e_a^py * hx^px]. *)
Definition impedance_element (a b : axis) : cvec :=
  let e_px := match a with X => _ex_px self src mesh f
                         | Y => _ey_px self src mesh f end in
  let e_py := match a with X => _ex_py self src mesh f
                         | Y => _ey_py self src mesh f end in
  match b with
  | X => (e_px [*] _hy_py self src mesh f) [-] (e_py [*] _hy_px self src mesh f)
  | Y => (vopp e_px [*] _hx_py self src mesh f)
         [+] (e_py [*] _hx_px self src mesh f)
  end.

End ImpedanceTable.

Section ForwardDerivative.

Import RxNSEM.

Context {Src : Type}.
Variable cls : rx_class.
Variable self : Rx.
Variable src : Src.
Variable mesh : BaseMesh.
Variable f : Fields Src.

(** The Schmucker correction [eval] subtracts: 1 on the diagonal
    orientations of the horizontal magnetic transfer, 0 otherwise. *)
Definition schmucker_of : R :=
  match cls with
  | Point_horizontalmagvar3D =>
      if String.eqb (orientation self) "xx" then 1
      else if String.eqb (orientation self) "yy" then 1
      else 0
  | _ => 0
  end.

(** The derivative of the numerator the forward branch of [evalDeriv]
    computes, class by class. *)
Definition numerator_deriv_of (v : cvec) : option cvec :=
  match cls with
  | Point_impedance1D => Some (vopp (_ex_u self src mesh f v))
  | Point_impedance3D => Point_impedance3D_ZijN_uV self src mesh f v
  | Point_tipper3D => Point_tipper3D_TijN_uV self src mesh f v
  | Point_horizontalmagvar3D =>
      option_map fst (Point_horizontalmagvar3D_MijN_uV self src mesh f v)
  end.

(** [Hd * (numerator_deriv - diag(ratio) * denominator_deriv)] *)
Definition quotient_rule (Hd N ratio D : cvec) : cvec :=
  Hd [*] (N [-] (ratio [*] D)).

End ForwardDerivative.

(** ** The signed combinations of the transfer functions

    A transfer function [T_cb] maps the horizontal magnetic field to the
    field component [c]: for the two polarizations,
    [c = T_cx * hx + T_cy * hy].  By Cramer's rule [T_cb] is a quotient of
    two determinants: the denominator is [det2 hx hy], and the numerator is
    that determinant with the column of [hb] replaced by [c].  The
    derivative of a determinant is given by the product rule. *)

Section SignedCombinations.

Import RxNSEM.

(** A field component at the receivers, for the two polarizations. *)
Record polarized : Type := mk_polarized { at_px : cvec; at_py : cvec }.

(** [p_px * q_py - p_py * q_px] *)
Definition det2 (p q : polarized) : cvec :=
  (at_px p [*] at_py q) [-] (at_py p [*] at_px q).

(** The product rule on [det2 p q], with [dp] and [dq] the derivatives of
    [p] and [q]. *)
Definition det2_deriv (p q dp dq : polarized) : cvec :=
  det2 dp q [+] det2 p dq.

(** The field components the receivers interpolate; [H_x_num] and
    [H_y_num] are the magnetic field at the numerator's locations. *)
Inductive field_component : Type :=
| E_x | E_y | H_x | H_y | H_z | H_x_num | H_y_num.

(** The component a transfer function maps to and its magnetic axis, by
    the class and the orientation. *)
Definition response_of (cls : rx_class) (o : string)
  : option (field_component * axis) :=
  match cls with
  | Point_impedance1D => None
  | Point_impedance3D =>
      if String.eqb o "xx" then Some (E_x, X)
      else if String.eqb o "xy" then Some (E_x, Y)
      else if String.eqb o "yx" then Some (E_y, X)
      else if String.eqb o "yy" then Some (E_y, Y)
      else None
  | Point_tipper3D =>
      if String.eqb o "zx" then Some (H_z, X)
      else if String.eqb o "zy" then Some (H_z, Y)
      else None
  | Point_horizontalmagvar3D =>
      if String.eqb o "xx" then Some (H_x_num, X)
      else if String.eqb o "xy" then Some (H_x_num, Y)
      else if String.eqb o "yx" then Some (H_y_num, X)
      else if String.eqb o "yy" then Some (H_y_num, Y)
      else None
  end.

Context {Src : Type}.
Variable cls : rx_class.
Variable self : Rx.
Variable src : Src.
Variable mesh : BaseMesh.
Variable f : Fields Src.

(** The interpolated fields. *)
Definition interpolated (c : field_component) : polarized :=
  match c with
  | E_x => mk_polarized (_ex_px self src mesh f) (_ex_py self src mesh f)
  | E_y => mk_polarized (_ey_px self src mesh f) (_ey_py self src mesh f)
  | H_x => mk_polarized (_hx_px self src mesh f) (_hx_py self src mesh f)
  | H_y => mk_polarized (_hy_px self src mesh f) (_hy_py self src mesh f)
  | H_z => mk_polarized (_hz_px self src mesh f) (_hz_py self src mesh f)
  | H_x_num =>
      mk_polarized (_hx_num_px self src mesh f) (_hx_num_py self src mesh f)
  | H_y_num =>
      mk_polarized (_hy_num_px self src mesh f) (_hy_num_py self src mesh f)
  end.

(** The interpolated derivatives of the fields in the direction [v]. *)
Definition interpolated_deriv (c : field_component) (v : cvec) : polarized :=
  match c with
  | E_x => mk_polarized (_ex_px_u self src mesh f v)
                        (_ex_py_u self src mesh f v)
  | E_y => mk_polarized (_ey_px_u self src mesh f v)
                        (_ey_py_u self src mesh f v)
  | H_x => mk_polarized (_hx_px_u self src mesh f v)
                        (_hx_py_u self src mesh f v)
  | H_y => mk_polarized (_hy_px_u self src mesh f v)
                        (_hy_py_u self src mesh f v)
  | H_z => mk_polarized (_hz_px_u self src mesh f v)
                        (_hz_py_u self src mesh f v)
  | H_x_num => mk_polarized (_hx_num_px_u self src mesh f v)
                            (_hx_num_py_u self src mesh f v)
  | H_y_num => mk_polarized (_hy_num_px_u self src mesh f v)
                            (_hy_num_py_u self src mesh f v)
  end.

(** Cramer's numerator of the transfer function to [c] for the magnetic
    axis [b], and its derivative in the direction [v]. *)
Definition cramer_numerator (c : field_component) (b : axis) : cvec :=
  match b with
  | X => det2 (interpolated c) (interpolated H_y)
  | Y => det2 (interpolated H_x) (interpolated c)
  end.

Definition cramer_numerator_deriv (c : field_component) (b : axis)
           (v : cvec) : cvec :=
  match b with
  | X => det2_deriv (interpolated c) (interpolated H_y)
                    (interpolated_deriv c v) (interpolated_deriv H_y v)
  | Y => det2_deriv (interpolated H_x) (interpolated c)
                    (interpolated_deriv H_x v) (interpolated_deriv c v)
  end.

(** The numerator of the ratio of a class: Cramer's numerator on the 3D
    classes, [-ex] on the 1D impedance. *)
Definition signed_numerator : option cvec :=
  match cls with
  | Point_impedance1D => Some (vopp (_ex self src mesh f))
  | _ => option_map (fun cb => cramer_numerator (fst cb) (snd cb))
                    (response_of cls (orientation self))
  end.

Definition signed_numerator_deriv (v : cvec) : option cvec :=
  match cls with
  | Point_impedance1D => Some (vopp (_ex_u self src mesh f v))
  | _ => option_map (fun cb => cramer_numerator_deriv (fst cb) (snd cb) v)
                    (response_of cls (orientation self))
  end.

(** The denominator of the ratio: the determinant of the horizontal
    magnetic field on the 3D classes, [hx] on the 1D impedance. *)
Definition denominator : cvec :=
  match cls with
  | Point_impedance1D => _hx self src mesh f
  | _ => det2 (interpolated H_x) (interpolated H_y)
  end.

Definition denominator_deriv (v : cvec) : cvec :=
  match cls with
  | Point_impedance1D => _hx_u self src mesh f v
  | _ => det2_deriv (interpolated H_x) (interpolated H_y)
                    (interpolated_deriv H_x v) (interpolated_deriv H_y v)
  end.

End SignedCombinations.

(** ** Expressions over complex vectors

    The elementwise operations truncate to the shorter operand, so two
    expressions over the same vectors are equal as soon as they are equal
    entry by entry. *)

Section VectorExpressions.

Inductive vexpr : Type :=
| VVar (i : nat)
| VAdd (a b : vexpr)
| VSub (a b : vexpr)
| VMul (a b : vexpr)
| VOpp (a : vexpr).

(** The vector an expression denotes. *)
Fixpoint vec_of (env : list cvec) (e : vexpr) : cvec :=
  match e with
  | VVar i => nth i env []
  | VAdd a b => vec_of env a [+] vec_of env b
  | VSub a b => vec_of env a [-] vec_of env b
  | VMul a b => vec_of env a [*] vec_of env b
  | VOpp a => vopp (vec_of env a)
  end.

(** One entry of it, from the entries of the vectors. *)
Fixpoint val_of (env : list C) (e : vexpr) : C :=
  match e with
  | VVar i => nth i env C0
  | VAdd a b => Cadd (val_of env a) (val_of env b)
  | VSub a b => Csub (val_of env a) (val_of env b)
  | VMul a b => Cmul (val_of env a) (val_of env b)
  | VOpp a => Copp (val_of env a)
  end.

(** Its length. *)
Fixpoint len_of (env : list cvec) (e : vexpr) : nat :=
  match e with
  | VVar i => length (nth i env [])
  | VAdd a b | VSub a b | VMul a b => Nat.min (len_of env a) (len_of env b)
  | VOpp a => len_of env a
  end.

(** The vectors an expression mentions. *)
Fixpoint vars_of (e : vexpr) : list nat :=
  match e with
  | VVar i => [i]
  | VAdd a b | VSub a b | VMul a b => vars_of a ++ vars_of b
  | VOpp a => vars_of a
  end.

(** Two expressions mention the same vectors. *)
Definition same_vars (e1 e2 : vexpr) : bool :=
  forallb (fun i => existsb (Nat.eqb i) (vars_of e2)) (vars_of e1)
  && forallb (fun i => existsb (Nat.eqb i) (vars_of e1)) (vars_of e2).

End VectorExpressions.


Section AdjointGradient.

Import RxNSEM.

Context {Src : Type}.


Variable cls : rx_class.
Variable self : Rx.
Variable src : Src.
Variable mesh : BaseMesh.
Variable f : Fields Src.



End AdjointGradient.





(** ** A small concrete survey

    One receiver location, one edge and two faces; the model space of the
    3D problem has [2 * nE = 2] degrees of freedom. *)

Section ExampleSurvey.

Import RxNSEM.

(** The matrix with the given dense rows. *)
Definition dense (rows : list (list R)) : spmatrix :=
  {| nrows := length rows; ncols := length (nth 0 rows []);
     entry := fun i j => nth j (nth i rows []) 0 |}.

(** A derivative of the fields given by a real matrix: the matrix applied
    to [v], and its transpose when [adjoint]. *)
Definition matrix_deriv (M : spmatrix) (v : cvec) (adjoint : bool) : cvec :=
  if adjoint then mulPC (transpose M) v else mulPC M v.

Definition example_mesh : BaseMesh :=
  mk_mesh 1 (fun _ kind =>
    if String.eqb kind "Fx" then dense [[1; 0]]
    else if String.eqb kind "Fy" then dense [[0; 1]]
    else if String.eqb kind "Fz" then dense [[1; 1]]
    else dense [[1]]).

Definition example_fields_with (b_px b_py : cvec) : Fields unit :=
  mk_fields unit
    (fun _ name =>
       if String.eqb name "e_px" then [C1]
       else if String.eqb name "e_py" then [C0]
       else if String.eqb name "b_px" then b_px
       else if String.eqb name "b_py" then b_py
       else if String.eqb name "e_1d" then [C1; C0]
       else [RtoC mu_0])
    (fun _ => matrix_deriv (dense [[1; 0]]))
    (fun _ => matrix_deriv (dense [[0; 1]]))
    (fun _ => matrix_deriv (dense [[1; 0]; [2; 0]]))
    (fun _ => matrix_deriv (dense [[0; 1]; [0; 3]]))
    (fun _ => matrix_deriv (dense [[1; 0]; [0; 1]]))
    (fun _ => matrix_deriv (dense [[1; 1]])).

(** Fields with [hx_px = 0], [hx_py = 1], [hy_px = 1], [hy_py = 0]. *)
Definition example_fields : Fields unit :=
  example_fields_with [C0; RtoC mu_0] [RtoC mu_0; C0].

(** Fields with [hx_px = 1], [hx_py = 0], [hy_px = 0], [hy_py = 1]. *)
Definition example_fields_diag : Fields unit :=
  example_fields_with [RtoC mu_0; C0] [C0; RtoC mu_0].

Definition example_rx (o : string) (c : component_t) : Rx :=
  mk_rx (Locs2 [[0; 0; 0]]) o c.

(** A receiver with a pair of locations, [locs] of shape [(1, 3, 2)]: the
    numerator's and the denominator's location are the same point. *)
Definition example_rx_pair (o : string) (c : component_t) : Rx :=
  mk_rx (Locs3 [[0; 0; 0]] [[0; 0; 0]]) o c.

End ExampleSurvey.

(** ** Vocabulary of the further properties *)

Section MassVocabulary.

Import Cyl1DMesh.

(** [c * a] on an array. *)
Definition scale_array (c : R) (a : ndarray) : ndarray :=
  {| shape := shape a; flat := map (Rmult c) (flat a) |}.

(** [rc] is [c] times [r]: the same error, or a matrix of the same
    dimensions whose entries are [c] times those of [r]. *)
Definition scaled (c : R) (r rc : result spmatrix) : Prop :=
  match r, rc with
  | Ok M, Ok Mc =>
      nrows Mc = nrows M /\ ncols Mc = ncols M
      /\ forall i j, entry Mc i j = c * entry M i j
  | Raise e, Raise e' => e = e'
  | _, _ => False
  end.

(** A material property [getMass] accepts and that is positive in every
    cell. *)
Definition positive_material (m : t) (materialProp : material) : Prop :=
  match materialProp with
  | MatNone => True
  | MatFloat c => 0 < c
  | MatArray a =>
      wf_ndarray a
      /\ (size a = nC m \/ shape a = [nCz m])
      /\ Forall (fun x => 0 < x) (flat a)
  end.

(** [ndgrid] lists the points with the first coordinate running fastest,
    as [np.kron] orders the cells in [vol] and the faces in [area]: the
    first column of the grid of [vr] and [vz] is [vr], once for every entry
    of [vz]. *)
Definition r_fastest (ndgrid : list (list R) -> list (list R)) : Prop :=
  forall vr vz,
    map (fun row => nth 0 row 0) (ndgrid [vr; vz])
    = concat (repeat vr (length vz)).

(** A grid function with that order. *)
Definition ndgrid_rows (vs : list (list R)) : list (list R) :=
  flat_map (fun z => map (fun r => [r; z]) (nth 0 vs [])) (nth 1 vs []).

(** The circulation of the edge field [e] along the edge at the node
    [(jz, jr)]: the length of the circle times the field. *)
Definition circulation (m : t) (e : list R) (jz jr : nat) : R :=
  2 * PI * nth jr (vectorNr m) 0 * nth (jz * nCr m + jr) e 0.

(** The edge field of a rigid rotation of rate [a]: [a * r] at every
    node. *)
Definition rigid_rotation (m : t) (a : R) : list R :=
  concat (repeat (map (Rmult a) (vectorNr m)) (nNz m)).

End MassVocabulary.

Section TransferVocabulary.

Import RxNSEM.

Context {Src : Type}.

(** The receiver with another [orientation]. *)
Definition with_orientation (self : Rx) (o : string) : Rx :=
  mk_rx (locs self) o (component self).

(** The mesh interpolates to [n] values at the receiver's locations:
    every interpolation matrix there has [n] rows. *)
Definition interpolation_rows (self : Rx) (mesh : BaseMesh) (n : nat)
  : Prop :=
  forall name,
    nrows (getInterpolationMat mesh (_loc_numerator self) name) = n
    /\ nrows (getInterpolationMat mesh (_loc_denominator self) name) = n.

(** [z[k]] *)
Definition cnth (k : nat) (z : cvec) : C := nth k z C0.

(** The determinant [hx_px*hy_py - hx_py*hy_px] that [_Hd] inverts. *)
Definition determinant (self : Rx) (src : Src) (mesh : BaseMesh)
           (f : Fields Src) : cvec :=
  (_hx_px self src mesh f [*] _hy_py self src mesh f)
  [-] (_hx_py self src mesh f [*] _hy_px self src mesh f).

(** The complex array [eval(..., return_complex=True)] returns is [z]. *)
Definition evaluates_to (cls : rx_class) (self : Rx) (src : Src)
           (mesh : BaseMesh) (f : Fields Src) (z : cvec) : Prop :=
  eval cls self src mesh f true = Ok (CplxArr z).

(** The forward mode of a derivative [D(v, adjoint)] of the fields is
    additive on the model space of [nU] entries, into one space. *)
Definition additive_forward (nU : nat) (D : cvec -> bool -> cvec) : Prop :=
  (exists k, forall v, length v = nU -> length (D v false) = k)
  /\ forall v w, length v = nU -> length w = nU ->
       D (v [+] w) false = D v false [+] D w false.

Definition additive_fields (f : Fields Src) (src : Src) (nU : nat) : Prop :=
  additive_forward nU (_e_pxDeriv_u f src)
  /\ additive_forward nU (_e_pyDeriv_u f src)
  /\ additive_forward nU (_b_pxDeriv_u f src)
  /\ additive_forward nU (_b_pyDeriv_u f src)
  /\ additive_forward nU (_eDeriv_u f src)
  /\ additive_forward nU (_bDeriv_u f src).

End TransferVocabulary.

Section DataVocabulary.

Import Data.

(** The number of data of a list of receivers, and of a list of sources. *)
Definition rx_total (rxs : list Rx) : nat :=
  fold_right (fun rx n => (rx_nD rx + n)%nat) 0%nat rxs.

Definition src_total (srcs : list Src) : nat :=
  fold_right (fun src n => (rx_total (rxList src) + n)%nat) 0%nat srcs.

(** No source is listed twice in the survey, and no receiver twice in a
    source. *)
Definition distinct_objects (svy : Survey) : Prop :=
  NoDup (srcList svy) /\ forall src, In src (srcList svy) -> NoDup (rxList src).

(** [survey.nD] is the number of data of the survey's receivers. *)
Definition consistent_nD (svy : Survey) : Prop :=
  survey_nD svy = src_total (srcList svy).

(** The dictionary that gives every receiver the next [rx.nD] indices, in
    the order of the survey, from [start] on. *)
Fixpoint rx_ranges (rxs : list Rx) (start : nat) : list (Rx * list nat) :=
  match rxs with
  | [] => []
  | rx :: rxs' =>
      (rx, seq start (rx_nD rx)) :: rx_ranges rxs' (start + rx_nD rx)
  end.

Fixpoint src_ranges (srcs : list Src) (start : nat) : data_dict :=
  match srcs with
  | [] => []
  | src :: srcs' =>
      (src, rx_ranges (rxList src) start)
      :: src_ranges srcs' (start + rx_total (rxList src))
  end.

(** The indices of a receiver in a dictionary, none when it has no entry. *)
Definition indices (d : data_dict) (src : Src) (rx : Rx) : list nat :=
  match inds_of d src rx with
  | Ok inds => inds
  | Raise _ => []
  end.

(** [Data(survey=svy)]: an object whose only attribute set is the survey. *)
Definition new_data (svy : Survey) : result t :=
  set_survey {| dobs := None;
                standard_deviation := None;
                noise_floor := None;
                survey := None;
                _data_dict := None |} svy.

(** The key [[src, rx]]. *)
Definition key_of (src : Src) (rx : Rx) : key :=
  KeyTuple [OSrc src; ORx rx].

(** The keys on which [_ensureCorrectKey] compares an array of more than
    one element with an object: a pair whose first element is such an
    array, on a survey that has a source; and a pair of a source of the
    survey that has a receiver with such an array. *)
Definition compares_array (svy : Survey) (k : key) : Prop :=
  exists a b,
    k = KeyTuple [a; b]
    /\ ((a = OArray /\ srcList svy <> [])
        \/ (exists src, a = OSrc src /\ In src (srcList svy)
                        /\ b = OArray /\ rxList src <> [])).

(** The number of data of the receivers listed before [rx], and of the
    sources listed before [src]. *)
Fixpoint rx_offset (rxs : list Rx) (rx : Rx) : nat :=
  match rxs with
  | [] => 0
  | r :: rxs' =>
      if Rx_eq_dec rx r then 0 else (rx_nD r + rx_offset rxs' rx)%nat
  end.

Fixpoint src_offset (srcs : list Src) (src : Src) : nat :=
  match srcs with
  | [] => 0
  | s :: srcs' =>
      if Src_eq_dec src s then 0
      else (rx_total (rxList s) + src_offset srcs' src)%nat
  end.

(** A data object on the survey [svy]: the survey was set, so the observer
    built the dictionary, and the observed data, once there, have
    [survey.nD] entries. *)
Definition on_survey (self : t) (svy : Survey) : Prop :=
  survey self = Some svy
  /\ (exists d, _create_data_dict svy = Ok d /\ _data_dict self = Some d)
  /\ match dobs self with
     | Some arr => length arr = survey_nD svy
     | None => True
     end.

(** Some entry of the array is a number. *)
Definition has_number (a : list npfloat) : Prop :=
  exists x, In (Fin x) a.

(** A survey of two sources that share a receiver: 2 and 3 data for the
    first source, 2 for the second. *)
Definition rx_a : Rx := mk_rx 0 2.
Definition rx_b : Rx := mk_rx 1 3.
Definition src_a : Src := mk_src 0 [rx_a; rx_b].
Definition src_b : Src := mk_src 1 [rx_a].
Definition example_data_survey : Survey := mk_survey [src_a; src_b] 7.

(** A data object on it, with no data and with the data of [rx_b] for
    [src_a]. *)
Definition example_data (dobs : option (list npfloat)) : t :=
  {| dobs := dobs;
     standard_deviation := None;
     noise_floor := None;
     survey := Some example_data_survey;
     _data_dict := Some (src_ranges [src_a; src_b] 0) |}.

Definition example_dobs : list npfloat :=
  [NaN; NaN; Fin 1; Fin 2; Fin 3; NaN; NaN].

End DataVocabulary.

(** * Properties of the mesh *)

Section ListFacts.

Lemma np_sum_app (a b : list R) : np_sum (a ++ b) = np_sum a + np_sum b.
Proof.
  induction a as [|x a IH]; simpl.
  - lra.
  - rewrite IH. lra.
Qed.

Lemma np_sum_scale (c : R) (b : list R) :
  np_sum (map (Rmult c) b) = c * np_sum b.
Proof.
  induction b as [|y b IH]; simpl.
  - lra.
  - rewrite IH. lra.
Qed.

Lemma np_sum_kron1 (a b : list R) :
  np_sum (kron1 a b) = np_sum a * np_sum b.
Proof.
  unfold kron1.
  induction a as [|x a IH]; simpl.
  - lra.
  - rewrite np_sum_app, np_sum_scale, IH. lra.
Qed.

Lemma Forall_kron1 (P : R -> Prop) (a b : list R) :
  (forall x y, In x a -> In y b -> P (x * y)) -> Forall P (kron1 a b).
Proof.
  intros H. apply Forall_forall. intros z Hz.
  unfold kron1 in Hz. apply in_flat_map in Hz as [x [Hx Hz]].
  apply in_map_iff in Hz as [y [<- Hy]]. now apply H.
Qed.

(** The last element of a running sum is the total. *)
Lemma cumsum_from_last (l : list R) (acc d : R) :
  last (cumsum_from acc l) d =
  match l with [] => d | _ :: _ => acc + np_sum l end.
Proof.
  revert acc. induction l as [|x l IH]; intros acc.
  - reflexivity.
  - destruct l as [|y l].
    + simpl. lra.
    + change (cumsum_from acc (x :: y :: l))
        with ((acc + x) :: cumsum_from (acc + x) (y :: l)).
      change (cumsum_from (acc + x) (y :: l))
        with ((acc + x + y) :: cumsum_from (acc + x + y) l) at 1.
      change (last (?a :: ?b :: ?c) d) with (last (b :: c) d).
      change ((acc + x + y) :: cumsum_from (acc + x + y) l)
        with (cumsum_from (acc + x) (y :: l)).
      rewrite IH. simpl. lra.
Qed.

Lemma cumsum_from_length (l : list R) (acc : R) :
  length (cumsum_from acc l) = length l.
Proof.
  revert acc. induction l as [|x l IH]; intros acc; simpl; auto.
Qed.

(** Squares of consecutive radii telescope. *)
Lemma annulus_sum (l : list R) (prev : R) :
  np_sum (zip_with (fun r r' => PI * (r ^ 2 - r' ^ 2)) l (prev :: removelast l))
  = PI * ((last l prev) ^ 2 - prev ^ 2).
Proof.
  revert prev. induction l as [|x l IH]; intros prev.
  - simpl. lra.
  - destruct l as [|y l].
    + simpl. lra.
    + change (removelast (x :: y :: l)) with (x :: removelast (y :: l)).
      change (last (x :: y :: l) prev) with (last (y :: l) prev).
      set (g := fun r r' : R => PI * (r ^ 2 - r' ^ 2)) in *.
      change (np_sum (zip_with g (x :: y :: l) (prev :: x :: removelast (y :: l))))
        with (g x prev + np_sum (zip_with g (y :: l) (x :: removelast (y :: l)))).
      rewrite IH. unfold g.
      assert (E : last (y :: l) x = last (y :: l) prev).
      { clear. revert y. induction l as [|z l IH]; intros y; [reflexivity|].
        change (last (y :: z :: l) ?d) with (last (z :: l) d). apply IH. }
      rewrite E. lra.
Qed.

(** Running sums of positive widths increase, from a value above [acc]. *)
Lemma cumsum_from_increasing (l : list R) (acc : R) :
  Forall (fun h => 0 < h) l ->
  Forall (fun r => acc < r) (cumsum_from acc l).
Proof.
  revert acc. induction l as [|x l IH]; intros acc H; simpl.
  - constructor.
  - inversion H as [|? ? Hx Hl]; subst. constructor; [lra|].
    specialize (IH (acc + x) Hl).
    eapply Forall_impl; [|exact IH]. simpl. intros; lra.
Qed.

Lemma fold_left_Rmax_cumsum (l : list R) (acc m : R) :
  Forall (fun h => 0 < h) l -> m <= acc ->
  fold_left Rmax (cumsum_from acc l) m =
  match l with [] => m | _ :: _ => acc + np_sum l end.
Proof.
  revert acc m. induction l as [|x l IH]; intros acc m H Hm.
  - reflexivity.
  - inversion H as [|? ? Hx Hl]; subst.
    cbn [cumsum_from fold_left].
    rewrite (Rmax_right m (acc + x)) by lra.
    rewrite (IH (acc + x) (acc + x) Hl) by lra.
    destruct l; simpl; lra.
Qed.

End ListFacts.

Section MeshGeometry.

Import Cyl1DMesh.

Lemma annulus_from_pos (l : list R) (acc : R) :
  0 <= acc -> Forall (fun h => 0 < h) l ->
  Forall (fun a => 0 < a)
    (zip_with (fun r r' => PI * (r ^ 2 - r' ^ 2))
       (cumsum_from acc l) (acc :: removelast (cumsum_from acc l))).
Proof.
  revert acc. induction l as [|x l IH]; intros acc Hacc H.
  - constructor.
  - inversion H as [|? ? Hx Hl]; subst.
    assert (Hpi := PI_RGT_0).
    destruct l as [|y l].
    + simpl. constructor; [|constructor].
      apply Rmult_lt_0_compat; [lra|nra].
    + change (cumsum_from acc (x :: y :: l))
        with ((acc + x) :: cumsum_from (acc + x) (y :: l)).
      change (cumsum_from (acc + x) (y :: l))
        with ((acc + x + y) :: cumsum_from (acc + x + y) l) at 2.
      change (removelast (?a :: ?b :: ?c)) with (a :: removelast (b :: c)).
      change ((acc + x + y) :: cumsum_from (acc + x + y) l)
        with (cumsum_from (acc + x) (y :: l)).
      cbn [zip_with]. constructor.
      { apply Rmult_lt_0_compat; [lra|nra]. }
      apply IH; [lra|assumption].
Qed.

Lemma annulus_pos (m : t) :
  Forall (fun h => 0 < h) (hr m) -> Forall (fun a => 0 < a) (annulus m).
Proof.
  intros H. unfold annulus, vectorNr, cumsum.
  apply annulus_from_pos; [lra|assumption].
Qed.

Lemma annulus_total (m : t) :
  hr m <> [] -> np_sum (annulus m) = PI * (np_sum (hr m)) ^ 2.
Proof.
  intros Hne. unfold annulus, vectorNr, cumsum.
  rewrite annulus_sum, cumsum_from_last.
  destruct (hr m); [congruence|]. lra.
Qed.

Lemma np_max_vectorNr (m : t) :
  valid m -> np_max (vectorNr m) = Ok (np_sum (hr m)).
Proof.
  intros (Hne & Hr & _). unfold vectorNr, cumsum.
  destruct (hr m) as [|x l]; [congruence|].
  inversion Hr as [|? ? Hx Hl]; subst.
  cbn [cumsum_from np_max]. f_equal.
  rewrite fold_left_Rmax_cumsum by (assumption || lra).
  destruct l; simpl; lra.
Qed.

Lemma vol_total (m : t) :
  hr m <> [] -> np_sum (vol m) = PI * (np_sum (hr m)) ^ 2 * np_sum (hz m).
Proof.
  intros Hne. unfold vol. rewrite np_sum_kron1, annulus_total by assumption.
  lra.
Qed.

Lemma vol_pos (m : t) : valid m -> Forall (fun v => 0 < v) (vol m).
Proof.
  intros (_ & Hr & Hz). unfold vol. apply Forall_kron1.
  intros x y Hx Hy.
  pose proof (proj1 (Forall_forall _ _) Hz x Hx).
  pose proof (proj1 (Forall_forall _ _) (annulus_pos m Hr) y Hy).
  simpl in *. nra.
Qed.

Lemma area_pos (m : t) : valid m -> Forall (fun a => 0 < a) (area m).
Proof.
  intros (_ & Hr & Hz). unfold area. apply Forall_app. split.
  - apply Forall_kron1. intros x y Hx Hy.
    pose proof (proj1 (Forall_forall _ _) Hz x Hx) as Hx0.
    apply in_map_iff in Hy as [r [<- Hr']].
    pose proof (proj1 (Forall_forall _ _)
                  (cumsum_from_increasing (hr m) 0 Hr) r Hr') as Hr0.
    assert (Hpi := PI_RGT_0). simpl in *.
    apply Rmult_lt_0_compat; [assumption|].
    apply Rmult_lt_0_compat; [lra|assumption].
  - apply Forall_kron1. intros x y Hx Hy.
    unfold ones_like, ones in Hx. apply repeat_spec in Hx. subst x.
    pose proof (proj1 (Forall_forall _ _) (annulus_pos m Hr) y Hy).
    simpl in *. lra.
Qed.

End MeshGeometry.

Section MeshClaims.

Import Cyl1DMesh.

Lemma scenario_mesh_valid : valid scenario_mesh.
Proof.
  unfold valid, scenario_mesh; simpl. split; [discriminate|].
  split; repeat constructor; lra.
Qed.

(** C6.  For every mesh with at least one radial cell and strictly positive
    widths: [nN = nNr*nNz], [nF = nFr+nFz], the volumes add up to the volume
    of the cylinder, [pi * max(vectorNr)^2 * sum(hz)], and every face area
    and every cell volume is strictly positive.  The mesh built from
    [hr=[1,1,1]], [hz=[2,2]], [z0=0] has [nCr=3], [nCz=2], [nC=6], [nNr=3],
    [nNz=3], [nN=9] and volumes adding up to [36*pi]. *)
Theorem mesh_invariants (m : t) :
  valid m ->
  (nN m = nNr m * nNz m /\ nF m = nFr m + nFz m)%nat
  /\ (exists rmax, np_max (vectorNr m) = Ok rmax
                   /\ np_sum (vol m) = PI * rmax ^ 2 * np_sum (hz m))
  /\ Forall (fun a => 0 < a) (area m)
  /\ Forall (fun v => 0 < v) (vol m)
  /\ (init scenario_h (Some (PyArray (array1 [0]))) = Ok scenario_mesh
      /\ init scenario_h None = Ok scenario_mesh
      /\ (nCr scenario_mesh = 3 /\ nCz scenario_mesh = 2
          /\ nC scenario_mesh = 6 /\ nNr scenario_mesh = 3
          /\ nNz scenario_mesh = 3 /\ nN scenario_mesh = 9)%nat
      /\ np_sum (vol scenario_mesh) = 36 * PI).
Proof.
  intros Hv. split; [split; reflexivity|].
  split.
  { exists (np_sum (hr m)). split; [now apply np_max_vectorNr|].
    apply vol_total. apply Hv. }
  split; [now apply area_pos|].
  split; [now apply vol_pos|].
  split; [reflexivity|]. split; [reflexivity|].
  split; [repeat split; reflexivity|].
  rewrite vol_total by (simpl; discriminate). simpl. lra.
Qed.

Lemma mesh_invariants_witness :
  valid scenario_mesh
  /\ np_sum (vol scenario_mesh) = 36 * PI
  /\ Forall (fun v => 0 < v) (vol scenario_mesh).
Proof.
  pose proof (mesh_invariants scenario_mesh scenario_mesh_valid) as H.
  split; [exact scenario_mesh_valid|].
  split; [apply H|apply H].
Defined.

(** C10.  For every mesh with at least one radial cell and strictly positive
    widths, there are as many radial nodes as radial cells and as many edges
    as nodes; no node lies on the axis, since [vectorNr = cumsum(hr)] starts
    at [hr[0] > 0]; and the first radial cell centre [vectorCCr[0]] is 0, on
    the axis, not [hr[0]/2]. *)
Theorem no_node_on_axis (m : t) :
  valid m ->
  nNr m = nCr m /\ nE m = nN m
  /\ vectorNr m = cumsum (hr m)
  /\ nth 0 (vectorNr m) 0 = nth 0 (hr m) 0
  /\ 0 < nth 0 (hr m) 0
  /\ Forall (fun r => 0 < r) (vectorNr m)
  /\ nth 0 (vectorCCr m) 1 = 0
  /\ nth 0 (vectorCCr m) 1 <> nth 0 (hr m) 0 / 2.
Proof.
  intros (Hne & Hr & Hz).
  split; [reflexivity|]. split; [reflexivity|]. split; [reflexivity|].
  assert (H0 : 0 < nth 0 (hr m) 0).
  { destruct (hr m) as [|x l]; [congruence|]. now inversion Hr. }
  split.
  { unfold vectorNr, cumsum. destruct (hr m) as [|x l]; [congruence|].
    simpl. lra. }
  split; [assumption|].
  split; [now apply cumsum_from_increasing|].
  split; [reflexivity|].
  simpl. lra.
Qed.

Lemma no_node_on_axis_witness :
  valid scenario_mesh
  /\ nNr scenario_mesh = nCr scenario_mesh
  /\ nth 0 (vectorCCr scenario_mesh) 1 = 0.
Proof.
  pose proof (no_node_on_axis scenario_mesh scenario_mesh_valid) as H.
  split; [exact scenario_mesh_valid|]. split; apply H.
Defined.

End MeshClaims.

Section MeshConstruction.

Import Cyl1DMesh.

Lemma init_ok_inv (h : list pyobj) (z0 : option pyobj) (m : t) :
  init h z0 = Ok m ->
  exists a b,
    h = [PyArray a; PyArray b]
    /\ length (shape a) = 1%nat /\ length (shape b) = 1%nat
    /\ z0_ok z0
    /\ m = {| hr := flat a; hz := flat b; z0 := z0_value z0 |}.
Proof.
  unfold init.
  destruct h as [|o1 [|o2 [|o3 h']]]; try discriminate.
  cbn [length Nat.eqb assert bind].
  assert (Hz : forall k : result t,
             (_ <- match z0 with
                   | Some z => n <- size_of z ;;
                               assert (n =? 1)%nat "z0.size must equal 1"
                   | None => Ok tt
                   end ;; k) = Ok m -> z0_ok z0 /\ k = Ok m).
  { intros k. unfold z0_ok. destruct z0 as [[z|l|x]|]; simpl; try discriminate.
    - destruct (size z =? 1)%nat eqn:E; simpl; try discriminate.
      apply Nat.eqb_eq in E. intros ->. split; [right; eauto|reflexivity].
    - intros ->. split; [now left|reflexivity]. }
  intros H. apply Hz in H as [Hz0 H]. clear Hz.
  destruct o1 as [a|l|x]; try discriminate.
  cbn [check_h] in H.
  destruct (length (shape a) =? 1)%nat eqn:Ea; try discriminate.
  destruct o2 as [b|l|x]; try discriminate.
  cbn [check_h assert bind] in H.
  destruct (length (shape b) =? 1)%nat eqn:Eb; try discriminate.
  cbn [check_h assert bind map nth array_of mkvc] in H.
  apply Nat.eqb_eq in Ea, Eb.
  exists a, b. repeat split; auto.
  inversion H. reflexivity.
Qed.

Lemma init_ok_intro (a b : ndarray) (z0 : option pyobj) :
  length (shape a) = 1%nat -> length (shape b) = 1%nat -> z0_ok z0 ->
  init [PyArray a; PyArray b] z0
  = Ok {| hr := flat a; hz := flat b; z0 := z0_value z0 |}.
Proof.
  intros Ha Hb Hz. unfold init. cbn [length Nat.eqb assert bind].
  assert (E : match z0 with
              | Some z => n <- size_of z ;;
                          assert (n =? 1)%nat "z0.size must equal 1"
              | None => Ok tt
              end = Ok tt).
  { destruct Hz as [->|[z [-> Hs]]]; [reflexivity|].
    simpl. rewrite Hs. reflexivity. }
  rewrite E. cbn [bind check_h]. rewrite Ha, Hb. reflexivity.
Qed.

(** Without a malformed [z0], a refused construction is a failed assertion. *)
Lemma init_refused (h : list pyobj) (z0 : option pyobj) :
  z0 = None \/ (exists z, z0 = Some (PyArray z)) ->
  (exists m, init h z0 = Ok m) \/ (exists msg, init h z0 = Raise (AssertionError msg)).
Proof.
  intros Hz. unfold init.
  destruct h as [|o1 [|o2 [|o3 h']]];
    try (right; eexists; reflexivity).
  cbn [length Nat.eqb assert bind].
  assert (E : (exists msg, match z0 with
              | Some z => n <- size_of z ;;
                          assert (n =? 1)%nat "z0.size must equal 1"
              | None => Ok tt
              end = Raise (AssertionError msg)) \/
              match z0 with
              | Some z => n <- size_of z ;;
                          assert (n =? 1)%nat "z0.size must equal 1"
              | None => Ok tt
              end = Ok tt).
  { destruct Hz as [->|[z ->]]; [now right|].
    simpl. destruct (size z =? 1)%nat; [now right|left; eexists; reflexivity]. }
  destruct E as [[msg E]|E]; rewrite E; cbn [bind].
  { right; eexists; reflexivity. }
  destruct o1 as [a|l|x]; try (right; eexists; reflexivity).
  cbn [check_h].
  destruct (length (shape a) =? 1)%nat; try (right; eexists; reflexivity).
  destruct o2 as [b|l|x]; try (right; eexists; reflexivity).
  cbn [check_h assert bind].
  destruct (length (shape b) =? 1)%nat; try (right; eexists; reflexivity).
  left. eexists. reflexivity.
Qed.

(** C8.  Construction succeeds exactly when [h] is two one-dimensional
    arrays and [z0], when given, is an array of size 1; otherwise it raises
    (an assertion failure, when [z0] is absent or an array).  The mesh built
    has [nCr = len(hr)] and [nCz = len(hz)]; when [z0] is omitted the origin
    is 0 and [vectorNz] starts at 0. *)
Theorem init_contract (h : list pyobj) (z0 : option pyobj) :
  ((exists m, init h z0 = Ok m) <->
   (exists a b, h = [PyArray a; PyArray b]
                /\ length (shape a) = 1%nat /\ length (shape b) = 1%nat)
   /\ z0_ok z0)
  /\ ((z0 = None \/ exists z, z0 = Some (PyArray z)) ->
      (forall m, init h z0 <> Ok m) ->
      exists msg, init h z0 = Raise (AssertionError msg))
  /\ (forall m a b, init h z0 = Ok m -> h = [PyArray a; PyArray b] ->
        hr m = flat a /\ hz m = flat b
        /\ nCr m = size a /\ nCz m = size b)
  /\ (forall m, init h None = Ok m ->
        Cyl1DMesh.z0 m = 0 /\ nth 0 (vectorNz m) 1 = 0).
Proof.
  split; [split|split; [|split]].
  - intros [m H]. apply init_ok_inv in H as (a & b & -> & Ha & Hb & Hz & _).
    split; eauto 6.
  - intros [(a & b & -> & Ha & Hb) Hz]. eexists. now apply init_ok_intro.
  - intros Hz Hno. destruct (init_refused h z0 Hz) as [[m H]|H]; [|exact H].
    now apply Hno in H.
  - intros m a b H E. apply init_ok_inv in H as (a' & b' & E' & _ & _ & _ & ->).
    rewrite E in E'. inversion E'; subst. repeat split.
  - intros m H. apply init_ok_inv in H as (a & b & _ & _ & _ & _ & ->).
    split; [reflexivity|]. unfold vectorNz. simpl. lra.
Qed.

End MeshConstruction.

(** * Sums over index ranges and sparse matrices *)

Section BigSum.

Lemma big_sum_ext (f g : nat -> R) (n : nat) :
  (forall j, (j < n)%nat -> f j = g j) -> big_sum f n = big_sum g n.
Proof.
  induction n as [|n IH]; intros H; simpl.
  - reflexivity.
  - rewrite IH by (intros; apply H; lia). rewrite H by lia. reflexivity.
Qed.

Lemma big_sum_zero (n : nat) : big_sum (fun _ => 0) n = 0.
Proof. induction n; simpl; lra. Qed.

Lemma big_sum_plus (f g : nat -> R) (n : nat) :
  big_sum (fun j => f j + g j) n = big_sum f n + big_sum g n.
Proof. induction n as [|n IH]; simpl; [|rewrite IH]; lra. Qed.

Lemma big_sum_scale_l (c : R) (f : nat -> R) (n : nat) :
  big_sum (fun j => c * f j) n = c * big_sum f n.
Proof. induction n as [|n IH]; simpl; [|rewrite IH]; lra. Qed.

Lemma big_sum_scale_r (c : R) (f : nat -> R) (n : nat) :
  big_sum (fun j => f j * c) n = big_sum f n * c.
Proof. induction n as [|n IH]; simpl; [|rewrite IH]; lra. Qed.

Lemma big_sum_split (f : nat -> R) (n m : nat) :
  big_sum f (n + m) = big_sum f n + big_sum (fun j => f (n + j)%nat) m.
Proof.
  induction m as [|m IH].
  - rewrite Nat.add_0_r. simpl. lra.
  - rewrite Nat.add_succ_r. simpl. rewrite IH. lra.
Qed.

Lemma big_sum_prod (f : nat -> R) (m n : nat) :
  big_sum f (m * n)
  = big_sum (fun a => big_sum (fun b => f (a * n + b)%nat) n) m.
Proof.
  induction m as [|m IH].
  - reflexivity.
  - rewrite Nat.mul_succ_l, big_sum_split, IH. reflexivity.
Qed.

(** A function that vanishes away from [k] sums to its value at [k]. *)
Lemma big_sum_single (f : nat -> R) (k n : nat) :
  (forall j, (j < n)%nat -> j <> k -> f j = 0) ->
  big_sum f n = if (k <? n)%nat then f k else 0.
Proof.
  induction n as [|n IH]; intros H.
  - reflexivity.
  - simpl big_sum. rewrite IH by (intros; apply H; lia).
    destruct (Nat.eq_dec n k) as [->|Hne].
    + rewrite (proj2 (Nat.ltb_ge k k)) by lia.
      rewrite (proj2 (Nat.ltb_lt k (S k))) by lia. lra.
    + rewrite (H n) by lia.
      destruct (Nat.ltb_spec k n), (Nat.ltb_spec k (S n));
        try (exfalso; lia); lra.
Qed.

Lemma big_sum_swap (f : nat -> nat -> R) (m n : nat) :
  big_sum (fun i => big_sum (fun j => f i j) n) m
  = big_sum (fun j => big_sum (fun i => f i j) m) n.
Proof.
  induction m as [|m IH]; simpl.
  - now rewrite big_sum_zero.
  - rewrite IH, <- big_sum_plus. reflexivity.
Qed.

End BigSum.

Section KronFacts.

Lemma div_mod_pair (a b n : nat) :
  (b < n)%nat -> ((a * n + b) / n = a /\ (a * n + b) mod n = b)%nat.
Proof.
  intros Hb. split.
  - rewrite Nat.div_add_l by lia. rewrite Nat.div_small by lia. lia.
  - rewrite Nat.add_comm, Nat.Div0.mod_add. now apply Nat.mod_small.
Qed.

(** The sum of a column of [kron A B] is the product of the sums of the
    columns of [A] and of [B] it is made of. *)
Lemma kron_column_sum (A B : spmatrix) (i : nat) :
  big_sum (fun j => entry (kron A B) j i) (nrows (kron A B))
  = big_sum (fun a => entry A a (i / ncols B)) (nrows A)
    * big_sum (fun b => entry B b (i mod ncols B)) (nrows B).
Proof.
  cbn [kron nrows entry]. rewrite big_sum_prod.
  rewrite <- big_sum_scale_r. apply big_sum_ext. intros a Ha.
  rewrite <- big_sum_scale_l. apply big_sum_ext. intros b Hb.
  destruct (div_mod_pair a b (nrows B) Hb) as [-> ->]. reflexivity.
Qed.

Lemma nth_repeat_lt {A : Type} (x d : A) (n j : nat) :
  (j < n)%nat -> nth j (repeat x n) d = x.
Proof.
  revert j. induction n as [|n IH]; intros j Hj; [lia|].
  destruct j; simpl; [reflexivity|apply IH; lia].
Qed.

Lemma nth_half_ones (n j : nat) :
  (j < n)%nat -> nth j (map (Rmult (1 / 2)) (ones n)) 0 = 1 / 2.
Proof.
  intros Hj. unfold ones.
  rewrite (nth_indep _ 0 (1 / 2 * 1)) by (now rewrite length_map, repeat_length).
  rewrite map_nth, nth_repeat_lt by assumption. lra.
Qed.

(** A matrix applied to a constant vector: every entry of the result is the
    constant times the sum of the row. *)
Lemma matvec_constant (A : spmatrix) (c : R) :
  matvec A (repeat c (ncols A))
  = Ok (map (fun i => c * big_sum (entry A i) (ncols A)) (seq 0 (nrows A))).
Proof.
  unfold matvec. rewrite repeat_length, Nat.eqb_refl. f_equal.
  apply map_ext. intros i. rewrite <- big_sum_scale_l.
  apply big_sum_ext. intros j Hj. rewrite nth_repeat_lt by assumption. lra.
Qed.

Lemma map_seq_constant {A : Type} (f : nat -> A) (x : A) (n : nat) :
  (forall i, (i < n)%nat -> f i = x) -> map f (seq 0 n) = repeat x n.
Proof.
  intros H. apply nth_ext with (d := f 0%nat) (d' := x).
  - now rewrite length_map, length_seq, repeat_length.
  - intros i Hi. rewrite length_map, length_seq in Hi.
    rewrite map_nth, seq_nth, nth_repeat_lt by assumption. now apply H.
Qed.

End KronFacts.

Section Averaging.

Import Cyl1DMesh.

(** Column sums of the three factors the averaging operators are made of. *)

Lemma eye_column_sum (n j : nat) :
  (j < n)%nat -> big_sum (fun a => entry (eye n) a j) n = 1.
Proof.
  intros Hj. cbn [eye entry].
  rewrite (big_sum_single _ j).
  - rewrite (proj2 (Nat.ltb_lt j n) Hj), Nat.eqb_refl. reflexivity.
  - intros a _ Ha. now rewrite (proj2 (Nat.eqb_neq a j) Ha).
Qed.

Lemma az_column_sum (n j : nat) :
  (j < n)%nat ->
  big_sum (fun a => entry (spdiags (half_ones 2 (n + 1)) [(-1)%Z; 0%Z]
                                   (n + 1) n) a j) (n + 1) = 1.
Proof.
  intros Hj. cbn [spdiags entry half_ones repeat combine map np_sum fold_right
                  fst snd].
  rewrite nth_half_ones by lia.
  rewrite big_sum_plus, big_sum_plus, big_sum_zero.
  rewrite (big_sum_single _ (j + 1)%nat), (big_sum_single _ j).
  - rewrite (proj2 (Nat.ltb_lt (j + 1) (n + 1))) by lia.
    rewrite (proj2 (Nat.ltb_lt j (n + 1))) by lia.
    rewrite (proj2 (Z.eqb_eq _ _)) by lia.
    rewrite (proj2 (Z.eqb_eq _ _)) by lia. lra.
  - intros a _ Ha. now rewrite (proj2 (Z.eqb_neq _ _)) by lia.
  - intros a _ Ha. now rewrite (proj2 (Z.eqb_neq _ _)) by lia.
Qed.

Lemma setitem_ar (n : nat) :
  (0 < n)%nat ->
  setitem (spdiags (half_ones 2 n) [0%Z; 1%Z] n n) 0 0 1 = Ok (ar_fixed n).
Proof.
  intros Hn. unfold setitem. cbn [spdiags nrows ncols].
  rewrite (proj2 (Nat.ltb_lt 0 n) Hn). reflexivity.
Qed.

Lemma ar_column_sum (n j : nat) :
  (j < n)%nat -> big_sum (fun b => entry (ar_fixed n) b j) n = 1.
Proof.
  intros Hj. cbn [ar_fixed spdiags entry half_ones repeat combine map np_sum
                  fold_right fst snd].
  rewrite nth_half_ones by lia.
  destruct j as [|j].
  - rewrite (big_sum_single _ 0%nat).
    + now rewrite (proj2 (Nat.ltb_lt 0 n) Hj).
    + intros b _ Hb. rewrite (proj2 (Nat.eqb_neq b 0) Hb). cbn [andb].
      rewrite !(proj2 (Z.eqb_neq _ _)) by lia. lra.
  - rewrite (big_sum_ext _ (fun b =>
        (if Z.eqb (Z.of_nat (S j) - Z.of_nat b) 0 then 1 / 2 else 0)
        + (if Z.eqb (Z.of_nat (S j) - Z.of_nat b) 1 then 1 / 2 else 0))).
    2:{ intros b _. rewrite Bool.andb_false_r. lra. }
    rewrite big_sum_plus.
    rewrite (big_sum_single _ (S j)), (big_sum_single _ j).
    + rewrite (proj2 (Nat.ltb_lt (S j) n)) by lia.
      rewrite (proj2 (Nat.ltb_lt j n)) by lia.
      rewrite (proj2 (Z.eqb_eq _ _)) by lia.
      rewrite (proj2 (Z.eqb_eq _ _)) by lia. lra.
    + intros b _ Hb. now rewrite (proj2 (Z.eqb_neq _ _)) by lia.
    + intros b _ Hb. now rewrite (proj2 (Z.eqb_neq _ _)) by lia.
Qed.

Lemma aveE2CC_value (m : t) :
  hr m <> [] ->
  aveE2CC m
  = Ok (transpose (kron (spdiags (half_ones 2 (nNz m)) [(-1)%Z; 0%Z]
                                 (nNz m) (nCz m))
                        (ar_fixed (nCr m)))).
Proof.
  intros Hne. unfold aveE2CC. rewrite setitem_ar; [reflexivity|].
  unfold nCr. destruct (hr m); [congruence|simpl; lia].
Qed.

Lemma aveF2CC_value (m : t) :
  hr m <> [] ->
  aveF2CC m
  = Ok (transpose
          {| nrows := nrows (kron (eye (nCz m)) (ar_fixed (nCr m)))
                      + nrows (kron (spdiags (half_ones 2 (nNz m))
                                             [(-1)%Z; 0%Z] (nNz m) (nCz m))
                                    (eye (nCr m)));
             ncols := ncols (kron (eye (nCz m)) (ar_fixed (nCr m)));
             entry := fun i j =>
               if (i <? nrows (kron (eye (nCz m)) (ar_fixed (nCr m))))%nat
               then entry (kron (eye (nCz m)) (ar_fixed (nCr m))) i j
               else entry (kron (spdiags (half_ones 2 (nNz m))
                                         [(-1)%Z; 0%Z] (nNz m) (nCz m))
                                (eye (nCr m)))
                          (i - nrows (kron (eye (nCz m)) (ar_fixed (nCr m)))) j
          |}).
Proof.
  intros Hne. unfold aveF2CC. rewrite setitem_ar.
  2:{ unfold nCr. destruct (hr m); [congruence|simpl; lia]. }
  cbn [bind]. unfold vstack. cbn [kron ncols eye ar_fixed spdiags].
  rewrite Nat.eqb_refl. reflexivity.
Qed.

(** Every row of [aveE2CC] sums to 1. *)
Lemma aveE2CC_row_sum (m : t) (A : spmatrix) (i : nat) :
  aveE2CC m = Ok A -> (i < nrows A)%nat -> big_sum (entry A i) (ncols A) = 1.
Proof.
  intros HA Hi.
  assert (Hne : hr m <> []).
  { intros E. unfold aveE2CC, setitem, nCr in HA. rewrite E in HA.
    discriminate. }
  rewrite aveE2CC_value in HA by assumption. inversion HA; subst A. clear HA.
  cbn [transpose nrows ncols kron spdiags ar_fixed] in Hi.
  change (big_sum (entry (transpose ?K) i) (ncols (transpose ?K)))
    with (big_sum (fun j => entry K j i) (nrows K)).
  rewrite kron_column_sum. cbn [ar_fixed ncols nrows spdiags].
  assert (Hr : (0 < nCr m)%nat) by (destruct (nCr m); lia).
  unfold nNz. fold (nCz m).
  rewrite az_column_sum, ar_column_sum; [lra| |].
  - apply Nat.mod_upper_bound. lia.
  - apply Nat.Div0.div_lt_upper_bound. lia.
Qed.

(** Every row of [aveF2CC] sums to 2: the radial faces' average and the
    vertical faces' average each sum to 1, and the two are added. *)
Lemma aveF2CC_row_sum (m : t) (A : spmatrix) (i : nat) :
  aveF2CC m = Ok A -> (i < nrows A)%nat -> big_sum (entry A i) (ncols A) = 2.
Proof.
  intros HA Hi.
  assert (Hne : hr m <> []).
  { intros E. unfold aveF2CC, setitem, nCr in HA. rewrite E in HA.
    discriminate. }
  rewrite aveF2CC_value in HA by assumption. inversion HA; subst A. clear HA.
  cbn [transpose nrows ncols] in Hi |- *.
  cbn [transpose entry].
  rewrite big_sum_split.
  rewrite (big_sum_ext _ (fun j => entry (kron (eye (nCz m)) (ar_fixed (nCr m))) j i)).
  2:{ intros j Hj. now rewrite (proj2 (Nat.ltb_lt _ _) Hj). }
  rewrite (big_sum_ext (fun j => if (_ + j <? _)%nat then _ else _)
             (fun j => entry (kron (spdiags (half_ones 2 (nNz m))
                                         [(-1)%Z; 0%Z] (nNz m) (nCz m))
                                (eye (nCr m))) j i)).
  2:{ intros j Hj. rewrite (proj2 (Nat.ltb_ge _ _)) by lia.
      replace (nCz m * nCr m + j - nCz m * nCr m)%nat with j by lia.
      reflexivity. }
  rewrite !kron_column_sum.
  cbn [kron eye ar_fixed ncols nrows spdiags] in Hi |- *.
  assert (Hr : (0 < nCr m)%nat) by (destruct (nCr m); lia).
  unfold nNz. fold (nCz m).
  rewrite az_column_sum, ar_column_sum, !eye_column_sum; [lra| | | |].
  - apply Nat.mod_upper_bound. lia.
  - apply Nat.Div0.div_lt_upper_bound. lia.
  - apply Nat.mod_upper_bound. lia.
  - apply Nat.Div0.div_lt_upper_bound. lia.
Qed.

End Averaging.

Section AveragingClaims.

Import Cyl1DMesh.

Lemma aveE2CC_constant (m : t) (c : R) :
  valid m ->
  exists A, aveE2CC m = Ok A
            /\ nrows A = nC m /\ ncols A = nE m
            /\ matvec A (repeat c (nE m)) = Ok (repeat c (nC m)).
Proof.
  intros (Hne & _). eexists. split; [now apply aveE2CC_value|].
  set (A := transpose _).
  assert (Hr : nrows A = nC m) by (cbn; unfold nC; lia).
  assert (Hc : ncols A = nE m) by (cbn; unfold nE, nN, nNr, nCr; lia).
  split; [exact Hr|]. split; [exact Hc|].
  rewrite <- Hc, matvec_constant, <- Hr. f_equal.
  apply map_seq_constant. intros i Hi.
  rewrite (aveE2CC_row_sum m A i); [lra|now apply aveE2CC_value|assumption].
Qed.

Lemma aveF2CC_constant (m : t) (c : R) :
  valid m ->
  exists A, aveF2CC m = Ok A
            /\ nrows A = nC m /\ ncols A = nF m
            /\ matvec A (repeat c (nF m)) = Ok (repeat (2 * c) (nC m)).
Proof.
  intros (Hne & _). eexists. split; [now apply aveF2CC_value|].
  set (A := transpose _).
  assert (Hr : nrows A = nC m) by (cbn; unfold nC; lia).
  assert (Hc : ncols A = nF m).
  { cbn. unfold nF, nFr, nFz, nNr, nCr. lia. }
  split; [exact Hr|]. split; [exact Hc|].
  rewrite <- Hc, matvec_constant, <- Hr. f_equal.
  apply map_seq_constant. intros i Hi.
  rewrite (aveF2CC_row_sum m A i); [lra|now apply aveF2CC_value|assumption].
Qed.

(** The row of [aveE2CC] of an innermost cell: the weight 1 of the fix-up
    times the vertical 0.5/0.5, on the two innermost edges below and above
    the cell, and nothing else. *)
Lemma aveE2CC_innermost_row (m : t) (A : spmatrix) (jz j : nat) :
  aveE2CC m = Ok A -> (jz < nCz m)%nat -> (j < ncols A)%nat ->
  entry A (jz * nCr m) j
  = if (j =? jz * nCr m)%nat || (j =? (jz + 1) * nCr m)%nat
    then 1 * (1 / 2) else 0.
Proof.
  intros HA Hjz Hj.
  assert (Hne : hr m <> []).
  { intros E. unfold aveE2CC, setitem, nCr in HA. rewrite E in HA.
    discriminate. }
  rewrite aveE2CC_value in HA by assumption. inversion HA; subst A. clear HA.
  assert (Hr : (0 < nCr m)%nat).
  { unfold nCr. destruct (hr m); [congruence|simpl; lia]. }
  cbn [transpose kron nrows ncols spdiags ar_fixed] in Hj.
  cbn [transpose kron entry ar_fixed spdiags nrows ncols half_ones repeat
       combine map np_sum fold_right fst snd].
  rewrite Nat.div_mul, Nat.Div0.mod_mul by lia.
  rewrite nth_half_ones by (unfold nNz, nCz in *; lia).
  rewrite Nat.eqb_refl, Bool.andb_true_r.
  pose proof (Nat.div_mod_eq j (nCr m)) as Hdm.
  pose proof (Nat.mod_upper_bound j (nCr m) ltac:(lia)) as Hmod.
  destruct (Nat.eqb_spec (j mod nCr m) 0) as [E0|E0].
  - destruct (Z.eqb_spec (Z.of_nat jz - Z.of_nat (j / nCr m)) (-1)) as [E1|E1];
    destruct (Z.eqb_spec (Z.of_nat jz - Z.of_nat (j / nCr m)) 0) as [E2|E2];
    destruct (Nat.eqb_spec j (jz * nCr m)) as [E3|E3];
    destruct (Nat.eqb_spec j ((jz + 1) * nCr m)) as [E4|E4];
    cbn [orb]; try lra; exfalso; nia.
  - destruct (Nat.eqb_spec j (jz * nCr m)) as [E3|E3].
    { exfalso. subst j. rewrite Nat.Div0.mod_mul in E0. lia. }
    destruct (Nat.eqb_spec j ((jz + 1) * nCr m)) as [E4|E4].
    { exfalso. subst j. rewrite Nat.Div0.mod_mul in E0. lia. }
    cbn [orb].
    rewrite (proj2 (Z.eqb_neq (Z.of_nat 0 - Z.of_nat (j mod nCr m)) 0)) by lia.
    rewrite (proj2 (Z.eqb_neq (Z.of_nat 0 - Z.of_nat (j mod nCr m)) 1)) by lia.
    lra.
Qed.

(** C3, as the claim states it for the faces, fails: on the mesh of the
    scenario [aveF2CC] takes the constant face vector 1 to the constant 2. *)
Lemma aveF2CC_constant_counterexample :
  valid scenario_mesh
  /\ (exists A, aveF2CC scenario_mesh = Ok A
                /\ matvec A (repeat 1 (nF scenario_mesh))
                   = Ok (repeat 2 (nC scenario_mesh)))
  /\ repeat 2 (nC scenario_mesh) <> repeat 1 (nC scenario_mesh).
Proof.
  split; [exact scenario_mesh_valid|]. split.
  - destruct (aveF2CC_constant scenario_mesh 1 scenario_mesh_valid)
      as (A & HA & _ & _ & Hm).
    exists A. split; [exact HA|]. rewrite Hm. do 2 f_equal. lra.
  - simpl. intros H. inversion H. lra.
Qed.

(** C3, amended.  For every mesh with at least one radial cell and strictly
    positive widths and every constant [c]: [aveE2CC] takes the constant
    edge vector [c] to the constant [c] at every cell centre, the innermost
    cells included, whose rows hold the weight 1 of the boundary fix-up
    times the vertical 0.5/0.5; [aveF2CC] takes the constant face vector [c]
    to [2*c] at every cell centre, the radial and the vertical average each
    of weight 1 and added. *)
Theorem averaging_row_sums (m : t) (c : R) :
  valid m ->
  (exists A, aveE2CC m = Ok A
             /\ nrows A = nC m /\ ncols A = nE m
             /\ matvec A (repeat c (nE m)) = Ok (repeat c (nC m))
             /\ (forall i, (i < nrows A)%nat ->
                   big_sum (entry A i) (ncols A) = 1)
             /\ (forall jz j, (jz < nCz m)%nat -> (j < ncols A)%nat ->
                   entry A (jz * nCr m) j
                   = if (j =? jz * nCr m)%nat || (j =? (jz + 1) * nCr m)%nat
                     then 1 * (1 / 2) else 0))
  /\ (exists A, aveF2CC m = Ok A
                /\ nrows A = nC m /\ ncols A = nF m
                /\ matvec A (repeat c (nF m)) = Ok (repeat (2 * c) (nC m))
                /\ (forall i, (i < nrows A)%nat ->
                      big_sum (entry A i) (ncols A) = 2)).
Proof.
  intros Hv. split.
  - destruct (aveE2CC_constant m c Hv) as (A & HA & Hr & Hc & Hm).
    exists A. repeat split; try assumption.
    + intros i Hi. now apply (aveE2CC_row_sum m).
    + intros jz j Hjz Hj. now apply aveE2CC_innermost_row.
  - destruct (aveF2CC_constant m c Hv) as (A & HA & Hr & Hc & Hm).
    exists A. repeat split; try assumption.
    intros i Hi. now apply (aveF2CC_row_sum m).
Qed.

Lemma averaging_row_sums_witness :
  valid scenario_mesh
  /\ (exists A, aveE2CC scenario_mesh = Ok A
                /\ matvec A (repeat 5 (nE scenario_mesh))
                   = Ok (repeat 5 (nC scenario_mesh)))
  /\ (exists A, aveF2CC scenario_mesh = Ok A
                /\ matvec A (repeat 5 (nF scenario_mesh))
                   = Ok (repeat (2 * 5) (nC scenario_mesh))).
Proof.
  destruct (averaging_row_sums scenario_mesh 5 scenario_mesh_valid)
    as [(A & HA & _ & _ & HmA & _) (B & HB & _ & _ & HmB & _)].
  split; [exact scenario_mesh_valid|].
  split; [exists A|exists B]; split; assumption.
Defined.

End AveragingClaims.

(** * The mass matrix *)

Section MassMatrix.

Import Cyl1DMesh.

Lemma length_zip_with {A B X : Type} (f : A -> B -> X) (a : list A)
      (b : list B) :
  length (zip_with f a b) = Nat.min (length a) (length b).
Proof.
  revert b. induction a as [|x a IH]; intros [|y b]; simpl; auto.
Qed.

Lemma length_kron1 (a b : list R) :
  length (kron1 a b) = (length a * length b)%nat.
Proof.
  unfold kron1. induction a as [|x a IH]; simpl; [reflexivity|].
  now rewrite length_app, length_map, IH.
Qed.

Lemma length_np_repeat (a : list R) (n : nat) :
  length (np_repeat a n) = (length a * n)%nat.
Proof.
  unfold np_repeat. induction a as [|x a IH]; simpl; [reflexivity|].
  now rewrite length_app, repeat_length, IH.
Qed.

Lemma length_vol (m : t) : length (vol m) = nC m.
Proof.
  unfold vol, nC, nCr, nCz, annulus, vectorNr, cumsum.
  rewrite length_kron1, length_zip_with. cbn [length].
  rewrite removelast_firstn_len, length_firstn, cumsum_from_length.
  replace (Nat.min (length (hr m)) _) with (length (hr m)) by lia.
  apply Nat.mul_comm.
Qed.

(** [a.repeat(n)] puts [a[i / n]] at index [i]. *)
Lemma np_repeat_nth (a : list R) (n : nat) :
  np_repeat a n
  = map (fun i => nth (i / n) a 0) (seq 0 (length a * n)).
Proof.
  destruct n as [|n].
  { rewrite Nat.mul_0_r. unfold np_repeat.
    induction a as [|x a IH]; simpl; auto. }
  set (f := fun i : nat => nth (i / S n) a 0).
  apply nth_ext with (d := 0) (d' := f 0%nat).
  { now rewrite length_np_repeat, length_map, length_seq. }
  intros i Hi. rewrite length_np_repeat in Hi.
  rewrite map_nth, seq_nth by assumption. cbn [Nat.add]. subst f. cbv beta.
  clear - Hi. revert i Hi. unfold np_repeat.
  induction a as [|x a IH]; intros i Hi; [simpl in Hi; lia|].
  cbn [flat_map].
  destruct (Nat.lt_ge_cases i (S n)) as [Hlt|Hge].
  - rewrite app_nth1 by (now rewrite repeat_length).
    rewrite nth_repeat_lt by assumption.
    now rewrite Nat.div_small.
  - rewrite app_nth2 by (now rewrite repeat_length).
    rewrite repeat_length, IH by (simpl in Hi; lia).
    replace i with ((i - S n) + 1 * S n)%nat at 2 by lia.
    rewrite Nat.div_add by lia. rewrite Nat.add_1_r. reflexivity.
Qed.

Lemma np_repeat_one (a : list R) : np_repeat a 1 = a.
Proof.
  unfold np_repeat. induction a as [|x a IH]; [reflexivity|].
  simpl. f_equal. exact IH.
Qed.

(** The array [getMass] builds from [materialProp], and its assertion. *)
Lemma getMass_material (m : t) (materialProp : material) :
  match materialProp with MatArray a => wf_ndarray a | _ => True end ->
  let p := match materialProp with
           | MatNone => ones (nC m)
           | MatFloat c => map (fun x => x * c) (ones (nC m))
           | MatArray a =>
               if list_eq_dec Nat.eq_dec (shape a) [nCz m]
               then np_repeat (flat a) (nCr m)
               else mkvc a
           end in
  match material_of_cells m materialProp with
  | Some q => p = q /\ (length p =? nC m)%nat = true
  | None => (length p =? nC m)%nat = false
  end.
Proof.
  intros Hwf p. subst p. destruct materialProp as [|c|a]; cbn [material_of_cells].
  - split; [reflexivity|]. unfold ones. rewrite repeat_length.
    apply Nat.eqb_refl.
  - split.
    + unfold ones. induction (nC m) as [|n IH]; simpl; [reflexivity|].
      rewrite IH. f_equal. lra.
    + unfold ones. rewrite length_map, repeat_length. apply Nat.eqb_refl.
  - unfold size, mkvc, wf_ndarray in *.
    destruct (list_eq_dec Nat.eq_dec (shape a) [nCz m]) as [Es|Es].
    + rewrite Es in Hwf. cbn [fold_right] in Hwf. rewrite Nat.mul_1_r in Hwf.
      destruct (Nat.eqb_spec (length (flat a)) (nC m)) as [En|En].
      * split.
        -- unfold nC in En. rewrite <- Hwf in En.
           destruct (nCz m) as [|k] eqn:Ek.
           { destruct (flat a); [reflexivity|discriminate]. }
           assert (nCr m = 1%nat) as -> by nia. apply np_repeat_one.
        -- rewrite length_np_repeat, <- Hwf. unfold nC.
           apply Nat.eqb_eq. lia.
      * split.
        -- rewrite np_repeat_nth, <- Hwf. unfold nC.
           now rewrite (Nat.mul_comm (nCz m)).
        -- rewrite length_np_repeat, <- Hwf. unfold nC.
           apply Nat.eqb_eq. lia.
    + destruct (Nat.eqb_spec (length (flat a)) (nC m)) as [En|En].
      * split; reflexivity.
      * reflexivity.
Qed.

End MassMatrix.

Section MassMatrixClaims.

Import Cyl1DMesh.

(** C5.  On every mesh with at least one radial cell and strictly positive
    widths, [getMass(materialProp, loc)] is the diagonal matrix of
    [Av.T * (vol * p)], where [Av] is [aveE2CC] for [loc='e'] and [aveF2CC]
    for [loc='f'], and [p] is the property of every cell: 1 when
    [materialProp] is omitted, the scalar when it is a float, the array when
    it has [nC] elements, and the value of each layer repeated over the
    [nCr] radial cells when it is an array of shape [(nCz,)].  An array of
    any other size fails the shape assertion, and a [loc] other than ['e']
    and ['f'] raises [ValueError]. *)
Theorem getMass_contract (m : t) (materialProp : material) (loc : string) :
  valid m ->
  match materialProp with MatArray a => wf_ndarray a | _ => True end ->
  match material_of_cells m materialProp with
  | None =>
      getMass m materialProp loc
      = Raise (AssertionError "materialProp incorrect shape")
  | Some p =>
      (loc = "e"%string ->
       exists Av d, aveE2CC m = Ok Av
         /\ matvec (transpose Av) (zip_with Rmult (vol m) p) = Ok d
         /\ length d = nE m
         /\ getMass m materialProp loc = Ok (sdiag d))
      /\ (loc = "f"%string ->
          exists Av d, aveF2CC m = Ok Av
            /\ matvec (transpose Av) (zip_with Rmult (vol m) p) = Ok d
            /\ length d = nF m
            /\ getMass m materialProp loc = Ok (sdiag d))
      /\ (loc <> "e"%string -> loc <> "f"%string ->
          getMass m materialProp loc = Raise (ValueError "Invalid loc"))
  end
  /\ (forall a, materialProp = MatArray a ->
        size a <> nC m -> size a <> nCz m ->
        getMass m materialProp loc
        = Raise (AssertionError "materialProp incorrect shape"))
  /\ getMass m MatNone loc = getMass m (MatFloat 1) loc.
Proof.
  intros Hv Hwf.
  assert (Hmain :
    match material_of_cells m materialProp with
    | None =>
        getMass m materialProp loc
        = Raise (AssertionError "materialProp incorrect shape")
    | Some p =>
        (loc = "e"%string ->
         exists Av d, aveE2CC m = Ok Av
           /\ matvec (transpose Av) (zip_with Rmult (vol m) p) = Ok d
           /\ length d = nE m
           /\ getMass m materialProp loc = Ok (sdiag d))
        /\ (loc = "f"%string ->
            exists Av d, aveF2CC m = Ok Av
              /\ matvec (transpose Av) (zip_with Rmult (vol m) p) = Ok d
              /\ length d = nF m
              /\ getMass m materialProp loc = Ok (sdiag d))
        /\ (loc <> "e"%string -> loc <> "f"%string ->
            getMass m materialProp loc = Raise (ValueError "Invalid loc"))
    end); [|split; [exact Hmain|split]].
  - pose proof (getMass_material m materialProp Hwf) as H. cbv zeta in H.
    unfold getMass.
    destruct (material_of_cells m materialProp) as [q|].
    + destruct H as [Hp Hlen]. rewrite Hlen. cbn [assert bind].
      rewrite Hp in Hlen |- *. apply Nat.eqb_eq in Hlen.
      assert (Hzl : length (zip_with Rmult (vol m) q) = nC m).
      { rewrite length_zip_with, length_vol, Hlen. apply Nat.min_id. }
      split; [|split].
      * intros ->. cbn [String.eqb Ascii.eqb Bool.eqb].
        destruct (aveE2CC_constant m 0 Hv) as (Av & HA & Hr & Hc & _).
        exists Av. rewrite HA. cbn [bind]. unfold matvec.
        cbn [transpose ncols nrows]. rewrite Hzl, Hr, Nat.eqb_refl.
        eexists. split; [reflexivity|]. split; [reflexivity|].
        split; [|reflexivity].
        now rewrite length_map, length_seq.
      * intros ->. cbn [String.eqb Ascii.eqb Bool.eqb].
        destruct (aveF2CC_constant m 0 Hv) as (Av & HA & Hr & Hc & _).
        exists Av. rewrite HA. cbn [bind]. unfold matvec.
        cbn [transpose ncols nrows]. rewrite Hzl, Hr, Nat.eqb_refl.
        eexists. split; [reflexivity|]. split; [reflexivity|].
        split; [|reflexivity].
        now rewrite length_map, length_seq.
      * intros He Hf.
        rewrite (proj2 (String.eqb_neq loc "e") He).
        rewrite (proj2 (String.eqb_neq loc "f") Hf). reflexivity.
    + rewrite H. reflexivity.
  - intros a -> Hn Hz. cbn [material_of_cells] in Hmain.
    rewrite (proj2 (Nat.eqb_neq _ _) Hn) in Hmain.
    destruct (list_eq_dec Nat.eq_dec (shape a) [nCz m]) as [Es|Es];
      [|exact Hmain].
    exfalso. apply Hz. unfold wf_ndarray in Hwf. rewrite Es in Hwf.
    unfold size. rewrite <- Hwf. simpl. lia.
  - unfold getMass.
    assert (E : map (fun x => x * 1) (ones (nC m)) = ones (nC m)).
    { unfold ones. induction (nC m) as [|n IH]; simpl; [reflexivity|].
      rewrite IH. f_equal. lra. }
    rewrite E. reflexivity.
Qed.

Lemma getMass_contract_witness :
  valid scenario_mesh
  /\ wf_ndarray (array1 [10; 20])
  /\ exists Av d,
       aveE2CC scenario_mesh = Ok Av
       /\ matvec (transpose Av)
                 (zip_with Rmult (vol scenario_mesh) [10; 10; 10; 20; 20; 20])
          = Ok d
       /\ length d = nE scenario_mesh
       /\ getMass scenario_mesh scenario_layers "e" = Ok (sdiag d).
Proof.
  split; [exact scenario_mesh_valid|]. split; [reflexivity|].
  exact (proj1 (proj1 (getMass_contract scenario_mesh scenario_layers "e"
                         scenario_mesh_valid eq_refl)) eq_refl).
Defined.

End MassMatrixClaims.

(** * Properties of the receivers *)

Section UnhandledOrientation.

Import RxNSEM.

Context {Src : Type}.

(** C9.  On a 3D receiver whose orientation is one of the six choices of the
    base class but not one its class has a formula for, [eval] and the
    forward [evalDeriv] raise [UnboundLocalError] for the ratio variable, and
    the adjoint [evalDeriv] raises it for the numerator's closure: no value
    is returned and no other error is raised. *)
Theorem unhandled_orientation_unbound
        (cls : rx_class) (self : Rx) (src : Src) (mesh : BaseMesh)
        (f : Fields Src) (v : cvec) (return_complex : bool) :
  cls <> Point_impedance1D ->
  In (orientation self) orientation_choices ->
  ~ In (orientation self) (handled_orientations cls) ->
  eval cls self src mesh f return_complex
  = Raise (UnboundLocalError (ratio_variable cls))
  /\ evalDeriv cls self src mesh f v false
     = Raise (UnboundLocalError (ratio_variable cls))
  /\ evalDeriv cls self src mesh f v true
     = Raise (UnboundLocalError (numerator_variable cls)).
Proof.
  intros Hcls Hin Hno. destruct self as [l o c]. cbn [orientation] in *.
  destruct cls; [congruence| | |];
    cbn [handled_orientations orientation_choices In] in Hin, Hno;
    repeat (destruct Hin as [<-|Hin]; [try (exfalso; tauto)|]);
    try contradiction;
    (split; [|split]); reflexivity.
Qed.

End UnhandledOrientation.

Section UnhandledOrientationExample.

Import RxNSEM.

(** The example of the claim: ['zx'] on the impedance receiver, ['xx'] on
    the tipper receiver. *)
Lemma unhandled_orientation_unbound_witness :
  eval Point_impedance3D (mk_rx (Locs2 [[0; 0; 0]]) "zx" real) tt
       (mk_mesh 1 (fun _ _ => eye 1))
       (mk_fields unit (fun _ _ => [C1]) (fun _ v _ => v) (fun _ v _ => v)
                  (fun _ v _ => v) (fun _ v _ => v) (fun _ v _ => v)
                  (fun _ v _ => v)) false
  = Raise (UnboundLocalError "Zij")
  /\ evalDeriv Point_tipper3D (mk_rx (Locs2 [[0; 0; 0]]) "xx" imag) tt
       (mk_mesh 1 (fun _ _ => eye 1))
       (mk_fields unit (fun _ _ => [C1]) (fun _ v _ => v) (fun _ v _ => v)
                  (fun _ v _ => v) (fun _ v _ => v) (fun _ v _ => v)
                  (fun _ v _ => v)) [C1; C1] true
     = Raise (UnboundLocalError "TijN_uV").
Proof.
  split.
  - refine (proj1 (unhandled_orientation_unbound Point_impedance3D _ tt _ _
                     [] false _ _ _)).
    + discriminate.
    + simpl. tauto.
    + simpl. intros [H|[H|[H|[H|[]]]]]; discriminate.
  - refine (proj2 (proj2 (unhandled_orientation_unbound Point_tipper3D _ tt _ _
                            _ false _ _ _))).
    + discriminate.
    + simpl. tauto.
    + simpl. intros [H|[H|[]]]; discriminate.
Defined.

End UnhandledOrientationExample.

(** * Complex vectors: the algebra of [dot], products and transposes *)

Ltac cunfold :=
  unfold Cadd, Csub, Cmul, Copp, Cdivr, RtoC, C0, C1, Ci, Cre, Cim
    in *; cbn [fst snd] in *.

Ltac csolve := cunfold; f_equal; try field; try lra.

Section ComplexVectors.

Lemma Cmul_comm (a b : C) : Cmul a b = Cmul b a.
Proof. destruct a, b. csolve. Qed.

Lemma Cmul_assoc (a b c : C) : Cmul (Cmul a b) c = Cmul a (Cmul b c).
Proof. destruct a, b, c. csolve. Qed.

Lemma Cadd_C0_r (a : C) : Cadd a C0 = a.
Proof. destruct a. csolve. Qed.

Lemma dotC_cons (a b : C) (x y : cvec) :
  dotC (a :: x) (b :: y) = Cadd (Cmul a b) (dotC x y).
Proof. reflexivity. Qed.

Lemma dotC_nil_r (x : cvec) : dotC x [] = C0.
Proof. destruct x; reflexivity. Qed.

Lemma dotC_comm (x y : cvec) : dotC x y = dotC y x.
Proof.
  revert y. induction x as [|a x IH]; intros [|b y]; try reflexivity.
  rewrite !dotC_cons, IH, Cmul_comm. reflexivity.
Qed.

Lemma dotC_vmul_shift (a x y : cvec) :
  dotC x (a [*] y) = dotC (a [*] x) y.
Proof.
  revert x y. induction a as [|c a IH]; intros [|p x] [|q y];
    try reflexivity.
  cbn [vmul zip_with]. fold (vmul a y) (vmul a x).
  rewrite !dotC_cons, IH. f_equal.
  destruct c, p, q. csolve.
Qed.

Lemma dotC_vsub_r (x a b : cvec) :
  length a = length b ->
  dotC x (a [-] b) = Csub (dotC x a) (dotC x b).
Proof.
  revert a b. induction x as [|p x IH]; intros [|c a] [|d b] H;
    try discriminate; try (cbn; csolve; fail).
  cbn [vsub zip_with]. fold (vsub a b). rewrite !dotC_cons, IH by (simpl in H; lia).
  destruct p, c, d, (dotC x a), (dotC x b). csolve.
Qed.

Lemma dotC_vadd_r (x a b : cvec) :
  length a = length b ->
  dotC x (a [+] b) = Cadd (dotC x a) (dotC x b).
Proof.
  revert a b. induction x as [|p x IH]; intros [|c a] [|d b] H;
    try discriminate; try (cbn; csolve; fail).
  cbn [vadd zip_with]. fold (vadd a b). rewrite !dotC_cons, IH by (simpl in H; lia).
  destruct p, c, d, (dotC x a), (dotC x b). csolve.
Qed.

Lemma dotC_vopp_r (x a : cvec) : dotC x (vopp a) = Copp (dotC x a).
Proof.
  revert a. induction x as [|p x IH]; intros [|c a];
    try (cbn; csolve; fail).
  cbn [vopp map]. fold (vopp a). rewrite !dotC_cons, IH.
  destruct p, c, (dotC x a). csolve.
Qed.

Lemma dotC_vdivr_r (x a : cvec) (r : R) :
  dotC x (vdivr a r) = Cdivr (dotC x a) r.
Proof.
  revert a. induction x as [|p x IH]; intros [|c a];
    try (cbn; cunfold; f_equal; unfold Rdiv; lra).
  cbn [vdivr map]. fold (vdivr a r). rewrite !dotC_cons, IH.
  destruct p, c, (dotC x a). cunfold. f_equal; unfold Rdiv; lra.
Qed.

Lemma dotC_scale_r (x a : cvec) (c : C) :
  dotC x (map (Cmul c) a) = Cmul c (dotC x a).
Proof.
  revert a. induction x as [|p x IH]; intros [|d a];
    try (cbn; csolve; fail).
  cbn [map]. rewrite !dotC_cons, IH.
  destruct p, c, d, (dotC x a). csolve.
Qed.

Lemma vmul_assoc (a b c : cvec) : (a [*] b) [*] c = a [*] (b [*] c).
Proof.
  revert b c. induction a as [|p a IH]; intros [|q b] [|r c];
    try reflexivity.
  cbn [vmul zip_with]. fold (vmul a b) (vmul b c).
  fold (vmul (vmul a b) c) (vmul a (vmul b c)).
  now rewrite IH, Cmul_assoc.
Qed.

Lemma vmul_vopp_l (a b : cvec) : vopp a [*] b = vopp (a [*] b).
Proof.
  revert b. induction a as [|p a IH]; intros [|q b]; try reflexivity.
  cbn [vmul vopp map zip_with]. fold (vopp a) (vmul (vopp a) b) (vmul a b).
  fold (vopp (vmul a b)). rewrite IH. f_equal. destruct p, q. csolve.
Qed.

Lemma length_vmul (a b : cvec) :
  length (a [*] b) = Nat.min (length a) (length b).
Proof. apply length_zip_with. Qed.

Lemma length_vadd (a b : cvec) :
  length (a [+] b) = Nat.min (length a) (length b).
Proof. apply length_zip_with. Qed.

Lemma length_vsub (a b : cvec) :
  length (a [-] b) = Nat.min (length a) (length b).
Proof. apply length_zip_with. Qed.

Lemma length_vopp (a : cvec) : length (vopp a) = length a.
Proof. apply length_map. Qed.

Lemma length_vdivr (a : cvec) (r : R) : length (vdivr a r) = length a.
Proof. apply length_map. Qed.

Lemma length_mulPC (P : spmatrix) (v : cvec) : length (mulPC P v) = nrows P.
Proof. unfold mulPC. now rewrite length_map, length_seq. Qed.

Lemma length_rowmul (v : cvec) (A : spmatrix) :
  length (rowmul v A) = ncols A.
Proof. unfold rowmul. now rewrite length_map, length_seq. Qed.

Lemma big_sum_shift (g : nat -> R) (n : nat) :
  big_sum g (S n) = g 0%nat + big_sum (fun k => g (S k)) n.
Proof.
  induction n as [|n IH].
  - simpl. lra.
  - change (big_sum g (S (S n))) with (big_sum g (S n) + g (S n)).
    rewrite IH. simpl. lra.
Qed.

(** [dot] as a sum over the indices. *)
Lemma dotC_big_sum (x y : cvec) (n : nat) :
  length x = n -> length y = n ->
  dotC x y
  = (big_sum (fun k => Cre (Cmul (nth k x C0) (nth k y C0))) n,
     big_sum (fun k => Cim (Cmul (nth k x C0) (nth k y C0))) n).
Proof.
  revert y n. induction x as [|a x IH]; intros [|b y] n Hx Hy;
    simpl in Hx, Hy; subst n; try discriminate.
  - reflexivity.
  - rewrite dotC_cons, (IH y (length x)) by (auto; lia).
    rewrite !big_sum_shift. cbn [nth]. destruct a, b. csolve.
Qed.

Lemma nth_mulPC (P : spmatrix) (w : cvec) (i : nat) :
  (i < nrows P)%nat ->
  nth i (mulPC P w) C0
  = (big_sum (fun j => entry P i j * Cre (nth j w C0)) (ncols P),
     big_sum (fun j => entry P i j * Cim (nth j w C0)) (ncols P)).
Proof.
  intros Hi. unfold mulPC.
  set (g := fun i : nat => (_, _)).
  rewrite (nth_indep _ C0 (g 0%nat)) by (now rewrite length_map, length_seq).
  now rewrite map_nth, seq_nth.
Qed.

Lemma big_sum_lin_l (a b : R) (g h : nat -> R) (n : nat) :
  a * big_sum g n + b * big_sum h n = big_sum (fun j => a * g j + b * h j) n.
Proof. now rewrite big_sum_plus, !big_sum_scale_l. Qed.

Lemma big_sum_lin_r (a b : R) (g h : nat -> R) (n : nat) :
  big_sum g n * a + big_sum h n * b = big_sum (fun j => g j * a + h j * b) n.
Proof. now rewrite big_sum_plus, !big_sum_scale_r. Qed.

(** [<x, P w> = <P.T x, w>] *)
Lemma dotC_mulPC (P : spmatrix) (x w : cvec) :
  length x = nrows P -> length w = ncols P ->
  dotC x (mulPC P w) = dotC (mulPC (transpose P) x) w.
Proof.
  intros Hx Hw.
  rewrite (dotC_big_sum x (mulPC P w) (nrows P))
    by (auto using length_mulPC).
  rewrite (dotC_big_sum (mulPC (transpose P) x) w (ncols P))
    by (auto using length_mulPC).
  f_equal.
  - transitivity
      (big_sum (fun i => big_sum (fun j =>
         Cre (nth i x C0) * (entry P i j * Cre (nth j w C0))
         + - Cim (nth i x C0) * (entry P i j * Cim (nth j w C0)))
         (ncols P)) (nrows P)).
    + apply big_sum_ext. intros i Hi. rewrite nth_mulPC by assumption.
      rewrite <- big_sum_lin_l. unfold Cmul, Cre, Cim. cbn [fst snd]. lra.
    + rewrite big_sum_swap. apply big_sum_ext. intros j Hj.
      rewrite nth_mulPC by assumption.
      transitivity
        (big_sum (fun i => entry P i j * Cre (nth i x C0)) (nrows P)
           * Cre (nth j w C0)
         + big_sum (fun i => entry P i j * Cim (nth i x C0)) (nrows P)
           * - Cim (nth j w C0)).
      * rewrite big_sum_lin_r. apply big_sum_ext. intros; lra.
      * unfold Cmul, Cre, Cim. cbn [fst snd transpose entry ncols nrows].
        lra.
  - transitivity
      (big_sum (fun i => big_sum (fun j =>
         Cre (nth i x C0) * (entry P i j * Cim (nth j w C0))
         + Cim (nth i x C0) * (entry P i j * Cre (nth j w C0)))
         (ncols P)) (nrows P)).
    + apply big_sum_ext. intros i Hi. rewrite nth_mulPC by assumption.
      rewrite <- big_sum_lin_l. unfold Cmul, Cre, Cim. cbn [fst snd]. lra.
    + rewrite big_sum_swap. apply big_sum_ext. intros j Hj.
      rewrite nth_mulPC by assumption.
      transitivity
        (big_sum (fun i => entry P i j * Cre (nth i x C0)) (nrows P)
           * Cim (nth j w C0)
         + big_sum (fun i => entry P i j * Cim (nth i x C0)) (nrows P)
           * Cre (nth j w C0)).
      * rewrite big_sum_lin_r. apply big_sum_ext. intros; lra.
      * unfold Cmul, Cre, Cim. cbn [fst snd transpose entry ncols nrows].
        lra.
Qed.

End ComplexVectors.

Section ImpedanceFormula.

Import RxNSEM.

Context {Src : Type}.
Variable self : Rx.
Variable src : Src.
Variable mesh : BaseMesh.
Variable f : Fields Src.

Lemma single_term (n : nat) :
  (vopp (repeat C1 n) [*] repeat C1 n) [+] repeat C0 n
  = repeat (RtoC (-1)) n.
Proof.
  induction n as [|n IH]; [reflexivity|].
  cbn [repeat vopp map vmul vadd zip_with].
  fold (vopp (repeat C1 n)) (vmul (vopp (repeat C1 n)) (repeat C1 n)).
  fold (vadd (vmul (vopp (repeat C1 n)) (repeat C1 n)) (repeat C0 n)).
  rewrite IH. f_equal. csolve.
Qed.

(** C4.  On the 3D impedance receiver of orientation [ab], [eval] with
    [return_complex=True] returns [Hd * Zij], with [Zij] the element of the
    sign table, and without it the component of that.  For orientation
    ['xy'], where the interpolated [e_px] and [hx_py] are 1 and the other
    cross term [e_py * hx_px] is 0, [Zij] is its one surviving term
    [-e_px * hx_py = -1]. *)
Theorem impedance_eval_formula (a b : axis) :
  orientation self = orientation_name a b ->
  Point_impedance3D_Zij self src mesh f = Some (impedance_element self src mesh f a b)
  /\ eval Point_impedance3D self src mesh f true
     = Ok (CplxArr (_Hd self src mesh f [*] impedance_element self src mesh f a b))
  /\ eval Point_impedance3D self src mesh f false
     = Ok (RealArr (getattr (_Hd self src mesh f [*] impedance_element self src mesh f a b)
                            (component self)))
  /\ (forall n,
        a = X -> b = Y ->
        _ex_px self src mesh f = repeat C1 n ->
        _hx_py self src mesh f = repeat C1 n ->
        _ex_py self src mesh f [*] _hx_px self src mesh f = repeat C0 n ->
        Point_impedance3D_Zij self src mesh f = Some (repeat (RtoC (-1)) n)
        /\ eval Point_impedance3D self src mesh f true
           = Ok (CplxArr (_Hd self src mesh f [*] repeat (RtoC (-1)) n))).
Proof.
  intros Ho.
  assert (HZ : Point_impedance3D_Zij self src mesh f
               = Some (impedance_element self src mesh f a b)).
  { unfold Point_impedance3D_Zij. rewrite Ho. destruct a, b; reflexivity. }
  split; [exact HZ|].
  split; [cbn [eval]; unfold Point_impedance3D_eval; now rewrite HZ|].
  split; [cbn [eval]; unfold Point_impedance3D_eval; now rewrite HZ|].
  intros n -> -> Hex Hhx Hcross.
  assert (E : impedance_element self src mesh f X Y = repeat (RtoC (-1)) n).
  { cbn [impedance_element]. rewrite Hex, Hhx, Hcross. apply single_term. }
  rewrite <- E. split; [exact HZ|].
  cbn [eval]. unfold Point_impedance3D_eval. now rewrite HZ.
Qed.

End ImpedanceFormula.

Section Constants.

Import RxNSEM.

Lemma mu_0_pos : 0 < mu_0.
Proof.
  unfold mu_0. assert (H := PI_RGT_0).
  apply Rdiv_lt_0_compat; [lra|]. apply pow_lt. lra.
Qed.

End Constants.

(** Evaluates a receiver expression on the concrete survey down to the real
    numbers of its entries. *)
Ltac rx_orientation :=
  cbv [RxNSEM.eval RxNSEM.evalDeriv
       RxNSEM.Point_impedance1D_eval RxNSEM.Point_impedance1D_evalDeriv
       RxNSEM.Point_impedance3D_eval RxNSEM.Point_impedance3D_evalDeriv
       RxNSEM.Point_tipper3D_eval RxNSEM.Point_tipper3D_evalDeriv
       RxNSEM.Point_horizontalmagvar3D_eval
       RxNSEM.Point_horizontalmagvar3D_evalDeriv
       RxNSEM.Point_impedance3D_Zij RxNSEM.Point_impedance3D_ZijN_uV
       RxNSEM.Point_impedance3D_adjoint_branch
       RxNSEM.Point_tipper3D_Tij RxNSEM.Point_tipper3D_TijN_uV
       RxNSEM.Point_tipper3D_adjoint_branch
       RxNSEM.Point_horizontalmagvar3D_Mij
       RxNSEM.Point_horizontalmagvar3D_MijN_uV
       RxNSEM.Point_horizontalmagvar3D_adjoint_branch
       RxNSEM.adjoint_tail RxNSEM.as_complex bind
       RxNSEM.orientation example_rx];
  repeat match goal with
         | |- context [contains ?a ?b] =>
             let r := eval vm_compute in (contains a b) in
             change (contains a b) with r
         end.

Ltac rx_compute :=
  rx_orientation;
  cbv [RxNSEM.eval RxNSEM.evalDeriv
       RxNSEM.Point_impedance1D_eval RxNSEM.Point_impedance1D_evalDeriv
       RxNSEM.Point_impedance3D_eval RxNSEM.Point_impedance3D_evalDeriv
       RxNSEM.Point_tipper3D_eval RxNSEM.Point_tipper3D_evalDeriv
       RxNSEM.Point_horizontalmagvar3D_eval
       RxNSEM.Point_horizontalmagvar3D_evalDeriv
       RxNSEM.Point_impedance3D_Zij RxNSEM.Point_impedance3D_ZijN_uV
       RxNSEM.Point_impedance3D_adjoint_branch
       RxNSEM.Point_tipper3D_Tij RxNSEM.Point_tipper3D_TijN_uV
       RxNSEM.Point_tipper3D_adjoint_branch
       RxNSEM.Point_horizontalmagvar3D_Mij
       RxNSEM.Point_horizontalmagvar3D_MijN_uV
       RxNSEM.Point_horizontalmagvar3D_adjoint_branch
       RxNSEM.adjoint_tail RxNSEM.adjoint_component RxNSEM.as_complex
       RxNSEM.reshape2T RxNSEM.getattr RxNSEM.last_column
       RxNSEM.Point_impedance1D_Pex RxNSEM.Point_impedance1D_Pbx
       RxNSEM.Point_impedance1D_Hd
       RxNSEM._ex RxNSEM._hx RxNSEM._ex_u RxNSEM._hx_u
       RxNSEM._aex_u RxNSEM._ahx_u
       RxNSEM._loc_numerator RxNSEM._loc_denominator
       RxNSEM.Pex RxNSEM.Pey RxNSEM.Pbx RxNSEM.Pby RxNSEM.Pbz
       RxNSEM.Pbx_num RxNSEM.Pby_num
       RxNSEM._ex_px RxNSEM._ey_px RxNSEM._ex_py RxNSEM._ey_py
       RxNSEM._hx_px RxNSEM._hy_px RxNSEM._hz_px
       RxNSEM._hx_py RxNSEM._hy_py RxNSEM._hz_py
       RxNSEM._ex_px_u RxNSEM._ey_px_u RxNSEM._ex_py_u RxNSEM._ey_py_u
       RxNSEM._hx_px_u RxNSEM._hy_px_u RxNSEM._hz_px_u
       RxNSEM._hx_py_u RxNSEM._hy_py_u RxNSEM._hz_py_u
       RxNSEM._Hd RxNSEM._Hd_uV RxNSEM._aHd RxNSEM._aHd_uV
       RxNSEM._aex_px RxNSEM._aey_px RxNSEM._aex_py RxNSEM._aey_py
       RxNSEM._ahx_px RxNSEM._ahy_px RxNSEM._ahz_px
       RxNSEM._ahx_py RxNSEM._ahy_py RxNSEM._ahz_py
       RxNSEM._aex_px_u RxNSEM._aey_px_u RxNSEM._aex_py_u RxNSEM._aey_py_u
       RxNSEM._ahx_px_u RxNSEM._ahy_px_u RxNSEM._ahz_px_u
       RxNSEM._ahx_py_u RxNSEM._ahy_py_u RxNSEM._ahz_py_u
       RxNSEM._hx_num_px RxNSEM._hy_num_px RxNSEM._hx_num_py RxNSEM._hy_num_py
       RxNSEM._hx_num_px_u RxNSEM._hy_num_px_u
       RxNSEM._hx_num_py_u RxNSEM._hy_num_py_u
       RxNSEM._ahx_num_px RxNSEM._ahy_num_px
       RxNSEM._ahx_num_py RxNSEM._ahy_num_py
       RxNSEM._ahx_num_px_u RxNSEM._ahy_num_px_u
       RxNSEM._ahx_num_py_u RxNSEM._ahy_num_py_u
       RxNSEM.locs RxNSEM.orientation RxNSEM.component RxNSEM.nE
       RxNSEM.getInterpolationMat RxNSEM.getitem
       RxNSEM._e_pxDeriv_u RxNSEM._e_pyDeriv_u
       RxNSEM._b_pxDeriv_u RxNSEM._b_pyDeriv_u
       RxNSEM._eDeriv_u RxNSEM._bDeriv_u
       example_mesh example_fields example_fields_diag example_fields_with
       example_rx matrix_deriv dense
       bind String.eqb Ascii.eqb Bool.eqb orb andb
       mulPC rowmul transpose nrows ncols entry big_sum
       vadd vsub vmul vopp vdivr vsub_scalar vadd_scalar zip_with
       dotC dotR np_sum fold_right
       map seq nth length last List.repeat Nat.eqb Nat.mul Nat.add
       Cadd Csub Cmul Copp Cinv Cdivr RtoC C0 C1 Ci Cre Cim
       fst snd].

Ltac rx_field :=
  try reflexivity;
  first [ lra
        | field; repeat split; pose proof mu_0_pos; (lra || nra) ].

Ltac struct_eq :=
  repeat first
    [ reflexivity
    | apply (f_equal (@Ok RxNSEM.array))
    | apply (f_equal (@Some cvec))
    | apply (f_equal RxNSEM.CplxArr)
    | apply (f_equal RxNSEM.RealArr)
    | apply (f_equal RxNSEM.CplxMat)
    | apply (f_equal2 (@cons (list C)))
    | apply (f_equal2 (@cons C))
    | apply (f_equal2 (@cons R))
    | apply (f_equal2 (@pair R R)) ].

Ltac rx_solve := rx_compute; struct_eq; rx_field.

Section ImpedanceFormulaExample.

Import RxNSEM.

Lemma impedance_eval_formula_witness :
  Point_impedance3D_Zij (example_rx "xy" real) tt example_mesh example_fields
  = Some (repeat (RtoC (-1)) 1)
  /\ eval Point_impedance3D (example_rx "xy" real) tt example_mesh
          example_fields true
     = Ok (CplxArr (_Hd (example_rx "xy" real) tt example_mesh example_fields
                    [*] repeat (RtoC (-1)) 1)).
Proof.
  refine (proj2 (proj2 (proj2
            (impedance_eval_formula (example_rx "xy" real) tt example_mesh
               example_fields X Y eq_refl))) 1%nat eq_refl eq_refl _ _ _).
  - rx_solve.
  - rx_solve.
  - rx_solve.
Defined.

End ImpedanceFormulaExample.

Section VectorExpressionFacts.

Lemma map_nth_firstn (n : nat) (g : cvec) :
  (n <= length g)%nat ->
  map (fun i => nth i g C0) (seq 0 n) = firstn n g.
Proof.
  revert n. induction g as [|a g IH]; intros n Hn.
  - cbn [length] in Hn. replace n with 0%nat by lia. reflexivity.
  - destruct n as [|n]; [reflexivity|].
    cbn [seq map firstn nth]. f_equal.
    rewrite <- seq_shift, map_map. cbn [nth].
    apply IH. cbn [length] in Hn. lia.
Qed.

Lemma zip_with_map_seq {A : Type} (op : A -> A -> A) (g h : nat -> A)
      (s n m : nat) :
  zip_with op (map g (seq s n)) (map h (seq s m))
  = map (fun k => op (g k) (h k)) (seq s (Nat.min n m)).
Proof.
  revert s m. induction n as [|n IH]; intros s [|m]; try reflexivity.
  cbn [Nat.min seq map zip_with]. f_equal. apply IH.
Qed.

Lemma nth_entries (env : list cvec) (i k : nat) :
  nth i (map (fun l => nth k l C0) env) C0 = nth k (nth i env []) C0.
Proof.
  revert i. induction env as [|l env IH]; intros [|i]; cbn [map nth];
    try apply IH; try reflexivity; now destruct k.
Qed.

(** The vector an expression denotes, entry by entry. *)
Lemma vec_of_entries (env : list cvec) (e : vexpr) :
  vec_of env e
  = map (fun k => val_of (map (fun l => nth k l C0) env) e)
        (seq 0 (len_of env e)).
Proof.
  induction e as [i|a IHa b IHb|a IHa b IHb|a IHa b IHb|a IHa];
    cbn [vec_of val_of len_of].
  - transitivity (map (fun k => nth k (nth i env []) C0)
                      (seq 0 (length (nth i env [])))).
    + rewrite map_nth_firstn by apply Nat.le_refl. symmetry.
      apply firstn_all.
    + apply map_ext. intros k. symmetry. apply nth_entries.
  - rewrite IHa, IHb at 1. apply zip_with_map_seq.
  - rewrite IHa, IHb at 1. apply zip_with_map_seq.
  - rewrite IHa, IHb at 1. apply zip_with_map_seq.
  - rewrite IHa at 1. unfold vopp. apply map_map.
Qed.

(** The length of an expression is the length of the shortest vector it
    mentions. *)
Lemma len_of_le (env : list cvec) (e : vexpr) (i : nat) :
  In i (vars_of e) -> (len_of env e <= length (nth i env []))%nat.
Proof.
  induction e as [j|a IHa b IHb|a IHa b IHb|a IHa b IHb|a IHa];
    cbn [vars_of len_of]; intros Hi.
  - destruct Hi as [<-|[]]. apply Nat.le_refl.
  - apply in_app_or in Hi as [Hi|Hi];
      [ eapply Nat.le_trans; [apply Nat.le_min_l|auto]
      | eapply Nat.le_trans; [apply Nat.le_min_r|auto] ].
  - apply in_app_or in Hi as [Hi|Hi];
      [ eapply Nat.le_trans; [apply Nat.le_min_l|auto]
      | eapply Nat.le_trans; [apply Nat.le_min_r|auto] ].
  - apply in_app_or in Hi as [Hi|Hi];
      [ eapply Nat.le_trans; [apply Nat.le_min_l|auto]
      | eapply Nat.le_trans; [apply Nat.le_min_r|auto] ].
  - auto.
Qed.

Lemma len_of_attained (env : list cvec) (e : vexpr) :
  exists i, In i (vars_of e) /\ len_of env e = length (nth i env []).
Proof.
  induction e as [j|a [i [Hi Ea]] b [k [Hk Eb]]|a [i [Hi Ea]] b [k [Hk Eb]]
                 |a [i [Hi Ea]] b [k [Hk Eb]]|a IHa];
    cbn [vars_of len_of].
  - exists j. split; [now left|reflexivity].
  - destruct (Nat.min_dec (len_of env a) (len_of env b)) as [E|E];
      rewrite E; [exists i|exists k]; split; auto using in_or_app.
  - destruct (Nat.min_dec (len_of env a) (len_of env b)) as [E|E];
      rewrite E; [exists i|exists k]; split; auto using in_or_app.
  - destruct (Nat.min_dec (len_of env a) (len_of env b)) as [E|E];
      rewrite E; [exists i|exists k]; split; auto using in_or_app.
  - exact IHa.
Qed.

Lemma same_vars_len (env : list cvec) (e1 e2 : vexpr) :
  same_vars e1 e2 = true -> len_of env e1 = len_of env e2.
Proof.
  unfold same_vars. intros H. apply andb_prop in H as [H12 H21].
  assert (sub : forall a b,
             forallb (fun i => existsb (Nat.eqb i) (vars_of b)) (vars_of a)
             = true ->
             (len_of env b <= len_of env a)%nat).
  { intros a b H. destruct (len_of_attained env a) as [i [Hi ->]].
    apply len_of_le.
    apply (proj1 (forallb_forall _ _) H) in Hi.
    apply existsb_exists in Hi as [j [Hj E]].
    apply Nat.eqb_eq in E. now subst j. }
  apply Nat.le_antisymm; auto.
Qed.

(** Two expressions over the same vectors that agree entry by entry denote
    the same vector. *)
Lemma vexpr_eq (env : list cvec) (e1 e2 : vexpr) :
  same_vars e1 e2 = true ->
  (forall cs, val_of cs e1 = val_of cs e2) ->
  vec_of env e1 = vec_of env e2.
Proof.
  intros Hvars Hval.
  rewrite (vec_of_entries env e1), (vec_of_entries env e2).
  rewrite (same_vars_len env e1 e2 Hvars). apply map_ext. intros k.
  apply Hval.
Qed.

End VectorExpressionFacts.

(** Proves an equation between two expressions over the vectors listed in
    [env]. *)
Ltac vec_index x env :=
  lazymatch env with
  | x :: _ => constr:(0%nat)
  | _ :: ?rest => let i := vec_index x rest in constr:(S i)
  end.

Ltac vec_reify env t :=
  lazymatch t with
  | vadd ?a ?b =>
      let a' := vec_reify env a in
      let b' := vec_reify env b in constr:(VAdd a' b')
  | vsub ?a ?b =>
      let a' := vec_reify env a in
      let b' := vec_reify env b in constr:(VSub a' b')
  | vmul ?a ?b =>
      let a' := vec_reify env a in
      let b' := vec_reify env b in constr:(VMul a' b')
  | vopp ?a => let a' := vec_reify env a in constr:(VOpp a')
  | _ => let i := vec_index t env in constr:(VVar i)
  end.

Ltac vec_ring env :=
  lazymatch goal with
  | |- ?l = ?r =>
      let el := vec_reify env l in
      let er := vec_reify env r in
      change (vec_of env el = vec_of env er);
      apply vexpr_eq;
      [ reflexivity
      | let cs := fresh "cs" in
        intros cs; cbn [val_of];
        repeat match goal with
               | |- context [nth ?i cs C0] =>
                   let z := fresh "z" in
                   generalize (nth i cs C0); intros z; destruct z
               end;
        cunfold; f_equal; ring ]
  end.

(** Decides the tests on the orientation at hand. *)
Ltac string_tests :=
  repeat match goal with
         | |- context [contains ?a ?b] =>
             let r := eval vm_compute in (contains a b) in
             change (contains a b) with r
         | |- context [String.eqb ?a ?b] =>
             let r := eval vm_compute in (String.eqb a b) in
             change (String.eqb a b) with r
         end.

(** The vectors the forward derivative of the 3D classes is made of. *)
Ltac field_vectors self src mesh f v :=
  constr:([RxNSEM._ex_px self src mesh f; RxNSEM._ex_py self src mesh f;
           RxNSEM._ey_px self src mesh f; RxNSEM._ey_py self src mesh f;
           RxNSEM._hx_px self src mesh f; RxNSEM._hx_py self src mesh f;
           RxNSEM._hy_px self src mesh f; RxNSEM._hy_py self src mesh f;
           RxNSEM._hz_px self src mesh f; RxNSEM._hz_py self src mesh f;
           RxNSEM._hx_num_px self src mesh f;
           RxNSEM._hx_num_py self src mesh f;
           RxNSEM._hy_num_px self src mesh f;
           RxNSEM._hy_num_py self src mesh f;
           RxNSEM._ex_px_u self src mesh f v;
           RxNSEM._ex_py_u self src mesh f v;
           RxNSEM._ey_px_u self src mesh f v;
           RxNSEM._ey_py_u self src mesh f v;
           RxNSEM._hx_px_u self src mesh f v;
           RxNSEM._hx_py_u self src mesh f v;
           RxNSEM._hy_px_u self src mesh f v;
           RxNSEM._hy_py_u self src mesh f v;
           RxNSEM._hz_px_u self src mesh f v;
           RxNSEM._hz_py_u self src mesh f v;
           RxNSEM._hx_num_px_u self src mesh f v;
           RxNSEM._hx_num_py_u self src mesh f v;
           RxNSEM._hy_num_px_u self src mesh f v;
           RxNSEM._hy_num_py_u self src mesh f v]).

Section ForwardDerivativeClaim.

Import RxNSEM.

Lemma vadd_vsub_scalar (z : cvec) (c : R) :
  vadd_scalar (vsub_scalar z c) c = z.
Proof.
  unfold vadd_scalar, vsub_scalar. rewrite map_map.
  rewrite <- (map_id z) at 2. apply map_ext. intros [a b]. csolve.
Qed.

Lemma vadd_scalar_0 (z : cvec) : vadd_scalar z 0 = z.
Proof.
  unfold vadd_scalar. rewrite <- (map_id z) at 2.
  apply map_ext. intros [a b]. csolve.
Qed.

Context {Src : Type}.
Variable self : Rx.
Variable src : Src.
Variable mesh : BaseMesh.
Variable f : Fields Src.

(** [_Hd_uV] is the product rule on the determinant of the horizontal
    magnetic field. *)
Lemma Hd_uV_product_rule (v : cvec) :
  _Hd_uV self src mesh f v
  = det2_deriv (interpolated self src mesh f H_x)
               (interpolated self src mesh f H_y)
               (interpolated_deriv self src mesh f H_x v)
               (interpolated_deriv self src mesh f H_y v).
Proof.
  unfold _Hd_uV, det2_deriv, det2.
  cbn [interpolated interpolated_deriv at_px at_py].
  let env := field_vectors self src mesh f v in vec_ring env.
Qed.

(** One orientation of a 3D class: the branch is selected, the value of
    [eval] names the ratio, and what is left are equations between signed
    combinations of the same vectors. *)
Ltac quotient_case v :=
  cbn [response_of]; string_tests; cbv iota;
  cbn [as_complex bind option_map fst snd];
  eexists; eexists; eexists;
  split; [reflexivity|]; split; [reflexivity|]; split; [reflexivity|];
  change (map Cinv (det2 (interpolated self src mesh f H_x)
                         (interpolated self src mesh f H_y)))
    with (_Hd self src mesh f);
  rewrite ?vadd_vsub_scalar, ?vadd_scalar_0;
  split;
  [ apply (f_equal (vmul (_Hd self src mesh f)))
  | apply (f_equal (fun x => Ok (RealArr (getattr x (component self)))));
    unfold quotient_rule;
    apply (f_equal (vmul (_Hd self src mesh f)));
    rewrite <- Hd_uV_product_rule;
    apply (f_equal (fun x => x [-] _)) ];
  unfold cramer_numerator, cramer_numerator_deriv, det2_deriv, det2;
  cbn [interpolated interpolated_deriv at_px at_py];
  let env := field_vectors self src mesh f v in vec_ring env.

(** C2.  On every receiver class, for an orientation the class has a
    formula for, the forward [evalDeriv] returns the real or the imaginary
    part, as [component] says, of
    [Hd * (numerator_deriv - diag(ratio) * denominator_deriv)].  Here [Hd]
    is the reciprocal of the denominator; [ratio] is the complex value [z]
    of [eval] with the Schmucker correction of the horizontal magnetic
    transfer added back, which is [Hd] times the numerator; and the
    numerator, the denominator and their derivatives are the signed
    combinations of the interpolated fields and of their derivatives:
    Cramer's determinants and the product rule on them for the 3D classes,
    [-ex] and [hx] with their derivatives for the 1D impedance. *)
Theorem forward_quotient_rule (cls : rx_class) (v : cvec) :
  In (orientation self) (handled_orientations cls) ->
  exists z N dN,
    eval cls self src mesh f true = Ok (CplxArr z)
    /\ signed_numerator cls self src mesh f = Some N
    /\ signed_numerator_deriv cls self src mesh f v = Some dN
    /\ vadd_scalar z (schmucker_of cls self)
       = map Cinv (denominator cls self src mesh f) [*] N
    /\ evalDeriv cls self src mesh f v false
       = Ok (RealArr
               (getattr
                  (quotient_rule
                     (map Cinv (denominator cls self src mesh f)) dN
                     (vadd_scalar z (schmucker_of cls self))
                     (denominator_deriv cls self src mesh f v))
                  (component self))).
Proof.
  intros Hin.
  destruct cls; cbn [handled_orientations orientation_choices In] in Hin.
  - clear Hin. eexists; eexists; eexists.
    split; [reflexivity|]. split; [reflexivity|]. split; [reflexivity|].
    cbn [schmucker_of denominator denominator_deriv evalDeriv].
    rewrite vadd_scalar_0. split.
    + unfold Point_impedance1D_Hd.
      vec_ring [map Cinv (_hx self src mesh f); _ex self src mesh f].
    + reflexivity.
  - cbn [eval evalDeriv signed_numerator signed_numerator_deriv denominator
         denominator_deriv schmucker_of].
    unfold Point_impedance3D_evalDeriv, Point_impedance3D_eval,
      Point_impedance3D_Zij, Point_impedance3D_ZijN_uV.
    repeat (destruct Hin as [Ho|Hin]; [|]); try contradiction;
      rewrite <- Ho; quotient_case v.
  - cbn [eval evalDeriv signed_numerator signed_numerator_deriv denominator
         denominator_deriv schmucker_of].
    unfold Point_tipper3D_evalDeriv, Point_tipper3D_eval,
      Point_tipper3D_Tij, Point_tipper3D_TijN_uV.
    repeat (destruct Hin as [Ho|Hin]; [|]); try contradiction;
      rewrite <- Ho; quotient_case v.
  - cbn [eval evalDeriv signed_numerator signed_numerator_deriv denominator
         denominator_deriv schmucker_of].
    unfold Point_horizontalmagvar3D_evalDeriv, Point_horizontalmagvar3D_eval,
      Point_horizontalmagvar3D_Mij, Point_horizontalmagvar3D_MijN_uV.
    repeat (destruct Hin as [Ho|Hin]; [|]); try contradiction;
      rewrite <- Ho; quotient_case v.
Qed.

End ForwardDerivativeClaim.


Section AdjointShape.

Import RxNSEM.

Context {Src : Type}.
Variable src : Src.
Variable mesh : BaseMesh.
Variable f : Fields Src.



End AdjointShape.



Section AdjointShapeClaim.

Import RxNSEM.

Context {Src : Type}.









End AdjointShapeClaim.

Section ReceiverExamples.

Import RxNSEM.


Lemma forward_quotient_rule_witness :
  exists z N dN,
    eval Point_horizontalmagvar3D (example_rx_pair "xx" imag) tt example_mesh
         example_fields true = Ok (CplxArr z)
    /\ signed_numerator Point_horizontalmagvar3D (example_rx_pair "xx" imag)
                        tt example_mesh example_fields = Some N
    /\ signed_numerator_deriv Point_horizontalmagvar3D
                              (example_rx_pair "xx" imag) tt example_mesh
                              example_fields [C1; Ci] = Some dN
    /\ vadd_scalar z (schmucker_of Point_horizontalmagvar3D
                                   (example_rx_pair "xx" imag))
       = map Cinv (denominator Point_horizontalmagvar3D
                               (example_rx_pair "xx" imag) tt example_mesh
                               example_fields) [*] N
    /\ evalDeriv Point_horizontalmagvar3D (example_rx_pair "xx" imag) tt
                 example_mesh example_fields [C1; Ci] false
       = Ok (RealArr
               (getattr
                  (quotient_rule
                     (map Cinv (denominator Point_horizontalmagvar3D
                                  (example_rx_pair "xx" imag) tt example_mesh
                                  example_fields))
                     dN
                     (vadd_scalar z
                        (schmucker_of Point_horizontalmagvar3D
                                      (example_rx_pair "xx" imag)))
                     (denominator_deriv Point_horizontalmagvar3D
                        (example_rx_pair "xx" imag) tt example_mesh
                        example_fields [C1; Ci]))
                  (component (example_rx_pair "xx" imag)))).
Proof.
  apply (forward_quotient_rule (example_rx_pair "xx" imag) tt example_mesh
           example_fields Point_horizontalmagvar3D [C1; Ci]).
  simpl. tauto.
Defined.




End ReceiverExamples.

(** * The adjoint identity *)

Section AdjointPairs.

Import RxNSEM.

(** A derivative given by a matrix is such a pair. *)
Lemma matrix_deriv_adjoint_pair (M : spmatrix) :
  adjoint_pair (ncols M) (nrows M) (matrix_deriv M).
Proof.
  unfold adjoint_pair, matrix_deriv. split; [|split].
  - intros v _. apply length_mulPC.
  - intros w _. apply length_mulPC.
  - intros v w Hv Hw. now apply dotC_mulPC.
Qed.

Lemma nth_vdivr (g : cvec) (r : R) (j : nat) :
  nth j (vdivr g r) C0 = Cdivr (nth j g C0) r.
Proof.
  unfold vdivr.
  assert (E : C0 = Cdivr C0 r) by (cunfold; f_equal; unfold Rdiv; lra).
  rewrite E at 1. exact (map_nth (fun z => Cdivr z r) g C0 j).
Qed.

(** The adjoint accessors of the interpolated fields are the fields. *)
Lemma rowmul_transpose (P : spmatrix) (g : cvec) :
  rowmul g (transpose P) = mulPC P g.
Proof.
  unfold rowmul, mulPC. cbn [transpose ncols nrows entry].
  apply map_ext. intros i. f_equal; apply big_sum_ext; intros; lra.
Qed.

Lemma rowmul_vdivr_transpose (P : spmatrix) (g : cvec) (r : R) :
  rowmul (vdivr g r) (transpose P) = vdivr (mulPC P g) r.
Proof.
  unfold rowmul, mulPC, vdivr at 3. cbn [transpose ncols nrows entry].
  rewrite map_map. apply map_ext. intros i. unfold Cdivr, Cre, Cim.
  cbn [fst snd]. unfold Rdiv. rewrite <- !big_sum_scale_r.
  f_equal; apply big_sum_ext; intros j _; rewrite nth_vdivr;
    unfold Cdivr, Cre, Cim; cbn [fst snd]; unfold Rdiv; lra.
Qed.

(** One term of a numerator: [a * (P * D(v))] against its adjoint
    [D.T (P.T (a * x))]. *)
Lemma term_pair (P : spmatrix) (D : cvec -> bool -> cvec)
      (nD nU k : nat) (a x v : cvec) :
  nrows P = nD -> ncols P = k -> adjoint_pair nU k D ->
  length a = nD -> length x = nD -> length v = nU ->
  dotC x (a [*] mulPC P (D v false))
  = dotC v (D (mulPC (transpose P) (a [*] x)) true).
Proof.
  intros Hr Hc (HDf & HDa & HD) Ha Hx Hv.
  rewrite dotC_vmul_shift, dotC_mulPC.
  - rewrite HD; [apply dotC_comm|assumption|].
    rewrite length_mulPC. exact Hc.
  - rewrite length_vmul, Ha, Hx, Hr. apply Nat.min_id.
  - rewrite HDf by assumption. now symmetry.
Qed.

Lemma term_pair_mu (P : spmatrix) (D : cvec -> bool -> cvec)
      (nD nU k : nat) (a x v : cvec) (r : R) :
  nrows P = nD -> ncols P = k -> adjoint_pair nU k D ->
  length a = nD -> length x = nD -> length v = nU ->
  dotC x (a [*] vdivr (mulPC P (D v false)) r)
  = dotC v (vdivr (D (mulPC (transpose P) (a [*] x)) true) r).
Proof.
  intros Hr Hc HD Ha Hx Hv.
  rewrite dotC_vmul_shift, !dotC_vdivr_r, <- dotC_vmul_shift.
  f_equal. now apply (term_pair P D nD nU k).
Qed.

End AdjointPairs.

Section SurveyDimensions.

Import RxNSEM.

Context {Src : Type}.
Variable self : Rx.
Variable src : Src.
Variable mesh : BaseMesh.
Variable f : Fields Src.
Variables nD nU nEdges nFaces : nat.
Hypothesis dims : survey_dims self src mesh f nD nU nEdges nFaces.

(** The adjoint accessors of the fields are the fields. *)
Lemma adjoint_fields :
  _aex_px self src mesh f = _ex_px self src mesh f
  /\ _aey_px self src mesh f = _ey_px self src mesh f
  /\ _aex_py self src mesh f = _ex_py self src mesh f
  /\ _aey_py self src mesh f = _ey_py self src mesh f
  /\ _ahx_px self src mesh f = _hx_px self src mesh f
  /\ _ahy_px self src mesh f = _hy_px self src mesh f
  /\ _ahz_px self src mesh f = _hz_px self src mesh f
  /\ _ahx_py self src mesh f = _hx_py self src mesh f
  /\ _ahy_py self src mesh f = _hy_py self src mesh f
  /\ _ahz_py self src mesh f = _hz_py self src mesh f
  /\ _ahx_num_px self src mesh f = _hx_num_px self src mesh f
  /\ _ahy_num_px self src mesh f = _hy_num_px self src mesh f
  /\ _ahx_num_py self src mesh f = _hx_num_py self src mesh f
  /\ _ahy_num_py self src mesh f = _hy_num_py self src mesh f.
Proof.
  repeat split;
    first [ apply rowmul_transpose | apply rowmul_vdivr_transpose ].
Qed.

(** The interpolated fields have one entry for each receiver location. *)
Lemma field_lengths :
  length (_ex_px self src mesh f) = nD
  /\ length (_ey_px self src mesh f) = nD
  /\ length (_ex_py self src mesh f) = nD
  /\ length (_ey_py self src mesh f) = nD
  /\ length (_hx_px self src mesh f) = nD
  /\ length (_hy_px self src mesh f) = nD
  /\ length (_hz_px self src mesh f) = nD
  /\ length (_hx_py self src mesh f) = nD
  /\ length (_hy_py self src mesh f) = nD
  /\ length (_hz_py self src mesh f) = nD
  /\ length (_hx_num_px self src mesh f) = nD
  /\ length (_hy_num_px self src mesh f) = nD
  /\ length (_hx_num_py self src mesh f) = nD
  /\ length (_hy_num_py self src mesh f) = nD.
Proof.
  destruct dims.
  repeat split;
    unfold _ex_px, _ey_px, _ex_py, _ey_py, _hx_px, _hy_px, _hz_px,
      _hx_py, _hy_py, _hz_py, _hx_num_px, _hy_num_px, _hx_num_py,
      _hy_num_py;
    rewrite ?length_vdivr, length_mulPC; tauto.
Qed.

End SurveyDimensions.

Section NumeratorPatterns.

(** The two sign patterns of the numerators' derivatives. *)

Lemma pattern_plus_plus_minus_minus (nD nU : nat) (x v t1 t2 t3 t4 s1 s2 s3 s4 : cvec) :
  length t1 = nD -> length t2 = nD -> length t3 = nD -> length t4 = nD ->
  length s1 = nU -> length s2 = nU -> length s3 = nU -> length s4 = nU ->
  dotC x t1 = dotC v s1 -> dotC x t2 = dotC v s2 ->
  dotC x t3 = dotC v s3 -> dotC x t4 = dotC v s4 ->
  dotC x (((t1 [+] t2) [-] t3) [-] t4)
  = dotC (((s1 [+] s2) [-] s3) [-] s4) v.
Proof.
  intros L1 L2 L3 L4 M1 M2 M3 M4 E1 E2 E3 E4.
  rewrite (dotC_comm _ v).
  rewrite !dotC_vsub_r, !dotC_vadd_r;
    rewrite ?length_vsub, ?length_vadd, ?L1, ?L2, ?L3, ?L4,
      ?M1, ?M2, ?M3, ?M4, ?Nat.min_id; try reflexivity.
  now rewrite E1, E2, E3, E4.
Qed.

Lemma pattern_minus_minus_plus_plus (nD nU : nat) (x v a t1 t2 t3 t4 s1 s2 s3 s4 : cvec) :
  length (a [*] t1) = nD -> length t2 = nD -> length t3 = nD ->
  length t4 = nD ->
  length s1 = nU -> length s2 = nU -> length s3 = nU -> length s4 = nU ->
  dotC x (a [*] t1) = dotC v s1 -> dotC x t2 = dotC v s2 ->
  dotC x t3 = dotC v s3 -> dotC x t4 = dotC v s4 ->
  dotC x ((((vopp a [*] t1) [-] t2) [+] t3) [+] t4)
  = dotC (((vopp s1 [-] s2) [+] s3) [+] s4) v.
Proof.
  intros L1 L2 L3 L4 M1 M2 M3 M4 E1 E2 E3 E4.
  rewrite (dotC_comm _ v), vmul_vopp_l.
  rewrite !dotC_vadd_r, !dotC_vsub_r, !dotC_vopp_r;
    repeat first [ rewrite length_vsub | rewrite length_vadd
                 | rewrite length_vopp ];
    rewrite ?L1, ?L2, ?L3, ?L4, ?M1, ?M2, ?M3, ?M4, ?Nat.min_id;
    try reflexivity.
  now rewrite E1, E2, E3, E4.
Qed.

(** The same with the last two terms, of equal sign, in the other order. *)

Lemma pattern_plus_plus_minus_minus' (nD nU : nat) (x v t1 t2 t3 t4 s1 s2 s3 s4 : cvec) :
  length t1 = nD -> length t2 = nD -> length t3 = nD -> length t4 = nD ->
  length s1 = nU -> length s2 = nU -> length s3 = nU -> length s4 = nU ->
  dotC x t1 = dotC v s1 -> dotC x t2 = dotC v s2 ->
  dotC x t3 = dotC v s4 -> dotC x t4 = dotC v s3 ->
  dotC x (((t1 [+] t2) [-] t3) [-] t4)
  = dotC (((s1 [+] s2) [-] s3) [-] s4) v.
Proof.
  intros L1 L2 L3 L4 M1 M2 M3 M4 E1 E2 E3 E4.
  rewrite (dotC_comm _ v).
  rewrite !dotC_vsub_r, !dotC_vadd_r;
    rewrite ?length_vsub, ?length_vadd, ?L1, ?L2, ?L3, ?L4,
      ?M1, ?M2, ?M3, ?M4, ?Nat.min_id; try reflexivity.
  rewrite E1, E2, E3, E4.
  destruct (dotC v s1), (dotC v s2), (dotC v s3), (dotC v s4). csolve.
Qed.

Lemma pattern_minus_minus_plus_plus' (nD nU : nat) (x v a t1 t2 t3 t4 s1 s2 s3 s4 : cvec) :
  length (a [*] t1) = nD -> length t2 = nD -> length t3 = nD ->
  length t4 = nD ->
  length s1 = nU -> length s2 = nU -> length s3 = nU -> length s4 = nU ->
  dotC x (a [*] t1) = dotC v s1 -> dotC x t2 = dotC v s2 ->
  dotC x t3 = dotC v s4 -> dotC x t4 = dotC v s3 ->
  dotC x ((((vopp a [*] t1) [-] t2) [+] t3) [+] t4)
  = dotC (((vopp s1 [-] s2) [+] s3) [+] s4) v.
Proof.
  intros L1 L2 L3 L4 M1 M2 M3 M4 E1 E2 E3 E4.
  rewrite (dotC_comm _ v), vmul_vopp_l.
  rewrite !dotC_vadd_r, !dotC_vsub_r, !dotC_vopp_r;
    repeat first [ rewrite length_vsub | rewrite length_vadd
                 | rewrite length_vopp ];
    rewrite ?L1, ?L2, ?L3, ?L4, ?M1, ?M2, ?M3, ?M4, ?Nat.min_id;
    try reflexivity.
  rewrite E1, E2, E3, E4.
  destruct (dotC v s1), (dotC v s2), (dotC v s3), (dotC v s4). csolve.
Qed.

End NumeratorPatterns.

Ltac unfold_derivs :=
  unfold RxNSEM._ex_px_u, RxNSEM._ey_px_u, RxNSEM._ex_py_u, RxNSEM._ey_py_u,
    RxNSEM._hx_px_u, RxNSEM._hy_px_u, RxNSEM._hz_px_u,
    RxNSEM._hx_py_u, RxNSEM._hy_py_u, RxNSEM._hz_py_u,
    RxNSEM._hx_num_px_u, RxNSEM._hy_num_px_u,
    RxNSEM._hx_num_py_u, RxNSEM._hy_num_py_u,
    RxNSEM._aex_px_u, RxNSEM._aey_px_u, RxNSEM._aex_py_u, RxNSEM._aey_py_u,
    RxNSEM._ahx_px_u, RxNSEM._ahy_px_u, RxNSEM._ahz_px_u,
    RxNSEM._ahx_py_u, RxNSEM._ahy_py_u, RxNSEM._ahz_py_u,
    RxNSEM._ahx_num_px_u, RxNSEM._ahy_num_px_u,
    RxNSEM._ahx_num_py_u, RxNSEM._ahy_num_py_u,
    RxNSEM._ex_u, RxNSEM._hx_u, RxNSEM._aex_u, RxNSEM._ahx_u.

(** Brings the dimensions of the survey into the context. *)
Ltac open_dims dims :=
  pose proof (dim_Pex _ _ _ _ _ _ _ _ dims) as [? ?];
  pose proof (dim_Pey _ _ _ _ _ _ _ _ dims) as [? ?];
  pose proof (dim_Pbx _ _ _ _ _ _ _ _ dims) as [? ?];
  pose proof (dim_Pby _ _ _ _ _ _ _ _ dims) as [? ?];
  pose proof (dim_Pbz _ _ _ _ _ _ _ _ dims) as [? ?];
  pose proof (dim_Pbx_num _ _ _ _ _ _ _ _ dims) as [? ?];
  pose proof (dim_Pby_num _ _ _ _ _ _ _ _ dims) as [? ?];
  pose proof (dim_Pex_1D _ _ _ _ _ _ _ _ dims) as [? ?];
  pose proof (dim_Pbx_1D _ _ _ _ _ _ _ _ dims) as [? ?];
  pose proof (pair_e_px _ _ _ _ _ _ _ _ dims);
  pose proof (pair_e_py _ _ _ _ _ _ _ _ dims);
  pose proof (pair_b_px _ _ _ _ _ _ _ _ dims);
  pose proof (pair_b_py _ _ _ _ _ _ _ _ dims);
  pose proof (pair_e_1d _ _ _ _ _ _ _ _ dims);
  pose proof (pair_b_1d _ _ _ _ _ _ _ _ dims);
  let FL := fresh "FL" in
  pose proof (field_lengths _ _ _ _ _ _ _ _ dims) as FL;
  decompose [and] FL; clear FL.

(** The length of a term of a numerator, forward or adjoint. *)
Ltac term_length :=
  unfold_derivs;
  repeat first [ rewrite length_vmul | rewrite length_vopp
               | rewrite length_vdivr | rewrite length_mulPC ];
  first
    [ match goal with
      | P : adjoint_pair _ _ ?D |- length (?D _ true) = _ =>
          apply (proj1 (proj2 P)); rewrite length_mulPC;
          cbn [transpose nrows]; assumption
      end
    | repeat match goal with
             | E : length _ = _ |- _ => rewrite E
             | E : nrows _ = _ |- _ => rewrite E
             end;
      rewrite ?Nat.min_id; reflexivity ].

(** A forward term against its adjoint term. *)
Ltac term_transpose :=
  unfold_derivs;
  first [ eapply term_pair | eapply term_pair_mu ]; eassumption.

Section NumeratorTransposes.

Import RxNSEM.

Context {Src : Type}.
Variable self : Rx.
Variable src : Src.
Variable mesh : BaseMesh.
Variable f : Fields Src.
Variables nD nU nEdges nFaces : nat.
Hypothesis dims : survey_dims self src mesh f nD nU nEdges nFaces.

(** On every class and for every orientation it has a formula for, the
    forward derivative of the numerator and the closure of the adjoint
    branch are transposes of one another. *)
Lemma numerator_transposes (cls : rx_class) (x v : cvec) :
  In (orientation self) (handled_orientations cls) ->
  length x = nD -> length v = nU ->
  exists N NT,
    numerator_deriv_of cls self src mesh f v = Some N
    /\ adjoint_numerator_of cls self src mesh f = Some NT
    /\ dotC x N = dotC (NT x) v.
Proof.
  intros Hin Hx Hv.
  destruct (adjoint_fields self src mesh f)
    as (A1 & A2 & A3 & A4 & A5 & A6 & A7 & A8 & A9 & A10 & A11 & A12
        & A13 & A14).
  open_dims dims.
  destruct cls; cbn [handled_orientations orientation_choices In] in Hin.
  - clear Hin. eexists; eexists. split; [reflexivity|].
    split; [reflexivity|]. cbv beta.
    rewrite (dotC_comm _ v), !dotC_vopp_r. f_equal.
    unfold_derivs. rewrite dotC_mulPC.
    + match goal with
      | P : adjoint_pair _ _ (_eDeriv_u f src) |- _ =>
          destruct P as (_ & _ & P); rewrite P; [apply dotC_comm|assumption|]
      end.
      rewrite length_mulPC. cbn [transpose nrows]. assumption.
    + rewrite Hx. symmetry. assumption.
    + match goal with
      | P : adjoint_pair _ _ (_eDeriv_u f src) |- _ =>
          destruct P as (P & _ & _); rewrite P by assumption
      end. symmetry. assumption.
  - unfold numerator_deriv_of, adjoint_numerator_of,
      Point_impedance3D_ZijN_uV, Point_impedance3D_adjoint_branch.
    repeat (destruct Hin as [<-|Hin]; [|]); try contradiction;
      rx_orientation; cbn [option_map snd];
      (eexists; eexists; split; [reflexivity|]; split; [reflexivity|]);
      cbv beta; rewrite ?A1, ?A2, ?A3, ?A4, ?A5, ?A6, ?A7, ?A8, ?A9, ?A10;
      first [ eapply (pattern_plus_plus_minus_minus nD nU)
            | eapply (pattern_minus_minus_plus_plus nD nU) ];
      first [ term_length | term_transpose ].
  - unfold numerator_deriv_of, adjoint_numerator_of,
      Point_tipper3D_TijN_uV, Point_tipper3D_adjoint_branch.
    repeat (destruct Hin as [<-|Hin]; [|]); try contradiction;
      rx_orientation; cbn [option_map snd];
      (eexists; eexists; split; [reflexivity|]; split; [reflexivity|]);
      cbv beta; rewrite ?A1, ?A2, ?A3, ?A4, ?A5, ?A6, ?A7, ?A8, ?A9, ?A10;
      first [ eapply (pattern_plus_plus_minus_minus' nD nU)
            | eapply (pattern_minus_minus_plus_plus' nD nU) ];
      first [ term_length | term_transpose ].
  - unfold numerator_deriv_of, adjoint_numerator_of,
      Point_horizontalmagvar3D_MijN_uV,
      Point_horizontalmagvar3D_adjoint_branch.
    repeat (destruct Hin as [<-|Hin]; [|]); try contradiction;
      rx_orientation; cbn [option_map fst snd];
      (eexists; eexists; split; [reflexivity|]; split; [reflexivity|]);
      cbv beta;
      rewrite ?A1, ?A2, ?A3, ?A4, ?A5, ?A6, ?A7, ?A8, ?A9, ?A10,
        ?A11, ?A12, ?A13, ?A14;
      first [ eapply (pattern_plus_plus_minus_minus nD nU)
            | eapply (pattern_minus_minus_plus_plus nD nU) ];
      first [ term_length | term_transpose ].
Qed.

End NumeratorTransposes.

Section Impedance1DIdentity.

Import RxNSEM.

Lemma dotR_Cre (u : list R) (z : cvec) :
  dotR u (map Cre z) = Cre (dotC (map RtoC u) z).
Proof.
  revert z. induction u as [|a u IH]; intros [|b z]; try (cbn; lra).
  cbn [map]. rewrite dotC_cons. unfold dotR in *.
  cbn [zip_with np_sum fold_right]. fold (np_sum (zip_with Rmult u (map Cre z))).
  rewrite IH. destruct b, (dotC (map RtoC u) z). cunfold. lra.
Qed.

Lemma dotR_Cim (u : list R) (z : cvec) :
  dotR u (map Cim z) = Cim (dotC (map RtoC u) z).
Proof.
  revert z. induction u as [|a u IH]; intros [|b z]; try (cbn; lra).
  cbn [map]. rewrite dotC_cons. unfold dotR in *.
  cbn [zip_with np_sum fold_right]. fold (np_sum (zip_with Rmult u (map Cim z))).
  rewrite IH. destruct b, (dotC (map RtoC u) z). cunfold. lra.
Qed.

Context {Src : Type}.
Variable self : Rx.
Variable src : Src.
Variable mesh : BaseMesh.
Variable f : Fields Src.
Variables nD nU nEdges nFaces : nat.
Hypothesis dims : survey_dims self src mesh f nD nU nEdges nFaces.

(** The complex Jacobian of the 1D impedance and its transpose. *)
Lemma impedance1D_complex_identity (x v : cvec) :
  length x = nD -> length v = nU ->
  let Hd := Point_impedance1D_Hd self src mesh f in
  let Z := vopp Hd [*] _ex self src mesh f in
  dotC x (Hd [*] (vopp (_ex_u self src mesh f v)
                  [-] (Z [*] _hx_u self src mesh f v)))
  = dotC v (vopp (_aex_u self src mesh f (Hd [*] x))
            [-] _ahx_u self src mesh f ((Z [*] Hd) [*] x)).
Proof.
  intros Hx Hv Hd Z. open_dims dims.
  assert (LHd : length Hd = nD).
  { subst Hd. unfold Point_impedance1D_Hd, _hx.
    rewrite length_map, length_vdivr, length_mulPC. assumption. }
  assert (LZ : length Z = nD).
  { subst Z. rewrite length_vmul, length_vopp, LHd. unfold _ex.
    rewrite length_mulPC.
    match goal with E : nrows (Point_impedance1D_Pex _ _) = _ |- _ =>
      rewrite E end.
    apply Nat.min_id. }
  assert (Le : forall y, length (_aex_u self src mesh f y) = nU).
  { intros y. term_length. }
  assert (Lh : forall y, length (_ahx_u self src mesh f y) = nU).
  { intros y. term_length. }
  rewrite dotC_vmul_shift.
  rewrite dotC_vsub_r.
  2:{ rewrite length_vopp, length_vmul, LZ. unfold _ex_u, _hx_u.
      rewrite length_vdivr, !length_mulPC.
      repeat match goal with E : nrows _ = _ |- _ => rewrite E end.
      now rewrite Nat.min_id. }
  rewrite dotC_vsub_r by (now rewrite length_vopp, Le, Lh).
  rewrite !dotC_vopp_r. f_equal.
  - f_equal. unfold _ex_u, _aex_u.
    rewrite dotC_mulPC.
    + match goal with
      | P : adjoint_pair _ _ (_eDeriv_u f src) |- _ =>
          destruct P as (_ & _ & P); rewrite P; [apply dotC_comm|assumption|]
      end.
      rewrite length_mulPC. cbn [transpose nrows]. assumption.
    + rewrite length_vmul, LHd, Hx, Nat.min_id. symmetry. assumption.
    + match goal with
      | P : adjoint_pair _ _ (_eDeriv_u f src) |- _ =>
          destruct P as (P & _ & _); rewrite P by assumption
      end. symmetry. assumption.
  - rewrite dotC_vmul_shift, <- vmul_assoc.
    unfold _hx_u, _ahx_u. rewrite !dotC_vdivr_r. f_equal.
    rewrite dotC_mulPC.
    + match goal with
      | P : adjoint_pair _ _ (_bDeriv_u f src) |- _ =>
          destruct P as (_ & _ & P); rewrite P; [apply dotC_comm|assumption|]
      end.
      rewrite length_mulPC. cbn [transpose nrows]. assumption.
    + rewrite !length_vmul, LZ, LHd, Hx, !Nat.min_id. symmetry. assumption.
    + match goal with
      | P : adjoint_pair _ _ (_bDeriv_u f src) |- _ =>
          destruct P as (P & _ & _); rewrite P by assumption
      end. symmetry. assumption.
Qed.

(** The adjoint identity of the 1D impedance receiver, as the caller uses
    it: for a real data vector [u] and a complex model vector [v]. *)
Lemma impedance1D_adjoint_identity (u : list R) (v : cvec) :
  length u = nD -> length v = nU ->
  exists fwd adj,
    evalDeriv Point_impedance1D self src mesh f v false = Ok (RealArr fwd)
    /\ evalDeriv Point_impedance1D self src mesh f (map RtoC u) true
       = Ok (CplxArr adj)
    /\ dotR u fwd = component_sign (component self) * Cre (dotC v adj).
Proof.
  intros Hu Hv. eexists; eexists.
  split; [reflexivity|]. split; [reflexivity|].
  pose proof (impedance1D_complex_identity (map RtoC u) v
                ltac:(now rewrite length_map) Hv) as E.
  cbv zeta in E. unfold adjoint_component, getattr.
  destruct (component self); cbn [component_sign].
  - rewrite dotR_Cre, E. lra.
  - rewrite dotR_Cim, E, dotC_scale_r.
    match goal with |- context [dotC v ?a] => destruct (dotC v a) end.
    cunfold. lra.
Qed.

End Impedance1DIdentity.

Section AdjointIdentityClaim.

Import RxNSEM.

Lemma example_dims_with (b_px b_py : cvec) (o : string) (c : component_t) :
  survey_dims (example_rx o c) tt example_mesh (example_fields_with b_px b_py)
              1 2 1 2.
Proof.
  constructor; try (split; reflexivity);
    cbn [example_fields_with _e_pxDeriv_u _e_pyDeriv_u _b_pxDeriv_u
         _b_pyDeriv_u _eDeriv_u _bDeriv_u];
    match goal with
    | |- adjoint_pair _ _ (matrix_deriv ?M) =>
        exact (matrix_deriv_adjoint_pair M)
    end.
Qed.

(** C1, as the claim states it, fails by the design of the component: on
    the 1D impedance receiver with component ['imag'], real fields and real
    vectors [u = [1]] and [v = [1, -1]], whose derivatives are exact
    forward/adjoint pairs, [dot(u, evalDeriv(v))] is 0 and
    [dot(v, evalDeriv(u, adjoint=True))] is [-1j]. *)
Lemma adjoint_identity_counterexample :
  survey_dims (example_rx "yx" imag) tt example_mesh example_fields 1 2 1 2
  /\ exists fwd adj,
       evalDeriv Point_impedance1D (example_rx "yx" imag) tt example_mesh
                 example_fields [C1; RtoC (-1)] false = Ok (RealArr fwd)
       /\ evalDeriv Point_impedance1D (example_rx "yx" imag) tt example_mesh
                    example_fields (map RtoC [1]) true = Ok (CplxArr adj)
       /\ RtoC (dotR [1] fwd) = (0, 0)
       /\ dotC [C1; RtoC (-1)] adj = (0, -1).
Proof.
  split; [apply example_dims_with|].
  eexists; eexists. split; [reflexivity|]. split; [reflexivity|].
  split; rx_solve.
Qed.

(** The determinant's adjoint derivative [_aHd_uV] of the 3D classes
    repeats its first term where the transpose of [_Hd_uV] has
    [_ahy_py_u(sdiag(_ahx_px) * x)]: on fields with [hx_px = hy_py = 1] the
    two differ, and with them the two modes of [evalDeriv], on real data
    and the component ['real']. *)
Lemma aHd_uV_repeats_a_term :
  dotC [C1] (_Hd_uV (example_rx "xx" real) tt example_mesh
                    example_fields_diag [C1; C1])
  = (4 / mu_0, 0)
  /\ dotC (_aHd_uV (example_rx "xx" real) tt example_mesh
                   example_fields_diag [C1]) [C1; C1]
     = (2 / mu_0, 0)
  /\ evalDeriv Point_impedance3D (example_rx "xx" real) tt example_mesh
               example_fields_diag [C1; C0] false
     = Ok (RealArr [1 - 1 / mu_0])
  /\ evalDeriv Point_impedance3D (example_rx "xx" real) tt example_mesh
               example_fields_diag [C1] true
     = Ok (CplxMat [[(1 - 2 / mu_0, 0); (3 / mu_0, 0)]]).
Proof.
  repeat split; rx_solve.
Qed.

(** C1, amended.  With fields whose derivatives are exact forward/adjoint
    pairs, on every receiver class and for every orientation the class has
    a formula for, the forward derivative of the numerator and the closure
    of the adjoint branch are transposes of one another for [dot].  On the
    1D impedance receiver, for every real data vector [u] and every complex
    model vector [v], [dot(u, evalDeriv(v, adjoint=False))] is the real
    part of [dot(v, evalDeriv(u, adjoint=True))] for the component
    ['real'], and minus that real part for the component ['imag']. *)
Theorem adjoint_identity_by_design
        {Src : Type} (cls : rx_class) (self : Rx) (src : Src)
        (mesh : BaseMesh) (f : Fields Src) (nD nU nEdges nFaces : nat)
        (u : list R) (x v : cvec) :
  survey_dims self src mesh f nD nU nEdges nFaces ->
  In (orientation self) (handled_orientations cls) ->
  length u = nD -> length x = nD -> length v = nU ->
  (exists N NT,
     numerator_deriv_of cls self src mesh f v = Some N
     /\ adjoint_numerator_of cls self src mesh f = Some NT
     /\ dotC x N = dotC (NT x) v)
  /\ (cls = Point_impedance1D ->
      exists fwd adj,
        evalDeriv cls self src mesh f v false = Ok (RealArr fwd)
        /\ evalDeriv cls self src mesh f (map RtoC u) true = Ok (CplxArr adj)
        /\ dotR u fwd = component_sign (component self) * Cre (dotC v adj)).
Proof.
  intros dims Hin Hu Hx Hv. split.
  - now apply (numerator_transposes self src mesh f nD nU nEdges nFaces).
  - intros ->.
    now apply (impedance1D_adjoint_identity self src mesh f nD nU nEdges nFaces).
Qed.

Lemma adjoint_identity_by_design_witness :
  exists fwd adj,
    evalDeriv Point_impedance1D (example_rx "yx" imag) tt example_mesh
              example_fields [C1; Ci] false = Ok (RealArr fwd)
    /\ evalDeriv Point_impedance1D (example_rx "yx" imag) tt example_mesh
                 example_fields (map RtoC [3]) true = Ok (CplxArr adj)
    /\ dotR [3] fwd = component_sign imag * Cre (dotC [C1; Ci] adj).
Proof.
  refine (proj2 (adjoint_identity_by_design Point_impedance1D
                   (example_rx "yx" imag) tt example_mesh example_fields
                   1 2 1 2 [3] [C1] [C1; Ci] _ _ _ _ _) eq_refl).
  - apply example_dims_with.
  - simpl. tauto.
  - reflexivity.
  - reflexivity.
  - reflexivity.
Defined.

End AdjointIdentityClaim.

(** * Further properties of the mesh *)

Section MeshVectors.

Import Cyl1DMesh.

Lemma nth_cumsum_from_step (l : list R) (acc : R) (j : nat) :
  (j < length l)%nat ->
  nth j (cumsum_from acc l) 0
  = nth j (acc :: cumsum_from acc l) 0 + nth j l 0.
Proof.
  revert acc j. induction l as [|x l IH]; intros acc j Hj; [simpl in Hj; lia|].
  destruct j as [|j]; [reflexivity|].
  cbn [cumsum_from nth]. rewrite IH by (simpl in Hj; lia). reflexivity.
Qed.

Lemma nth_zip_with {A B X : Type} (g : A -> B -> X) (a : list A) (b : list B)
      (da : A) (db : B) (dx : X) (j : nat) :
  (j < length a)%nat -> (j < length b)%nat ->
  nth j (zip_with g a b) dx = g (nth j a da) (nth j b db).
Proof.
  revert b j. induction a as [|x a IH]; intros [|y b] j Ha Hb;
    simpl in Ha, Hb; try lia.
  destruct j as [|j]; [reflexivity|]. cbn [zip_with nth]. apply IH; lia.
Qed.

Lemma nth_tl {A : Type} (l : list A) (d : A) (j : nat) :
  nth j (tl l) d = nth (S j) l d.
Proof. destruct l; [destruct j; reflexivity|reflexivity]. Qed.

Lemma last_map_R (f : R -> R) (l : list R) (d d' : R) :
  l <> [] -> last (map f l) d' = f (last l d).
Proof.
  induction l as [|x l IH]; [congruence|]. intros _.
  destruct l; [reflexivity|]. apply IH. discriminate.
Qed.

Lemma nth_map_lt {A B : Type} (f : A -> B) (l : list A) (d : A) (d' : B)
      (j : nat) :
  (j < length l)%nat -> nth j (map f l) d' = f (nth j l d).
Proof.
  intros Hj. rewrite (nth_indep _ d' (f d)) by (now rewrite length_map).
  apply map_nth.
Qed.

Lemma length_annulus (m : t) : length (annulus m) = nNr m.
Proof.
  unfold annulus, vectorNr, cumsum, nNr.
  rewrite length_zip_with. cbn [length].
  rewrite removelast_firstn_len, length_firstn, cumsum_from_length. lia.
Qed.

Lemma mesh_array_sizes_aux (m : t) :
  length (vectorNr m) = nNr m /\ length (vectorNz m) = nNz m.
Proof.
  split.
  - unfold vectorNr, cumsum, nNr. apply cumsum_from_length.
  - unfold vectorNz, cumsum, nNz. cbn [map length].
    rewrite length_map, cumsum_from_length. lia.
Qed.

(** Every vector and geometric array of the mesh has the size its count
    says, whatever the widths; only the radial cell centres differ on a mesh
    with no radial cell, where [np.r_[0, ...]] still holds the 0. *)
Theorem mesh_array_sizes (m : t) :
  length (vectorNr m) = nNr m
  /\ length (vectorNz m) = nNz m
  /\ length (vectorCCr m) = Nat.max 1 (nCr m)
  /\ length (vectorCCz m) = nCz m
  /\ length (area m) = nF m
  /\ length (vol m) = nC m.
Proof.
  split; [|split; [|split; [|split; [|split]]]].
  - unfold vectorNr, cumsum, nNr. apply cumsum_from_length.
  - unfold vectorNz, cumsum, nNz. cbn [map length].
    rewrite length_map, cumsum_from_length. lia.
  - unfold vectorCCr, cumsum, nCr. cbn [length].
    rewrite length_zip_with. destruct (hr m) as [|x l]; [reflexivity|].
    cbn [cumsum_from tl length]. rewrite cumsum_from_length. lia.
  - unfold vectorCCz, cumsum, nCz.
    rewrite length_zip_with, cumsum_from_length. apply Nat.min_id.
  - unfold area. rewrite length_app, !length_kron1, length_map, length_annulus.
    unfold ones_like, ones. rewrite repeat_length.
    destruct (mesh_array_sizes_aux m) as [-> ->].
    unfold nF, nFr, nFz, nCz, nCr, nNr. lia.
  - apply length_vol.
Qed.

(** Cell centres lie midway between the nodes around them: every vertical
    centre, and every radial centre but the innermost, which
    [np.r_[0, ...]] puts on the axis. *)
Theorem cell_centres_are_midpoints (m : t) :
  (forall j, (j < nCz m)%nat ->
     nth j (vectorCCz m) 0
     = (nth j (vectorNz m) 0 + nth (S j) (vectorNz m) 0) / 2)
  /\ (forall j, (1 <= j < nCr m)%nat ->
       nth j (vectorCCr m) 0
       = (nth (j - 1) (vectorNr m) 0 + nth j (vectorNr m) 0) / 2)
  /\ nth 0 (vectorCCr m) 0 = 0.
Proof.
  split; [|split].
  - intros j Hj. unfold nCz in Hj. unfold vectorCCz, vectorNz, cumsum.
    rewrite (nth_zip_with _ _ _ 0 0)
      by (rewrite ?cumsum_from_length; assumption).
    rewrite !(nth_map_lt _ _ 0 0)
      by (cbn [length]; rewrite cumsum_from_length; lia).
    change (nth (S j) (0 :: cumsum_from 0 (hz m)) 0)
      with (nth j (cumsum_from 0 (hz m)) 0).
    rewrite (nth_cumsum_from_step (hz m) 0 j Hj). lra.
  - intros j [H1 Hj]. unfold nCr in Hj. unfold vectorCCr, vectorNr, cumsum.
    destruct j as [|j]; [lia|]. cbn [nth].
    replace (S j - 1)%nat with j by lia.
    rewrite (nth_zip_with _ _ _ 0 0).
    + rewrite !nth_tl.
      rewrite (nth_cumsum_from_step (hr m) 0 (S j) Hj). cbn [nth]. lra.
    + destruct (hr m); simpl in *; [lia|]. rewrite cumsum_from_length. lia.
    + destruct (hr m); simpl in *; lia.
  - reflexivity.
Qed.

Lemma cumsum_from_consecutive (l : list R) (acc : R) (j : nat) :
  Forall (fun h => 0 < h) l -> (j < length l)%nat ->
  nth j (acc :: cumsum_from acc l) 0 < nth j (cumsum_from acc l) 0.
Proof.
  intros Hl Hj. rewrite (nth_cumsum_from_step l acc j Hj).
  pose proof (proj1 (Forall_forall _ _) Hl (nth j l 0) (nth_In l 0 Hj)).
  simpl in *. lra.
Qed.

(** On a mesh with positive widths the node vectors climb strictly: the
    radial nodes start above the axis, the vertical ones start at [z0], and
    they end at the total width and at [z0] plus the total height. *)
Theorem node_vectors_increase (m : t) :
  valid m ->
  (forall j, (S j < nNr m)%nat ->
     nth j (vectorNr m) 0 < nth (S j) (vectorNr m) 0)
  /\ (forall j, (S j < nNz m)%nat ->
       nth j (vectorNz m) 0 < nth (S j) (vectorNz m) 0)
  /\ 0 < nth 0 (vectorNr m) 0
  /\ nth 0 (vectorNz m) 0 = z0 m
  /\ last (vectorNr m) 0 = np_sum (hr m)
  /\ last (vectorNz m) 0 = z0 m + np_sum (hz m).
Proof.
  intros (Hne & Hr & Hz). split; [|split; [|split; [|split; [|split]]]].
  - intros j Hj. unfold nNr in Hj. unfold vectorNr, cumsum.
    exact (cumsum_from_consecutive (hr m) 0 (S j) Hr Hj).
  - intros j Hj. unfold nNz in Hj. unfold vectorNz, cumsum.
    assert (Hj' : (j < length (hz m))%nat) by lia.
    pose proof (cumsum_from_consecutive (hz m) 0 j Hz Hj') as H.
    rewrite !(nth_map_lt _ _ 0 0)
      by (cbn [length]; rewrite cumsum_from_length; lia).
    change (nth (S j) (0 :: cumsum_from 0 (hz m)) 0)
      with (nth j (cumsum_from 0 (hz m)) 0).
    lra.
  - unfold vectorNr, cumsum. destruct (hr m) as [|x l]; [congruence|].
    inversion Hr; subst. simpl in *. lra.
  - unfold vectorNz. cbn [map nth]. lra.
  - unfold vectorNr, cumsum. rewrite cumsum_from_last.
    destruct (hr m); [congruence|]. lra.
  - unfold vectorNz, cumsum.
    destruct (hz m) as [|x l] eqn:E; [simpl; lra|].
    rewrite <- E. cbn [map].
    assert (Hc : cumsum_from 0 (hz m) <> []) by (rewrite E; discriminate).
    destruct (cumsum_from 0 (hz m)) as [|c cs] eqn:Ec; [congruence|].
    change (last (?a :: map ?f (c :: cs)) 0) with (last (map f (c :: cs)) 0).
    rewrite <- Ec.
    rewrite (last_map_R _ _ 0 0) by (rewrite Ec; discriminate).
    rewrite cumsum_from_last. rewrite E. rewrite <- E. lra.
Qed.

Lemma node_vectors_increase_witness :
  nth 0 (vectorNr (mk [1; 2] [3] 0)) 0 < nth 1 (vectorNr (mk [1; 2] [3] 0)) 0
  /\ last (vectorNz (mk [1; 2] [3] 0)) 0 = 0 + np_sum [3].
Proof.
  assert (V : valid (mk [1; 2] [3] 0)).
  { split; [discriminate|].
    split; repeat constructor; lra. }
  destruct (node_vectors_increase _ V) as (Hr & _ & _ & _ & _ & Hz).
  split; [apply Hr; unfold nNr; cbn [hr length]; lia|exact Hz].
Defined.

End MeshVectors.

(** * Further properties of the mass matrix *)

Section MassLinearity.

Import Cyl1DMesh.

Lemma zip_with_Rmult_scale (c : R) (v p : list R) :
  zip_with Rmult v (map (Rmult c) p) = map (Rmult c) (zip_with Rmult v p).
Proof.
  revert p. induction v as [|x v IH]; intros [|y p]; simpl; auto.
  rewrite IH. f_equal. lra.
Qed.

Lemma nth_map_Rmult (c : R) (l : list R) (j : nat) :
  nth j (map (Rmult c) l) 0 = c * nth j l 0.
Proof.
  revert j. induction l as [|x l IH]; intros [|j]; simpl; auto; lra.
Qed.

Lemma np_repeat_scale (c : R) (a : list R) (n : nat) :
  np_repeat (map (Rmult c) a) n = map (Rmult c) (np_repeat a n).
Proof.
  unfold np_repeat. induction a as [|x a IH]; simpl; [reflexivity|].
  rewrite map_app, IH. f_equal.
  clear IH. induction n as [|n IHn]; simpl; [reflexivity|]. now f_equal.
Qed.

(** The core of [getMass], from the property of every cell on. *)
Lemma getMass_scale_cells (m : t) (c : R) (p : list R) (loc : string) :
  scaled c
    (_ <- assert (length p =? nC m)%nat "materialProp incorrect shape" ;;
     Av <- (if String.eqb loc "e" then aveE2CC m
            else if String.eqb loc "f" then aveF2CC m
            else Raise (ValueError "Invalid loc")) ;;
     diag <- matvec (transpose Av) (zip_with Rmult (vol m) p) ;;
     Ok (sdiag diag))
    (_ <- assert (length (map (Rmult c) p) =? nC m)%nat
                 "materialProp incorrect shape" ;;
     Av <- (if String.eqb loc "e" then aveE2CC m
            else if String.eqb loc "f" then aveF2CC m
            else Raise (ValueError "Invalid loc")) ;;
     diag <- matvec (transpose Av)
                    (zip_with Rmult (vol m) (map (Rmult c) p)) ;;
     Ok (sdiag diag)).
Proof.
  rewrite length_map.
  destruct (length p =? nC m)%nat; cbn [assert bind]; [|reflexivity].
  set (A := if String.eqb loc "e" then aveE2CC m
            else if String.eqb loc "f" then aveF2CC m
            else Raise (ValueError "Invalid loc")).
  destruct A as [Av|e]; cbn [bind]; [|reflexivity].
  rewrite zip_with_Rmult_scale. unfold matvec. rewrite length_map.
  destruct (length (zip_with Rmult (vol m) p) =? ncols (transpose Av))%nat;
    cbn [bind]; [|reflexivity].
  cbn [scaled sdiag nrows ncols entry]. rewrite !length_map.
  split; [reflexivity|]. split; [reflexivity|].
  intros i j. destruct (i =? j)%nat; [|lra].
  destruct (Nat.lt_ge_cases i (nrows (transpose Av))) as [Hi|Hi].
  - set (f := fun i0 : nat =>
               big_sum (fun j0 => entry (transpose Av) i0 j0
                  * nth j0 (map (Rmult c) (zip_with Rmult (vol m) p)) 0)
                 (ncols (transpose Av))).
    set (g := fun i0 : nat =>
               big_sum (fun j0 => entry (transpose Av) i0 j0
                  * nth j0 (zip_with Rmult (vol m) p) 0)
                 (ncols (transpose Av))).
    rewrite (nth_map_lt f _ 0%nat 0) by (now rewrite length_seq).
    rewrite (nth_map_lt g _ 0%nat 0) by (now rewrite length_seq).
    subst f g. cbv beta. rewrite <- big_sum_scale_l.
    apply big_sum_ext. intros k Hk. rewrite nth_map_Rmult. lra.
  - rewrite !nth_overflow by (now rewrite length_map, length_seq). lra.
Qed.

(** [getMass] is linear in the material property: scaling an array or a
    float by [c] scales every entry of the mass matrix by [c], on either
    location, and a call that fails keeps failing the same way; the default
    property scaled by [c] is the float [c]. *)
Theorem getMass_linear (m : t) (c : R) (loc : string) :
  (forall a, scaled c (getMass m (MatArray a) loc)
                      (getMass m (MatArray (scale_array c a)) loc))
  /\ (forall x, scaled c (getMass m (MatFloat x) loc)
                         (getMass m (MatFloat (c * x)) loc))
  /\ scaled c (getMass m MatNone loc) (getMass m (MatFloat c) loc).
Proof.
  split; [|split].
  - intros a. unfold getMass. cbn [scale_array shape flat mkvc].
    destruct (list_eq_dec Nat.eq_dec (shape a) [nCz m]).
    + rewrite np_repeat_scale. apply getMass_scale_cells.
    + apply getMass_scale_cells.
  - intros x. unfold getMass.
    replace (map (fun y => y * (c * x)) (ones (nC m)))
      with (map (Rmult c) (map (fun y => y * x) (ones (nC m)))).
    + apply getMass_scale_cells.
    + rewrite map_map. apply map_ext. intros; lra.
  - unfold getMass.
    replace (map (fun y => y * c) (ones (nC m)))
      with (map (Rmult c) (ones (nC m))).
    + apply getMass_scale_cells.
    + apply map_ext. intros; lra.
Qed.

End MassLinearity.

Section MassPositivity.

Import Cyl1DMesh.

Lemma big_sum_nonneg (f : nat -> R) (n : nat) :
  (forall j, (j < n)%nat -> 0 <= f j) -> 0 <= big_sum f n.
Proof.
  induction n as [|n IH]; intros H; simpl; [lra|].
  pose proof (IH (fun j Hj => H j (Nat.lt_lt_succ_r _ _ Hj))).
  pose proof (H n (Nat.lt_succ_diag_r n)). lra.
Qed.

Lemma big_sum_pos (f : nat -> R) (n k : nat) :
  (forall j, (j < n)%nat -> 0 <= f j) -> (k < n)%nat -> 0 < f k ->
  0 < big_sum f n.
Proof.
  induction n as [|n IH]; intros H Hk Hf; [lia|]. simpl.
  pose proof (H n (Nat.lt_succ_diag_r n)).
  destruct (Nat.eq_dec k n) as [->|Hne].
  - pose proof (big_sum_nonneg f n (fun j Hj => H j (Nat.lt_lt_succ_r _ _ Hj))).
    lra.
  - assert (0 < big_sum f n).
    { apply IH; [intros; apply H; lia|lia|assumption]. }
    lra.
Qed.

Lemma half_nth_nonneg (n j : nat) :
  0 <= nth j (map (Rmult (1 / 2)) (ones n)) 0.
Proof.
  destruct (Nat.lt_ge_cases j n) as [H|H].
  - rewrite nth_half_ones by assumption. lra.
  - rewrite nth_overflow; [lra|]. unfold ones.
    now rewrite length_map, repeat_length.
Qed.

Lemma spdiags_half_nonneg (n r c : nat) (d1 d2 : Z) (i j : nat) :
  0 <= entry (spdiags (half_ones 2 n) [d1; d2] r c) i j.
Proof.
  cbn [spdiags entry half_ones repeat combine map np_sum fold_right fst snd].
  pose proof (half_nth_nonneg n j).
  destruct (Z.eqb _ d1), (Z.eqb _ d2); lra.
Qed.

Lemma ar_fixed_nonneg (n i j : nat) : 0 <= entry (ar_fixed n) i j.
Proof.
  pose proof (spdiags_half_nonneg n n n 0 1 i j).
  cbn [ar_fixed entry]. destruct ((i =? 0)%nat && (j =? 0)%nat); [lra|].
  assumption.
Qed.

Lemma eye_nonneg (n i j : nat) : 0 <= entry (eye n) i j.
Proof. cbn [eye entry]. destruct (i =? j)%nat; lra. Qed.

Lemma kron_nonneg (A B : spmatrix) :
  (forall i j, 0 <= entry A i j) -> (forall i j, 0 <= entry B i j) ->
  forall i j, 0 <= entry (kron A B) i j.
Proof.
  intros HA HB i j. cbn [kron entry]. apply Rmult_le_pos; auto.
Qed.

(** Every node row of [az] meets a layer: its own, or the one below the top
    node. *)
Lemma az_row_pos (n iz : nat) :
  (0 < n)%nat -> (iz < n + 1)%nat ->
  let jz := if (iz <? n)%nat then iz else (iz - 1)%nat in
  (jz < n)%nat
  /\ 0 < entry (spdiags (half_ones 2 (n + 1)) [(-1)%Z; 0%Z] (n + 1) n) iz jz.
Proof.
  intros Hn Hi jz. subst jz.
  cbn [spdiags entry half_ones repeat combine map np_sum fold_right fst snd].
  destruct (Nat.ltb_spec iz n) as [H|H].
  - split; [assumption|]. rewrite nth_half_ones by lia.
    rewrite (proj2 (Z.eqb_neq _ _)) by lia.
    rewrite (proj2 (Z.eqb_eq _ _)) by lia. lra.
  - split; [lia|]. rewrite nth_half_ones by lia.
    rewrite (proj2 (Z.eqb_eq _ (-1)%Z)) by lia.
    rewrite (proj2 (Z.eqb_neq _ 0%Z)) by lia. lra.
Qed.

Lemma ar_fixed_diag_pos (n i : nat) :
  (i < n)%nat -> 0 < entry (ar_fixed n) i i.
Proof.
  intros Hi.
  cbn [ar_fixed spdiags entry half_ones repeat combine map np_sum fold_right
       fst snd].
  destruct i as [|i]; [cbn [Nat.eqb andb]; lra|]. cbn [Nat.eqb andb].
  rewrite nth_half_ones by lia.
  rewrite (proj2 (Z.eqb_eq _ 0%Z)) by lia.
  rewrite (proj2 (Z.eqb_neq _ 1%Z)) by lia. lra.
Qed.

(** A row of a matrix without negative entries, applied to positive
    weights, is positive as soon as the row has one positive entry. *)
Lemma weighted_row_pos (K : spmatrix) (w : list R) (i k : nat) :
  (forall a b, 0 <= entry K a b) ->
  length w = ncols K -> Forall (fun x => 0 < x) w ->
  (k < ncols K)%nat -> 0 < entry K i k ->
  0 < big_sum (fun j => entry K i j * nth j w 0) (ncols K).
Proof.
  intros HK Hl Hw Hk He.
  assert (Hn : forall j, (j < ncols K)%nat -> 0 < nth j w 0).
  { intros j Hj. apply (proj1 (Forall_forall _ _) Hw), nth_In. lia. }
  apply (big_sum_pos _ _ k); [|assumption|].
  - intros j Hj. apply Rmult_le_pos; [apply HK|]. apply Rlt_le, Hn, Hj.
  - apply Rmult_lt_0_compat; [assumption|apply Hn, Hk].
Qed.

Lemma kron_row_pos (A B : spmatrix) (w : list R) (i ja jb : nat) :
  (forall a b, 0 <= entry A a b) -> (forall a b, 0 <= entry B a b) ->
  length w = ncols (kron A B) -> Forall (fun x => 0 < x) w ->
  (ja < ncols A)%nat -> (jb < ncols B)%nat ->
  0 < entry A (i / nrows B) ja -> 0 < entry B (i mod nrows B) jb ->
  0 < big_sum (fun j => entry (kron A B) i j * nth j w 0) (ncols (kron A B)).
Proof.
  intros HA HB Hl Hw Hja Hjb Ha Hb.
  apply (weighted_row_pos _ _ _ (ja * ncols B + jb));
    [now apply kron_nonneg|assumption|assumption|cbn [kron ncols]; nia|].
  cbn [kron entry].
  destruct (div_mod_pair ja jb (ncols B) Hjb) as [-> ->].
  now apply Rmult_lt_0_compat.
Qed.

Lemma positive_cells (m : t) (materialProp : material) :
  positive_material m materialProp ->
  let p := match materialProp with
           | MatNone => ones (nC m)
           | MatFloat c => map (fun x => x * c) (ones (nC m))
           | MatArray a =>
               if list_eq_dec Nat.eq_dec (shape a) [nCz m]
               then np_repeat (flat a) (nCr m)
               else mkvc a
           end in
  length p = nC m /\ Forall (fun x => 0 < x) p.
Proof.
  intros Hp p. subst p. destruct materialProp as [|c|a]; cbn in Hp.
  - unfold ones. rewrite repeat_length. split; [reflexivity|].
    apply Forall_forall. intros x Hx. apply repeat_spec in Hx. lra.
  - unfold ones. rewrite length_map, repeat_length. split; [reflexivity|].
    apply Forall_forall. intros x Hx. apply in_map_iff in Hx as [y [<- Hy]].
    apply repeat_spec in Hy. subst y. lra.
  - destruct Hp as (Hwf & Hs & Hpos). unfold wf_ndarray, size, mkvc in *.
    destruct (list_eq_dec Nat.eq_dec (shape a) [nCz m]) as [E|E].
    + split.
      * rewrite length_np_repeat, <- Hwf, E. cbn [fold_right]. unfold nC. lia.
      * apply Forall_forall. intros x Hx. unfold np_repeat in Hx.
        apply in_flat_map in Hx as [y [Hy Hx]]. apply repeat_spec in Hx.
        subst x. exact (proj1 (Forall_forall _ _) Hpos y Hy).
    + destruct Hs as [Hs|Hs]; [|congruence]. split; assumption.
Qed.

Lemma Forall_zip_with_pos (a b : list R) :
  Forall (fun x => 0 < x) a -> Forall (fun x => 0 < x) b ->
  Forall (fun x => 0 < x) (zip_with Rmult a b).
Proof.
  intros Ha. revert b. induction Ha as [|x a Hx Ha IH]; intros b Hb.
  - constructor.
  - destruct Hb as [|y b Hy Hb]; [constructor|]. cbn [zip_with].
    constructor; [now apply Rmult_lt_0_compat|now apply IH].
Qed.

Lemma Forall_map_seq (f : nat -> R) (n : nat) :
  (forall i, (i < n)%nat -> 0 < f i) ->
  Forall (fun x => 0 < x) (map f (seq 0 n)).
Proof.
  intros H. apply Forall_forall. intros x Hx.
  apply in_map_iff in Hx as [i [<- Hi]]. apply in_seq in Hi. apply H. lia.
Qed.

(** With positive widths, at least one layer and a material property that
    is positive in every cell, both mass matrices have a positive diagonal:
    every edge and every face touches a cell. *)
Theorem mass_matrix_positive (m : t) (materialProp : material)
        (loc : string) :
  valid m -> hz m <> [] -> positive_material m materialProp ->
  loc = "e"%string \/ loc = "f"%string ->
  exists d, getMass m materialProp loc = Ok (sdiag d)
            /\ length d = (if String.eqb loc "e" then nE m else nF m)
            /\ Forall (fun x => 0 < x) d.
Proof.
  intros Hv Hz Hp Hloc.
  destruct (positive_cells m materialProp Hp) as [Hlen Hpos].
  cbv zeta in Hlen, Hpos. unfold getMass. rewrite Hlen, Nat.eqb_refl.
  cbn [assert bind].
  set (w := zip_with Rmult (vol m) _).
  assert (Hw : Forall (fun x => 0 < x) w).
  { apply Forall_zip_with_pos; [now apply vol_pos|assumption]. }
  assert (Hwl : length w = nC m).
  { subst w. rewrite length_zip_with, length_vol, Hlen. apply Nat.min_id. }
  destruct Hv as (Hne & _).
  assert (Hr : (0 < nCr m)%nat).
  { unfold nCr. destruct (hr m); [congruence|simpl; lia]. }
  assert (Hc : (0 < nCz m)%nat).
  { unfold nCz. destruct (hz m); [congruence|simpl; lia]. }
  destruct Hloc as [-> | ->]; cbn [String.eqb Ascii.eqb Bool.eqb].
  - rewrite aveE2CC_value by assumption. cbn [bind]. unfold matvec.
    cbn [transpose nrows ncols kron spdiags ar_fixed].
    rewrite Hwl. unfold nC. rewrite (Nat.mul_comm (nCr m)), Nat.eqb_refl.
    cbn [bind]. eexists. split; [reflexivity|]. split.
    + rewrite length_map, length_seq. unfold nE, nN, nNr, nCr. lia.
    + apply Forall_map_seq. intros i Hi.
      set (az := spdiags (half_ones 2 (nNz m)) [(-1)%Z; 0%Z] (nNz m) (nCz m)).
      change (0 < big_sum (fun j => entry (kron az (ar_fixed (nCr m))) i j
                                    * nth j w 0)
                          (ncols (kron az (ar_fixed (nCr m))))).
      assert (Hiz : (i / nCr m < nCz m + 1)%nat).
      { apply Nat.Div0.div_lt_upper_bound. unfold nNz in Hi.
        fold (nCz m) in Hi. lia. }
      destruct (az_row_pos (nCz m) (i / nCr m) Hc Hiz) as [Hj He].
      apply (kron_row_pos az (ar_fixed (nCr m)) w i
               (if (i / nCr m <? nCz m)%nat then i / nCr m
                else (i / nCr m - 1)%nat) (i mod nCr m)).
      * intros a b. apply spdiags_half_nonneg.
      * apply ar_fixed_nonneg.
      * cbn [kron ncols az spdiags ar_fixed]. unfold nC in Hwl. lia.
      * assumption.
      * exact Hj.
      * cbn [ar_fixed ncols]. apply Nat.mod_upper_bound. lia.
      * exact He.
      * cbn [ar_fixed nrows]. apply ar_fixed_diag_pos.
        apply Nat.mod_upper_bound. lia.
  - rewrite aveF2CC_value by assumption. cbn [bind]. unfold matvec.
    cbn [transpose nrows ncols kron spdiags ar_fixed eye].
    rewrite Hwl. unfold nC. rewrite (Nat.mul_comm (nCr m)), Nat.eqb_refl.
    cbn [bind]. eexists. split; [reflexivity|]. split.
    + rewrite length_map, length_seq. unfold nF, nFr, nFz, nNr, nCr. lia.
    + apply Forall_map_seq. intros i Hi. cbn [entry transpose].
      set (az := spdiags (half_ones 2 (nNz m)) [(-1)%Z; 0%Z] (nNz m) (nCz m)).
      destruct (Nat.ltb_spec i (nCz m * nCr m)) as [Hlt|Hge].
      * change (0 < big_sum
                  (fun j => entry (kron (eye (nCz m)) (ar_fixed (nCr m))) i j
                            * nth j w 0)
                  (ncols (kron (eye (nCz m)) (ar_fixed (nCr m))))).
        apply (kron_row_pos (eye (nCz m)) (ar_fixed (nCr m)) w i
                 (i / nCr m) (i mod nCr m)).
        -- apply eye_nonneg.
        -- apply ar_fixed_nonneg.
        -- cbn [kron ncols eye ar_fixed]. unfold nC in Hwl. lia.
        -- assumption.
        -- cbn [eye ncols]. apply Nat.Div0.div_lt_upper_bound. lia.
        -- cbn [ar_fixed ncols]. apply Nat.mod_upper_bound. lia.
        -- cbn [ar_fixed nrows eye entry]. rewrite Nat.eqb_refl. lra.
        -- cbn [ar_fixed nrows]. apply ar_fixed_diag_pos.
           apply Nat.mod_upper_bound. lia.
      * set (i' := (i - nCz m * nCr m)%nat).
        change (0 < big_sum
                  (fun j => entry (kron az (eye (nCr m))) i' j * nth j w 0)
                  (ncols (kron az (eye (nCr m))))).
        assert (Hi' : (i' < nNz m * nCr m)%nat) by (subst i'; lia).
        assert (Hiz : (i' / nCr m < nCz m + 1)%nat).
        { apply Nat.Div0.div_lt_upper_bound. unfold nNz in Hi'.
          fold (nCz m) in Hi'. lia. }
        destruct (az_row_pos (nCz m) (i' / nCr m) Hc Hiz) as [Hj He].
        apply (kron_row_pos az (eye (nCr m)) w i'
                 (if (i' / nCr m <? nCz m)%nat then i' / nCr m
                  else (i' / nCr m - 1)%nat) (i' mod nCr m)).
        -- intros a b. apply spdiags_half_nonneg.
        -- apply eye_nonneg.
        -- cbn [kron ncols az spdiags eye]. unfold nC in Hwl. lia.
        -- assumption.
        -- exact Hj.
        -- cbn [eye ncols]. apply Nat.mod_upper_bound. lia.
        -- exact He.
        -- cbn [eye nrows entry]. rewrite Nat.eqb_refl. lra.
Qed.

Lemma mass_matrix_positive_witness :
  exists d, getMass scenario_mesh scenario_layers "e" = Ok (sdiag d)
            /\ length d = nE scenario_mesh
            /\ Forall (fun x => 0 < x) d.
Proof.
  apply (mass_matrix_positive scenario_mesh scenario_layers "e").
  - exact scenario_mesh_valid.
  - discriminate.
  - split; [reflexivity|]. split; [right; reflexivity|].
    repeat constructor; lra.
  - left; reflexivity.
Defined.

End MassPositivity.

(** * Further properties of the receivers *)

Section ComplexFacts.

Lemma Cinv_l (z : C) : z <> C0 -> Cmul (Cinv z) z = C1.
Proof.
  destruct z as [a b]. intros H.
  assert (Hn : a ^ 2 + b ^ 2 <> 0).
  { intros E. apply H. unfold C0. f_equal; nra. }
  unfold Cmul, Cinv, C1, Cre, Cim. cbn [fst snd]. f_equal; field; exact Hn.
Qed.

Lemma Cmul_C1_l (z : C) : Cmul C1 z = z.
Proof. destruct z. csolve. Qed.

Lemma Cinv_cancel (d e : C) : d <> C0 -> Cmul (Cinv d) (Cmul d e) = e.
Proof.
  intros H. now rewrite <- Cmul_assoc, Cinv_l, Cmul_C1_l.
Qed.

Lemma nth_vmul (a b : cvec) (k : nat) :
  (k < length a)%nat -> (k < length b)%nat ->
  cnth k (a [*] b) = Cmul (cnth k a) (cnth k b).
Proof. apply nth_zip_with. Qed.

Lemma nth_vadd (a b : cvec) (k : nat) :
  (k < length a)%nat -> (k < length b)%nat ->
  cnth k (a [+] b) = Cadd (cnth k a) (cnth k b).
Proof. apply nth_zip_with. Qed.

Lemma nth_vsub (a b : cvec) (k : nat) :
  (k < length a)%nat -> (k < length b)%nat ->
  cnth k (a [-] b) = Csub (cnth k a) (cnth k b).
Proof. apply nth_zip_with. Qed.

Lemma nth_vopp (a : cvec) (k : nat) :
  (k < length a)%nat -> cnth k (vopp a) = Copp (cnth k a).
Proof. apply nth_map_lt. Qed.

Lemma nth_map_Cinv (a : cvec) (k : nat) :
  (k < length a)%nat -> cnth k (map Cinv a) = Cinv (cnth k a).
Proof. apply nth_map_lt. Qed.

Lemma nth_vsub_scalar (a : cvec) (c : R) (k : nat) :
  (k < length a)%nat -> cnth k (vsub_scalar a c) = Csub (cnth k a) (RtoC c).
Proof. apply (nth_map_lt (fun z => Csub z (RtoC c))). Qed.

End ComplexFacts.

Ltac len_solve :=
  repeat first [ rewrite length_vmul | rewrite length_vadd
               | rewrite length_vsub | rewrite length_vopp
               | rewrite length_map ];
  repeat match goal with
         | E : length _ = _ |- _ => rewrite E
         end;
  rewrite ?Nat.min_id; assumption.

Ltac push_nth :=
  repeat first
    [ rewrite nth_vmul by len_solve | rewrite nth_vadd by len_solve
    | rewrite nth_vsub by len_solve | rewrite nth_vopp by len_solve
    | rewrite nth_map_Cinv by len_solve
    | rewrite nth_vsub_scalar by len_solve ].

(** [c * n = c * (d * e)] once the numerators [n] are combined: the inverse
    of the determinant is left alone, the rest is an identity of
    polynomials. *)
Ltac cancel_determinant d e :=
  transitivity (Cmul (Cinv d) (Cmul d e));
  [ generalize (Cinv d); intros [? ?]; cunfold; f_equal; ring
  | apply Cinv_cancel; assumption ].

Ltac pick_orientation :=
  cbn [with_orientation RxNSEM.orientation];
  repeat match goal with
         | |- context [contains ?a ?b] =>
             let r := eval vm_compute in (contains a b) in
             change (contains a b) with r
         end;
  cbv beta iota zeta.

Ltac transfer_identity :=
  match goal with
  | H : ?d <> C0 |- _ = ?e => cancel_determinant d e
  end.

Section TransferFunctions.

Import RxNSEM.

Context {Src : Type}.
Variable self : Rx.
Variable src : Src.
Variable mesh : BaseMesh.
Variable f : Fields Src.
Variable n : nat.

Hypothesis rows : interpolation_rows self mesh n.

Lemma interpolated_lengths :
  length (_ex_px self src mesh f) = n
  /\ length (_ex_py self src mesh f) = n
  /\ length (_ey_px self src mesh f) = n
  /\ length (_ey_py self src mesh f) = n
  /\ length (_hx_px self src mesh f) = n
  /\ length (_hx_py self src mesh f) = n
  /\ length (_hy_px self src mesh f) = n
  /\ length (_hy_py self src mesh f) = n
  /\ length (_hz_px self src mesh f) = n
  /\ length (_hz_py self src mesh f) = n
  /\ length (_hx_num_px self src mesh f) = n
  /\ length (_hx_num_py self src mesh f) = n
  /\ length (_hy_num_px self src mesh f) = n
  /\ length (_hy_num_py self src mesh f) = n.
Proof.
  unfold _ex_px, _ex_py, _ey_px, _ey_py, _hx_px, _hx_py, _hy_px, _hy_py,
    _hz_px, _hz_py, _hx_num_px, _hx_num_py, _hy_num_px, _hy_num_py,
    Pex, Pey, Pbx, Pby, Pbz, Pbx_num, Pby_num.
  rewrite ?length_vdivr, ?length_mulPC.
  repeat split; apply rows.
Qed.

(** The impedance [eval] returns is the tensor that maps the magnetic field
    to the electric field: at every location where the determinant does not
    vanish, [Zxx*hx + Zxy*hy = ex] and [Zyx*hx + Zyy*hy = ey] for both
    polarizations of the source. *)
Theorem impedance_maps_h_to_e (k : nat) :
  (k < n)%nat -> cnth k (determinant self src mesh f) <> C0 ->
  exists Zxx Zxy Zyx Zyy,
    evaluates_to Point_impedance3D (with_orientation self "xx") src mesh f Zxx
    /\ evaluates_to Point_impedance3D (with_orientation self "xy") src mesh f
                    Zxy
    /\ evaluates_to Point_impedance3D (with_orientation self "yx") src mesh f
                    Zyx
    /\ evaluates_to Point_impedance3D (with_orientation self "yy") src mesh f
                    Zyy
    /\ Cadd (Cmul (cnth k Zxx) (cnth k (_hx_px self src mesh f)))
            (Cmul (cnth k Zxy) (cnth k (_hy_px self src mesh f)))
       = cnth k (_ex_px self src mesh f)
    /\ Cadd (Cmul (cnth k Zxx) (cnth k (_hx_py self src mesh f)))
            (Cmul (cnth k Zxy) (cnth k (_hy_py self src mesh f)))
       = cnth k (_ex_py self src mesh f)
    /\ Cadd (Cmul (cnth k Zyx) (cnth k (_hx_px self src mesh f)))
            (Cmul (cnth k Zyy) (cnth k (_hy_px self src mesh f)))
       = cnth k (_ey_px self src mesh f)
    /\ Cadd (Cmul (cnth k Zyx) (cnth k (_hx_py self src mesh f)))
            (Cmul (cnth k Zyy) (cnth k (_hy_py self src mesh f)))
       = cnth k (_ey_py self src mesh f).
Proof.
  intros Hk Hdet.
  destruct interpolated_lengths
    as (L1 & L2 & L3 & L4 & L5 & L6 & L7 & L8 & _).
  exists (_Hd self src mesh f
          [*] ((_ex_px self src mesh f [*] _hy_py self src mesh f)
               [-] (_ex_py self src mesh f [*] _hy_px self src mesh f))).
  exists (_Hd self src mesh f
          [*] ((vopp (_ex_px self src mesh f) [*] _hx_py self src mesh f)
               [+] (_ex_py self src mesh f [*] _hx_px self src mesh f))).
  exists (_Hd self src mesh f
          [*] ((_ey_px self src mesh f [*] _hy_py self src mesh f)
               [-] (_ey_py self src mesh f [*] _hy_px self src mesh f))).
  exists (_Hd self src mesh f
          [*] ((vopp (_ey_px self src mesh f) [*] _hx_py self src mesh f)
               [+] (_ey_py self src mesh f [*] _hx_px self src mesh f))).
  unfold evaluates_to, eval, Point_impedance3D_eval, Point_impedance3D_Zij.
  pick_orientation.
  do 4 (split; [reflexivity|]).
  revert Hdet. unfold determinant, _Hd. push_nth. intros Hdet.
  repeat split; transfer_identity.
Qed.

(** The tipper [eval] returns maps the horizontal magnetic field to the
    vertical one: where the determinant does not vanish,
    [Tzx*hx + Tzy*hy = hz] for both polarizations of the source. *)
Theorem tipper_maps_h_to_hz (k : nat) :
  (k < n)%nat -> cnth k (determinant self src mesh f) <> C0 ->
  exists Tzx Tzy,
    evaluates_to Point_tipper3D (with_orientation self "zx") src mesh f Tzx
    /\ evaluates_to Point_tipper3D (with_orientation self "zy") src mesh f Tzy
    /\ Cadd (Cmul (cnth k Tzx) (cnth k (_hx_px self src mesh f)))
            (Cmul (cnth k Tzy) (cnth k (_hy_px self src mesh f)))
       = cnth k (_hz_px self src mesh f)
    /\ Cadd (Cmul (cnth k Tzx) (cnth k (_hx_py self src mesh f)))
            (Cmul (cnth k Tzy) (cnth k (_hy_py self src mesh f)))
       = cnth k (_hz_py self src mesh f).
Proof.
  intros Hk Hdet.
  destruct interpolated_lengths
    as (_ & _ & _ & _ & L5 & L6 & L7 & L8 & L9 & L10 & _).
  exists (_Hd self src mesh f
          [*] ((vopp (_hy_px self src mesh f) [*] _hz_py self src mesh f)
               [+] (_hy_py self src mesh f [*] _hz_px self src mesh f))).
  exists (_Hd self src mesh f
          [*] ((_hx_px self src mesh f [*] _hz_py self src mesh f)
               [-] (_hx_py self src mesh f [*] _hz_px self src mesh f))).
  unfold evaluates_to, eval, Point_tipper3D_eval, Point_tipper3D_Tij.
  pick_orientation.
  do 2 (split; [reflexivity|]).
  revert Hdet. unfold determinant, _Hd. push_nth. intros Hdet.
  repeat split; transfer_identity.
Qed.

(** The horizontal magnetic transfer function [eval] returns, with the
    identity added back, maps the horizontal field at the denominator's
    locations to the one at the numerator's: where the determinant does not
    vanish, [(Mxx+1)*hx + Mxy*hy = hx_num] and [Myx*hx + (Myy+1)*hy = hy_num]
    for both polarizations of the source. *)
Theorem horizontalmagvar_maps_h_to_h_num (k : nat) :
  (k < n)%nat -> cnth k (determinant self src mesh f) <> C0 ->
  exists Mxx Mxy Myx Myy,
    evaluates_to Point_horizontalmagvar3D (with_orientation self "xx") src
                 mesh f Mxx
    /\ evaluates_to Point_horizontalmagvar3D (with_orientation self "xy") src
                    mesh f Mxy
    /\ evaluates_to Point_horizontalmagvar3D (with_orientation self "yx") src
                    mesh f Myx
    /\ evaluates_to Point_horizontalmagvar3D (with_orientation self "yy") src
                    mesh f Myy
    /\ Cadd (Cmul (Cadd (cnth k Mxx) C1) (cnth k (_hx_px self src mesh f)))
            (Cmul (cnth k Mxy) (cnth k (_hy_px self src mesh f)))
       = cnth k (_hx_num_px self src mesh f)
    /\ Cadd (Cmul (Cadd (cnth k Mxx) C1) (cnth k (_hx_py self src mesh f)))
            (Cmul (cnth k Mxy) (cnth k (_hy_py self src mesh f)))
       = cnth k (_hx_num_py self src mesh f)
    /\ Cadd (Cmul (cnth k Myx) (cnth k (_hx_px self src mesh f)))
            (Cmul (Cadd (cnth k Myy) C1) (cnth k (_hy_px self src mesh f)))
       = cnth k (_hy_num_px self src mesh f)
    /\ Cadd (Cmul (cnth k Myx) (cnth k (_hx_py self src mesh f)))
            (Cmul (Cadd (cnth k Myy) C1) (cnth k (_hy_py self src mesh f)))
       = cnth k (_hy_num_py self src mesh f).
Proof.
  intros Hk Hdet.
  destruct interpolated_lengths
    as (_ & _ & _ & _ & L5 & L6 & L7 & L8 & _ & _ & L11 & L12 & L13 & L14).
  exists (vsub_scalar
            (_Hd self src mesh f
             [*] ((_hx_num_px self src mesh f [*] _hy_py self src mesh f)
                  [-] (_hx_num_py self src mesh f [*] _hy_px self src mesh f)))
            1).
  exists (vsub_scalar
            (_Hd self src mesh f
             [*] ((vopp (_hx_num_px self src mesh f) [*] _hx_py self src mesh f)
                  [+] (_hx_num_py self src mesh f [*] _hx_px self src mesh f)))
            0).
  exists (vsub_scalar
            (_Hd self src mesh f
             [*] ((_hy_num_px self src mesh f [*] _hy_py self src mesh f)
                  [-] (_hy_num_py self src mesh f [*] _hy_px self src mesh f)))
            0).
  exists (vsub_scalar
            (_Hd self src mesh f
             [*] ((vopp (_hy_num_px self src mesh f) [*] _hx_py self src mesh f)
                  [+] (_hy_num_py self src mesh f [*] _hx_px self src mesh f)))
            1).
  unfold evaluates_to, eval, Point_horizontalmagvar3D_eval,
    Point_horizontalmagvar3D_Mij.
  pick_orientation.
  do 4 (split; [reflexivity|]).
  revert Hdet. unfold determinant, _Hd. push_nth. intros Hdet.
  repeat split; transfer_identity.
Qed.

(** A horizontal magnetic transfer receiver whose numerator and
    denominator locations are the same points, [locs[:, :, 0]] equal to
    [locs[:, :, 1]], compares the field with itself: where the determinant
    does not vanish, every element it evaluates is 0. *)
Theorem horizontalmagvar_single_location (l : list (list R)) (k : nat) :
  locs self = Locs3 l l ->
  (k < n)%nat -> cnth k (determinant self src mesh f) <> C0 ->
  exists Mxx Mxy Myx Myy,
    evaluates_to Point_horizontalmagvar3D (with_orientation self "xx") src
                 mesh f Mxx
    /\ evaluates_to Point_horizontalmagvar3D (with_orientation self "xy") src
                    mesh f Mxy
    /\ evaluates_to Point_horizontalmagvar3D (with_orientation self "yx") src
                    mesh f Myx
    /\ evaluates_to Point_horizontalmagvar3D (with_orientation self "yy") src
                    mesh f Myy
    /\ cnth k Mxx = C0 /\ cnth k Mxy = C0
    /\ cnth k Myx = C0 /\ cnth k Myy = C0.
Proof.
  intros Hl Hk Hdet.
  destruct interpolated_lengths
    as (_ & _ & _ & _ & L5 & L6 & L7 & L8 & _ & _ & L11 & L12 & L13 & L14).
  assert (N : _hx_num_px self src mesh f = _hx_px self src mesh f
              /\ _hx_num_py self src mesh f = _hx_py self src mesh f
              /\ _hy_num_px self src mesh f = _hy_px self src mesh f
              /\ _hy_num_py self src mesh f = _hy_py self src mesh f).
  { unfold _hx_num_px, _hx_num_py, _hy_num_px, _hy_num_py, _hx_px, _hx_py,
      _hy_px, _hy_py, Pbx_num, Pby_num, Pbx, Pby, _loc_numerator,
      _loc_denominator. rewrite Hl. repeat split. }
  destruct N as (N1 & N2 & N3 & N4).
  exists (vsub_scalar
            (_Hd self src mesh f
             [*] ((_hx_num_px self src mesh f [*] _hy_py self src mesh f)
                  [-] (_hx_num_py self src mesh f [*] _hy_px self src mesh f)))
            1).
  exists (vsub_scalar
            (_Hd self src mesh f
             [*] ((vopp (_hx_num_px self src mesh f) [*] _hx_py self src mesh f)
                  [+] (_hx_num_py self src mesh f [*] _hx_px self src mesh f)))
            0).
  exists (vsub_scalar
            (_Hd self src mesh f
             [*] ((_hy_num_px self src mesh f [*] _hy_py self src mesh f)
                  [-] (_hy_num_py self src mesh f [*] _hy_px self src mesh f)))
            0).
  exists (vsub_scalar
            (_Hd self src mesh f
             [*] ((vopp (_hy_num_px self src mesh f) [*] _hx_py self src mesh f)
                  [+] (_hy_num_py self src mesh f [*] _hx_px self src mesh f)))
            1).
  unfold evaluates_to, eval, Point_horizontalmagvar3D_eval,
    Point_horizontalmagvar3D_Mij.
  pick_orientation.
  do 4 (split; [reflexivity|]).
  rewrite N1, N2, N3, N4.
  revert Hdet. unfold determinant, _Hd. push_nth. intros Hdet.
  pose proof (Cinv_l _ Hdet) as E1.
  repeat split.
  - rewrite E1. csolve.
  - match goal with
    | |- Csub (Cmul ?c _) _ = _ => generalize c
    end.
    intros [? ?]. cunfold. f_equal; ring.
  - match goal with
    | |- Csub (Cmul ?c _) _ = _ => generalize c
    end.
    intros [? ?]. cunfold. f_equal; ring.
  - match type of E1 with
    | Cmul ?c ?d = _ =>
        transitivity (Csub (Cmul c d) (RtoC 1));
        [generalize c; intros [? ?]; cunfold; f_equal; ring|]
    end.
    rewrite E1. csolve.
Qed.

End TransferFunctions.

Section Impedance1DRelation.

Import RxNSEM.

Context {Src : Type}.
Variable self : Rx.
Variable src : Src.
Variable mesh : BaseMesh.
Variable f : Fields Src.

(** The 1D impedance [eval] returns is minus the ratio of the fields: at
    every location the two fields are interpolated to and where the
    magnetic field does not vanish, [Z*hx = -ex]. *)
Theorem impedance1D_maps_h_to_e (k : nat) :
  (k < length (_ex self src mesh f))%nat ->
  (k < length (_hx self src mesh f))%nat ->
  cnth k (_hx self src mesh f) <> C0 ->
  exists Z, evaluates_to Point_impedance1D self src mesh f Z
            /\ Cmul (cnth k Z) (cnth k (_hx self src mesh f))
               = Copp (cnth k (_ex self src mesh f)).
Proof.
  intros He Hh Hne. eexists. split; [reflexivity|].
  unfold Point_impedance1D_Hd.
  rewrite nth_vmul by (rewrite ?length_vopp, ?length_map; assumption).
  rewrite nth_vopp by (rewrite ?length_map; assumption).
  rewrite nth_map_Cinv by assumption.
  pose proof (Cinv_l _ Hne) as E.
  set (h := cnth k (_hx self src mesh f)) in *.
  set (e := cnth k (_ex self src mesh f)).
  transitivity (Copp (Cmul (Cmul (Cinv h) h) e)).
  - generalize (Cinv h). intros [? ?]. destruct h, e. cunfold.
    f_equal; ring.
  - rewrite E. destruct e. csolve.
Qed.

End Impedance1DRelation.

Section TransferExamples.

Import RxNSEM.

Lemma example_rows (o : string) (c : component_t) :
  interpolation_rows (example_rx o c) example_mesh 1.
Proof.
  intros name. cbn [example_mesh getInterpolationMat].
  destruct (String.eqb name "Fx"), (String.eqb name "Fy"),
    (String.eqb name "Fz"); split; reflexivity.
Qed.

Lemma example_determinant (o : string) (c : component_t) :
  cnth 0 (determinant (example_rx o c) tt example_mesh example_fields_diag)
  <> C0.
Proof.
  assert (E : cnth 0 (determinant (example_rx o c) tt example_mesh
                        example_fields_diag) = C1).
  { unfold cnth, determinant. rx_solve. }
  rewrite E. unfold C1, C0. intros H. inversion H. lra.
Qed.

Lemma impedance_maps_h_to_e_witness :
  exists Zxx Zxy,
    evaluates_to Point_impedance3D
      (with_orientation (example_rx "xx" real) "xx") tt example_mesh
      example_fields_diag Zxx
    /\ evaluates_to Point_impedance3D
         (with_orientation (example_rx "xx" real) "xy") tt example_mesh
         example_fields_diag Zxy
    /\ Cadd (Cmul (cnth 0 Zxx)
                  (cnth 0 (_hx_px (example_rx "xx" real) tt example_mesh
                             example_fields_diag)))
            (Cmul (cnth 0 Zxy)
                  (cnth 0 (_hy_px (example_rx "xx" real) tt example_mesh
                             example_fields_diag)))
       = cnth 0 (_ex_px (example_rx "xx" real) tt example_mesh
                   example_fields_diag).
Proof.
  destruct (impedance_maps_h_to_e (example_rx "xx" real) tt example_mesh
              example_fields_diag 1 (example_rows "xx" real) 0
              (Nat.lt_0_succ 0) (example_determinant "xx" real))
    as (Zxx & Zxy & _ & _ & H1 & H2 & _ & _ & H3 & _).
  exists Zxx, Zxy. repeat split; assumption.
Defined.

Lemma tipper_maps_h_to_hz_witness :
  exists Tzx Tzy,
    evaluates_to Point_tipper3D
      (with_orientation (example_rx "zx" real) "zx") tt example_mesh
      example_fields_diag Tzx
    /\ evaluates_to Point_tipper3D
         (with_orientation (example_rx "zx" real) "zy") tt example_mesh
         example_fields_diag Tzy
    /\ Cadd (Cmul (cnth 0 Tzx)
                  (cnth 0 (_hx_px (example_rx "zx" real) tt example_mesh
                             example_fields_diag)))
            (Cmul (cnth 0 Tzy)
                  (cnth 0 (_hy_px (example_rx "zx" real) tt example_mesh
                             example_fields_diag)))
       = cnth 0 (_hz_px (example_rx "zx" real) tt example_mesh
                   example_fields_diag).
Proof.
  destruct (tipper_maps_h_to_hz (example_rx "zx" real) tt example_mesh
              example_fields_diag 1 (example_rows "zx" real) 0
              (Nat.lt_0_succ 0) (example_determinant "zx" real))
    as (Tzx & Tzy & H1 & H2 & H3 & _).
  exists Tzx, Tzy. repeat split; assumption.
Defined.

Lemma horizontalmagvar_maps_h_to_h_num_witness :
  exists Mxx Mxy,
    evaluates_to Point_horizontalmagvar3D
      (with_orientation (example_rx "xx" real) "xx") tt example_mesh
      example_fields_diag Mxx
    /\ evaluates_to Point_horizontalmagvar3D
         (with_orientation (example_rx "xx" real) "xy") tt example_mesh
         example_fields_diag Mxy
    /\ Cadd (Cmul (Cadd (cnth 0 Mxx) C1)
                  (cnth 0 (_hx_px (example_rx "xx" real) tt example_mesh
                             example_fields_diag)))
            (Cmul (cnth 0 Mxy)
                  (cnth 0 (_hy_px (example_rx "xx" real) tt example_mesh
                             example_fields_diag)))
       = cnth 0 (_hx_num_px (example_rx "xx" real) tt example_mesh
                   example_fields_diag).
Proof.
  destruct (horizontalmagvar_maps_h_to_h_num (example_rx "xx" real) tt
              example_mesh example_fields_diag 1 (example_rows "xx" real) 0
              (Nat.lt_0_succ 0) (example_determinant "xx" real))
    as (Mxx & Mxy & _ & _ & H1 & H2 & _ & _ & H3 & _).
  exists Mxx, Mxy. repeat split; assumption.
Defined.

Lemma example_rows_pair (o : string) (c : component_t) :
  interpolation_rows (example_rx_pair o c) example_mesh 1.
Proof.
  intros name. cbn [example_mesh getInterpolationMat].
  destruct (String.eqb name "Fx"), (String.eqb name "Fy"),
    (String.eqb name "Fz"); split; reflexivity.
Qed.

Lemma example_determinant_pair (o : string) (c : component_t) :
  cnth 0 (determinant (example_rx_pair o c) tt example_mesh
            example_fields_diag)
  <> C0.
Proof.
  assert (E : cnth 0 (determinant (example_rx_pair o c) tt example_mesh
                        example_fields_diag) = C1).
  { unfold cnth, determinant, example_rx_pair. rx_solve. }
  rewrite E. unfold C1, C0. intros H. inversion H. lra.
Qed.

Lemma horizontalmagvar_single_location_witness :
  exists Mxx,
    evaluates_to Point_horizontalmagvar3D
      (with_orientation (example_rx_pair "xx" real) "xx") tt example_mesh
      example_fields_diag Mxx
    /\ cnth 0 Mxx = C0.
Proof.
  destruct (horizontalmagvar_single_location (example_rx_pair "xx" real) tt
              example_mesh example_fields_diag 1
              (example_rows_pair "xx" real)
              [[0; 0; 0]] 0 eq_refl
              (Nat.lt_0_succ 0) (example_determinant_pair "xx" real))
    as (Mxx & _ & _ & _ & H1 & _ & _ & _ & H2 & _).
  exists Mxx. split; assumption.
Defined.

Lemma example_hx_1d (o : string) (c : component_t) :
  _hx (example_rx o c) tt example_mesh example_fields = [C1].
Proof. unfold _hx. rx_solve. Qed.

Lemma impedance1D_maps_h_to_e_witness :
  exists Z,
    evaluates_to Point_impedance1D (example_rx "xx" real) tt example_mesh
                 example_fields Z
    /\ Cmul (cnth 0 Z)
            (cnth 0 (_hx (example_rx "xx" real) tt example_mesh
                       example_fields))
       = Copp (cnth 0 (_ex (example_rx "xx" real) tt example_mesh
                         example_fields)).
Proof.
  apply (impedance1D_maps_h_to_e (example_rx "xx" real) tt example_mesh
           example_fields 0).
  - unfold _ex. rewrite length_mulPC. cbn. lia.
  - rewrite example_hx_1d. cbn. lia.
  - rewrite example_hx_1d. unfold cnth, C1, C0. cbn [nth].
    intros H. inversion H. lra.
Defined.

End TransferExamples.

Section DeterminantAdjoint.

Import RxNSEM.

Context {Src : Type}.
Variable self : Rx.
Variable src : Src.
Variable mesh : BaseMesh.
Variable f : Fields Src.
Variables nD nU nEdges nFaces : nat.
Hypothesis dims : survey_dims self src mesh f nD nU nEdges nFaces.

Lemma dotC_repeated_term (x t1 t2 t3 t4 : cvec) :
  length t1 = nD -> length t2 = nD -> length t3 = nD -> length t4 = nD ->
  dotC x (((t1 [+] t1) [-] t3) [-] t4)
  = Cadd (dotC x (((t1 [+] t2) [-] t3) [-] t4)) (dotC x (t1 [-] t2)).
Proof.
  intros L1 L2 L3 L4.
  rewrite !dotC_vsub_r, !dotC_vadd_r;
    rewrite ?length_vsub, ?length_vadd, ?L1, ?L2, ?L3, ?L4, ?Nat.min_id;
    try reflexivity.
  destruct (dotC x t1), (dotC x t2), (dotC x t3), (dotC x t4). csolve.
Qed.

(** With fields whose derivatives are exact forward/adjoint pairs,
    [_aHd_uV] is the transpose of [_Hd_uV] up to one term: it repeats
    [_ahx_px_u(_ahy_py * x)], the transpose of [_hy_py * _hx_px_u(v)],
    where the transpose of [_hx_px * _hy_py_u(v)] would stand, so the two
    sides of [dot] differ by the difference of these two terms. *)
Theorem aHd_uV_transpose_up_to_a_term (x v : cvec) :
  length x = nD -> length v = nU ->
  dotC (_aHd_uV self src mesh f x) v
  = Cadd (dotC x (_Hd_uV self src mesh f v))
         (dotC x ((_hy_py self src mesh f [*] _hx_px_u self src mesh f v)
                  [-] (_hx_px self src mesh f
                       [*] _hy_py_u self src mesh f v))).
Proof.
  intros Hx Hv.
  destruct (adjoint_fields self src mesh f)
    as (A1 & A2 & A3 & A4 & A5 & A6 & A7 & A8 & A9 & A10 & _).
  open_dims dims.
  unfold _Hd_uV. rewrite <- dotC_repeated_term by term_length.
  symmetry. unfold _aHd_uV. rewrite A6, A8, A9.
  eapply (pattern_plus_plus_minus_minus nD nU);
    first [ term_length | term_transpose ].
Qed.

End DeterminantAdjoint.

Section DeterminantAdjointExample.

Import RxNSEM.

Lemma aHd_uV_transpose_up_to_a_term_witness :
  dotC (_aHd_uV (example_rx "xx" real) tt example_mesh example_fields_diag
                [C1]) [C1; C1]
  = Cadd (dotC [C1] (_Hd_uV (example_rx "xx" real) tt example_mesh
                            example_fields_diag [C1; C1]))
         (dotC [C1]
               ((_hy_py (example_rx "xx" real) tt example_mesh
                        example_fields_diag
                 [*] _hx_px_u (example_rx "xx" real) tt example_mesh
                              example_fields_diag [C1; C1])
                [-] (_hx_px (example_rx "xx" real) tt example_mesh
                            example_fields_diag
                     [*] _hy_py_u (example_rx "xx" real) tt example_mesh
                                  example_fields_diag [C1; C1]))).
Proof.
  apply (aHd_uV_transpose_up_to_a_term (example_rx "xx" real) tt example_mesh
           example_fields_diag 1 2 1 2
           (example_dims_with _ _ "xx" real)); reflexivity.
Defined.

End DeterminantAdjointExample.

Section ComponentOfData.

Import RxNSEM.

Context {Src : Type}.
Variable cls : rx_class.
Variable self : Rx.
Variable src : Src.
Variable mesh : BaseMesh.
Variable f : Fields Src.

(** On every receiver class, the data [eval] returns are the receiver's
    component of the complex array it returns with [return_complex=True],
    and fail as that call fails; the complex array itself is the same for
    the two components, so a ['real'] and an ['imag'] receiver return the
    real and the imaginary part of one array. *)
Theorem eval_is_component_of_complex :
  eval cls self src mesh f false
  = (z <- as_complex (eval cls self src mesh f true) ;;
     Ok (RealArr (getattr z (component self))))
  /\ (forall c,
        eval cls (with_component self c) src mesh f true
        = eval cls self src mesh f true)
  /\ (forall c,
        eval cls (with_component self c) src mesh f false
        = (z <- as_complex (eval cls self src mesh f true) ;;
           Ok (RealArr (getattr z c)))).
Proof.
  assert (H : forall s : Rx,
            eval cls s src mesh f false
            = (z <- as_complex (eval cls s src mesh f true) ;;
               Ok (RealArr (getattr z (component s))))).
  { intros s. destruct cls; cbn [eval].
    - reflexivity.
    - unfold Point_impedance3D_eval.
      destruct (Point_impedance3D_Zij s src mesh f); reflexivity.
    - unfold Point_tipper3D_eval.
      destruct (Point_tipper3D_Tij s src mesh f); reflexivity.
    - unfold Point_horizontalmagvar3D_eval.
      destruct (Point_horizontalmagvar3D_Mij s src mesh f) as [[? ?]|];
        reflexivity. }
  assert (G : forall c, eval cls (with_component self c) src mesh f true
                        = eval cls self src mesh f true).
  { intros c. destruct cls; reflexivity. }
  split; [apply H|]. split; [exact G|].
  intros c. rewrite H, G. reflexivity.
Qed.

End ComponentOfData.

(** * Properties of the data container *)

Section Dictionaries.

Import Data.

Context {K V : Type}.
Variable K_eq_dec : forall a b : K, {a = b} + {a <> b}.

Lemma dict_get_app_here (l1 l2 : list (K * V)) (k : K) (v : V) :
  ~ In k (map fst l1) ->
  dict_get K_eq_dec (l1 ++ (k, v) :: l2) k = Some v.
Proof.
  induction l1 as [|[k' v'] l1 IH]; intros Hn; cbn [app dict_get].
  - destruct (K_eq_dec k k); [reflexivity|congruence].
  - destruct (K_eq_dec k k') as [->|Hne].
    + exfalso. apply Hn. now left.
    + apply IH. intros Hin. apply Hn. now right.
Qed.

Lemma dict_set_app_here (l1 l2 : list (K * V)) (k : K) (v v' : V) :
  ~ In k (map fst l1) ->
  dict_set K_eq_dec (l1 ++ (k, v) :: l2) k v' = l1 ++ (k, v') :: l2.
Proof.
  induction l1 as [|[k0 v0] l1 IH]; intros Hn; cbn [app dict_set].
  - destruct (K_eq_dec k k); [reflexivity|congruence].
  - destruct (K_eq_dec k k0) as [->|Hne].
    + exfalso. apply Hn. now left.
    + f_equal. apply IH. intros Hin. apply Hn. now right.
Qed.

Lemma dict_set_new (d : list (K * V)) (k : K) (v : V) :
  ~ In k (map fst d) -> dict_set K_eq_dec d k v = d ++ [(k, v)].
Proof.
  induction d as [|[k0 v0] d IH]; intros Hn; cbn [app dict_set].
  - reflexivity.
  - destruct (K_eq_dec k k0) as [->|Hne].
    + exfalso. apply Hn. now left.
    + f_equal. apply IH. intros Hin. apply Hn. now right.
Qed.

Lemma dict_get_skip (l1 l2 : list (K * V)) (k : K) :
  ~ In k (map fst l1) ->
  dict_get K_eq_dec (l1 ++ l2) k = dict_get K_eq_dec l2 k.
Proof.
  induction l1 as [|[k' v'] l1 IH]; intros Hn; cbn [app dict_get].
  - reflexivity.
  - destruct (K_eq_dec k k') as [->|Hne].
    + exfalso. apply Hn. now left.
    + apply IH. intros Hin. apply Hn. now right.
Qed.

End Dictionaries.

Section DataDictionary.

Import Data.

Lemma arange_seq (b n : nat) : arange b (b + n) = seq b n.
Proof. unfold arange. f_equal. lia. Qed.

Lemma empty_per_source (srcs : list Src) (acc : data_dict) :
  NoDup (map fst acc ++ srcs) ->
  fold_left (fun d src => dict_set Src_eq_dec d src []) srcs acc
  = acc ++ map (fun src => (src, [])) srcs.
Proof.
  revert acc. induction srcs as [|s srcs IH]; intros acc Hnd; cbn [fold_left map].
  - now rewrite app_nil_r.
  - rewrite dict_set_new.
    + rewrite IH.
      * now rewrite <- app_assoc.
      * rewrite map_app, <- app_assoc. exact Hnd.
    + apply NoDup_remove_2 in Hnd. intros Hin. apply Hnd.
      apply in_or_app. now left.
Qed.

Lemma receivers_loop (src : Src) (rxs : list Rx) (l1 l2 : data_dict)
      (acc : list (Rx * list nat)) (b : nat) :
  ~ In src (map fst l1) -> NoDup (map fst acc ++ rxs) ->
  fold_left (rx_step src) rxs (Ok (l1 ++ (src, acc) :: l2, b, b))
  = Ok (l1 ++ (src, acc ++ rx_ranges rxs b) :: l2,
        (b + rx_total rxs)%nat, (b + rx_total rxs)%nat).
Proof.
  intros Hsrc. revert acc b.
  induction rxs as [|rx rxs IH]; intros acc b Hnd; cbn [fold_left rx_ranges rx_total fold_right].
  - now rewrite app_nil_r, Nat.add_0_r.
  - unfold rx_step at 2. cbn [bind]. unfold getitem_src.
    rewrite dict_get_app_here by assumption. cbn [bind].
    rewrite dict_set_app_here by assumption.
    rewrite dict_set_new.
    2:{ apply NoDup_remove_2 in Hnd. intros Hin. apply Hnd.
        apply in_or_app. now left. }
    rewrite arange_seq. rewrite IH.
    + rewrite <- app_assoc. cbn [app]. fold (rx_total rxs).
      now rewrite !Nat.add_assoc.
    + rewrite map_app, <- app_assoc. exact Hnd.
Qed.

Lemma sources_loop (todo : list Src) (P : data_dict) (b : nat) :
  NoDup todo ->
  (forall s, In s todo -> ~ In s (map fst P)) ->
  (forall s, In s todo -> NoDup (rxList s)) ->
  fold_left (fun st src => fold_left (rx_step src) (rxList src) st) todo
            (Ok (P ++ map (fun src => (src, [])) todo, b, b))
  = Ok (P ++ src_ranges todo b,
        (b + src_total todo)%nat, (b + src_total todo)%nat).
Proof.
  revert P b. induction todo as [|s todo IH]; intros P b Hnd HP Hrx;
    cbn [fold_left map src_ranges src_total fold_right].
  - now rewrite Nat.add_0_r.
  - rewrite (receivers_loop s (rxList s) P _ [] b).
    2:{ apply HP. now left. }
    2:{ cbn [map app]. apply Hrx. now left. }
    cbn [app]. fold (src_total todo).
    inversion Hnd as [|? ? Hs Hnd']; subst.
    replace (P ++ (s, rx_ranges (rxList s) b)
               :: map (fun src => (src, [])) todo)
      with ((P ++ [(s, rx_ranges (rxList s) b)])
              ++ map (fun src => (src, [])) todo)
      by (now rewrite <- app_assoc).
    rewrite IH.
    + rewrite <- app_assoc. cbn [app]. now rewrite !Nat.add_assoc.
    + assumption.
    + intros s' Hin. rewrite map_app. cbn [map fst]. intros H.
      apply in_app_or in H as [H|[H|[]]].
      * apply (HP s'); [now right|assumption].
      * subst s'. contradiction.
    + intros s' Hin. apply Hrx. now right.
Qed.

(** The dictionary [_create_data_dict] builds. *)
Lemma create_data_dict_value (svy : Survey) :
  distinct_objects svy ->
  _create_data_dict svy = Ok (src_ranges (srcList svy) 0).
Proof.
  intros [Hs Hr]. unfold _create_data_dict.
  rewrite empty_per_source by exact Hs.
  rewrite (sources_loop (srcList svy) [] 0 Hs); [reflexivity| |exact Hr].
  intros s _ [].
Qed.

End DataDictionary.

Section DataRanges.

Import Data.

Lemma rx_ranges_get (rxs : list Rx) (rx : Rx) (b : nat) :
  In rx rxs ->
  dict_get Rx_eq_dec (rx_ranges rxs b) rx
  = Some (seq (b + rx_offset rxs rx) (rx_nD rx)).
Proof.
  revert b. induction rxs as [|r rxs IH]; intros b Hin; [contradiction|].
  cbn [rx_ranges dict_get rx_offset].
  destruct (Rx_eq_dec rx r) as [->|Hne].
  - now rewrite Nat.add_0_r.
  - destruct Hin as [->|Hin]; [congruence|].
    rewrite IH by assumption. now rewrite Nat.add_assoc.
Qed.

Lemma src_ranges_get (srcs : list Src) (src : Src) (b : nat) :
  In src srcs ->
  dict_get Src_eq_dec (src_ranges srcs b) src
  = Some (rx_ranges (rxList src) (b + src_offset srcs src)).
Proof.
  revert b. induction srcs as [|s srcs IH]; intros b Hin; [contradiction|].
  cbn [src_ranges dict_get src_offset].
  destruct (Src_eq_dec src s) as [->|Hne].
  - now rewrite Nat.add_0_r.
  - destruct Hin as [->|Hin]; [congruence|].
    rewrite IH by assumption. now rewrite Nat.add_assoc.
Qed.

Lemma inds_of_ranges (srcs : list Src) (src : Src) (rx : Rx) :
  In src srcs -> In rx (rxList src) ->
  inds_of (src_ranges srcs 0) src rx
  = Ok (seq (src_offset srcs src + rx_offset (rxList src) rx) (rx_nD rx)).
Proof.
  intros Hs Hr. unfold inds_of, getitem_src, getitem_rx.
  rewrite src_ranges_get by assumption. cbn [bind].
  rewrite rx_ranges_get by assumption. reflexivity.
Qed.

Lemma rx_offset_bound (rxs : list Rx) (rx : Rx) :
  In rx rxs -> (rx_offset rxs rx + rx_nD rx <= rx_total rxs)%nat.
Proof.
  induction rxs as [|r rxs IH]; intros Hin; [contradiction|].
  cbn [rx_offset rx_total fold_right]. fold (rx_total rxs).
  destruct (Rx_eq_dec rx r) as [->|Hne]; [lia|].
  destruct Hin as [->|Hin]; [congruence|]. specialize (IH Hin). lia.
Qed.

Lemma src_offset_bound (srcs : list Src) (src : Src) :
  In src srcs ->
  (src_offset srcs src + rx_total (rxList src) <= src_total srcs)%nat.
Proof.
  induction srcs as [|s srcs IH]; intros Hin; [contradiction|].
  cbn [src_offset src_total fold_right]. fold (src_total srcs).
  destruct (Src_eq_dec src s) as [->|Hne]; [lia|].
  destruct Hin as [->|Hin]; [congruence|]. specialize (IH Hin). lia.
Qed.

(** Two receivers of a source have disjoint ranges, and so have two
    sources. *)
Lemma rx_offset_disjoint (rxs : list Rx) (rx rx' : Rx) :
  In rx rxs -> In rx' rxs -> rx <> rx' ->
  (rx_offset rxs rx + rx_nD rx <= rx_offset rxs rx')%nat
  \/ (rx_offset rxs rx' + rx_nD rx' <= rx_offset rxs rx)%nat.
Proof.
  induction rxs as [|r rxs IH]; intros Hin Hin' Hne; [contradiction|].
  cbn [rx_offset].
  destruct (Rx_eq_dec rx r) as [->|H1], (Rx_eq_dec rx' r) as [->|H2].
  - congruence.
  - left. lia.
  - right. lia.
  - destruct Hin as [->|Hin]; [congruence|].
    destruct Hin' as [->|Hin']; [congruence|].
    destruct (IH Hin Hin' Hne); [left|right]; lia.
Qed.

Lemma src_offset_disjoint (srcs : list Src) (src src' : Src) :
  In src srcs -> In src' srcs -> src <> src' ->
  (src_offset srcs src + rx_total (rxList src) <= src_offset srcs src')%nat
  \/ (src_offset srcs src' + rx_total (rxList src')
       <= src_offset srcs src)%nat.
Proof.
  induction srcs as [|s srcs IH]; intros Hin Hin' Hne; [contradiction|].
  cbn [src_offset].
  destruct (Src_eq_dec src s) as [->|H1], (Src_eq_dec src' s) as [->|H2].
  - congruence.
  - left. lia.
  - right. lia.
  - destruct Hin as [->|Hin]; [congruence|].
    destruct Hin' as [->|Hin']; [congruence|].
    destruct (IH Hin Hin' Hne); [left|right]; lia.
Qed.

Lemma rx_offset_app (pre rxs : list Rx) (rx : Rx) :
  ~ In rx pre ->
  rx_offset (pre ++ rx :: rxs) rx = rx_total pre.
Proof.
  induction pre as [|r pre IH]; intros Hn; cbn [app rx_offset rx_total fold_right].
  - destruct (Rx_eq_dec rx rx); [reflexivity|congruence].
  - fold (rx_total pre). destruct (Rx_eq_dec rx r) as [->|Hne].
    + exfalso. apply Hn. now left.
    + rewrite IH; [reflexivity|]. intros H. apply Hn. now right.
Qed.

Lemma src_offset_app (pre srcs : list Src) (src : Src) :
  ~ In src pre ->
  src_offset (pre ++ src :: srcs) src = src_total pre.
Proof.
  induction pre as [|s pre IH]; intros Hn;
    cbn [app src_offset src_total fold_right].
  - destruct (Src_eq_dec src src); [reflexivity|congruence].
  - fold (src_total pre). destruct (Src_eq_dec src s) as [->|Hne].
    + exfalso. apply Hn. now left.
    + rewrite IH; [reflexivity|]. intros H. apply Hn. now right.
Qed.

Lemma rx_total_app (a b : list Rx) :
  rx_total (a ++ b) = (rx_total a + rx_total b)%nat.
Proof.
  induction a as [|r a IH]; cbn [app rx_total fold_right]; [reflexivity|].
  fold (rx_total (a ++ b)) (rx_total a). lia.
Qed.

Lemma src_total_app (a b : list Src) :
  src_total (a ++ b) = (src_total a + src_total b)%nat.
Proof.
  induction a as [|s a IH]; cbn [app src_total fold_right]; [reflexivity|].
  fold (src_total (a ++ b)) (src_total a). lia.
Qed.

(** The ranges of the receivers of a source, one after the other, fill the
    range of the source. *)
Lemma rx_ranges_concat (pre rxs : list Rx) (b : nat) :
  NoDup (pre ++ rxs) ->
  concat (map (fun rx => seq (b + rx_offset (pre ++ rxs) rx) (rx_nD rx)) rxs)
  = seq (b + rx_total pre) (rx_total rxs).
Proof.
  revert pre. induction rxs as [|rx rxs IH]; intros pre Hnd;
    cbn [map concat rx_total fold_right]; [reflexivity|].
  fold (rx_total rxs). rewrite seq_app. f_equal.
  - rewrite rx_offset_app; [reflexivity|].
    apply NoDup_remove_2 in Hnd. intros H. apply Hnd.
    apply in_or_app. now left.
  - replace (pre ++ rx :: rxs) with ((pre ++ [rx]) ++ rxs)
      by (now rewrite <- app_assoc).
    rewrite IH by (now rewrite <- app_assoc).
    rewrite rx_total_app. cbn [rx_total fold_right]. f_equal. lia.
Qed.

End DataRanges.

Section DataDictionaryTheorem.

Import Data.

Lemma src_ranges_concat (pre srcs : list Src) :
  NoDup (pre ++ srcs) ->
  concat (map (fun s => seq (src_offset (pre ++ srcs) s)
                            (rx_total (rxList s))) srcs)
  = seq (src_total pre) (src_total srcs).
Proof.
  revert pre. induction srcs as [|s srcs IH]; intros pre Hnd;
    cbn [map concat src_total fold_right]; [reflexivity|].
  fold (src_total srcs). rewrite seq_app. f_equal.
  - rewrite src_offset_app; [reflexivity|].
    apply NoDup_remove_2 in Hnd. intros H. apply Hnd.
    apply in_or_app. now left.
  - replace (pre ++ s :: srcs) with ((pre ++ [s]) ++ srcs)
      by (now rewrite <- app_assoc).
    rewrite IH by (now rewrite <- app_assoc).
    rewrite src_total_app. cbn [src_total fold_right]. f_equal. lia.
Qed.

(** On a survey that lists no source twice and no receiver twice in a
    source, [_create_data_dict] does not fail and gives every receiver of
    every source [rx.nD] indices; taken source by source and receiver by
    receiver in the order of the survey, these indices are
    [0, 1, ..., N-1], with [N] the number of data of all the receivers: the
    ranges follow one another, do not overlap and leave no gap. *)
Theorem data_dict_partitions_indices (svy : Survey) :
  distinct_objects svy ->
  exists d,
    _create_data_dict svy = Ok d
    /\ (forall src rx,
          In src (srcList svy) -> In rx (rxList src) ->
          exists inds, inds_of d src rx = Ok inds
                       /\ length inds = rx_nD rx)
    /\ concat (map (fun src => concat (map (indices d src) (rxList src)))
                   (srcList svy))
       = seq 0 (src_total (srcList svy)).
Proof.
  intros Hd. exists (src_ranges (srcList svy) 0).
  split; [now apply create_data_dict_value|]. split.
  - intros src rx Hs Hr. eexists. split; [now apply inds_of_ranges|].
    apply length_seq.
  - destruct Hd as [Hs Hr].
    etransitivity; [|exact (src_ranges_concat [] (srcList svy) Hs)].
    cbn [app]. f_equal. apply map_ext_in. intros s Hin.
    rewrite (map_ext_in _
               (fun rx => seq (src_offset (srcList svy) s
                               + rx_offset ([] ++ rxList s) rx) (rx_nD rx))).
    + rewrite rx_ranges_concat by (apply Hr, Hin).
      cbn [rx_total fold_right]. now rewrite Nat.add_0_r.
    + intros rx Hrx. unfold indices.
      now rewrite inds_of_ranges.
Qed.

Lemma data_dict_partitions_indices_witness :
  exists d,
    _create_data_dict
      (mk_survey [mk_src 0 [mk_rx 0 2; mk_rx 1 3]; mk_src 1 [mk_rx 0 2]] 7)
    = Ok d
    /\ concat (map (fun src => concat (map (indices d src) (rxList src)))
                   [mk_src 0 [mk_rx 0 2; mk_rx 1 3]; mk_src 1 [mk_rx 0 2]])
       = seq 0 7.
Proof.
  destruct (data_dict_partitions_indices
              (mk_survey [mk_src 0 [mk_rx 0 2; mk_rx 1 3];
                          mk_src 1 [mk_rx 0 2]] 7))
    as (d & Hd & _ & Hc).
  - split.
    + repeat constructor; cbn; intuition discriminate.
    + intros src [<-|[<-|[]]]; repeat constructor; cbn;
        intuition discriminate.
  - exists d. split; [exact Hd|exact Hc].
Defined.

End DataDictionaryTheorem.

Section DataKeys.

Import Data.

Lemma contains_obj_true {K : Type} (dec : forall a b : K, {a = b} + {a <> b})
      (k : K) (l : list K) :
  contains_obj dec k l = true <-> In k l.
Proof.
  unfold contains_obj. destruct (in_dec dec k l); split; auto; discriminate.
Qed.

Lemma in_srcList_found (x : obj) (l : list Src) (src : Src) :
  in_srcList x l = Ok (Some src) <-> x = OSrc src /\ In src l.
Proof.
  destruct x as [s|r| | |]; cbn [in_srcList];
    try (split; [discriminate|intros [H _]; discriminate]).
  - destruct (contains_obj Src_eq_dec s l) eqn:E.
    + apply contains_obj_true in E. split.
      * intros H. inversion H; subst. auto.
      * intros [H _]. inversion H; subst. reflexivity.
    + split; [discriminate|]. intros [H Hin]. inversion H; subst.
      apply (contains_obj_true Src_eq_dec) in Hin. congruence.
  - destruct l; (split; [discriminate|intros [H _]; discriminate]).
Qed.

Lemma in_rxList_found (x : obj) (l : list Rx) (rx : Rx) :
  in_rxList x l = Ok (Some rx) <-> x = ORx rx /\ In rx l.
Proof.
  destruct x as [s|r| | |]; cbn [in_rxList];
    try (split; [discriminate|intros [H _]; discriminate]).
  - destruct (contains_obj Rx_eq_dec r l) eqn:E.
    + apply contains_obj_true in E. split.
      * intros H. inversion H; subst. auto.
      * intros [H _]. inversion H; subst. reflexivity.
    + split; [discriminate|]. intros [H Hin]. inversion H; subst.
      apply (contains_obj_true Rx_eq_dec) in Hin. congruence.
  - destruct l; (split; [discriminate|intros [H _]; discriminate]).
Qed.

Lemma in_srcList_raises (x : obj) (l : list Src) (e : exn) :
  in_srcList x l = Raise e
  <-> x = OArray /\ l <> [] /\ @Raise unit e = ambiguous_truth_value.
Proof.
  destruct x as [s|r| | |]; cbn [in_srcList];
    try (split; [discriminate|intros [H _]; discriminate]).
  destruct l as [|s l].
  - split; [discriminate|]. intros [_ [H _]]. now contradiction H.
  - unfold ambiguous_truth_value. split.
    + intros H. inversion H; subst. repeat split. discriminate.
    + intros [_ [_ H]]. inversion H; subst. reflexivity.
Qed.

Lemma in_rxList_raises (x : obj) (l : list Rx) (e : exn) :
  in_rxList x l = Raise e
  <-> x = OArray /\ l <> [] /\ @Raise unit e = ambiguous_truth_value.
Proof.
  destruct x as [s|r| | |]; cbn [in_rxList];
    try (split; [discriminate|intros [H _]; discriminate]).
  destruct l as [|s l].
  - split; [discriminate|]. intros [_ [H _]]. now contradiction H.
  - unfold ambiguous_truth_value. split.
    + intros H. inversion H; subst. repeat split. discriminate.
    + intros [_ [_ H]]. inversion H; subst. reflexivity.
Qed.

Lemma ensureCorrectKey_tuple (self : t) (svy : Survey) (src : Src) (rx : Rx) :
  survey self = Some svy -> In src (srcList svy) -> In rx (rxList src) ->
  _ensureCorrectKey self (key_of src rx) = Ok (src, Some rx).
Proof.
  intros Hs Hsrc Hrx. unfold _ensureCorrectKey, key_of, survey_of.
  rewrite Hs. cbn [length Nat.eqb negb bind nth].
  rewrite (proj2 (in_srcList_found _ _ _) (conj eq_refl Hsrc)).
  cbn [bind].
  now rewrite (proj2 (in_rxList_found _ _ _) (conj eq_refl Hrx)).
Qed.

Lemma ensureCorrectKey_src (self : t) (svy : Survey) (src : Src) :
  survey self = Some svy -> In src (srcList svy) ->
  _ensureCorrectKey self (KeySrc src) = Ok (src, None).
Proof.
  intros Hs Hin. unfold _ensureCorrectKey, survey_of. rewrite Hs. cbn [bind].
  now rewrite (proj2 (contains_obj_true Src_eq_dec _ _) Hin).
Qed.

(** What [_ensureCorrectKey] answers on a pair, read off the two lookups. *)
Lemma ensureCorrectKey_pair (self : t) (svy : Survey) (a b : obj) :
  survey self = Some svy ->
  _ensureCorrectKey self (KeyTuple [a; b])
  = match in_srcList a (srcList svy) with
    | Raise e => Raise e
    | Ok None => Raise (KeyError "Src Key must be a source in the survey.")
    | Ok (Some src) =>
        match in_rxList b (rxList src) with
        | Raise e => Raise e
        | Ok None =>
            Raise (KeyError "Rx Key must be a receiver for the source.")
        | Ok (Some rx) => Ok (src, Some rx)
        end
    end.
Proof.
  intros Hs. unfold _ensureCorrectKey, survey_of. rewrite Hs.
  cbn [length Nat.eqb negb bind nth].
  destruct (in_srcList a (srcList svy)) as [[src|]|e]; cbn [bind];
    [|reflexivity|reflexivity].
  destruct (in_rxList b (rxList src)) as [[rx|]|e]; reflexivity.
Qed.

(** On a data object whose survey is set, [_ensureCorrectKey] accepts
    exactly the keys [[src, rx]] with [src] a source of the survey and [rx]
    one of its receivers, which it returns, and the keys [src] with [src] a
    source of the survey, for which it returns [src, None].  It raises
    [ValueError] exactly on the pairs on which it compares an array of
    more than one element, and [KeyError] on every other key. *)
Theorem ensureCorrectKey_accepts (self : t) (svy : Survey) (k : key) :
  survey self = Some svy ->
  (forall src rx,
     _ensureCorrectKey self k = Ok (src, rx)
     <-> In src (srcList svy)
         /\ match rx with
            | Some r => In r (rxList src) /\ k = key_of src r
            | None => k = KeySrc src
            end)
  /\ ((exists msg, _ensureCorrectKey self k = Raise (ValueError msg))
      <-> compares_array svy k)
  /\ ((exists msg, _ensureCorrectKey self k = Raise (KeyError msg))
      <-> (forall sr, _ensureCorrectKey self k <> Ok sr)
          /\ ~ compares_array svy k).
Proof.
  intros Hs.
  assert (Hok : forall src rx,
             _ensureCorrectKey self k = Ok (src, rx)
             <-> In src (srcList svy)
                 /\ match rx with
                    | Some r => In r (rxList src) /\ k = key_of src r
                    | None => k = KeySrc src
                    end).
  { intros src rx. split.
    - destruct k as [items|s|]; [| |discriminate].
      + destruct items as [|a [|b [|c rest]]]; try discriminate.
        rewrite (ensureCorrectKey_pair self svy a b Hs).
        destruct (in_srcList a (srcList svy)) as [[s|]|e] eqn:Ea;
          try discriminate.
        destruct (in_rxList b (rxList s)) as [[r|]|e] eqn:Eb;
          try discriminate.
        intros H. inversion H; subst.
        apply in_srcList_found in Ea as [-> Hin].
        apply in_rxList_found in Eb as [-> Hrx]. now repeat split.
      + unfold _ensureCorrectKey, survey_of. rewrite Hs. cbn [bind].
        destruct (contains_obj Src_eq_dec s (srcList svy)) eqn:Es;
          cbn [negb]; [|discriminate].
        intros H. inversion H; subst.
        apply contains_obj_true in Es. now split.
    - intros [Hin H]. destruct rx as [r|].
      + destruct H as [Hrx ->]. now apply (ensureCorrectKey_tuple self svy).
      + subst k. now apply (ensureCorrectKey_src self svy). }
  assert (Hval : (exists msg, _ensureCorrectKey self k = Raise (ValueError msg))
                 <-> compares_array svy k).
  { split.
    - intros [msg H]. destruct k as [items|s|].
      + destruct items as [|a [|b [|c rest]]]; try discriminate.
        exists a, b. split; [reflexivity|].
        rewrite (ensureCorrectKey_pair self svy a b Hs) in H.
        destruct (in_srcList a (srcList svy)) as [[s|]|e] eqn:Ea;
          try discriminate.
        * apply in_srcList_found in Ea as [-> Hin].
          destruct (in_rxList b (rxList s)) as [[r|]|e] eqn:Eb;
            try discriminate.
          apply in_rxList_raises in Eb as [-> [Hne _]].
          right. now exists s.
        * apply in_srcList_raises in Ea as [-> [Hne _]]. now left.
      + unfold _ensureCorrectKey, survey_of in H. rewrite Hs in H.
        cbn [bind] in H.
        destruct (contains_obj Src_eq_dec s (srcList svy)); discriminate.
      + discriminate.
    - intros (a & b & -> & [[-> Hne]|(s & -> & Hin & -> & Hne)]);
        rewrite (ensureCorrectKey_pair self svy _ _ Hs).
      + cbn [in_srcList]. destruct (srcList svy); [now contradiction Hne|].
        eexists; reflexivity.
      + rewrite (proj2 (in_srcList_found _ _ _) (conj eq_refl Hin)).
        cbn [in_rxList]. destruct (rxList s); [now contradiction Hne|].
        eexists; reflexivity. }
  split; [exact Hok|]. split; [exact Hval|].
  split.
  - intros [msg H]. split.
    + intros sr. rewrite H. discriminate.
    + intros Hc. apply Hval in Hc as [msg' Hc]. rewrite H in Hc.
      discriminate.
  - intros [Hno Hc].
    destruct (_ensureCorrectKey self k) as [sr|e] eqn:E.
    + now contradiction (Hno sr).
    + destruct k as [items|s|].
      * destruct items as [|a [|b [|c rest]]];
          try (inversion E; eexists; reflexivity).
        rewrite (ensureCorrectKey_pair self svy a b Hs) in E.
        destruct (in_srcList a (srcList svy)) as [[s|]|e'] eqn:Ea.
        -- destruct (in_rxList b (rxList s)) as [[r|]|e''] eqn:Eb;
             try discriminate.
           ++ inversion E. eexists; reflexivity.
           ++ apply in_srcList_found in Ea as [-> Hin].
              apply in_rxList_raises in Eb as [-> [Hne _]].
              contradiction Hc. exists (OSrc s), OArray.
              split; [reflexivity|]. right. now exists s.
        -- inversion E. eexists; reflexivity.
        -- apply in_srcList_raises in Ea as [-> [Hne _]].
           contradiction Hc. exists OArray, b.
           split; [reflexivity|]. now left.
      * unfold _ensureCorrectKey, survey_of in E. rewrite Hs in E.
        cbn [bind] in E.
        destruct (contains_obj Src_eq_dec s (srcList svy)); cbn [negb] in E;
          [discriminate|]. inversion E. eexists; reflexivity.
      * inversion E. eexists; reflexivity.
Qed.

End DataKeys.

Section DataArrays.

Import Data.

Lemma length_update (arr : list npfloat) (i : nat) (v : npfloat) :
  length (update arr i v) = length arr.
Proof.
  revert i. induction arr as [|x arr IH]; intros [|i]; cbn [update length];
    auto.
Qed.

Lemma nth_update (arr : list npfloat) (i j : nat) (v : npfloat) :
  (i < length arr)%nat ->
  nth j (update arr i v) NaN = if (j =? i)%nat then v else nth j arr NaN.
Proof.
  revert i j. induction arr as [|x arr IH]; intros i j Hi;
    [simpl in Hi; lia|].
  destruct i as [|i], j as [|j]; cbn [update nth Nat.eqb]; try reflexivity.
  apply IH. simpl in Hi. lia.
Qed.

(** [arr[off:off+n] = vals], written with the indices of the range. *)
Lemma fold_update_seq (n : nat) :
  forall (off : nat) (vals arr : list npfloat),
    length vals = n -> (off + n <= length arr)%nat ->
    let arr' := fold_left (fun a iv => update a (fst iv) (snd iv))
                          (combine (seq off n) vals) arr in
    length arr' = length arr
    /\ forall j, nth j arr' NaN
                 = if ((off <=? j) && (j <? off + n))%nat
                   then nth (j - off) vals NaN else nth j arr NaN.
Proof.
  induction n as [|n IH]; intros off vals arr Hl Hb arr'; subst arr'.
  - cbn [seq combine fold_left]. split; [reflexivity|]. intros j.
    destruct (Nat.leb_spec off j), (Nat.ltb_spec j (off + 0)); cbn [andb];
      try reflexivity; lia.
  - destruct vals as [|v vals]; [discriminate|].
    cbn [seq combine fold_left fst snd].
    destruct (IH (S off) vals (update arr off v)) as [L N].
    + simpl in Hl. lia.
    + rewrite length_update. lia.
    + split; [now rewrite L, length_update|].
      intros j. rewrite N. rewrite nth_update by lia.
      destruct (Nat.leb_spec (S off) j), (Nat.ltb_spec j (S off + n)),
        (Nat.leb_spec off j), (Nat.ltb_spec j (off + S n)),
        (Nat.eqb_spec j off); cbn [andb]; try lia; try reflexivity.
      * replace (j - off)%nat with (S (j - S off)) by lia. reflexivity.
      * subst j. now rewrite Nat.sub_diag.
Qed.

Lemma forallb_seq_bound (off n len : nat) :
  (off + n <= len)%nat ->
  forallb (fun i => (i <? len)%nat) (seq off n) = true.
Proof.
  intros H. apply forallb_forall. intros i Hi. apply in_seq in Hi.
  apply Nat.ltb_lt. lia.
Qed.

Lemma put_seq (arr vals : list npfloat) (off n : nat) :
  length vals = n -> (off + n <= length arr)%nat ->
  exists arr',
    put arr (seq off n) vals = Ok arr'
    /\ length arr' = length arr
    /\ forall j, nth j arr' NaN
                 = if ((off <=? j) && (j <? off + n))%nat
                   then nth (j - off) vals NaN else nth j arr NaN.
Proof.
  intros Hl Hb. unfold put.
  rewrite forallb_seq_bound by assumption. cbn [negb]. rewrite length_seq.
  assert (E : (if (length vals =? 1)%nat
               then repeat (nth 0 vals NaN) n else vals) = vals).
  { destruct (Nat.eqb_spec (length vals) 1) as [H1|]; [|reflexivity].
    rewrite <- Hl, H1. destruct vals as [|v [|w vals]]; try discriminate.
    reflexivity. }
  rewrite E, Hl, Nat.eqb_refl.
  eexists. split; [reflexivity|]. now apply fold_update_seq.
Qed.

Lemma map_nth_seq_shift (vals : list npfloat) (off : nat) :
  map (fun i => nth (i - off) vals NaN) (seq off (length vals)) = vals.
Proof.
  revert off. induction vals as [|v vals IH]; intros off;
    cbn [length seq map]; [reflexivity|].
  rewrite Nat.sub_diag. cbn [nth]. f_equal.
  rewrite <- (IH (S off)) at 2. apply map_ext_in. intros i Hi.
  apply in_seq in Hi. replace (i - off)%nat with (S (i - S off)) by lia.
  reflexivity.
Qed.

End DataArrays.

Section DataAccess.

Import Data.

Variable svy : Survey.
Hypothesis distinct : distinct_objects svy.
Hypothesis consistent : consistent_nD svy.

Variable src : Src.
Variable rx : Rx.
Hypothesis src_in : In src (srcList svy).
Hypothesis rx_in : In rx (rxList src).

(** Where the data of [rx] start in the data vector. *)
Let off : nat := (src_offset (srcList svy) src + rx_offset (rxList src) rx)%nat.

Lemma range_in_survey : (off + rx_nD rx <= survey_nD svy)%nat.
Proof.
  unfold off. rewrite consistent.
  pose proof (src_offset_bound (srcList svy) src src_in).
  pose proof (rx_offset_bound (rxList src) rx rx_in). lia.
Qed.

Lemma dict_on_survey (self : t) :
  on_survey self svy ->
  _data_dict self = Some (src_ranges (srcList svy) 0)
  /\ ensure_data_dict self = Ok (src_ranges (srcList svy) 0).
Proof.
  intros (Hs & (d & Hc & Hd) & _).
  rewrite create_data_dict_value in Hc by assumption.
  inversion Hc; subst d. split; [assumption|].
  unfold ensure_data_dict, survey_of. rewrite Hd, Hs. cbn [bind].
  rewrite create_data_dict_value by assumption.
  now destruct (length _ =? 0)%nat.
Qed.

Lemma same_object (self : t) (d : data_dict) :
  _data_dict self = Some d ->
  {| dobs := dobs self;
     standard_deviation := standard_deviation self;
     noise_floor := noise_floor self;
     survey := survey self;
     _data_dict := Some d |} = self.
Proof. destruct self. cbn. now intros ->. Qed.

Lemma getitem_on_survey (self : t) (arr : list npfloat) :
  on_survey self svy -> dobs self = Some arr ->
  __getitem__ self (key_of src rx)
  = Ok (self, map (fun i => nth i arr NaN) (seq off (rx_nD rx))).
Proof.
  intros Hon Hd. pose proof Hon as (Hs & _ & Hl). rewrite Hd in Hl.
  destruct (dict_on_survey self Hon) as [Hdd He].
  unfold __getitem__, _get_data_properties.
  rewrite (ensureCorrectKey_tuple self svy src rx Hs src_in rx_in).
  cbn [bind fst snd]. rewrite He. cbn [bind].
  unfold getitem_src. rewrite src_ranges_get by assumption. cbn [bind].
  rewrite rx_ranges_get by assumption. cbn [negb].
  rewrite inds_of_ranges by assumption. cbn [bind].
  rewrite Hd. unfold getitem_arr, take. fold off.
  rewrite forallb_seq_bound by (rewrite Hl; apply range_in_survey).
  cbn [bind]. do 2 f_equal. destruct self. cbn in Hd, Hdd |- *.
  now rewrite Hd, Hdd.
Qed.

(** What [__setitem__] does once its checks have passed. *)
Lemma setitem_on_survey (self : t) (flat arr0 : list npfloat) :
  on_survey self svy -> length flat = rx_nD rx ->
  match dobs self with
  | None => arr0 = repeat NaN (survey_nD svy)
  | Some arr =>
      arr0 = arr
      /\ forallb isnan (map (fun i => nth i arr NaN) (seq off (rx_nD rx)))
         = true
  end ->
  exists arr',
    __setitem__ self (key_of src rx) (NdArray flat)
    = Ok {| dobs := Some arr';
            standard_deviation := standard_deviation self;
            noise_floor := noise_floor self;
            survey := survey self;
            _data_dict := _data_dict self |}
    /\ length arr' = survey_nD svy
    /\ forall j, nth j arr' NaN
                 = if ((off <=? j) && (j <? off + rx_nD rx))%nat
                   then nth (j - off) flat NaN else nth j arr0 NaN.
Proof.
  intros Hon Hf H0. pose proof Hon as (Hs & _ & Hl).
  destruct (dict_on_survey self Hon) as [Hdd He].
  assert (L0 : length arr0 = survey_nD svy).
  { destruct (dobs self) as [arr|].
    - destruct H0 as [-> _]. exact Hl.
    - subst arr0. apply repeat_length. }
  destruct (put_seq arr0 flat off (rx_nD rx) Hf) as (arr' & Hp & La & Hn).
  { rewrite L0. apply range_in_survey. }
  exists arr'. split; [|split; [congruence|exact Hn]].
  unfold __setitem__, _set_data_properties.
  rewrite (ensureCorrectKey_tuple self svy src rx Hs src_in rx_in).
  cbn [bind fst snd]. rewrite Hf, Nat.eqb_refl. cbn [assert bind].
  rewrite He. cbn [bind].
  rewrite inds_of_ranges by assumption. cbn [bind]. fold off.
  destruct (dobs self) as [arr|].
  - destruct H0 as [-> Hnan]. unfold take.
    rewrite forallb_seq_bound by (rewrite Hl; apply range_in_survey).
    cbn [bind]. rewrite Hnan. cbn [negb bind]. rewrite Hp. cbn [bind].
    now rewrite Hdd.
  - subst arr0. unfold survey_of. rewrite Hs. cbn [bind]. rewrite Hp.
    cbn [bind]. now rewrite Hdd.
Qed.

Lemma on_survey_after (self : t) (arr' : list npfloat) :
  on_survey self svy -> length arr' = survey_nD svy ->
  on_survey {| dobs := Some arr';
               standard_deviation := standard_deviation self;
               noise_floor := noise_floor self;
               survey := survey self;
               _data_dict := _data_dict self |} svy.
Proof.
  intros (Hs & Hd & _) Hl. split; [exact Hs|]. split; [exact Hd|exact Hl].
Qed.

Lemma read_back (arr' arr0 flat : list npfloat) :
  length flat = rx_nD rx ->
  (forall j, nth j arr' NaN
             = if ((off <=? j) && (j <? off + rx_nD rx))%nat
               then nth (j - off) flat NaN else nth j arr0 NaN) ->
  map (fun i => nth i arr' NaN) (seq off (rx_nD rx)) = flat.
Proof.
  intros Hf Hn. etransitivity; [|exact (map_nth_seq_shift flat off)].
  rewrite Hf.
  apply map_ext_in. intros i Hi. apply in_seq in Hi. rewrite Hn.
  destruct (Nat.leb_spec off i), (Nat.ltb_spec i (off + rx_nD rx));
    cbn [andb]; try lia. reflexivity.
Qed.

End DataAccess.

Section DataSetGet.

Import Data.

Variable svy : Survey.
Hypothesis distinct : distinct_objects svy.
Hypothesis consistent : consistent_nD svy.

Lemma getitem_unset (self : t) (src : Src) (rx : Rx) :
  on_survey self svy -> In src (srcList svy) -> In rx (rxList src) ->
  dobs self = None ->
  __getitem__ self (key_of src rx)
  = Raise (TypeError "'NoneType' object is not subscriptable").
Proof.
  intros Hon Hsrc Hrx Hd. pose proof Hon as (Hs & _).
  destruct (dict_on_survey svy distinct self Hon) as [Hdd He].
  unfold __getitem__, _get_data_properties.
  rewrite (ensureCorrectKey_tuple self svy src rx Hs Hsrc Hrx).
  cbn [bind fst snd]. rewrite He. cbn [bind].
  unfold getitem_src. rewrite src_ranges_get by assumption. cbn [bind].
  rewrite rx_ranges_get by assumption. cbn [negb].
  rewrite inds_of_ranges by assumption. cbn [bind].
  rewrite Hd. reflexivity.
Qed.

Lemma forallb_isnan_repeat (n : nat) : forallb isnan (repeat NaN n) = true.
Proof. induction n; cbn; auto. Qed.

Lemma has_number_not_all_nan (a : list npfloat) :
  has_number a -> forallb isnan a = false.
Proof.
  intros [x Hx]. destruct (forallb isnan a) eqn:E; [|reflexivity].
  rewrite forallb_forall in E. specialize (E _ Hx). discriminate.
Qed.

Lemma setitem_refused (self : t) (src : Src) (rx : Rx)
      (arr flat : list npfloat) :
  on_survey self svy -> In src (srcList svy) -> In rx (rxList src) ->
  dobs self = Some arr -> length flat = rx_nD rx ->
  forallb isnan
    (map (fun i => nth i arr NaN)
         (seq (src_offset (srcList svy) src + rx_offset (rxList src) rx)
              (rx_nD rx))) = false ->
  __setitem__ self (key_of src rx) (NdArray flat)
  = Raise (Exception
      "Observed data cannot be overwritten. Create a new Data object or a SyntheticData object instead").
Proof.
  intros Hon Hsrc Hrx Hd Hf Hnan. pose proof Hon as (Hs & _ & Hl).
  rewrite Hd in Hl.
  destruct (dict_on_survey svy distinct self Hon) as [Hdd He].
  unfold __setitem__, _set_data_properties.
  rewrite (ensureCorrectKey_tuple self svy src rx Hs Hsrc Hrx).
  cbn [bind fst snd]. rewrite Hf, Nat.eqb_refl. cbn [assert bind].
  rewrite He. cbn [bind].
  rewrite inds_of_ranges by assumption. cbn [bind]. rewrite Hd.
  unfold take.
  rewrite forallb_seq_bound
    by (rewrite Hl; now apply range_in_survey).
  cbn [bind]. rewrite Hnan. reflexivity.
Qed.

(** Setting then getting.  On a data object whose survey is set, with
    [survey.nD] the number of data of its receivers, [data[src, rx] = value]
    for a receiver of a source of the survey and an array of [rx.nD]
    values succeeds as long as no data were set for the receiver (the
    observed data are unset, or hold [nan] there), and [data[src, rx]] then
    returns the values. *)
Theorem data_set_then_get (self : t) (src : Src) (rx : Rx)
        (flat : list npfloat) :
  on_survey self svy -> In src (srcList svy) -> In rx (rxList src) ->
  length flat = rx_nD rx ->
  dobs self = None
  \/ __getitem__ self (key_of src rx) = Ok (self, repeat NaN (rx_nD rx)) ->
  exists self',
    __setitem__ self (key_of src rx) (NdArray flat) = Ok self'
    /\ on_survey self' svy
    /\ __getitem__ self' (key_of src rx) = Ok (self', flat).
Proof.
  intros Hon Hsrc Hrx Hf Hfree.
  set (arr0 := match dobs self with
               | Some arr => arr
               | None => repeat NaN (survey_nD svy)
               end).
  destruct (setitem_on_survey svy distinct consistent src rx Hsrc Hrx
              self flat arr0 Hon Hf) as (arr' & Hset & La & Hn).
  { subst arr0. destruct (dobs self) as [arr|] eqn:Hd; [|reflexivity].
    split; [reflexivity|]. destruct Hfree as [H|H]; [discriminate|].
    rewrite (getitem_on_survey svy distinct consistent src rx Hsrc Hrx
               self arr Hon Hd) in H.
    inversion H as [E]. rewrite E. apply forallb_isnan_repeat. }
  eexists. split; [exact Hset|].
  pose proof (on_survey_after svy self arr' Hon La) as Hon'.
  split; [exact Hon'|].
  rewrite (getitem_on_survey svy distinct consistent src rx Hsrc Hrx
             _ arr' Hon' eq_refl).
  do 2 f_equal. now apply (read_back svy src rx arr' arr0).
Qed.

(** Observed data are written once.  When the data of a receiver hold a
    number, [data[src, rx] = value] raises the exception that asks for a
    new object, whatever the values; and before any data were set,
    [data[src, rx]] itself fails, on the missing array. *)
Theorem data_refuses_overwrite (self : t) (src : Src) (rx : Rx)
        (a flat : list npfloat) :
  on_survey self svy -> In src (srcList svy) -> In rx (rxList src) ->
  length flat = rx_nD rx ->
  (__getitem__ self (key_of src rx) = Ok (self, a) -> has_number a ->
   __setitem__ self (key_of src rx) (NdArray flat)
   = Raise (Exception
       "Observed data cannot be overwritten. Create a new Data object or a SyntheticData object instead"))
  /\ (dobs self = None ->
      __getitem__ self (key_of src rx)
      = Raise (TypeError "'NoneType' object is not subscriptable")).
Proof.
  intros Hon Hsrc Hrx Hf. split; [|now apply getitem_unset].
  intros Hget Hnum. destruct (dobs self) as [arr|] eqn:Hd.
  - rewrite (getitem_on_survey svy distinct consistent src rx Hsrc Hrx
               self arr Hon Hd) in Hget.
    inversion Hget as [E].
    apply (setitem_refused self src rx arr flat); try assumption.
    rewrite E. now apply has_number_not_all_nan.
  - rewrite getitem_unset in Hget by assumption. discriminate.
Qed.

End DataSetGet.

Section SyntheticDataSet.

Import Data.

Variable svy : Survey.
Hypothesis distinct : distinct_objects svy.
Hypothesis consistent : consistent_nD svy.

(** [SyntheticData] can be overwritten.  On a survey as above,
    [data[src, rx] = value] on a [SyntheticData] object succeeds whatever
    the data of the receiver hold, and [data[src, rx]] then returns the
    values. *)
Theorem synthetic_data_overwrites (self : t) (src : Src) (rx : Rx)
        (flat : list npfloat) :
  on_survey self svy -> In src (srcList svy) -> In rx (rxList src) ->
  length flat = rx_nD rx ->
  exists self',
    SyntheticData__setitem__ self (key_of src rx) (NdArray flat) = Ok self'
    /\ on_survey self' svy
    /\ __getitem__ self' (key_of src rx) = Ok (self', flat).
Proof.
  intros Hon Hsrc Hrx Hf. pose proof Hon as (Hs & _ & Hl).
  destruct (dict_on_survey svy distinct self Hon) as [Hdd He].
  set (arr0 := match dobs self with
               | Some arr => arr
               | None => repeat NaN (survey_nD svy)
               end).
  assert (L0 : length arr0 = survey_nD svy).
  { subst arr0. destruct (dobs self); [exact Hl|apply repeat_length]. }
  destruct (put_seq arr0 flat
              (src_offset (srcList svy) src + rx_offset (rxList src) rx)
              (rx_nD rx) Hf) as (arr' & Hp & La & Hn).
  { rewrite L0. now apply range_in_survey. }
  assert (La' : length arr' = survey_nD svy) by congruence.
  pose proof (on_survey_after svy self arr' Hon La') as Hon'.
  exists {| dobs := Some arr';
            standard_deviation := standard_deviation self;
            noise_floor := noise_floor self;
            survey := survey self;
            _data_dict := _data_dict self |}.
  split; [|split; [exact Hon'|]].
  - unfold SyntheticData__setitem__.
    rewrite (ensureCorrectKey_tuple self svy src rx Hs Hsrc Hrx).
    cbn [bind fst snd]. rewrite Hf, Nat.eqb_refl. cbn [assert bind].
    rewrite Hdd. cbn [bind].
    rewrite inds_of_ranges by assumption. cbn [bind].
    unfold survey_of. rewrite Hs. subst arr0.
    destruct (dobs self); cbn [bind]; rewrite Hp; reflexivity.
  - rewrite (getitem_on_survey svy distinct consistent src rx Hsrc Hrx
               _ arr' Hon' eq_refl).
    do 2 f_equal. now apply (read_back svy src rx arr' arr0).
Qed.

End SyntheticDataSet.

Section DataFrame.

Import Data.

Variable svy : Survey.
Hypothesis distinct : distinct_objects svy.
Hypothesis consistent : consistent_nD svy.

Lemma ranges_disjoint (src src' : Src) (rx rx' : Rx) :
  In src (srcList svy) -> In rx (rxList src) ->
  In src' (srcList svy) -> In rx' (rxList src') ->
  (src, rx) <> (src', rx') ->
  let off := (src_offset (srcList svy) src + rx_offset (rxList src) rx)%nat in
  let off' :=
    (src_offset (srcList svy) src' + rx_offset (rxList src') rx')%nat in
  (off + rx_nD rx <= off')%nat \/ (off' + rx_nD rx' <= off)%nat.
Proof.
  intros Hs Hr Hs' Hr' Hne off off'. subst off off'.
  pose proof (rx_offset_bound _ _ Hr). pose proof (rx_offset_bound _ _ Hr').
  destruct (Src_eq_dec src src') as [<-|Hsne].
  - assert (Hrne : rx <> rx') by congruence.
    destruct (rx_offset_disjoint _ _ _ Hr Hr' Hrne); [left|right]; lia.
  - destruct (src_offset_disjoint _ _ _ Hs Hs' Hsne); [left|right]; lia.
Qed.

Lemma setitem_inversion (self self' : t) (src : Src) (rx : Rx)
      (flat : list npfloat) :
  on_survey self svy -> In src (srcList svy) -> In rx (rxList src) ->
  __setitem__ self (key_of src rx) (NdArray flat) = Ok self' ->
  exists arr',
    self' = {| dobs := Some arr';
               standard_deviation := standard_deviation self;
               noise_floor := noise_floor self;
               survey := survey self;
               _data_dict := _data_dict self |}
    /\ length arr' = survey_nD svy
    /\ forall j,
         nth j arr' NaN
         = if ((src_offset (srcList svy) src + rx_offset (rxList src) rx
                <=? j)
               && (j <? src_offset (srcList svy) src
                        + rx_offset (rxList src) rx + rx_nD rx))%nat
           then nth (j - (src_offset (srcList svy) src
                          + rx_offset (rxList src) rx)) flat NaN
           else nth j match dobs self with
                      | Some arr => arr
                      | None => repeat NaN (survey_nD svy)
                      end NaN.
Proof.
  intros Hon Hsrc Hrx Hset. pose proof Hon as (Hs & _).
  destruct (Nat.eq_dec (length flat) (rx_nD rx)) as [Hf|Hf].
  - set (arr0 := match dobs self with
                 | Some arr => arr
                 | None => repeat NaN (survey_nD svy)
                 end).
    assert (H0 : match dobs self with
                 | None => arr0 = repeat NaN (survey_nD svy)
                 | Some arr =>
                     arr0 = arr
                     /\ forallb isnan
                          (map (fun i => nth i arr NaN)
                               (seq (src_offset (srcList svy) src
                                     + rx_offset (rxList src) rx)
                                    (rx_nD rx))) = true
                 end).
    { subst arr0. destruct (dobs self) as [arr|] eqn:Hd; [|reflexivity].
      split; [reflexivity|].
      destruct (forallb isnan _) eqn:E; [reflexivity|].
      rewrite (setitem_refused svy distinct consistent self src rx arr flat)
        in Hset by assumption.
      discriminate. }
    destruct (setitem_on_survey svy distinct consistent src rx Hsrc Hrx
                self flat arr0 Hon Hf H0) as (arr' & Hset' & La & Hn).
    exists arr'. rewrite Hset' in Hset. inversion Hset. auto.
  - exfalso. unfold __setitem__, _set_data_properties in Hset.
    rewrite (ensureCorrectKey_tuple self svy src rx Hs Hsrc Hrx) in Hset.
    cbn [bind fst snd] in Hset.
    rewrite (proj2 (Nat.eqb_neq _ _) Hf) in Hset. discriminate.
Qed.

Lemma map_nan (l : list nat) (n : nat) :
  map (fun i => nth i (repeat NaN n) NaN) l = repeat NaN (length l).
Proof.
  induction l as [|i l IH]; cbn [map length repeat]; [reflexivity|].
  rewrite IH. f_equal. clear. revert i.
  induction n as [|n IH]; intros [|i]; cbn; auto.
Qed.

(** Setting the data of one receiver leaves the others alone.  After a
    successful [data[src, rx] = value], the data of every other receiver of
    the survey (another receiver of the source, or any receiver of another
    source) read as before; when no data had been set at all they read as
    [nan]. *)
Theorem data_set_keeps_other_receivers (self self' : t) (src src' : Src)
        (rx rx' : Rx) (flat : list npfloat) :
  on_survey self svy ->
  In src (srcList svy) -> In rx (rxList src) ->
  In src' (srcList svy) -> In rx' (rxList src') ->
  (src, rx) <> (src', rx') ->
  __setitem__ self (key_of src rx) (NdArray flat) = Ok self' ->
  (forall a, __getitem__ self (key_of src' rx') = Ok (self, a) ->
             __getitem__ self' (key_of src' rx') = Ok (self', a))
  /\ (dobs self = None ->
      __getitem__ self' (key_of src' rx')
      = Ok (self', repeat NaN (rx_nD rx'))).
Proof.
  intros Hon Hs Hr Hs' Hr' Hne Hset.
  destruct (setitem_inversion self self' src rx flat Hon Hs Hr Hset)
    as (arr' & -> & La & Hn).
  pose proof (on_survey_after svy self arr' Hon La) as Hon'.
  pose proof (ranges_disjoint src src' rx rx' Hs Hr Hs' Hr' Hne) as Hdis.
  cbv zeta in Hdis.
  rewrite (getitem_on_survey svy distinct consistent src' rx' Hs' Hr'
             _ arr' Hon' eq_refl).
  assert (Hkeep : forall i,
            In i (seq (src_offset (srcList svy) src'
                       + rx_offset (rxList src') rx') (rx_nD rx')) ->
            nth i arr' NaN
            = nth i match dobs self with
                    | Some arr => arr
                    | None => repeat NaN (survey_nD svy)
                    end NaN).
  { intros i Hi. apply in_seq in Hi. rewrite Hn.
    destruct (Nat.leb_spec
                (src_offset (srcList svy) src + rx_offset (rxList src) rx) i),
      (Nat.ltb_spec i (src_offset (srcList svy) src
                       + rx_offset (rxList src) rx + rx_nD rx));
      cbn [andb]; try reflexivity. lia. }
  split.
  - intros a Hget. destruct (dobs self) as [arr|] eqn:Hd.
    + rewrite (getitem_on_survey svy distinct consistent src' rx' Hs' Hr'
                 self arr Hon Hd) in Hget.
      inversion Hget as [E]. do 2 f_equal. now apply map_ext_in.
    + rewrite (getitem_unset svy distinct self src' rx') in Hget
        by assumption.
      discriminate.
  - intros Hd. rewrite Hd in Hkeep. do 2 f_equal.
    rewrite (map_ext_in _ _ _ Hkeep), map_nan. now rewrite length_seq.
Qed.

End DataFrame.

Section DataOfASource.

Import Data.

Variable svy : Survey.
Hypothesis distinct : distinct_objects svy.
Hypothesis consistent : consistent_nD svy.

Lemma comprehension_ok {A B : Type} (g : A -> result B) (h : A -> B)
      (l : list A) :
  (forall x, In x l -> g x = Ok (h x)) -> comprehension g l = Ok (map h l).
Proof.
  induction l as [|x l IH]; intros H; cbn [comprehension map];
    [reflexivity|].
  rewrite (H x) by (now left). cbn [bind].
  rewrite IH by (intros y Hy; apply H; now right). reflexivity.
Qed.

Lemma Forall2_map_r {A B : Type} (P : A -> B -> Prop) (h : A -> B)
      (l : list A) :
  (forall x, In x l -> P x (h x)) -> Forall2 P l (map h l).
Proof.
  induction l as [|x l IH]; intros H; cbn [map]; constructor.
  - apply H. now left.
  - apply IH. intros y Hy. apply H. now right.
Qed.

(** The data of a source.  On a survey as above and once data are there,
    [data[src]] for a source of the survey returns the data of its
    receivers, as [data[src, rx]] returns them, one after the other in the
    order of [src.rxList]: a block of the data vector, as long as the
    receivers have data together.  For a source without receivers it
    raises the [ValueError] of [np.concatenate]. *)
Theorem data_of_a_source (self : t) (src : Src) (arr : list npfloat) :
  on_survey self svy -> In src (srcList svy) -> dobs self = Some arr ->
  (rxList src = [] ->
   __getitem__ self (KeySrc src)
   = Raise (ValueError "need at least one array to concatenate"))
  /\ (rxList src <> [] ->
      exists parts,
        Forall2 (fun rx part =>
                   __getitem__ self (key_of src rx) = Ok (self, part))
                (rxList src) parts
        /\ __getitem__ self (KeySrc src) = Ok (self, concat parts)
        /\ concat parts
           = map (fun i => nth i arr NaN)
                 (seq (src_offset (srcList svy) src)
                      (rx_total (rxList src)))).
Proof.
  intros Hon Hsrc Hd. pose proof Hon as (Hs & _ & Hl). rewrite Hd in Hl.
  destruct (dict_on_survey svy distinct self Hon) as [Hdd He].
  assert (Hk : _ensureCorrectKey self (KeySrc src) = Ok (src, None)).
  { unfold _ensureCorrectKey, survey_of. rewrite Hs. cbn [bind].
    now rewrite (proj2 (contains_obj_true Src_eq_dec _ _) Hsrc). }
  set (part := fun rx =>
         map (fun i => nth i arr NaN)
             (seq (src_offset (srcList svy) src + rx_offset (rxList src) rx)
                  (rx_nD rx))).
  assert (Hc : comprehension
                 (fun rx => inds <~ inds_of (src_ranges (srcList svy) 0)
                                      src rx ;;
                            getitem_arr (dobs self) inds) (rxList src)
               = Ok (map part (rxList src))).
  { apply comprehension_ok. intros rx Hrx.
    rewrite inds_of_ranges by assumption. cbn [bind]. rewrite Hd.
    unfold getitem_arr, take.
    rewrite forallb_seq_bound
      by (rewrite Hl; now apply range_in_survey).
    reflexivity. }
  assert (Hself : {| dobs := dobs self;
                     standard_deviation := standard_deviation self;
                     noise_floor := noise_floor self;
                     survey := survey self;
                     _data_dict := Some (src_ranges (srcList svy) 0) |}
                  = self) by (now apply same_object).
  unfold __getitem__ at 1 3, _get_data_properties.
  rewrite Hk. cbn [bind fst snd]. rewrite He. cbn [bind]. rewrite Hc.
  cbn [bind]. split.
  - intros E. now rewrite E.
  - intros Hne. exists (map part (rxList src)). split; [|split].
    + apply Forall2_map_r. intros rx Hrx.
      now apply (getitem_on_survey svy distinct consistent src rx).
    + rewrite Hself. destruct (rxList src); [congruence|reflexivity].
    + subst part.
      rewrite <- (map_map (fun rx => seq (src_offset (srcList svy) src
                                          + rx_offset (rxList src) rx)
                                         (rx_nD rx))
                          (map (fun i => nth i arr NaN))).
      rewrite <- concat_map. f_equal.
      pose proof (rx_ranges_concat [] (rxList src)
                    (src_offset (srcList svy) src)
                    (proj2 distinct src Hsrc)) as Hcat.
      cbn [app rx_total fold_right] in Hcat.
      now rewrite Nat.add_0_r in Hcat.
Qed.

End DataOfASource.

Section DataChecks.

Import Data.

(** The checks of [__setitem__], in their order.  A key
    [_ensureCorrectKey] refuses fails as it does there, on [Data] and on
    [SyntheticData], and so does [__getitem__]; then a key that is a source
    alone, a value that is no array and an array that has not [rx.nD] values
    fail an assertion each, before anything is read or written. *)
Theorem setitem_checks_arguments (self : t) (svy : Survey) (k : key)
        (v : value) :
  survey self = Some svy ->
  (forall e, _ensureCorrectKey self k = Raise e ->
     __setitem__ self k v = Raise e
     /\ SyntheticData__setitem__ self k v = Raise e
     /\ __getitem__ self k = Raise e)
  /\ (forall src, k = KeySrc src -> In src (srcList svy) ->
        __setitem__ self k v
        = Raise (AssertionError "set data using [Src, Rx]")
        /\ SyntheticData__setitem__ self k v
           = Raise (AssertionError "set data using [Src, Rx]"))
  /\ (forall src rx, k = key_of src rx ->
        In src (srcList svy) -> In rx (rxList src) ->
        match v with
        | NotArray =>
            __setitem__ self k v
            = Raise (AssertionError "value must by ndarray")
            /\ SyntheticData__setitem__ self k v
               = Raise (AssertionError "value must by ndarray")
        | NdArray flat =>
            length flat <> rx_nD rx ->
            __setitem__ self k v
            = Raise (AssertionError
                "value must have the same number of data as the source.")
            /\ SyntheticData__setitem__ self k v
               = Raise (AssertionError
                   "value must have the same number of data as the source.")
        end).
Proof.
  intros Hs. split; [|split].
  - intros e He.
    unfold __setitem__, _set_data_properties, SyntheticData__setitem__,
      __getitem__, _get_data_properties.
    rewrite He. repeat split.
  - intros src -> Hin.
    assert (Hk : _ensureCorrectKey self (KeySrc src) = Ok (src, None)).
    { unfold _ensureCorrectKey, survey_of. rewrite Hs. cbn [bind].
      now rewrite (proj2 (contains_obj_true Src_eq_dec _ _) Hin). }
    unfold __setitem__, _set_data_properties, SyntheticData__setitem__.
    rewrite Hk. split; reflexivity.
  - intros src rx -> Hsrc Hrx.
    unfold __setitem__, _set_data_properties, SyntheticData__setitem__.
    rewrite (ensureCorrectKey_tuple self svy src rx Hs Hsrc Hrx).
    cbn [bind fst snd]. destruct v as [flat|]; [|split; reflexivity].
    intros Hne. rewrite (proj2 (Nat.eqb_neq _ _) Hne). split; reflexivity.
Qed.

End DataChecks.

Section DataExamples.

Import Data.

Lemma example_distinct : distinct_objects example_data_survey.
Proof.
  split.
  - repeat constructor; cbn; intuition discriminate.
  - intros src [<-|[<-|[]]]; repeat constructor; cbn;
      intuition discriminate.
Qed.

Lemma example_consistent : consistent_nD example_data_survey.
Proof. reflexivity. Qed.

Lemma example_on_survey (d : option (list npfloat)) :
  match d with Some arr => length arr = 7%nat | None => True end ->
  on_survey (example_data d) example_data_survey.
Proof.
  intros H. split; [reflexivity|]. split; [|exact H].
  eexists. split; [apply create_data_dict_value, example_distinct|].
  reflexivity.
Qed.

Lemma src_a_in : In src_a (srcList example_data_survey).
Proof. now left. Qed.

Lemma src_b_in : In src_b (srcList example_data_survey).
Proof. right. now left. Qed.

Lemma rx_b_in : In rx_b (rxList src_a).
Proof. right. now left. Qed.

Lemma rx_a_in : In rx_a (rxList src_a).
Proof. now left. Qed.

Lemma rx_a_in_b : In rx_a (rxList src_b).
Proof. now left. Qed.

Lemma ensureCorrectKey_accepts_witness :
  _ensureCorrectKey (example_data None) (key_of src_a rx_b)
  = Ok (src_a, Some rx_b)
  /\ exists msg,
       _ensureCorrectKey (example_data None) (KeyTuple [OArray; ORx rx_a])
       = Raise (ValueError msg).
Proof.
  split.
  - apply (proj2 (proj1 (ensureCorrectKey_accepts (example_data None)
                           example_data_survey (key_of src_a rx_b) eq_refl)
                        src_a (Some rx_b))).
    split; [exact src_a_in|]. split; [exact rx_b_in|reflexivity].
  - apply (proj2 (proj1 (proj2 (ensureCorrectKey_accepts (example_data None)
                                  example_data_survey
                                  (KeyTuple [OArray; ORx rx_a]) eq_refl)))).
    exists OArray, (ORx rx_a). split; [reflexivity|].
    left. split; [reflexivity|discriminate].
Defined.

Lemma data_set_then_get_witness :
  exists self',
    __setitem__ (example_data None) (key_of src_a rx_b)
                (NdArray [Fin 1; Fin 2; Fin 3]) = Ok self'
    /\ on_survey self' example_data_survey
    /\ __getitem__ self' (key_of src_a rx_b)
       = Ok (self', [Fin 1; Fin 2; Fin 3]).
Proof.
  apply (data_set_then_get example_data_survey example_distinct
           example_consistent (example_data None) src_a rx_b).
  - now apply example_on_survey.
  - exact src_a_in.
  - exact rx_b_in.
  - reflexivity.
  - now left.
Defined.

Lemma example_read :
  __getitem__ (example_data (Some example_dobs)) (key_of src_a rx_b)
  = Ok (example_data (Some example_dobs), [Fin 1; Fin 2; Fin 3]).
Proof.
  rewrite (getitem_on_survey example_data_survey example_distinct
             example_consistent src_a rx_b src_a_in rx_b_in
             _ example_dobs (example_on_survey (Some example_dobs) eq_refl)
             eq_refl).
  reflexivity.
Qed.

Lemma data_refuses_overwrite_witness :
  __setitem__ (example_data (Some example_dobs)) (key_of src_a rx_b)
              (NdArray [Fin 4; Fin 5; Fin 6])
  = Raise (Exception
      "Observed data cannot be overwritten. Create a new Data object or a SyntheticData object instead").
Proof.
  apply (proj1 (data_refuses_overwrite example_data_survey example_distinct
                  example_consistent (example_data (Some example_dobs))
                  src_a rx_b [Fin 1; Fin 2; Fin 3] [Fin 4; Fin 5; Fin 6]
                  (example_on_survey (Some example_dobs) eq_refl)
                  src_a_in rx_b_in eq_refl)).
  - exact example_read.
  - exists 1. now left.
Defined.

Lemma synthetic_data_overwrites_witness :
  exists self',
    SyntheticData__setitem__ (example_data (Some example_dobs))
      (key_of src_a rx_b) (NdArray [Fin 4; Fin 5; Fin 6]) = Ok self'
    /\ on_survey self' example_data_survey
    /\ __getitem__ self' (key_of src_a rx_b)
       = Ok (self', [Fin 4; Fin 5; Fin 6]).
Proof.
  apply (synthetic_data_overwrites example_data_survey example_distinct
           example_consistent (example_data (Some example_dobs)) src_a rx_b).
  - now apply example_on_survey.
  - exact src_a_in.
  - exact rx_b_in.
  - reflexivity.
Defined.

Lemma example_set_rx_a :
  exists self',
    __setitem__ (example_data (Some example_dobs)) (key_of src_a rx_a)
                (NdArray [Fin 8; Fin 9]) = Ok self'.
Proof.
  destruct (setitem_on_survey example_data_survey example_distinct
              example_consistent src_a rx_a src_a_in rx_a_in
              (example_data (Some example_dobs)) [Fin 8; Fin 9] example_dobs
              (example_on_survey (Some example_dobs) eq_refl) eq_refl)
    as (arr' & H & _).
  - split; reflexivity.
  - eexists. exact H.
Qed.

Lemma data_set_keeps_other_receivers_witness :
  exists self',
    __setitem__ (example_data (Some example_dobs)) (key_of src_a rx_a)
                (NdArray [Fin 8; Fin 9]) = Ok self'
    /\ __getitem__ self' (key_of src_a rx_b)
       = Ok (self', [Fin 1; Fin 2; Fin 3]).
Proof.
  destruct example_set_rx_a as (self' & Hset). exists self'.
  split; [exact Hset|].
  apply (proj1 (data_set_keeps_other_receivers example_data_survey
                  example_distinct example_consistent
                  (example_data (Some example_dobs)) self' src_a src_a
                  rx_a rx_b [Fin 8; Fin 9]
                  (example_on_survey (Some example_dobs) eq_refl)
                  src_a_in rx_a_in src_a_in rx_b_in
                  ltac:(discriminate) Hset)).
  exact example_read.
Defined.

Lemma data_of_a_source_witness :
  exists parts,
    __getitem__ (example_data (Some example_dobs)) (KeySrc src_a)
    = Ok (example_data (Some example_dobs), concat parts)
    /\ concat parts = [NaN; NaN; Fin 1; Fin 2; Fin 3].
Proof.
  destruct (proj2 (data_of_a_source example_data_survey example_distinct
                     example_consistent (example_data (Some example_dobs))
                     src_a example_dobs
                     (example_on_survey (Some example_dobs) eq_refl)
                     src_a_in eq_refl))
    as (parts & _ & Hget & Hcat).
  - discriminate.
  - exists parts. split; [exact Hget|exact Hcat].
Defined.

Lemma setitem_checks_arguments_witness :
  __setitem__ (example_data None) (KeySrc src_a) NotArray
  = Raise (AssertionError "set data using [Src, Rx]").
Proof.
  exact (proj1 (proj1 (proj2 (setitem_checks_arguments (example_data None)
                                example_data_survey (KeySrc src_a) NotArray
                                eq_refl))
                      src_a eq_refl src_a_in)).
Defined.

End DataExamples.

(** * The curl of the mesh *)

Section CurlFacts.

Import Cyl1DMesh.

Lemma length_concat_repeat {A : Type} (l : list A) (k : nat) :
  length (concat (repeat l k)) = (k * length l)%nat.
Proof.
  induction k as [|k IH]; cbn [repeat concat]; [reflexivity|].
  rewrite length_app, IH. reflexivity.
Qed.

Lemma nth_concat_repeat {A : Type} (l : list A) (k a b : nat) (d : A) :
  (a < k)%nat -> (b < length l)%nat ->
  nth (a * length l + b) (concat (repeat l k)) d = nth b l d.
Proof.
  revert a. induction k as [|k IH]; intros a Ha Hb; [lia|].
  cbn [repeat concat]. destruct a as [|a].
  - cbn [Nat.mul Nat.add]. now rewrite app_nth1.
  - rewrite app_nth2 by (cbn [Nat.mul]; lia).
    replace (S a * length l + b - length l)%nat
      with (a * length l + b)%nat by (cbn [Nat.mul]; lia).
    apply IH; lia.
Qed.

Lemma nth_kron1 (x y : list R) (a b : nat) :
  (a < length x)%nat -> (b < length y)%nat ->
  nth (a * length y + b) (kron1 x y) 0 = nth a x 0 * nth b y 0.
Proof.
  unfold kron1. revert a. induction x as [|x0 x IH]; intros a Ha Hb;
    [simpl in Ha; lia|].
  cbn [flat_map]. destruct a as [|a].
  - cbn [Nat.mul Nat.add nth]. rewrite app_nth1 by (now rewrite length_map).
    now rewrite (nth_map_lt (Rmult x0) y 0 0).
  - rewrite app_nth2 by (rewrite length_map; cbn [Nat.mul]; lia).
    rewrite length_map.
    replace (S a * length y + b - length y)%nat
      with (a * length y + b)%nat by (cbn [Nat.mul]; lia).
    cbn [nth]. apply IH; [simpl in Ha; lia|assumption].
Qed.

Lemma length_area (m : t) : length (area m) = nF m.
Proof.
  unfold area. rewrite length_app, !length_kron1, length_map, length_annulus.
  unfold ones_like, ones. rewrite repeat_length.
  destruct (mesh_array_sizes_aux m) as [-> ->].
  unfold nF, nFr, nFz, nCz, nCr, nNr. lia.
Qed.

Lemma nth_removelast {A : Type} (l : list A) (k : nat) (d : A) :
  (S k < length l)%nat -> nth k (removelast l) d = nth k l d.
Proof.
  revert k. induction l as [|x l IH]; intros k Hk; [simpl in Hk; lia|].
  destruct l as [|y l]; [simpl in Hk; lia|].
  change (removelast (x :: y :: l)) with (x :: removelast (y :: l)).
  destruct k as [|k]; [reflexivity|]. cbn [nth]. apply IH. simpl in *. lia.
Qed.

(** The area of the z-face at radial index [jr]. *)
Lemma nth_annulus (m : t) (jr : nat) :
  (jr < nNr m)%nat ->
  nth jr (annulus m) 0
  = PI * (nth jr (vectorNr m) 0 ^ 2
          - match jr with
            | O => 0
            | S k => nth k (vectorNr m) 0
            end ^ 2).
Proof.
  intros Hj. destruct (mesh_array_sizes_aux m) as [Lr _]. unfold annulus.
  rewrite (nth_zip_with _ _ _ 0 0).
  - destruct jr as [|k]; [reflexivity|]. cbn [nth].
    now rewrite nth_removelast by lia.
  - lia.
  - cbn [length]. rewrite removelast_firstn_len, length_firstn. lia.
Qed.

(** A row of a diagonal matrix against a column. *)
Lemma big_sum_diag_l (d : list R) (g : nat -> R) (i n : nat) :
  (i < n)%nat ->
  big_sum (fun k => (if (i =? k)%nat then nth i d 0 else 0) * g k) n
  = nth i d 0 * g i.
Proof.
  intros Hi. rewrite (big_sum_single _ i).
  - rewrite (proj2 (Nat.ltb_lt i n) Hi), Nat.eqb_refl. reflexivity.
  - intros k _ Hk. rewrite (proj2 (Nat.eqb_neq i k)) by congruence. lra.
Qed.

Lemma big_sum_diag_r (d : list R) (g : nat -> R) (j n : nat) :
  (j < n)%nat ->
  big_sum (fun k => g k * (if (k =? j)%nat then nth k d 0 else 0)) n
  = g j * nth j d 0.
Proof.
  intros Hj. rewrite (big_sum_single _ j).
  - rewrite (proj2 (Nat.ltb_lt j n) Hj), Nat.eqb_refl. reflexivity.
  - intros k _ Hk. rewrite (proj2 (Nat.eqb_neq k j)) by congruence. lra.
Qed.

Lemma nth_minus_ones (n b : nat) :
  (b < n)%nat -> nth b (map (fun x => x * -1) (ones n)) 0 = -1.
Proof.
  intros Hb. rewrite (nth_map_lt _ _ 0 0) by (unfold ones; now rewrite repeat_length).
  unfold ones. rewrite nth_repeat_lt by assumption. lra.
Qed.

Lemma nth_plus_ones (n b : nat) :
  (b < n)%nat -> nth b (map (fun x => x * 1) (ones n)) 0 = 1.
Proof.
  intros Hb. rewrite (nth_map_lt _ _ 0 0) by (unfold ones; now rewrite repeat_length).
  unfold ones. rewrite nth_repeat_lt by assumption. lra.
Qed.

End CurlFacts.

Section CurlRows.

Import Cyl1DMesh.

(** A row of the radial difference: the value at the node minus the value
    at the node inside it, and the value alone on the innermost row. *)
Lemma dr_row (n jr : nat) (x : nat -> R) :
  (jr < n)%nat ->
  big_sum (fun b => entry (spdiags (minus_plus_ones (n + 1))
                                   [(-1)%Z; 0%Z] n n) jr b * x b) n
  = x jr - match jr with
           | O => 0
           | S k => x k
           end.
Proof.
  intros Hj.
  rewrite (big_sum_ext _ (fun b =>
      (if Z.eqb (Z.of_nat b - Z.of_nat jr) (-1) then - x b else 0)
      + (if Z.eqb (Z.of_nat b - Z.of_nat jr) 0 then x b else 0))).
  2:{ intros b Hb.
      cbn [spdiags entry minus_plus_ones combine map np_sum fold_right
           fst snd].
      rewrite nth_minus_ones, nth_plus_ones by lia.
      destruct (Z.eqb _ (-1)), (Z.eqb _ 0); lra. }
  rewrite big_sum_plus.
  rewrite (big_sum_single _ (jr - 1)%nat), (big_sum_single _ jr).
  - rewrite (proj2 (Nat.ltb_lt (jr - 1) n)) by lia.
    rewrite (proj2 (Nat.ltb_lt jr n)) by lia.
    rewrite (proj2 (Z.eqb_eq (Z.of_nat jr - Z.of_nat jr) 0)) by lia.
    destruct jr as [|k].
    + rewrite (proj2 (Z.eqb_neq _ _)) by (cbn; lia). lra.
    + rewrite (proj2 (Z.eqb_eq _ _)) by lia.
      replace (S k - 1)%nat with k by lia. lra.
  - intros b _ Hb. now rewrite (proj2 (Z.eqb_neq _ _)) by lia.
  - intros b _ Hb. now rewrite (proj2 (Z.eqb_neq _ _)) by lia.
Qed.

(** A row of the vertical difference: the value at the node above minus the
    value at the node below. *)
Lemma dz_row (n jz : nat) (x : nat -> R) :
  (jz < n)%nat ->
  big_sum (fun a => entry (spdiags (minus_plus_ones (n + 1))
                                   [0%Z; 1%Z] n (n + 1)) jz a * x a) (n + 1)
  = x (jz + 1)%nat - x jz.
Proof.
  intros Hj.
  rewrite (big_sum_ext _ (fun a =>
      (if Z.eqb (Z.of_nat a - Z.of_nat jz) 0 then - x a else 0)
      + (if Z.eqb (Z.of_nat a - Z.of_nat jz) 1 then x a else 0))).
  2:{ intros a Ha.
      cbn [spdiags entry minus_plus_ones combine map np_sum fold_right
           fst snd].
      rewrite nth_minus_ones, nth_plus_ones by lia.
      destruct (Z.eqb _ 0), (Z.eqb _ 1); lra. }
  rewrite big_sum_plus.
  rewrite (big_sum_single _ jz), (big_sum_single _ (jz + 1)%nat).
  - rewrite (proj2 (Nat.ltb_lt jz (n + 1))) by lia.
    rewrite (proj2 (Nat.ltb_lt (jz + 1) (n + 1))) by lia.
    rewrite (proj2 (Z.eqb_eq (Z.of_nat jz - Z.of_nat jz) 0)) by lia.
    rewrite (proj2 (Z.eqb_eq (Z.of_nat (jz + 1) - Z.of_nat jz) 1)) by lia.
    lra.
  - intros a _ Ha. now rewrite (proj2 (Z.eqb_neq _ _)) by lia.
  - intros a _ Ha. now rewrite (proj2 (Z.eqb_neq _ _)) by lia.
Qed.

(** A row of [kron (eye k) B] and of [kron A (eye n)] against a vector laid
    out with the second index running fastest. *)
Lemma kron_eye_l_row (k : nat) (B : spmatrix) (x : nat -> R) (i : nat) :
  (i < k * nrows B)%nat ->
  big_sum (fun j => entry (kron (eye k) B) i j * x j)
          (ncols (kron (eye k) B))
  = big_sum (fun b => entry B (i mod nrows B) b
                      * x (i / nrows B * ncols B + b)%nat) (ncols B).
Proof.
  intros Hi. cbn [kron ncols nrows eye entry]. rewrite big_sum_prod.
  assert (Hq : (i / nrows B < k)%nat)
    by (apply Nat.Div0.div_lt_upper_bound; lia).
  rewrite (big_sum_single _ (i / nrows B)%nat).
  - rewrite (proj2 (Nat.ltb_lt _ _) Hq). apply big_sum_ext. intros b Hb.
    destruct (div_mod_pair (i / nrows B) b (ncols B) Hb) as [-> ->].
    rewrite Nat.eqb_refl. lra.
  - intros a _ Ha.
    transitivity (big_sum (fun _ => 0) (ncols B)); [|apply big_sum_zero].
    apply big_sum_ext. intros b Hb.
    destruct (div_mod_pair a b (ncols B) Hb) as [-> ->].
    rewrite (proj2 (Nat.eqb_neq _ _)) by congruence. lra.
Qed.

Lemma kron_eye_r_row (A : spmatrix) (n : nat) (x : nat -> R) (i : nat) :
  (0 < n)%nat ->
  big_sum (fun j => entry (kron A (eye n)) i j * x j)
          (ncols (kron A (eye n)))
  = big_sum (fun a => entry A (i / n) a * x (a * n + i mod n)%nat) (ncols A).
Proof.
  intros Hn. cbn [kron ncols nrows eye entry]. rewrite big_sum_prod.
  apply big_sum_ext. intros a Ha.
  rewrite (big_sum_single _ (i mod n)%nat).
  - rewrite (proj2 (Nat.ltb_lt _ _)) by (apply Nat.mod_upper_bound; lia).
    destruct (div_mod_pair a (i mod n) n) as [-> ->];
      [apply Nat.mod_upper_bound; lia|].
    rewrite Nat.eqb_refl. lra.
  - intros b Hb Hne.
    destruct (div_mod_pair a b n Hb) as [-> ->].
    rewrite (proj2 (Nat.eqb_neq _ _)) by congruence. lra.
Qed.

End CurlRows.

Section CurlOfRotation.

Import Cyl1DMesh.

Variable m : t.
Variable ndgrid : list (list R) -> list (list R).
Hypothesis r_first : r_fastest ndgrid.

Lemma edge_value :
  edge m ndgrid
  = map (fun r => 2 * PI * r) (concat (repeat (vectorNr m) (nNz m))).
Proof.
  unfold edge, gridN.
  rewrite <- (map_map (fun row => nth 0 row 0) (fun r => 2 * PI * r)).
  rewrite r_first. now rewrite (proj2 (mesh_array_sizes_aux m)).
Qed.

Lemma length_edge : length (edge m ndgrid) = nE m.
Proof.
  rewrite edge_value, length_map, length_concat_repeat.
  rewrite (proj1 (mesh_array_sizes_aux m)). unfold nE, nN. lia.
Qed.

Lemma nth_edge (jz jr : nat) :
  (jz < nNz m)%nat -> (jr < nCr m)%nat ->
  nth (jz * nCr m + jr) (edge m ndgrid) 0
  = 2 * PI * nth jr (vectorNr m) 0.
Proof.
  intros Hz Hr. pose proof (proj1 (mesh_array_sizes_aux m)) as L.
  unfold nNr in L. fold (nCr m) in L.
  rewrite edge_value.
  rewrite (nth_map_lt _ _ 0 0)
    by (rewrite length_concat_repeat, L; nia).
  rewrite <- L at 1. now rewrite nth_concat_repeat by lia.
Qed.

Lemma nth_rigid_rotation (a : R) (jz jr : nat) :
  (jz < nNz m)%nat -> (jr < nCr m)%nat ->
  nth (jz * nCr m + jr) (rigid_rotation m a) 0
  = a * nth jr (vectorNr m) 0.
Proof.
  intros Hz Hr. pose proof (proj1 (mesh_array_sizes_aux m)) as L.
  unfold nNr in L. fold (nCr m) in L. unfold rigid_rotation.
  assert (L' : length (map (Rmult a) (vectorNr m)) = nCr m)
    by (now rewrite length_map).
  rewrite <- L' at 1. rewrite nth_concat_repeat by lia.
  now rewrite (nth_map_lt _ _ 0 0) by lia.
Qed.

Lemma length_rigid_rotation (a : R) :
  length (rigid_rotation m a) = nE m.
Proof.
  unfold rigid_rotation. rewrite length_concat_repeat, length_map.
  rewrite (proj1 (mesh_array_sizes_aux m)). unfold nE, nN. lia.
Qed.

(** The area of a z-face. *)
Lemma nth_area_z (jz jr : nat) :
  (jz < nNz m)%nat -> (jr < nCr m)%nat ->
  nth (nCz m * nCr m + (jz * nCr m + jr)) (area m) 0
  = nth jr (annulus m) 0.
Proof.
  intros Hz Hr. destruct (mesh_array_sizes_aux m) as [Lr Lz].
  pose proof (length_annulus m) as La.
  unfold nNr in Lr, La. fold (nCr m) in Lr, La.
  unfold area.
  rewrite app_nth2; rewrite length_kron1, length_map, Lr; fold (nCz m);
    [|lia].
  replace (nCz m * nCr m + (jz * nCr m + jr) - nCz m * nCr m)%nat
    with (jz * nCr m + jr)%nat by lia.
  rewrite <- La at 1. rewrite nth_kron1.
  - unfold ones_like, ones. rewrite nth_repeat_lt by lia. lra.
  - unfold ones_like, ones. rewrite repeat_length. lia.
  - lia.
Qed.

Lemma map_seq_constant_from {A : Type} (g : nat -> A) (x : A) (s n : nat) :
  (forall i, (s <= i < s + n)%nat -> g i = x) ->
  map g (seq s n) = repeat x n.
Proof.
  revert s. induction n as [|n IH]; intros s H; cbn [seq map repeat];
    [reflexivity|].
  rewrite (H s) by lia. f_equal. apply IH. intros i Hi. apply H. lia.
Qed.

(** A row of [edgeCurl] applied to a field: the row of the stacked
    differences applied to the circulations [edge * e], over the area of
    the face. *)
Lemma edgeCurl_rows :
  exists C,
    edgeCurl m ndgrid = Ok C
    /\ nrows C = nF m /\ ncols C = nE m
    /\ forall (e : list R) (i : nat),
         (i < nF m)%nat ->
         big_sum (fun j => entry C i j * nth j e 0) (nE m)
         = 1 / nth i (area m) 0
           * if (i <? nCz m * nCr m)%nat
             then - big_sum
                      (fun j =>
                         entry (kron (spdiags (minus_plus_ones (nCz m + 1))
                                              [0%Z; 1%Z] (nCz m) (nCz m + 1))
                                     (eye (nCr m))) i j
                         * (nth j (edge m ndgrid) 0 * nth j e 0))
                      (nE m)
             else big_sum
                    (fun j =>
                       entry (kron (eye (nNz m))
                                   (spdiags (minus_plus_ones (nCr m + 1))
                                            [(-1)%Z; 0%Z] (nCr m) (nCr m)))
                             (i - nCz m * nCr m) j
                       * (nth j (edge m ndgrid) 0 * nth j e 0))
                    (nE m).
Proof.
  assert (E1 : ((nCz m + 1) * nCr m = nE m)%nat)
    by (unfold nE, nN, nNr, nNz, nCr, nCz; lia).
  assert (E2 : (nCz m * nCr m + nNz m * nCr m = nF m)%nat)
    by (unfold nF, nFr, nFz, nNr, nNz, nCr, nCz; lia).
  unfold edgeCurl, vstack. cbn [kron neg ncols nrows eye spdiags].
  replace (nNz m * nCr m)%nat with ((nCz m + 1) * nCr m)%nat
    by (unfold nNz, nCz; reflexivity).
  rewrite Nat.eqb_refl. cbn [bind]. unfold matmul.
  cbn [diags nrows ncols]. rewrite length_map, length_area, length_edge.
  rewrite E1.
  replace (nCz m * nCr m + nE m)%nat with (nF m)
    by (rewrite <- E1, <- E2; unfold nNz, nCz; reflexivity).
  rewrite Nat.eqb_refl. cbn [bind ncols nrows]. rewrite Nat.eqb_refl.
  eexists. split; [reflexivity|]. cbn [nrows ncols entry].
  split; [reflexivity|]. split; [reflexivity|].
  intros e i Hi.
  rewrite (big_sum_ext _ (fun j =>
      nth i (map (fun a => 1 / a) (area m)) 0
      * ((if (i <? nCz m * nCr m)%nat
          then - entry (kron (spdiags (minus_plus_ones (nCz m + 1))
                                      [0%Z; 1%Z] (nCz m) (nCz m + 1))
                             (eye (nCr m))) i j
          else entry (kron (eye (nNz m))
                           (spdiags (minus_plus_ones (nCr m + 1))
                                    [(-1)%Z; 0%Z] (nCr m) (nCr m)))
                     (i - nCz m * nCr m) j)
         * (nth j (edge m ndgrid) 0 * nth j e 0)))).
  2:{ intros j Hj.
      rewrite (big_sum_diag_r (edge m ndgrid) _ j (nE m) Hj).
      rewrite (big_sum_diag_l (map (fun a => 1 / a) (area m)) _ i (nF m) Hi).
      cbn [entry neg]. destruct (i <? nCz m * nCr m)%nat; lra. }
  rewrite big_sum_scale_l.
  rewrite (nth_map_lt _ _ 0 0) by (now rewrite length_area).
  f_equal.
  destruct (i <? nCz m * nCr m)%nat; [|reflexivity].
  match goal with
  | |- _ = - big_sum ?G ?n => replace (- big_sum G n) with (-1 * big_sum G n)
      by lra
  end.
  rewrite <- big_sum_scale_l. apply big_sum_ext. intros; lra.
Qed.

(** The curl is exact on a rigid rotation.  With the grid points listed
    radius first, on a mesh with positive widths and at least one radial
    cell, [edgeCurl] is defined, has [nF] rows and [nE] columns, and applied
    to the edge field [a * r] of a rotation of rate [a] it gives 0 on every
    r-face and [2 * a] on every z-face, the innermost ones, where only one
    edge bounds the face, included. *)
Theorem edgeCurl_rigid_rotation (a : R) :
  valid m ->
  exists C c,
    edgeCurl m ndgrid = Ok C
    /\ nrows C = nF m /\ ncols C = nE m
    /\ matvec C (rigid_rotation m a) = Ok c
    /\ c = repeat 0 (nFr m) ++ repeat (2 * a) (nFz m).
Proof.
  intros (Hne & Hr & Hz).
  destruct edgeCurl_rows as (C & HC & Hrows & Hcols & Hrow).
  assert (Hn : (0 < nCr m)%nat).
  { unfold nCr. destruct (hr m); [congruence|simpl; lia]. }
  assert (E1 : ((nCz m + 1) * nCr m = nE m)%nat)
    by (unfold nE, nN, nNr, nNz, nCr, nCz; lia).
  assert (E3 : (nFr m = nCz m * nCr m)%nat)
    by (unfold nFr, nNr, nCr, nCz; lia).
  assert (E4 : (nFz m = nNz m * nCr m)%nat) by reflexivity.
  exists C. eexists. split; [exact HC|]. split; [exact Hrows|].
  split; [exact Hcols|].
  unfold matvec. rewrite length_rigid_rotation, Hcols, Nat.eqb_refl.
  split; [reflexivity|].
  rewrite Hrows. unfold nF. rewrite seq_app, map_app. f_equal.
  - apply map_seq_constant_from. intros i Hi.
    rewrite Hrow by (unfold nF; lia).
    rewrite (proj2 (Nat.ltb_lt i (nCz m * nCr m))) by lia.
    replace (nE m) with (ncols (kron (spdiags (minus_plus_ones (nCz m + 1))
                                             [0%Z; 1%Z] (nCz m) (nCz m + 1))
                                    (eye (nCr m))))
      by (cbn [kron ncols spdiags eye]; exact E1).
    rewrite (kron_eye_r_row _ _
               (fun j => nth j (edge m ndgrid) 0
                         * nth j (rigid_rotation m a) 0) i Hn).
    cbn [ncols spdiags].
    assert (Hq : (i / nCr m < nCz m)%nat)
      by (apply Nat.Div0.div_lt_upper_bound; lia).
    assert (Hb : (i mod nCr m < nCr m)%nat)
      by (apply Nat.mod_upper_bound; lia).
    rewrite (dz_row (nCz m) (i / nCr m) _ Hq).
    rewrite !nth_edge, !nth_rigid_rotation by (unfold nNz; fold (nCz m); lia).
    lra.
  - apply map_seq_constant_from. intros i Hi.
    rewrite Hrow by (unfold nF; lia).
    rewrite (proj2 (Nat.ltb_ge i (nCz m * nCr m))) by lia.
    set (i' := (i - nCz m * nCr m)%nat).
    assert (Hi' : (i' < nNz m * nCr m)%nat) by (subst i'; lia).
    replace (nE m) with (ncols (kron (eye (nNz m))
                                    (spdiags (minus_plus_ones (nCr m + 1))
                                             [(-1)%Z; 0%Z] (nCr m) (nCr m))))
      by (cbn [kron ncols spdiags eye]; rewrite <- E1;
          unfold nNz, nCz; reflexivity).
    rewrite (kron_eye_l_row (nNz m) _
               (fun j => nth j (edge m ndgrid) 0
                         * nth j (rigid_rotation m a) 0) i')
      by (cbn [nrows spdiags]; exact Hi').
    cbn [ncols nrows spdiags].
    assert (Hq : (i' / nCr m < nNz m)%nat)
      by (apply Nat.Div0.div_lt_upper_bound; lia).
    assert (Hb : (i' mod nCr m < nCr m)%nat)
      by (apply Nat.mod_upper_bound; lia).
    rewrite (dr_row (nCr m) (i' mod nCr m) _ Hb).
    replace i with (nCz m * nCr m + (i' / nCr m * nCr m + i' mod nCr m))%nat
      at 1
      by (subst i'; pose proof (Nat.div_mod_eq (i - nCz m * nCr m) (nCr m));
          lia).
    rewrite nth_area_z by assumption.
    rewrite nth_annulus by assumption.
    pose proof (annulus_pos m Hr) as Hpos.
    assert (Hin : (i' mod nCr m < length (annulus m))%nat)
      by (rewrite length_annulus; exact Hb).
    pose proof (proj1 (Forall_forall _ _) Hpos _ (nth_In _ 0 Hin)) as Hp.
    cbv beta in Hp. rewrite nth_annulus in Hp by assumption.
    rewrite nth_edge, nth_rigid_rotation by assumption.
    destruct (i' mod nCr m) as [|k] eqn:Ek.
    + match goal with
      | |- 1 / ?D * ?N = _ =>
          replace N with (2 * a * D) by ring;
          set (d := D) in *; clearbody d; field; lra
      end.
    + rewrite nth_edge, nth_rigid_rotation by (try assumption; lia).
      match goal with
      | |- 1 / ?D * ?N = _ =>
          replace N with (2 * a * D) by ring;
          set (d := D) in *; clearbody d; field; lra
      end.
Qed.

(** The curl is the circulation over the area.  With the grid points
    listed radius first, on a mesh with positive widths and at least one
    radial cell, [edgeCurl] applied to any edge field gives, on every face,
    a value whose product with the area of the face is the circulation
    around the face: on the r-face between two nodes, the circulation of
    the lower edge minus that of the upper edge; on a z-face, the
    circulation of its outer edge minus that of its inner edge, and on the
    innermost z-faces that of the outer edge alone. *)
Theorem edgeCurl_is_circulation_over_area (e : list R) :
  valid m -> length e = nE m ->
  exists C c,
    edgeCurl m ndgrid = Ok C
    /\ matvec C e = Ok c
    /\ length c = nF m
    /\ (forall jz jr, (jz < nCz m)%nat -> (jr < nCr m)%nat ->
          nth (jz * nCr m + jr) c 0 * nth (jz * nCr m + jr) (area m) 0
          = circulation m e jz jr - circulation m e (jz + 1) jr)
    /\ (forall jz jr, (jz < nNz m)%nat -> (jr < nCr m)%nat ->
          nth (nFr m + (jz * nCr m + jr)) c 0
          * nth (nFr m + (jz * nCr m + jr)) (area m) 0
          = circulation m e jz jr
            - match jr with
              | O => 0
              | S k => circulation m e jz k
              end).
Proof.
  intros Hv He. pose proof Hv as (Hne & Hr & Hz).
  destruct edgeCurl_rows as (C & HC & Hrows & Hcols & Hrow).
  assert (Hn : (0 < nCr m)%nat).
  { unfold nCr. destruct (hr m); [congruence|simpl; lia]. }
  assert (E1 : ((nCz m + 1) * nCr m = nE m)%nat)
    by (unfold nE, nN, nNr, nNz, nCr, nCz; lia).
  assert (E3 : (nFr m = nCz m * nCr m)%nat)
    by (unfold nFr, nNr, nCr, nCz; lia).
  assert (E4 : (nF m = nCz m * nCr m + nNz m * nCr m)%nat)
    by (unfold nF, nFr, nFz, nNr, nCr, nCz; lia).
  assert (Harea : forall i, (i < nF m)%nat -> nth i (area m) 0 <> 0).
  { intros i Hi. rewrite <- length_area in Hi.
    pose proof (proj1 (Forall_forall _ _) (area_pos m Hv) _
                  (nth_In _ 0 Hi)) as Hp.
    cbv beta in Hp. lra. }
  exists C. eexists. split; [exact HC|].
  unfold matvec. rewrite He, Hcols, Nat.eqb_refl.
  split; [reflexivity|]. rewrite Hrows.
  split; [now rewrite length_map, length_seq|].
  set (g := fun i => big_sum (fun j => entry C i j * nth j e 0) (nE m)).
  assert (Hg : forall i, (i < nF m)%nat ->
                 nth i (map g (seq 0 (nF m))) 0 = g i).
  { intros i Hi. rewrite (nth_map_lt g _ 0%nat 0) by (now rewrite length_seq).
    now rewrite seq_nth. }
  split.
  - intros jz jr Hjz Hjr.
    assert (Hi : (jz * nCr m + jr < nCz m * nCr m)%nat) by nia.
    rewrite Hg by lia. unfold g. rewrite Hrow by lia.
    rewrite (proj2 (Nat.ltb_lt _ _) Hi).
    replace (nE m) with (ncols (kron (spdiags (minus_plus_ones (nCz m + 1))
                                             [0%Z; 1%Z] (nCz m) (nCz m + 1))
                                    (eye (nCr m))))
      by (cbn [kron ncols spdiags eye]; exact E1).
    rewrite (kron_eye_r_row _ _
               (fun j => nth j (edge m ndgrid) 0 * nth j e 0) _ Hn).
    cbn [ncols spdiags].
    destruct (div_mod_pair jz jr (nCr m) Hjr) as [-> ->].
    rewrite (dz_row (nCz m) jz _ Hjz).
    rewrite !nth_edge by (unfold nNz; fold (nCz m); lia).
    unfold circulation. specialize (Harea (jz * nCr m + jr)%nat).
    field. apply Harea. lia.
  - intros jz jr Hjz Hjr.
    assert (Hi : (nFr m + (jz * nCr m + jr) < nF m)%nat) by nia.
    rewrite Hg by lia. unfold g. rewrite Hrow by lia.
    rewrite (proj2 (Nat.ltb_ge _ _)) by lia.
    replace (nFr m + (jz * nCr m + jr) - nCz m * nCr m)%nat
      with (jz * nCr m + jr)%nat by lia.
    replace (nE m) with (ncols (kron (eye (nNz m))
                                    (spdiags (minus_plus_ones (nCr m + 1))
                                             [(-1)%Z; 0%Z] (nCr m) (nCr m))))
      by (cbn [kron ncols spdiags eye]; rewrite <- E1;
          unfold nNz, nCz; reflexivity).
    rewrite (kron_eye_l_row (nNz m) _
               (fun j => nth j (edge m ndgrid) 0 * nth j e 0))
      by (cbn [nrows spdiags]; nia).
    cbn [ncols nrows spdiags].
    destruct (div_mod_pair jz jr (nCr m) Hjr) as [-> ->].
    rewrite (dr_row (nCr m) jr _ Hjr).
    specialize (Harea (nFr m + (jz * nCr m + jr))%nat Hi).
    unfold circulation. rewrite nth_edge by assumption.
    destruct jr as [|k].
    + field. exact Harea.
    + rewrite nth_edge by (try assumption; lia). field. exact Harea.
Qed.

End CurlOfRotation.

Section CurlExample.

Import Cyl1DMesh.

Lemma ndgrid_rows_r_fastest : r_fastest ndgrid_rows.
Proof.
  intros vr vz. unfold ndgrid_rows. cbn [nth].
  induction vz as [|z vz IH]; cbn [flat_map length repeat concat];
    [reflexivity|].
  rewrite map_app, IH, map_map. cbn [nth]. now rewrite map_id.
Qed.

Lemma edgeCurl_rigid_rotation_witness :
  exists C c,
    edgeCurl scenario_mesh ndgrid_rows = Ok C
    /\ nrows C = nF scenario_mesh /\ ncols C = nE scenario_mesh
    /\ matvec C (rigid_rotation scenario_mesh 3) = Ok c
    /\ c = repeat 0 (nFr scenario_mesh) ++ repeat (2 * 3) (nFz scenario_mesh).
Proof.
  exact (edgeCurl_rigid_rotation scenario_mesh ndgrid_rows
           ndgrid_rows_r_fastest 3 scenario_mesh_valid).
Defined.

Lemma edgeCurl_is_circulation_over_area_witness :
  exists C c,
    edgeCurl scenario_mesh ndgrid_rows = Ok C
    /\ matvec C (repeat 1 9) = Ok c
    /\ length c = nF scenario_mesh
    /\ nth (nFr scenario_mesh + 0) c 0
       * nth (nFr scenario_mesh + 0) (area scenario_mesh) 0
       = circulation scenario_mesh (repeat 1 9) 0 0 - 0.
Proof.
  destruct (edgeCurl_is_circulation_over_area scenario_mesh ndgrid_rows
              ndgrid_rows_r_fastest (repeat 1 9) scenario_mesh_valid eq_refl)
    as (C & c & HC & Hc & Hl & _ & Hz).
  exists C, c. split; [exact HC|]. split; [exact Hc|]. split; [exact Hl|].
  apply (Hz 0%nat 0%nat); cbn; lia.
Defined.

End CurlExample.

Section Uncertainty.

Import Data.

Lemma zip_with_fin (g : R -> R -> R) (op : npfloat -> npfloat -> npfloat)
      (a b : list R) :
  (forall x y, op (Fin x) (Fin y) = Fin (g x y)) ->
  zip_with op (map Fin a) (map Fin b) = map Fin (zip_with g a b).
Proof.
  intros H. revert b. induction a as [|x a IH]; intros [|y b];
    cbn [map zip_with]; try reflexivity.
  now rewrite H, IH.
Qed.

Lemma broadcast_same (op : npfloat -> npfloat -> npfloat)
      (a b : list npfloat) :
  length a = length b -> broadcast op a b = Ok (zip_with op a b).
Proof. intros H. unfold broadcast. now rewrite H, Nat.eqb_refl. Qed.

Lemma zeros_plus (p : list R) :
  zip_with (fun x y => x + y) (repeat 0 (length p)) p = p.
Proof.
  induction p as [|x p IH]; cbn [length repeat zip_with]; [reflexivity|].
  rewrite IH. f_equal. lra.
Qed.

(** The uncertainty of numbers.  When the observed data, the standard
    deviation and the noise floor are arrays of numbers of one length,
    [uncertainty] returns, entry by entry,
    [standard_deviation * |dobs| + noise_floor], which is at least the
    noise floor wherever the standard deviation is not negative; with the
    noise floor alone it returns the noise floor; with neither it raises,
    whatever the data. *)
Theorem uncertainty_of_numbers (self : t) (d s f : list R) :
  dobs self = Some (map Fin d) ->
  noise_floor self = Some (UArray (map Fin f)) ->
  length s = length d -> length f = length d ->
  (standard_deviation self = Some (UArray (map Fin s)) ->
   exists u,
     uncertainty self = Ok (map Fin u)
     /\ length u = length d
     /\ forall k, (k < length d)%nat ->
          nth k u 0 = nth k s 0 * Rabs (nth k d 0) + nth k f 0
          /\ (0 <= nth k s 0 -> nth k f 0 <= nth k u 0))
  /\ (standard_deviation self = None ->
      uncertainty self = Ok (map Fin f))
  /\ (forall other : t,
        standard_deviation other = None -> noise_floor other = None ->
        exists msg, uncertainty other = Raise (Exception msg)).
Proof.
  intros Hd Hf Ls Lf. split; [|split].
  - intros Hs. unfold uncertainty, nD. rewrite Hs, Hf, Hd. cbn [bind].
    rewrite length_map. unfold uncert_times, plus_uncert.
    rewrite map_map.
    replace (map (fun x => fabs (Fin x)) d) with (map Fin (map Rabs d))
      by (now rewrite map_map).
    rewrite broadcast_same
      by (repeat first [rewrite length_map | rewrite length_zip_with
                         | rewrite repeat_length]; lia).
    rewrite (zip_with_fin Rmult) by reflexivity. cbn [bind].
    replace (repeat (Fin 0) (length d)) with (map Fin (repeat 0 (length d)))
      by (now rewrite map_repeat).
    rewrite broadcast_same
      by (repeat first [rewrite length_map | rewrite length_zip_with
                         | rewrite repeat_length]; lia).
    rewrite (zip_with_fin Rplus) by reflexivity. cbn [bind].
    rewrite broadcast_same
      by (repeat first [rewrite length_map | rewrite length_zip_with
                         | rewrite repeat_length]; lia).
    rewrite (zip_with_fin Rplus) by reflexivity. cbn [bind].
    eexists. split; [reflexivity|]. split.
    + repeat first [rewrite length_map | rewrite length_zip_with
                   | rewrite repeat_length].
      lia.
    + intros k Hk.
      assert (Lp : length (zip_with Rmult s (map Rabs d)) = length d)
        by (rewrite length_zip_with, length_map; lia).
      rewrite <- Lp, zeros_plus.
      rewrite (nth_zip_with _ _ _ 0 0) by lia.
      rewrite (nth_zip_with _ _ _ 0 0) by (rewrite ?length_map; lia).
      rewrite (nth_map_lt Rabs d 0 0) by lia.
      split; [reflexivity|]. intros H0.
      pose proof (Rabs_pos (nth k d 0)). nra.
  - intros Hs. unfold uncertainty, nD. rewrite Hs, Hf, Hd. cbn [bind].
    rewrite length_map. unfold plus_uncert.
    replace (repeat (Fin 0) (length d)) with (map Fin (repeat 0 (length d)))
      by (now rewrite map_repeat).
    rewrite broadcast_same
      by (repeat first [rewrite length_map | rewrite length_zip_with
                         | rewrite repeat_length]; lia).
    rewrite (zip_with_fin Rplus) by reflexivity. cbn [bind].
    rewrite <- Lf, zeros_plus. reflexivity.
  - intros other Hs Hn. unfold uncertainty. rewrite Hs, Hn.
    eexists. reflexivity.
Qed.

Lemma uncertainty_of_numbers_witness :
  exists u,
    uncertainty {| dobs := Some (map Fin [3; -4]);
                   standard_deviation := Some (UArray (map Fin [1; 2]));
                   noise_floor := Some (UArray (map Fin [5; 6]));
                   survey := None;
                   _data_dict := None |}
    = Ok (map Fin u)
    /\ length u = 2%nat
    /\ nth 1 u 0 = nth 1 [1; 2] 0 * Rabs (nth 1 [3; -4] 0) + nth 1 [5; 6] 0.
Proof.
  destruct (proj1 (uncertainty_of_numbers
                     {| dobs := Some (map Fin [3; -4]);
                        standard_deviation := Some (UArray (map Fin [1; 2]));
                        noise_floor := Some (UArray (map Fin [5; 6]));
                        survey := None;
                        _data_dict := None |}
                     [3; -4] [1; 2] [5; 6] eq_refl eq_refl eq_refl eq_refl)
              eq_refl) as (u & Hu & Hl & Hk).
  exists u. split; [exact Hu|]. split; [exact Hl|].
  exact (proj1 (Hk 1%nat ltac:(cbn; lia))).
Defined.

End Uncertainty.

(** * The forward derivative is additive *)

Section AdditiveOperations.

Lemma nth_vadd_total (a b : cvec) (j : nat) :
  length a = length b ->
  nth j (a [+] b) C0 = Cadd (nth j a C0) (nth j b C0).
Proof.
  revert b j. induction a as [|x a IH]; intros [|y b] j H; try discriminate.
  - destruct j; cbn [vadd zip_with nth]; cunfold; f_equal; lra.
  - destruct j as [|j]; [reflexivity|]. cbn [vadd zip_with nth].
    apply IH. simpl in H. lia.
Qed.

Lemma zip_with_map_same {A X : Type} (op : X -> X -> X) (g h : A -> X)
      (l : list A) :
  zip_with op (map g l) (map h l) = map (fun i => op (g i) (h i)) l.
Proof. induction l as [|x l IH]; cbn [map zip_with]; [|rewrite IH]; auto. Qed.

Lemma mulPC_add (P : spmatrix) (a b : cvec) :
  length a = length b ->
  mulPC P (a [+] b) = mulPC P a [+] mulPC P b.
Proof.
  intros H. unfold mulPC. unfold vadd at 3. rewrite zip_with_map_same.
  apply map_ext. intros i. unfold Cadd, Cre, Cim. cbn [fst snd].
  rewrite <- !big_sum_plus.
  f_equal; apply big_sum_ext; intros j _; rewrite (nth_vadd_total a b j H);
    unfold Cadd, Cre, Cim; cbn [fst snd]; ring.
Qed.

Lemma vdivr_add (a b : cvec) (r : R) :
  vdivr (a [+] b) r = vdivr a r [+] vdivr b r.
Proof.
  revert b. induction a as [|x a IH]; intros [|y b]; try reflexivity.
  cbn [vadd vdivr zip_with map]. fold (vadd a b) (vdivr (vadd a b) r).
  fold (vdivr a r) (vdivr b r). fold (vadd (vdivr a r) (vdivr b r)).
  rewrite IH. f_equal. destruct x, y. cunfold. f_equal; unfold Rdiv; ring.
Qed.

Lemma getattr_add (a b : cvec) (c : RxNSEM.component_t) :
  RxNSEM.getattr (a [+] b) c
  = zip_with Rplus (RxNSEM.getattr a c) (RxNSEM.getattr b c).
Proof.
  unfold RxNSEM.getattr, vadd. destruct c.
  - revert b. induction a as [|x a IH]; intros [|y b]; try reflexivity.
    cbn [zip_with map]. now rewrite IH.
  - revert b. induction a as [|x a IH]; intros [|y b]; try reflexivity.
    cbn [zip_with map]. now rewrite IH.
Qed.

End AdditiveOperations.

(** The vectors the forward derivative in two directions is made of. *)
Ltac field_vectors2 self src mesh f v w :=
  constr:([RxNSEM._Hd self src mesh f;
           RxNSEM._ex_px self src mesh f; RxNSEM._ex_py self src mesh f;
           RxNSEM._ey_px self src mesh f; RxNSEM._ey_py self src mesh f;
           RxNSEM._hx_px self src mesh f; RxNSEM._hx_py self src mesh f;
           RxNSEM._hy_px self src mesh f; RxNSEM._hy_py self src mesh f;
           RxNSEM._hz_px self src mesh f; RxNSEM._hz_py self src mesh f;
           RxNSEM._hx_num_px self src mesh f;
           RxNSEM._hx_num_py self src mesh f;
           RxNSEM._hy_num_px self src mesh f;
           RxNSEM._hy_num_py self src mesh f;
           RxNSEM._ex_px_u self src mesh f v;
           RxNSEM._ex_py_u self src mesh f v;
           RxNSEM._ey_px_u self src mesh f v;
           RxNSEM._ey_py_u self src mesh f v;
           RxNSEM._hx_px_u self src mesh f v;
           RxNSEM._hx_py_u self src mesh f v;
           RxNSEM._hy_px_u self src mesh f v;
           RxNSEM._hy_py_u self src mesh f v;
           RxNSEM._hz_px_u self src mesh f v;
           RxNSEM._hz_py_u self src mesh f v;
           RxNSEM._hx_num_px_u self src mesh f v;
           RxNSEM._hx_num_py_u self src mesh f v;
           RxNSEM._hy_num_px_u self src mesh f v;
           RxNSEM._hy_num_py_u self src mesh f v;
           RxNSEM._ex_px_u self src mesh f w;
           RxNSEM._ex_py_u self src mesh f w;
           RxNSEM._ey_px_u self src mesh f w;
           RxNSEM._ey_py_u self src mesh f w;
           RxNSEM._hx_px_u self src mesh f w;
           RxNSEM._hx_py_u self src mesh f w;
           RxNSEM._hy_px_u self src mesh f w;
           RxNSEM._hy_py_u self src mesh f w;
           RxNSEM._hz_px_u self src mesh f w;
           RxNSEM._hz_py_u self src mesh f w;
           RxNSEM._hx_num_px_u self src mesh f w;
           RxNSEM._hx_num_py_u self src mesh f w;
           RxNSEM._hy_num_px_u self src mesh f w;
           RxNSEM._hy_num_py_u self src mesh f w]).

Section ForwardAdditive.

Import RxNSEM.

Context {Src : Type}.
Variable self : Rx.
Variable src : Src.
Variable mesh : BaseMesh.
Variable f : Fields Src.
Variable nU : nat.

Hypothesis additive : additive_fields f src nU.

Lemma forward_additive (P : spmatrix) (D : cvec -> bool -> cvec)
      (v w : cvec) :
  additive_forward nU D -> length v = nU -> length w = nU ->
  mulPC P (D (v [+] w) false)
  = mulPC P (D v false) [+] mulPC P (D w false).
Proof.
  intros [[k Hk] Hadd] Hv Hw. rewrite Hadd by assumption.
  apply mulPC_add. now rewrite !Hk.
Qed.

Lemma derivatives_additive (v w : cvec) :
  length v = nU -> length w = nU ->
  _ex_px_u self src mesh f (v [+] w)
  = _ex_px_u self src mesh f v [+] _ex_px_u self src mesh f w
  /\ _ey_px_u self src mesh f (v [+] w)
     = _ey_px_u self src mesh f v [+] _ey_px_u self src mesh f w
  /\ _ex_py_u self src mesh f (v [+] w)
     = _ex_py_u self src mesh f v [+] _ex_py_u self src mesh f w
  /\ _ey_py_u self src mesh f (v [+] w)
     = _ey_py_u self src mesh f v [+] _ey_py_u self src mesh f w
  /\ _hx_px_u self src mesh f (v [+] w)
     = _hx_px_u self src mesh f v [+] _hx_px_u self src mesh f w
  /\ _hy_px_u self src mesh f (v [+] w)
     = _hy_px_u self src mesh f v [+] _hy_px_u self src mesh f w
  /\ _hz_px_u self src mesh f (v [+] w)
     = _hz_px_u self src mesh f v [+] _hz_px_u self src mesh f w
  /\ _hx_py_u self src mesh f (v [+] w)
     = _hx_py_u self src mesh f v [+] _hx_py_u self src mesh f w
  /\ _hy_py_u self src mesh f (v [+] w)
     = _hy_py_u self src mesh f v [+] _hy_py_u self src mesh f w
  /\ _hz_py_u self src mesh f (v [+] w)
     = _hz_py_u self src mesh f v [+] _hz_py_u self src mesh f w
  /\ _hx_num_px_u self src mesh f (v [+] w)
     = _hx_num_px_u self src mesh f v [+] _hx_num_px_u self src mesh f w
  /\ _hy_num_px_u self src mesh f (v [+] w)
     = _hy_num_px_u self src mesh f v [+] _hy_num_px_u self src mesh f w
  /\ _hx_num_py_u self src mesh f (v [+] w)
     = _hx_num_py_u self src mesh f v [+] _hx_num_py_u self src mesh f w
  /\ _hy_num_py_u self src mesh f (v [+] w)
     = _hy_num_py_u self src mesh f v [+] _hy_num_py_u self src mesh f w
  /\ _ex_u self src mesh f (v [+] w)
     = _ex_u self src mesh f v [+] _ex_u self src mesh f w
  /\ _hx_u self src mesh f (v [+] w)
     = _hx_u self src mesh f v [+] _hx_u self src mesh f w.
Proof.
  intros Hv Hw.
  destruct additive as (A1 & A2 & A3 & A4 & A5 & A6).
  unfold_derivs.
  repeat split;
    rewrite ?(forward_additive _ _ v w A1 Hv Hw),
      ?(forward_additive _ _ v w A2 Hv Hw),
      ?(forward_additive _ _ v w A3 Hv Hw),
      ?(forward_additive _ _ v w A4 Hv Hw),
      ?(forward_additive _ _ v w A5 Hv Hw),
      ?(forward_additive _ _ v w A6 Hv Hw), ?vdivr_add;
    reflexivity.
Qed.

(** One orientation of a 3D class: the branch is selected and the
    derivatives of the sum are split; what is left is an equation between
    combinations of the same vectors. *)
Ltac additive_case v w D :=
  string_tests; cbv iota; cbn [as_complex bind];
  eexists; eexists;
  split; [reflexivity|]; split; [reflexivity|];
  rewrite <- getattr_add;
  apply (f_equal (fun x => Ok (RealArr (getattr x (component self)))));
  rewrite ?vadd_vsub_scalar; unfold _Hd_uV;
  destruct D as (D1 & D2 & D3 & D4 & D5 & D6 & D7 & D8 & D9 & D10 & D11
                 & D12 & D13 & D14 & _ & _);
  rewrite ?D1, ?D2, ?D3, ?D4, ?D5, ?D6, ?D7, ?D8, ?D9, ?D10, ?D11, ?D12,
    ?D13, ?D14;
  let env := field_vectors2 self src mesh f v w in vec_ring env.

(** The forward derivative is additive.  With derivatives of the fields
    that are additive on the model space, on every receiver class and for
    every orientation the class has a formula for, [evalDeriv] of a sum of
    two model vectors is the sum of the two [evalDeriv]s. *)
Theorem evalDeriv_forward_additive (cls : rx_class) (v w : cvec) :
  In (orientation self) (handled_orientations cls) ->
  length v = nU -> length w = nU ->
  exists dv dw,
    evalDeriv cls self src mesh f v false = Ok (RealArr dv)
    /\ evalDeriv cls self src mesh f w false = Ok (RealArr dw)
    /\ evalDeriv cls self src mesh f (v [+] w) false
       = Ok (RealArr (zip_with Rplus dv dw)).
Proof.
  intros Hin Hv Hw.
  pose proof (derivatives_additive v w Hv Hw) as D.
  destruct cls; cbn [handled_orientations orientation_choices In] in Hin.
  - clear Hin. eexists. eexists.
    cbn [evalDeriv]. unfold Point_impedance1D_evalDeriv,
      Point_impedance1D_eval, as_complex. cbn [bind].
    split; [reflexivity|]. split; [reflexivity|].
    rewrite <- getattr_add.
    apply (f_equal (fun x => Ok (RealArr (getattr x (component self))))).
    destruct D as (_ & _ & _ & _ & _ & _ & _ & _ & _ & _ & _ & _ & _ & _
                   & D15 & D16).
    rewrite D15, D16.
    vec_ring [Point_impedance1D_Hd self src mesh f; _ex self src mesh f;
              _ex_u self src mesh f v; _ex_u self src mesh f w;
              _hx_u self src mesh f v; _hx_u self src mesh f w].
  - cbn [evalDeriv].
    unfold Point_impedance3D_evalDeriv, Point_impedance3D_eval,
      Point_impedance3D_ZijN_uV, Point_impedance3D_Zij.
    repeat (destruct Hin as [Ho|Hin]; [|]); try contradiction;
      rewrite <- Ho; additive_case v w D.
  - cbn [evalDeriv].
    unfold Point_tipper3D_evalDeriv, Point_tipper3D_eval,
      Point_tipper3D_TijN_uV, Point_tipper3D_Tij.
    repeat (destruct Hin as [Ho|Hin]; [|]); try contradiction;
      rewrite <- Ho; additive_case v w D.
  - cbn [evalDeriv].
    unfold Point_horizontalmagvar3D_evalDeriv, Point_horizontalmagvar3D_eval,
      Point_horizontalmagvar3D_MijN_uV, Point_horizontalmagvar3D_Mij.
    repeat (destruct Hin as [Ho|Hin]; [|]); try contradiction;
      rewrite <- Ho; additive_case v w D.
Qed.

End ForwardAdditive.

Section ForwardAdditiveExample.

Import RxNSEM.

Lemma matrix_deriv_additive (M : spmatrix) (nU : nat) :
  additive_forward nU (matrix_deriv M).
Proof.
  unfold additive_forward, matrix_deriv. split.
  - exists (nrows M). intros v _. apply length_mulPC.
  - intros v w Hv Hw. apply mulPC_add. now rewrite Hv, Hw.
Qed.

Lemma example_fields_additive (nU : nat) :
  additive_fields example_fields tt nU.
Proof.
  unfold additive_fields, example_fields, example_fields_with.
  cbn [_e_pxDeriv_u _e_pyDeriv_u _b_pxDeriv_u _b_pyDeriv_u _eDeriv_u
       _bDeriv_u].
  repeat split; apply matrix_deriv_additive.
Qed.

Lemma evalDeriv_forward_additive_witness :
  exists dv dw,
    evalDeriv Point_horizontalmagvar3D (example_rx_pair "xy" real) tt
              example_mesh example_fields [C1; Ci] false = Ok (RealArr dv)
    /\ evalDeriv Point_horizontalmagvar3D (example_rx_pair "xy" real) tt
                 example_mesh example_fields [Ci; C0] false = Ok (RealArr dw)
    /\ evalDeriv Point_horizontalmagvar3D (example_rx_pair "xy" real) tt
                 example_mesh example_fields ([C1; Ci] [+] [Ci; C0]) false
       = Ok (RealArr (zip_with Rplus dv dw)).
Proof.
  apply (evalDeriv_forward_additive (example_rx_pair "xy" real) tt
           example_mesh example_fields 2 (example_fields_additive 2)
           Point_horizontalmagvar3D [C1; Ci] [Ci; C0]).
  - simpl. tauto.
  - reflexivity.
  - reflexivity.
Defined.

End ForwardAdditiveExample.
